(* ===== verification/_CoqProject ===== *)
-Q . S2P
Prelude.v
Cxx.v
Config.v
Tokenizer.v
Parser.v
Refinement.v
Grammar.v
Ownership.v
Console.v
Base64.v
Http.v
Mime.v
RequestParser.v
Storage.v
Handlers.v
Api.v
Logger.v
Dispatcher.v
Faults.v
Session.v
SessionCases.v
Server.v
World.v
Endings.v
Metrics.v
Isolation.v
Silence.v
Framing.v
Scheduler.v
History.v
Guarantees.v
Instances.v
Examples.v
Runs.v
ConfigTheorems.v
ApiTheorems.v
DispatchTheorems.v
SessionTheorems.v
ServerTheorems.v
WorldTheorems.v
IsolationTheorems.v
ClientTheorems.v
