(* ===== verification/Prelude.v ===== *)
(** * A development of the swifties web server

    The program ([src/src/]) is an HTTP server in C++: it reads an nginx-like
    configuration file, listens on the port it names, and for every connection
    reads a request, checks its Basic authentication and lets the handler
    registered for the target fill in the response.  The development models
    all of its own code as executable functions and step relations, and proves
    what makes each part correct, or what it does instead; then it composes
    the parts into the running server and proves what holds of every run.

    ** Foundations
    - This file: byte strings ([str], lists of [ascii]), the monad [outcome]
      of values and faults (undefined behaviour, or the end of the program by
      an exception that leaves a [noexcept] function), bounded loops
      ([iter_pow2]), [eventually] on step relations, automation.
    - [Cxx]: what the code uses of C++ and its library: [int], [short] and
      [unsigned short] with their conversions, [std::string], [atoi],
      [std::to_string], the order of [std::map].

    ** The configuration ([config_parser.h], [config_parser.cc])
    - [Config]: the tree [NginxConfig], [ToString], [get_config_port],
      [get_auth_time], [get_credentials].
    - [Tokenizer]: [ParseToken] over a stream with [good], [get], [unget], and
      the reference scanner.
    - [Parser]: [Parse] as it is written, on a store of configuration objects,
      raw pointers and a stack; the abstract parser on a zipper of trees.
    - [Refinement]: the representation relation and the simulation.
    - [Grammar]: the language of the abstract parser; printing; the tokens of
      a text without backslashes.
    - [Ownership]: the typing of the store: the objects [Parse] leaves are a
      tree of [unique_ptr]s, on every input.
    - [Console]: what [Parse] prints.
    - [ConfigTheorems]: the tokenizer is the scanner; [Parse] is the abstract
      parser, without faults, and its store is well typed; what it accepts;
      printing then parsing, and parsing then printing; what goes to the
      console; the search for the port and the time; where the credentials
      come from, and the only fault.

    ** The handlers and their storage ([http/], [api/], [request_handler/])
    - [Http]: Boost.Beast as the class [BeastHttp] with the laws
      [BeastHttpLaws], and [BeastHeaderLaws] for the parser as the session
      uses it; [observed] is what a client sees of a response.
    - [Mime], [RequestParser]: [mime_types.cc], [request_parser.cc].
    - [Storage]: [FileStorage] and [CRUDHandler] over the class [FileSystem];
      the class [CrudLaws] is what [ICRUDHandler] promises.
    - [Handlers]: the static, echo, health, sleep and 404 handlers.
    - [Api]: the API handler over any [ICRUDHandler], and the abstract
      specification [api_step] of its five requests.
    - [ApiTheorems]: [CRUDHandler] keeps the promise; the API handler refines
      its specification along any sequence of requests; the shape of every
      response; what the static handler serves and when it ends the program.

    ** Dispatcher, session, server
    - [Logger]: [logger.cc]: the records of the methods, the singleton.
    - [Dispatcher]: [request_handler_dispatcher.cc]: registration, the choice
      of a handler, the constructors and names of the handlers, and their
      specification [dispatch_table] and
      [longest_prefix].
    - [Faults]: every handler ends on every file system; the faults it can
      have.
    - [Base64], [Session]: [session.cc]: the decoder, authentication, expiry,
      the two callbacks, and [conn_step], in which the completions of the
      operations in flight are interleaved.
    - [SessionCases]: the specification of the session, up to its log: sessions
      that differ in their logs only are equivalent ([≡]), every operation is
      proper for that, and so is the result of the read callback.
    - [Server]: [server.cc], [server_main.cc]: the accept loop and [main].
    - [DispatchTheorems], [SessionTheorems], [ServerTheorems]: the table and
      its faults; the longest prefix; decoding against a bit-stream
      specification; who is authenticated; that no request reaches a handler
      without credentials; when the read callback fails; the operations in
      flight, the life of a connection, and the reachable state with two
      writes; what a late request does; the start of [main], its exit codes, and the
      authentication time in a [short].

    ** The running server
    - [World]: the server, all its connections, the file system they share,
      the log, the clock and the clients still to come; [world_step] runs the
      callback of any operation in flight ([io_service.run]) or the handler of
      SIGINT.  [serial] is the abstract server, which handles one request at a
      time.
    - [Endings]: what ends the program; servers that serve nobody; the measure
      by which the event loop comes to rest.
    - [Metrics]: the records of [logResponse] against the history.
    - [Isolation]: what the first read of a connection decides.
    - [Silence]: a run is compared, step by step, with one in which a client
      sends nothing ([alike]); the steps of its connection are skipped.
    - [Framing]: the form of the responses: statuses, Content-Length, version
      and content type ([framed], [well_handled]).
    - [History]: the abstract API along the requests of all connections;
      [Guarantees]: the same from a client's point of view, and the reader of
      the list of ids.
    - [Scheduler]: [complete] computes the next world from what the operating
      system decides (which operation completes, with which error, when), and
      is exactly [world_step]; the examples run on it.
    - [Runs]: the worlds of the program, and a concrete one with two clients.
    - [WorldTheorems]: the running server refines the serial one; its clients
      see one table of entities; only an incomplete message, the handler of an
      authenticated request or SIGINT can end the program; a server without
      credentials, or with a time that does not fit the [short], serves
      nobody; what a delivered response answers; on every schedule the event
      loop comes to rest and every response is delivered or its write fails;
      every response is well formed; when the first request of a client is
      late.
    - [IsolationTheorems]: a client without a served request neither learns
      nor disturbs anything as long as the program runs; the first read of a
      connection decides which request it can ever have answered.
    - [ClientTheorems]: an entity that was created stays until a request
      changes it; the list of ids; the metrics of the log are the history.
    - [Instances]: concrete requests and responses with a small HTTP/1 parser
      (one that reads bodies, and one that stops after the header, as the
      session uses the parser of Boost.Beast), a file system in memory and
      decimal conversion, which satisfy the laws; [Examples]: a concrete
      connection, on which the examples run.

    ** Undefined behaviour
    Undefined behaviour is a [fault]; a world in which a callback has one is
    down ([Crashed]), and nothing is said of what the program does then.  The
    read callback has one that any client can cause: when the parser needs
    more input it starts a read and reaches its end without a [return]
    ([MissingReturn]).  With [put] as the session calls it, this is so for
    every request with a body.  Two writes at once on a socket violate the
    contract of [async_write], and a session can start them after a late
    request ([two_writes_in_flight]); the model lets them complete one after
    the other, each sending the response object of that moment, and the
    theorems about delivery are about connections with one write.

    ** Fuel
    [ParseToken] and [Parse] take as fuel one more than the bytes to come: a
    token other than the last consumes a byte, and [OutOfFuel] is proved
    unreachable.  The loops over the ids of an entity run at most [2^31]
    times, which is more than the values of the counter from 1 on; they stop
    at the first free id or when the counter overflows.  [load_config], which
    reads a tree off the store, takes the number of objects allocated.

    ** Time and concurrency
    The clock is an argument in nanoseconds.  The server runs on one thread;
    the event loop is the choice of the next completion in [conn_step] (one
    connection) and [world_step] (the whole server).  A read that succeeds
    transfers 1 to 4096 bytes; reads, writes and accepts may complete with an
    error at any time.  What a write sends is the response at the time the write
    completes, since [async_write] keeps a reference to it.  SIGINT is handled
    between two callbacks; it exits with 1.

    ** Not modelled
    Output to the console other than that of [Parse] and of the logger (the
    [std::cout] lines of the handlers); the sleep of five seconds; a SIGINT in
    the middle of a callback;
    the internals of the third-party libraries; failures of allocation.  No
    step of [world_step] is the work of a kernel: bytes still under way when
    the socket is shut down may or may not arrive.  [std::isdigit] on a byte above 127 is
    [false], as the C locale has it. *)

From Stdlib Require Export Ascii ZArith Lia.
From stdpp Require Export base tactics option numbers gmap strings list.

(** ** Byte strings

    A [std::string] is a sequence of bytes: [str] is a list of [ascii] (an
    [ascii] is a byte), so the list library applies to it.  Literals are
    written in [str_scope]. *)
Abbreviation str := (list ascii).

Definition str_of_literal (s : string) : list Byte.byte :=
  String.list_byte_of_string s.

Definition literal_of_str (l : list Byte.byte) : string :=
  String.string_of_list_byte l.

Declare Scope str_scope.
Delimit Scope str_scope with str.

#[warnings="-via-type-mismatch"]
String Notation list literal_of_str str_of_literal
  (via string mapping [[nil] => EmptyString, [cons] => String]) : str_scope.

(** Characters that cannot be written plainly inside a literal. *)
Definition NL : ascii := "010"%char.
Definition TAB : ascii := "009"%char.
Definition CR : ascii := "013"%char.
Definition DQUOTE : ascii := "034"%char.
Definition SQUOTE : ascii := "039"%char.
Definition BACKSLASH : ascii := "092"%char.

(** ** Outcomes

    The result of running C++ code: a value, or a fault after which the
    program has no further defined behaviour (or is terminated).  Exceptions
    that the code catches are ordinary values of the operation at hand. *)
Inductive fault : Type :=
  | NullDereference      (* [->] on a null [unique_ptr] / [shared_ptr] *)
  | VectorOutOfRange     (* [v[i]] or [v.back()] outside the vector *)
  | IntegerOverflow      (* signed overflow, or [atoi] out of [int] *)
  | StringOutOfRange     (* [std::out_of_range] from [substr], uncaught *)
  | MissingReturn        (* the end of a function that returns a value is reached *)
  | Terminated           (* an exception leaves a [noexcept] function *)
  | OutOfFuel.           (* the fuel of a loop of the model ran out *)

#[export] Instance fault_eq_dec : EqDecision fault.
Proof. unfold EqDecision, Decision. decide equality. Defined.

Inductive outcome (A : Type) : Type :=
  | Ok (a : A)
  | Fault (f : fault).
Arguments Ok {A} a.
Arguments Fault {A} f.

#[export] Instance outcome_eq_dec {A} `{EqDecision A} : EqDecision (outcome A).
Proof. solve_decision. Defined.

#[export] Instance outcome_ret : MRet outcome := fun A a => Ok a.
#[export] Instance outcome_bind : MBind outcome := fun A B f m =>
  match m with Ok a => f a | Fault e => Fault e end.
#[export] Instance outcome_fmap : FMap outcome := fun A B f m =>
  match m with Ok a => Ok (f a) | Fault e => Fault e end.

Definition is_ok {A} (m : outcome A) : Prop := exists a, m = Ok a.

(** Dereference of a pointer and access to an element of a vector. *)
Definition deref {A} (p : option A) : outcome A :=
  match p with Some a => Ok a | None => Fault NullDereference end.

Definition vec_at {A} (v : list A) (i : nat) : outcome A :=
  match v !! i with Some a => Ok a | None => Fault VectorOutOfRange end.

(** ** Loops

    [iter_pow2 n step s] runs [step] at most [2^n] times, stopping at the
    first [inr]; it only evaluates the iterations the loop performs.  It is
    the fuel of the loops over the values of a machine integer. *)
Fixpoint iter_pow2 {S R : Type} (n : nat) (step : S -> S + R) (s : S) : S + R :=
  match n with
  | O => step s
  | S n' =>
      match iter_pow2 n' step s with
      | inl s' => iter_pow2 n' step s'
      | inr r => inr r
      end
  end.

(** The same loop with unary fuel, the form the proofs use. *)
Fixpoint iter_nat {S R : Type} (n : nat) (step : S -> S + R) (s : S) : S + R :=
  match n with
  | O => inl s
  | Datatypes.S n' =>
      match step s with
      | inl s' => iter_nat n' step s'
      | inr r => inr r
      end
  end.

(** ** Automation *)
Create HintDb swifties.

(** Runs the program past an operation whose result is known. *)
Ltac run_ok := cbn [mbind outcome_bind negb].
Ltac run_ok_in H := cbn [mbind outcome_bind negb] in H.

(** ** Lemmas on outcomes *)
Section outcomes.
Context {A B : Type}.

Lemma is_ok_Ok (a : A) : is_ok (Ok a).
Proof. by exists a. Qed.
End outcomes.

#[export] Hint Resolve is_ok_Ok : swifties.

(** ** Lemmas on loops *)
Section loops.
Context {S R : Type} (step : S -> S + R).

Lemma iter_nat_add m n s :
  iter_nat (m + n) step s =
  match iter_nat m step s with
  | inl s' => iter_nat n step s'
  | inr r => inr r
  end.
Proof.
  revert s. induction m as [|m IH]; intros s; simpl; [done|].
  destruct (step s); [apply IH|done].
Qed.

Lemma iter_pow2_nat n s : iter_pow2 n step s = iter_nat (2 ^ n) step s.
Proof.
  revert s. induction n as [|n IH]; intros s.
  - simpl. by destruct (step s).
  - change (2 ^ Datatypes.S n) with (2 ^ n + (2 ^ n + 0)).
    rewrite Nat.add_0_r, iter_nat_add. simpl. rewrite IH.
    destruct (iter_nat _ _ _); [apply IH|done].
Qed.

(** A loop that goes through the states [f 0], ..., [f m] and stops at the
    last one returns its result, provided there is fuel for [m + 1] steps. *)
Lemma iter_nat_trace (f : nat -> S) m n r :
  (forall i, i < m -> step (f i) = inl (f (Datatypes.S i))) ->
  step (f m) = inr r ->
  m < n ->
  iter_nat n step (f 0) = inr r.
Proof.
  revert f n. induction m as [|m IH]; intros f n Hi Hm Hn;
    (destruct n as [|n]; [lia|]); simpl.
  - by rewrite Hm.
  - rewrite (Hi 0) by lia.
    apply (IH (fun i => f (Datatypes.S i))); [|done|lia].
    intros i Hi'. apply Hi. lia.
Qed.

Lemma iter_pow2_trace (f : nat -> S) m n r :
  (forall i, i < m -> step (f i) = inl (f (Datatypes.S i))) ->
  step (f m) = inr r ->
  (Z.of_nat m < 2 ^ Z.of_nat n)%Z ->
  iter_pow2 n step (f 0) = inr r.
Proof.
  intros Hi Hm Hn. rewrite iter_pow2_nat.
  apply (iter_nat_trace f m); [done..|].
  apply Nat2Z.inj_lt. rewrite Nat2Z.inj_pow. done.
Qed.

(** A loop whose steps keep [I] and decrease [m] stops within its fuel, in a
    state of [I]. *)
Lemma iter_nat_terminates (I : S -> Prop) (m : S -> nat) n :
  (forall s s', I s -> step s = inl s' -> I s' /\ m s' < m s) ->
  forall s, I s -> m s < n ->
  exists s' r, I s' /\ step s' = inr r /\ iter_nat n step s = inr r.
Proof.
  intros Hstep. induction n as [|n IH]; intros s Hs Hn; [lia|]. simpl.
  destruct (step s) as [s'|r] eqn:E; [|by exists s, r].
  destruct (Hstep s s' Hs E) as [Hs' Hlt]. apply IH; [done|lia].
Qed.

Lemma iter_pow2_terminates (I : S -> Prop) (m : S -> nat) n s :
  (forall s s', I s -> step s = inl s' -> I s' /\ m s' < m s) ->
  I s -> (Z.of_nat (m s) < 2 ^ Z.of_nat n)%Z ->
  exists s' r, I s' /\ step s' = inr r /\ iter_pow2 n step s = inr r.
Proof.
  intros Hstep Hs Hn. rewrite iter_pow2_nat. apply (iter_nat_terminates I m); [done..|].
  apply Nat2Z.inj_lt. by rewrite Nat2Z.inj_pow.
Qed.
End loops.


(** ** Sums *)
Lemma sum_list_with_insert {A} (f : A -> nat) (l : list A) i x y :
  l !! i = Some x ->
  sum_list_with f (<[i := y]> l) + f x = sum_list_with f l + f y.
Proof.
  revert i. induction l as [|z l IH]; intros [|i] Hi; simplify_eq/=; [lia|].
  specialize (IH i Hi). lia.
Qed.

(** ** Step relations

    [eventually R P s]: on every run of [R] from [s] a state of [P] is met;
    no run stops or goes on for ever before. *)
Inductive eventually {S : Type} (R : S -> S -> Prop) (P : S -> Prop) : S -> Prop :=
  | eventually_now s : P s -> eventually R P s
  | eventually_later s :
      (exists s', R s s') -> (forall s', R s s' -> eventually R P s') -> eventually R P s.

(** Progress, and a measure that every step decreases. *)
Lemma eventually_measure {S : Type} (R : S -> S -> Prop) (P I : S -> Prop) (m : S -> nat) :
  (forall s, I s -> P s \/
     (exists s', R s s') /\ forall s', R s s' -> I s' /\ m s' < m s) ->
  forall s, I s -> eventually R P s.
Proof.
  intros Hstep. enough (forall n s, m s < n -> I s -> eventually R P s) as Hn.
  { intros s. by apply (Hn (Datatypes.S (m s))), Nat.lt_succ_diag_r. }
  induction n as [|n IH]; intros s Hlt Hs; [lia|].
  destruct (Hstep s Hs) as [Hp|[Hex Hall]]; [by apply eventually_now|].
  apply eventually_later; [done|]. intros s' Hs'. destruct (Hall s' Hs') as [Hi Hm].
  apply IH; [lia|done].
Qed.

(** An invariant along a run. *)
Lemma rtc_invariant {S : Type} (R : S -> S -> Prop) (I : S -> Prop) s s' :
  (forall s1 s2, I s1 -> R s1 s2 -> I s2) -> I s -> rtc R s s' -> I s'.
Proof. intros Hstep Hs Hr. induction Hr as [|s1 s2 s3 H12 _ IH]; [done|]. apply IH. by eapply Hstep. Qed.
