(* ===== verification/Cxx.v ===== *)
(** * The parts of the C++ language and standard library that the code uses

    - [std::string]: [substr], [find], [find_last_of], [compare], [replace],
      [back]/[pop_back] loops, [std::map] iteration order;
    - machine integers: [int] (32 bits), [short], [unsigned short];
    - [atoi], [isdigit], [std::to_string] and [operator<<] on [int].

    [std::string::npos] is [None]; [npos + 1] is [0] (unsigned wrap-around). *)

From S2P Require Import Prelude.
Local Open Scope str_scope.

(** ** Machine integers *)
Definition INT_MAX : Z := 2147483647.
Definition INT_MIN : Z := -2147483648.

Definition in_int (z : Z) : bool := bool_decide (INT_MIN <= z <= INT_MAX)%Z.

(** Two's complement conversion to a signed type of [w] bits. *)
Definition to_signed (w : Z) (z : Z) : Z :=
  ((z + 2 ^ (w - 1)) mod 2 ^ w - 2 ^ (w - 1))%Z.

Definition to_int (z : Z) : Z := to_signed 32 z.
Definition to_short (z : Z) : Z := to_signed 16 z.
Definition to_ushort (z : Z) : Z := (z mod 2 ^ 16)%Z.

(** [++i] on an [int]. *)
Definition int_incr (i : Z) : outcome Z :=
  if bool_decide (i < INT_MAX)%Z then Ok (i + 1)%Z else Fault IntegerOverflow.

(** ** [std::string] *)

(** [s.substr(pos)] and [s.substr(pos, n)]. *)
Definition substr (s : str) (pos : nat) : outcome str :=
  if bool_decide (pos <= length s) then Ok (drop pos s)
  else Fault StringOutOfRange.

Definition substr_n (s : str) (pos n : nat) : outcome str :=
  if bool_decide (pos <= length s) then Ok (take n (drop pos s))
  else Fault StringOutOfRange.

(** [s.find(c)] and [s.find_last_of(c)]. *)
Fixpoint find_char (c : ascii) (s : str) : option nat :=
  match s with
  | [] => None
  | d :: s' => if bool_decide (d = c) then Some 0 else S <$> find_char c s'
  end.

Fixpoint find_last_of (c : ascii) (s : str) : option nat :=
  match s with
  | [] => None
  | d :: s' =>
      match find_last_of c s' with
      | Some i => Some (S i)
      | None => if bool_decide (d = c) then Some 0 else None
      end
  end.

(** [pos + 1], where [pos] may be [npos]. *)
Definition npos_succ (pos : option nat) : nat :=
  match pos with Some i => S i | None => 0 end.

(** [s.substr(0, pos)], where [pos] may be [npos]. *)
Definition substr_to (s : str) (pos : option nat) : str :=
  match pos with Some i => take i s | None => s end.

(** [s.compare(0, n, t) == 0]. *)
Definition compare_prefix (s : str) (n : nat) (t : str) : bool :=
  bool_decide (take n s = t).

(** [s.replace(0, n, t)]. *)
Definition replace_front (s : str) (n : nat) (t : str) : str := t ++ drop n s.

(** [while (s.length() > 1 && s.back() == c) s.pop_back();] *)
Fixpoint pop_trailing_rev (c : ascii) (r : str) : str :=
  match r with
  | [] => []
  | d :: r' =>
      match r' with
      | [] => r
      | _ :: _ => if bool_decide (d = c) then pop_trailing_rev c r' else r
      end
  end.

Definition pop_trailing (c : ascii) (s : str) : str :=
  reverse (pop_trailing_rev c (reverse s)).

(** ** Digits and numbers *)
Definition code (c : ascii) : Z := Z.of_N (N_of_ascii c).

Definition isdigit (c : ascii) : bool :=
  bool_decide (48 <= code c <= 57)%Z.

Definition isspace (c : ascii) : bool :=
  bool_decide (9 <= code c <= 13)%Z || bool_decide (c = " "%char).

Definition digit_char (d : Z) : ascii := ascii_of_N (Z.to_N (48 + d)).

(** The decimal digits of [z >= 0], most significant first, before [acc]. *)
Fixpoint digits (fuel : nat) (z : Z) (acc : str) : str :=
  match fuel with
  | O => acc
  | S fuel' =>
      let acc' := digit_char (z mod 10) :: acc in
      if bool_decide (z / 10 = 0)%Z then acc' else digits fuel' (z / 10) acc'
  end.

Definition nonneg_to_string (z : Z) : str :=
  digits (S (Z.to_nat (Z.log2 z))) z [].

(** [std::to_string(z)], and what [oss << z] appends. *)
Definition to_string (z : Z) : str :=
  if bool_decide (z < 0)%Z then "-" ++ nonneg_to_string (- z)
  else nonneg_to_string z.

(** The value of the digits a string starts with, added to [acc]. *)
Fixpoint digits_value (acc : Z) (s : str) : Z :=
  match s with
  | c :: s' =>
      if isdigit c then digits_value (10 * acc + (code c - 48)) s' else acc
  | [] => acc
  end.

(** What a C function sees of a string: the bytes before the first NUL. *)
Fixpoint c_str (s : str) : str :=
  match s with
  | [] => []
  | c :: s' => if bool_decide (c = "000"%char) then [] else c :: c_str s'
  end.

Fixpoint skip_space (s : str) : str :=
  match s with
  | c :: s' => if isspace c then skip_space s' else s
  | [] => []
  end.

(** [atoi(s)]: undefined when the number does not fit in an [int]. *)
Definition atoi_value (s : str) : Z :=
  match skip_space s with
  | c :: s' =>
      if bool_decide (c = "-"%char) then (- digits_value 0 s')%Z
      else if bool_decide (c = "+"%char) then digits_value 0 s'
      else digits_value 0 (c :: s')
  | [] => 0%Z
  end.

Definition atoi (s : str) : outcome Z :=
  let z := atoi_value s in if in_int z then Ok z else Fault IntegerOverflow.

(** ** [std::map<std::string, V>]

    The map itself is a [gmap]; a range-based [for] visits the entries in the
    order of their keys, bytes compared as [unsigned char]. *)
Fixpoint str_leb (s t : str) : bool :=
  match s, t with
  | [], _ => true
  | _ :: _, [] => false
  | c :: s', d :: t' =>
      if bool_decide (c = d) then str_leb s' t'
      else bool_decide (code c < code d)%Z
  end.

Fixpoint insert_entry {V} (e : str * V) (l : list (str * V)) : list (str * V) :=
  match l with
  | [] => [e]
  | e' :: l' => if str_leb e.1 e'.1 then e :: l else e' :: insert_entry e l'
  end.

Definition map_entries {V} (m : gmap str V) : list (str * V) :=
  foldr insert_entry [] (map_to_list m).

Lemma to_signed_id w z :
  (0 < w)%Z -> (- 2 ^ (w - 1) <= z < 2 ^ (w - 1))%Z -> to_signed w z = z.
Proof.
  intros Hw Hz. unfold to_signed.
  assert (2 ^ w = 2 * 2 ^ (w - 1))%Z as Hp.
  { replace w with (1 + (w - 1))%Z at 1 by lia. rewrite Z.pow_add_r; lia. }
  rewrite Z.mod_small; lia.
Qed.

Lemma to_short_id z : (-32768 <= z < 32768)%Z -> to_short z = z.
Proof. intros. apply to_signed_id; simpl; lia. Qed.

Lemma to_short_wrap z : (32768 <= z < 65536)%Z -> to_short z = (z - 65536)%Z.
Proof.
  intros. unfold to_short, to_signed. simpl Z.pow_pos.
  change (2 ^ (16 - 1))%Z with 32768%Z. change (2 ^ 16)%Z with 65536%Z.
  rewrite <- (Z_mod_plus_full (z + 32768) (-1)).
  rewrite Z.mod_small; lia.
Qed.

Lemma to_ushort_to_short z : to_ushort (to_short z) = to_ushort z.
Proof.
  unfold to_ushort, to_short, to_signed.
  change (2 ^ (16 - 1))%Z with 32768%Z. change (2 ^ 16)%Z with 65536%Z.
  rewrite Zminus_mod_idemp_l. f_equal. lia.
Qed.

Lemma to_ushort_id z : (0 <= z < 65536)%Z -> to_ushort z = z.
Proof. intros. by apply Z.mod_small. Qed.

(** ** Lemmas: strings *)
Lemma substr_Ok s pos : pos <= length s -> substr s pos = Ok (drop pos s).
Proof. intros. unfold substr. by rewrite bool_decide_true. Qed.

Lemma substr_app (s t : str) : substr (s ++ t) (length s) = Ok t.
Proof. rewrite substr_Ok by (rewrite length_app; lia). by rewrite drop_app_length. Qed.

Lemma find_char_None c s : find_char c s = None <-> c ∉ s.
Proof.
  induction s as [|d s IH]; simpl; [set_solver|].
  rewrite elem_of_cons. case_bool_decide; [naive_solver|].
  rewrite fmap_None, IH. naive_solver.
Qed.

Lemma find_char_app c (s t : str) :
  c ∉ s -> find_char c (s ++ c :: t) = Some (length s).
Proof.
  induction s as [|d s IH]; simpl; intros Hc.
  - by rewrite bool_decide_true.
  - apply not_elem_of_cons in Hc as [Hd Hc].
    rewrite bool_decide_false by congruence. by rewrite IH.
Qed.

Lemma find_char_Some c s i :
  find_char c s = Some i ->
  exists s1 s2, s = s1 ++ c :: s2 /\ c ∉ s1 /\ length s1 = i.
Proof.
  revert i. induction s as [|d s IH]; simpl; intros i; [done|].
  case_bool_decide; subst.
  - intros [= <-]. exists [], s. set_solver.
  - rewrite fmap_Some. intros (j & Hj & ->).
    destruct (IH j Hj) as (s1 & s2 & -> & Hc & <-).
    exists (d :: s1), s2. set_solver.
Qed.

Lemma find_last_of_None c s : find_last_of c s = None <-> c ∉ s.
Proof.
  induction s as [|d s IH]; simpl; [set_solver|].
  rewrite elem_of_cons. destruct (find_last_of c s); [naive_solver|].
  case_bool_decide; naive_solver.
Qed.

Lemma find_last_of_app c (s t : str) :
  c ∉ t -> find_last_of c (s ++ c :: t) = Some (length s).
Proof.
  intros Hc. induction s as [|d s IH]; simpl.
  - rewrite (proj2 (find_last_of_None c t)) by done. by rewrite bool_decide_true.
  - by rewrite IH.
Qed.

Lemma find_last_of_Some c s i :
  find_last_of c s = Some i ->
  exists s1 s2, s = s1 ++ c :: s2 /\ c ∉ s2 /\ length s1 = i.
Proof.
  revert i. induction s as [|d s IH]; simpl; intros i; [done|].
  destruct (find_last_of c s) as [j|] eqn:Hf.
  - intros [= <-]. destruct (IH j eq_refl) as (s1 & s2 & -> & Hc & <-).
    by exists (d :: s1), s2.
  - case_bool_decide; [|done]. intros [= <-]. subst.
    exists [], s. split_and!; [done|by apply find_last_of_None|done].
Qed.

(** What the code takes after and before the last separator. *)
Lemma after_last c (s t : str) :
  c ∉ t -> substr (s ++ c :: t) (npos_succ (find_last_of c (s ++ c :: t))) = Ok t.
Proof.
  intros Hc. rewrite find_last_of_app by done. simpl.
  rewrite substr_Ok by (rewrite length_app; simpl; lia).
  f_equal. change (c :: t) with ([c] ++ t). rewrite app_assoc.
  replace (S (length s)) with (length (s ++ [c])) by (rewrite length_app; simpl; lia).
  apply drop_app_length.
Qed.

Lemma after_last_ok c (s : str) :
  is_ok (substr s (npos_succ (find_last_of c s))).
Proof.
  destruct (find_last_of c s) as [i|] eqn:Hf; simpl; [|rewrite substr_Ok by lia; apply is_ok_Ok].
  apply find_last_of_Some in Hf as (s1 & s2 & -> & _ & <-).
  rewrite substr_Ok by (rewrite length_app; simpl; lia). apply is_ok_Ok.
Qed.

Lemma before_last c (s t : str) :
  c ∉ t -> substr_to (s ++ c :: t) (find_last_of c (s ++ c :: t)) = s.
Proof. intros Hc. rewrite find_last_of_app by done. apply take_app_length. Qed.

(** A string splits at its last separator in one way. *)
Lemma last_separator_inj c (s1 s2 t1 t2 : str) :
  c ∉ t1 -> c ∉ t2 -> s1 ++ c :: t1 = s2 ++ c :: t2 -> s1 = s2 /\ t1 = t2.
Proof.
  intros H1 H2 Heq.
  assert (s1 = s2) as ->.
  { pose proof (before_last c s1 t1 H1) as E1. rewrite Heq in E1.
    rewrite (before_last c s2 t2 H2) in E1. done. }
  split; [done|]. by simplify_list_eq.
Qed.

Lemma compare_prefix_true s t :
  compare_prefix s (length t) t = true <-> exists u, s = t ++ u.
Proof.
  unfold compare_prefix. rewrite bool_decide_eq_true. split.
  - intros Ht. exists (drop (length t) s). rewrite <- Ht at 1. by rewrite take_drop.
  - intros [u ->]. apply take_app_length.
Qed.

(** [while (s.length() > 1 && s.back() == c) s.pop_back()] removes a run of
    [c] from the end, and leaves no [c] at the end of a longer string. *)
Lemma pop_trailing_rev_spec c r :
  exists n, r = replicate n c ++ pop_trailing_rev c r /\
    (length (pop_trailing_rev c r) <= 1 \/
     head (pop_trailing_rev c r) <> Some c).
Proof.
  induction r as [|d r (n & Hr & Hl)]; simpl.
  - exists 0. split; [done|]. simpl; lia.
  - destruct r as [|d' r']; [exists 0; split; [done|simpl; lia]|].
    case_bool_decide; subst.
    + exists (S n). simpl. split; [by f_equal|done].
    + exists 0. split; [done|]. right. simpl. congruence.
Qed.

Lemma pop_trailing_spec c s :
  exists n, s = pop_trailing c s ++ replicate n c /\
    (length (pop_trailing c s) <= 1 \/ last (pop_trailing c s) <> Some c).
Proof.
  destruct (pop_trailing_rev_spec c (reverse s)) as (n & Hr & Hl).
  exists n. unfold pop_trailing. split.
  - apply (f_equal reverse) in Hr. rewrite reverse_involutive, reverse_app in Hr.
    by rewrite reverse_replicate in Hr.
  - rewrite length_reverse, last_reverse. done.
Qed.

(** ** Lemmas: digits and numbers *)
Lemma code_digit_char d : (0 <= d < 10)%Z -> code (digit_char d) = (48 + d)%Z.
Proof.
  intros. unfold code, digit_char. rewrite N_ascii_embedding; lia.
Qed.

Lemma isdigit_digit_char d : (0 <= d < 10)%Z -> isdigit (digit_char d) = true.
Proof.
  intros. unfold isdigit. rewrite code_digit_char by lia.
  rewrite bool_decide_eq_true. lia.
Qed.

Lemma digits_spec fuel z acc :
  (0 < fuel)%nat -> (0 <= z < 2 ^ Z.of_nat fuel)%Z ->
  exists ds, digits fuel z acc = ds ++ acc /\ ds <> [] /\
    Forall (fun c => isdigit c = true) ds /\
    forall a rest, digits_value a (ds ++ rest) =
                   digits_value (a * 10 ^ Z.of_nat (length ds) + z) rest.
Proof.
  revert z acc. induction fuel as [|fuel IH]; intros z acc Hf Hz; [lia|].
  pose proof (Z.mod_pos_bound z 10). pose proof (Z.div_mod z 10).
  assert (forall a rest, digits_value a (digit_char (z mod 10) :: rest) =
    digits_value (10 * a + z mod 10) rest) as Hstep.
  { intros. simpl. rewrite isdigit_digit_char, code_digit_char by lia.
    f_equal. lia. }
  cbn [digits]. case_bool_decide as Hdiv.
  - exists [digit_char (z mod 10)]. split_and!; [done|done| |].
    + by repeat constructor; apply isdigit_digit_char; lia.
    + intros. change ([?x] ++ rest) with (x :: rest). rewrite Hstep.
      f_equal. simpl length. change (10 ^ Z.of_nat 1)%Z with 10%Z. lia.
  - rewrite Nat2Z.inj_succ, Z.pow_succ_r in Hz by lia.
    assert (0 < fuel).
    { destruct fuel; [|lia]. simpl in Hz. exfalso. apply Hdiv, Z.div_small. lia. }
    destruct (IH (z / 10)%Z (digit_char (z mod 10) :: acc)) as (ds & -> & Hne & Hds & Hv);
      [done|split; [apply Z.div_pos; lia|apply Z.div_lt_upper_bound; lia]|].
    exists (ds ++ [digit_char (z mod 10)]). rewrite <- app_assoc.
    split_and!; [done|by destruct ds| |].
    + apply Forall_app. split; [done|]. repeat constructor.
      apply isdigit_digit_char. lia.
    + intros a rest. rewrite <- app_assoc. simpl app. rewrite Hv, Hstep.
      f_equal. rewrite length_app, Nat2Z.inj_add, Z.pow_add_r by lia.
      simpl length. change (10 ^ Z.of_nat 1)%Z with 10%Z. lia.
Qed.

Lemma nonneg_to_string_spec z :
  (0 <= z)%Z ->
  nonneg_to_string z <> [] /\
  Forall (fun c => isdigit c = true) (nonneg_to_string z) /\
  forall a rest, digits_value a (nonneg_to_string z ++ rest) =
    digits_value (a * 10 ^ Z.of_nat (length (nonneg_to_string z)) + z) rest.
Proof.
  intros Hz. unfold nonneg_to_string.
  destruct (digits_spec (S (Z.to_nat (Z.log2 z))) z []) as (ds & -> & ? & ? & Hv).
  - lia.
  - split; [done|]. rewrite Nat2Z.inj_succ, Z2Nat.id by apply Z.log2_nonneg.
    destruct (decide (z = 0)%Z) as [->|]; [done|]. apply Z.log2_spec. lia.
  - by rewrite app_nil_r.
Qed.

Lemma digits_value_nonneg_to_string z :
  (0 <= z)%Z -> digits_value 0 (nonneg_to_string z) = z.
Proof.
  intros Hz. destruct (nonneg_to_string_spec z Hz) as (_ & _ & Hv).
  specialize (Hv 0%Z []). rewrite app_nil_r in Hv. rewrite Hv. simpl. lia.
Qed.

Lemma to_string_nonneg z : (0 <= z)%Z -> to_string z = nonneg_to_string z.
Proof. intros. unfold to_string. by rewrite bool_decide_false by lia. Qed.

Lemma to_string_inj_nonneg z1 z2 :
  (0 <= z1)%Z -> (0 <= z2)%Z -> to_string z1 = to_string z2 -> z1 = z2.
Proof.
  intros H1 H2 Heq. rewrite !to_string_nonneg in Heq by done.
  apply (f_equal (digits_value 0)) in Heq.
  by rewrite !digits_value_nonneg_to_string in Heq.
Qed.

(** A decimal number starts with a digit and holds digits only. *)
Lemma to_string_cons z :
  (0 <= z)%Z -> exists c s, to_string z = c :: s /\ isdigit c = true /\
    Forall (fun c => isdigit c = true) s.
Proof.
  intros Hz. rewrite to_string_nonneg by done.
  destruct (nonneg_to_string_spec z Hz) as (Hne & Hd & _).
  destruct (nonneg_to_string z) as [|c s]; [done|].
  inversion Hd; subst. by exists c, s.
Qed.

Lemma to_string_no_char z c :
  (0 <= z)%Z -> isdigit c = false -> c ∉ to_string z.
Proof.
  intros Hz Hc Hin. rewrite to_string_nonneg in Hin by done.
  destruct (nonneg_to_string_spec z Hz) as (_ & Hd & _).
  rewrite Forall_forall in Hd. apply Hd in Hin. congruence.
Qed.

Lemma to_string_no_sep z c : isdigit c = false -> c <> "-"%char -> c ∉ to_string z.
Proof.
  intros Hc Hne. unfold to_string. case_bool_decide as Hz.
  - change ("-" ++ ?s) with ("-"%char :: s). rewrite elem_of_cons. intros [?|Hin]; [done|].
    destruct (nonneg_to_string_spec (- z)) as (_ & Hd & _); [lia|].
    rewrite Forall_forall in Hd. apply Hd in Hin. congruence.
  - rewrite <- to_string_nonneg by lia. apply to_string_no_char; [lia|done].
Qed.

Lemma to_string_inj z1 z2 : to_string z1 = to_string z2 -> z1 = z2.
Proof.
  assert (forall z z', (z < 0)%Z -> (0 <= z')%Z -> to_string z = to_string z' -> False) as Hsign.
  { intros z z' Hz Hz' Heq. destruct (to_string_cons z' Hz') as (c & s & Hs & Hc & _).
    rewrite Hs in Heq. unfold to_string in Heq. rewrite bool_decide_true in Heq by done.
    injection Heq as Hcc _. rewrite <- Hcc in Hc. discriminate. }
  intros Heq. destruct (Z.lt_ge_cases z1 0), (Z.lt_ge_cases z2 0).
  - unfold to_string in Heq. rewrite !bool_decide_true in Heq by done.
    rewrite <- !to_string_nonneg in Heq by lia.
    change ("-"%char :: to_string (- z1) = "-"%char :: to_string (- z2)) in Heq.
    injection Heq as Heq. apply to_string_inj_nonneg in Heq; lia.
  - exfalso. eauto.
  - exfalso. eauto.
  - by apply to_string_inj_nonneg.
Qed.

Lemma isdigit_not_space c : isdigit c = true -> isspace c = false.
Proof.
  unfold isdigit, isspace. rewrite bool_decide_eq_true, orb_false_iff, !bool_decide_eq_false.
  intros. split; [lia|]. intros ->. unfold code in *. simpl in *. lia.
Qed.

(** ** Lemmas: iteration over a map *)
Lemma insert_entry_Permutation {V} (e : str * V) l : insert_entry e l ≡ₚ e :: l.
Proof.
  induction l as [|e' l IH]; simpl; [done|].
  case_match; [done|]. rewrite IH. constructor.
Qed.

Lemma map_entries_Permutation {V} (m : gmap str V) : map_entries m ≡ₚ map_to_list m.
Proof.
  unfold map_entries. induction (map_to_list m) as [|e l IH]; simpl; [done|].
  by rewrite insert_entry_Permutation, IH.
Qed.

Lemma elem_of_map_entries {V} (m : gmap str V) k v :
  (k, v) ∈ map_entries m <-> m !! k = Some v.
Proof. rewrite map_entries_Permutation. apply elem_of_map_to_list. Qed.
