(* ===== verification/Config.v ===== *)
(** * The parsed configuration ([src/config_parser.h], [src/config_parser.cc])

    [NginxConfigStatement] and [NginxConfig] as data, their [ToString], and
    the three accessors the server reads its settings with:
    [get_config_port], [get_auth_time] and [get_credentials]. *)

From S2P Require Import Prelude Cxx.
Local Open Scope str_scope.

(** ** Data

    [NginxConfig] has the single member [statements_], so a configuration is
    the list of its statements; [child_block_] is a [unique_ptr], [None] when
    null. *)
Inductive NginxConfigStatement : Type := Statement {
  tokens_ : list str;
  child_block_ : option (list NginxConfigStatement)
}.

Abbreviation NginxConfig := (list NginxConfigStatement).

(** ** [ToString] *)
Definition indent (depth : nat) : str := concat (replicate depth "  ").

Fixpoint join_tokens (tokens : list str) : str :=
  match tokens with
  | [] => []
  | [t] => t
  | t :: ts => t ++ " " ++ join_tokens ts
  end.

Fixpoint NginxConfigStatement_ToString (depth : nat) (s : NginxConfigStatement) : str :=
  indent depth ++ join_tokens (tokens_ s) ++
  match child_block_ s with
  | Some c =>
      " {" ++ [NL] ++
      concat (map (NginxConfigStatement_ToString (S depth)) c) ++
      indent depth ++ "}"
  | None => ";"
  end ++ [NL].

Definition NginxConfig_ToString (depth : nat) (c : NginxConfig) : str :=
  concat (map (NginxConfigStatement_ToString depth) c).

(** ** [get_config_port] and [get_auth_time]

    The two functions differ in the name of the setting only. *)
Section setting.
Context (key : str).

(** The first loop: the first statement [key value;] of the block itself. *)
Fixpoint direct_setting (c : NginxConfig) : option str :=
  match c with
  | [] => None
  | Statement [k; v] None :: c' =>
      if bool_decide (k = key) then Some v else direct_setting c'
  | _ :: c' => direct_setting c'
  end.

(** [(ret >= 0 && ret <= 0xffff) ? ret : -1] *)
Definition validate (ret : Z) : Z :=
  if bool_decide (0 <= ret <= 65535)%Z then ret else (-1)%Z.

Definition setting_value (v : str) : outcome Z := validate <$> atoi v.

(** The second loop: the first child block whose setting is not [-1]. *)
Definition first_child (child_setting : NginxConfigStatement -> outcome Z) :
    NginxConfig -> outcome Z :=
  fix go c :=
    match c with
    | [] => Ok (-1)%Z
    | s :: c' =>
        ret ← child_setting s;
        if bool_decide (ret = (-1)%Z) then go c' else Ok ret
    end.

(** The setting of the child block of a statement, [-1] when it has none. *)
Fixpoint child_setting (s : NginxConfigStatement) : outcome Z :=
  match child_block_ s with
  | None => Ok (-1)%Z
  | Some c =>
      match direct_setting c with
      | Some v => setting_value v
      | None => first_child child_setting c
      end
  end.

Definition get_setting (c : NginxConfig) : outcome Z :=
  match direct_setting c with
  | Some v => setting_value v
  | None => first_child child_setting c
  end.
End setting.

Definition get_config_port (c : NginxConfig) : outcome Z := get_setting "port" c.
Definition get_auth_time (c : NginxConfig) : outcome Z := get_setting "timer" c.

(** ** [get_credentials] *)
Definition credentials := gmap str str.

(** One iteration of the inner loop: [credentials[username] = password]. *)
Definition add_credential (m : gmap str str) (s : NginxConfigStatement) : gmap str str :=
  match tokens_ s with
  | [credential] =>
      match find_char ":" credential with
      | Some delimiter_pos =>
          <[take delimiter_pos credential := drop (S delimiter_pos) credential]> m
      | None => m
      end
  | _ => m
  end.

Definition scan_credentials
    (child_credentials : NginxConfigStatement -> outcome (gmap str str)) :
    NginxConfig -> outcome (gmap str str) :=
  fix go c :=
    match c with
    | [] => Ok ∅
    | s :: c' =>
        t0 ← vec_at (tokens_ s) 0;
        if bool_decide (t0 = "credentials") then
          block ← deref (child_block_ s);
          Ok (foldl add_credential ∅ block)
        else
          match child_block_ s with
          | Some _ => child_credentials s
          | None => go c'
          end
    end.

Fixpoint child_credentials (s : NginxConfigStatement) : outcome (gmap str str) :=
  match child_block_ s with
  | Some c => scan_credentials child_credentials c
  | None => Ok ∅
  end.

Definition get_credentials (c : NginxConfig) : outcome (gmap str str) :=
  scan_credentials child_credentials c.

(** ** Predicates and specifications *)

(** A property of every statement of a configuration, at any depth. *)
Inductive deep (P : NginxConfigStatement -> Prop) : NginxConfigStatement -> Prop :=
  | deep_leaf ts : P (Statement ts None) -> deep P (Statement ts None)
  | deep_block ts c :
      P (Statement ts (Some c)) -> Forall (deep P) c ->
      deep P (Statement ts (Some c)).

(** The parser never builds a statement without tokens. *)
Definition has_tokens (s : NginxConfigStatement) : Prop := tokens_ s <> [].
Definition wf_config (c : NginxConfig) : Prop := Forall (deep has_tokens) c.

(** [occurs s c]: [s] is a statement of [c], at any depth. *)
Inductive occurs (s : NginxConfigStatement) : NginxConfig -> Prop :=
  | occurs_here c : s ∈ c -> occurs s c
  | occurs_block ts b c :
      Statement ts (Some b) ∈ c -> occurs s b -> occurs s c.

(** [own_setting key c]: the block itself has a statement [key value;]. *)
Definition own_setting (key : str) (c : NginxConfig) : Prop :=
  exists w, Statement [key; w] None ∈ c.

(** What a search for a setting returns, in terms of the tree only: the first
    statement [key value;] of the block itself if there is one, as a number
    in [0, 65535], or [-1] if it is another number; otherwise what the search
    of its first child block gives that does not give [-1], children in
    order, each searched in this way; and [-1] when there is none. *)
Record setting_search (key : str) (get : NginxConfig -> outcome Z) : Prop := {
  search_valid c1 v c2 n : ~ own_setting key c1 -> atoi v = Ok n -> (0 <= n <= 65535)%Z ->
    get (c1 ++ Statement [key; v] None :: c2) = Ok n;
  search_invalid c1 v c2 n : ~ own_setting key c1 -> atoi v = Ok n -> (n < 0 \/ 65535 < n)%Z ->
    get (c1 ++ Statement [key; v] None :: c2) = Ok (-1)%Z;
  search_fault c1 v c2 f : ~ own_setting key c1 -> atoi v = Fault f ->
    get (c1 ++ Statement [key; v] None :: c2) = Fault f;
  search_child c1 ts b c2 : ~ own_setting key (c1 ++ Statement ts (Some b) :: c2) ->
    (forall ts' b', Statement ts' (Some b') ∈ c1 -> get b' = Ok (-1)%Z) -> get b <> Ok (-1)%Z ->
    get (c1 ++ Statement ts (Some b) :: c2) = get b;
  search_none c : ~ own_setting key c ->
    (forall ts b, Statement ts (Some b) ∈ c -> get b = Ok (-1)%Z) -> get c = Ok (-1)%Z
}.

(** ** Lemmas *)
Section statement_ind.
Context (P : NginxConfigStatement -> Prop).
Hypothesis P_leaf : forall ts, P (Statement ts None).
Hypothesis P_block : forall ts c, Forall P c -> P (Statement ts (Some c)).

(** Induction on statements, through the child blocks. *)
Fixpoint statement_ind (s : NginxConfigStatement) : P s :=
  match s with
  | Statement ts None => P_leaf ts
  | Statement ts (Some c) =>
      P_block ts c
        ((fix go c : Forall P c :=
            match c with
            | [] => @List.Forall_nil _ P
            | s' :: c' => @List.Forall_cons _ P s' c' (statement_ind s') (go c')
            end) c)
  end.
End statement_ind.

Lemma deep_inv P s : deep P s -> P s.
Proof. by destruct 1. Qed.

Lemma deep_block_inv P ts c : deep P (Statement ts (Some c)) -> Forall (deep P) c.
Proof. by inversion 1. Qed.

Section setting_lemmas.
Context (key : str).

Lemma direct_setting_cons ts b c :
  direct_setting key (Statement ts b :: c) =
  match b, ts with
  | None, [k; v] => if bool_decide (k = key) then Some v else direct_setting key c
  | _, _ => direct_setting key c
  end.
Proof. by destruct b, ts as [|? [|? [|]]]. Qed.

(** The direct setting is the first statement [key value;] of the block. *)
Lemma direct_setting_Some c v :
  direct_setting key c = Some v <->
  exists c1 c2, c = c1 ++ Statement [key; v] None :: c2 /\
    forall w, Statement [key; w] None ∉ c1.
Proof.
  split.
  - induction c as [|[ts b] c IH]; [done|].
    rewrite direct_setting_cons. intros H.
    assert ((exists w, Statement ts b = Statement [key; w] None /\ w = v) \/
      (direct_setting key c = Some v /\ forall w, Statement ts b <> Statement [key; w] None))
      as [(w & -> & ->)|[Hc Hne]].
    { destruct b; [naive_solver|]. destruct ts as [|k [|w [|]]]; try naive_solver.
      case_bool_decide; naive_solver. }
    + exists [], c. split; [done|]. intros w. by intros ?%elem_of_nil.
    + destruct (IH Hc) as (c1 & c2 & -> & Hc1).
      exists (Statement ts b :: c1), c2. split; [done|].
      intros w [?|?]%elem_of_cons; [by eapply Hne|by eapply Hc1].
  - intros (c1 & c2 & -> & Hc1). induction c1 as [|[ts b] c1 IH]; simpl app.
    + rewrite direct_setting_cons. by rewrite bool_decide_true.
    + rewrite direct_setting_cons.
      assert (direct_setting key (c1 ++ Statement [key; v] None :: c2) = Some v) as IH'.
      { apply IH. intros w Hw. by apply (Hc1 w), list_elem_of_further. }
      destruct b; [done|]. destruct ts as [|k [|w [|]]]; try done.
      case_bool_decide; [|done]. subst. destruct (Hc1 w). apply list_elem_of_here.
Qed.

Lemma direct_setting_None c : direct_setting key c = None <-> ~ own_setting key c.
Proof.
  split.
  - intros Hd [w (c1 & c2 & ->)%list_elem_of_split]. revert Hd.
    induction c1 as [|[ts b] c1 IH]; simpl app; rewrite direct_setting_cons.
    + by rewrite bool_decide_true.
    + destruct b; [done|]. destruct ts as [|k [|w' [|]]]; try done. by case_bool_decide.
  - intros Hno. destruct (direct_setting key c) as [v|] eqn:Hd; [|done].
    apply direct_setting_Some in Hd as (c1 & c2 & -> & _). destruct Hno. exists v. set_solver.
Qed.

Lemma setting_value_Ok v p :
  setting_value v = Ok p ->
  p = (-1)%Z \/ ((0 <= p <= 65535)%Z /\ atoi v = Ok p).
Proof.
  unfold setting_value. destruct (atoi v) as [z|]; [|done]. simpl. intros [= <-].
  unfold validate. case_bool_decide; [right|by left]. done.
Qed.

Lemma get_setting_direct c v :
  direct_setting key c = Some v -> get_setting key c = setting_value v.
Proof. unfold get_setting. by intros ->. Qed.

Lemma get_setting_own c1 v c2 :
  ~ own_setting key c1 -> get_setting key (c1 ++ Statement [key; v] None :: c2) = setting_value v.
Proof.
  intros Hno. apply get_setting_direct, direct_setting_Some. exists c1, c2. split; [done|].
  intros w Hw. apply Hno. by exists w.
Qed.

(** The second loop passes the statements whose search gives [-1]. *)
Lemma first_child_skip (f : NginxConfigStatement -> outcome Z) c1 c2 :
  Forall (fun s => f s = Ok (-1)%Z) c1 -> first_child f (c1 ++ c2) = first_child f c2.
Proof. induction 1 as [|s c1 Hs _ IH]; [done|]. simpl. by rewrite Hs. Qed.

Lemma first_child_source (f : NginxConfigStatement -> outcome Z) c p :
  first_child f c = Ok p -> p = (-1)%Z \/ exists s, s ∈ c /\ f s = Ok p.
Proof.
  induction c as [|s c IH]; simpl; [naive_solver|]. destruct (f s) as [ret|] eqn:Hs; [|done]. simpl.
  case_bool_decide.
  - intros [?|(s' & ? & ?)]%IH; [by left|right]. exists s'. split; [by apply list_elem_of_further|done].
  - intros [= <-]. right. exists s. split; [apply list_elem_of_here|done].
Qed.

Lemma child_settings_none c :
  (forall ts b, Statement ts (Some b) ∈ c -> get_setting key b = Ok (-1)%Z) ->
  Forall (fun s => child_setting key s = Ok (-1)%Z) c.
Proof. intros Hc. apply Forall_forall. intros [ts [b|]] Hs; [by apply (Hc ts)|done]. Qed.

Lemma get_setting_search : setting_search key (get_setting key).
Proof.
  split.
  - intros c1 v c2 n Hno Hn Hr. rewrite get_setting_own by done. unfold setting_value, validate.
    rewrite Hn. simpl. by rewrite bool_decide_true.
  - intros c1 v c2 n Hno Hn Hr. rewrite get_setting_own by done. unfold setting_value, validate.
    rewrite Hn. simpl. by rewrite bool_decide_false by lia.
  - intros c1 v c2 f Hno Hf. rewrite get_setting_own by done. unfold setting_value. by rewrite Hf.
  - intros c1 ts b c2 Hno%direct_setting_None Hc Hb. unfold get_setting at 1. rewrite Hno.
    rewrite first_child_skip by by apply child_settings_none. cbn [first_child].
    change (child_setting key (Statement ts (Some b))) with (get_setting key b).
    destruct (get_setting key b) as [ret|]; [|done]. simpl.
    by rewrite bool_decide_false by congruence.
  - intros c Hno%direct_setting_None Hc. unfold get_setting. rewrite Hno, <- (app_nil_r c).
    by rewrite first_child_skip by by apply child_settings_none.
Qed.

Lemma child_setting_source s p :
  child_setting key s = Ok p ->
  p = (-1)%Z \/ ((0 <= p <= 65535)%Z /\
    exists b v, child_block_ s = Some b /\ occurs (Statement [key; v] None) b /\ atoi v = Ok p).
Proof.
  induction s as [ts|ts c IH] using statement_ind; [simpl; intros [= <-]; by left|]. simpl.
  destruct (direct_setting key c) as [v|] eqn:Hd.
  - apply direct_setting_Some in Hd as (c1 & c2 & -> & _).
    intros [?|[? ?]]%setting_value_Ok; [by left|right]. split; [done|].
    eexists _, v. split_and!; [done| |done]. apply occurs_here. set_solver.
  - intros [?|(s & Hs & Hp)]%first_child_source; [by left|]. rewrite Forall_forall in IH.
    destruct (IH s Hs Hp) as [?|(? & b & v & Hb & ? & ?)]; [by left|right]. split; [done|].
    exists c, v. split_and!; [done| |done]. destruct s as [ts' b']. simplify_eq/=.
    by eapply occurs_block.
Qed.

Lemma get_setting_source c p :
  get_setting key c = Ok p ->
  p = (-1)%Z \/
  ((0 <= p <= 65535)%Z /\
   exists v, occurs (Statement [key; v] None) c /\ atoi v = Ok p).
Proof.
  intros [?|(? & b & v & [= <-] & ?)]%(child_setting_source (Statement [] (Some c))); [by left|right].
  split; [done|]. by exists v.
Qed.

(** The search is determined by its description. *)
Lemma own_setting_first c :
  own_setting key c -> exists c1 v c2, c = c1 ++ Statement [key; v] None :: c2 /\ ~ own_setting key c1.
Proof.
  intros Hown. destruct (direct_setting key c) as [v|] eqn:Hd.
  - apply direct_setting_Some in Hd as (c1 & c2 & -> & Hno). exists c1, v, c2. split; [done|].
    intros [w Hw]. by apply (Hno w).
  - by apply direct_setting_None in Hd.
Qed.

Lemma first_block_or_none (get : NginxConfig -> outcome Z) c :
  (forall ts b, Statement ts (Some b) ∈ c -> get b = Ok (-1)%Z) \/
  exists c1 ts b c2, c = c1 ++ Statement ts (Some b) :: c2 /\ get b <> Ok (-1)%Z /\
    forall ts' b', Statement ts' (Some b') ∈ c1 -> get b' = Ok (-1)%Z.
Proof.
  induction c as [|[ts b] c IH]; [left; by intros ? ? ?%elem_of_nil|].
  assert ((exists b', b = Some b' /\ get b' <> Ok (-1)%Z) \/ forall b', b = Some b' -> get b' = Ok (-1)%Z)
    as [(b' & -> & Hb)|Hb].
  { destruct b as [b|]; [|by right]. destruct (decide (get b = Ok (-1)%Z)); naive_solver. }
  - right. exists [], ts, b', c. split_and!; [done..|]. by intros ? ? ?%elem_of_nil.
  - destruct IH as [Hall|(c1 & ts' & b' & c2 & -> & Hb' & Hc1)].
    + left. intros ts' b' [?|?]%elem_of_cons; [naive_solver|by eapply Hall].
    + right. exists (Statement ts b :: c1), ts', b', c2. split_and!; [done..|].
      intros ts'' b'' [?|?]%elem_of_cons; [naive_solver|by eapply Hc1].
Qed.

Lemma setting_search_unique get get' :
  setting_search key get -> setting_search key get' -> forall c, get c = get' c.
Proof.
  intros Hg Hg'.
  assert (forall s b, child_block_ s = Some b -> get b = get' b) as Hs.
  2: { intros c. by apply (Hs (Statement [] (Some c))). }
  induction s as [ts|ts c IH] using statement_ind; [done|]. intros b [= <-].
  assert (forall ts' b', Statement ts' (Some b') ∈ c -> get b' = get' b') as Heq.
  { intros ts' b' Hb'. rewrite Forall_forall in IH. by apply (IH _ Hb'). }
  destruct (decide (direct_setting key c = None)) as [Hno|Hown].
  - apply direct_setting_None in Hno.
    destruct (first_block_or_none get c) as [Hall|(c1 & ts' & b' & c2 & -> & Hb' & Hc1)].
    + rewrite (search_none _ _ Hg), (search_none _ _ Hg'); [done|done| |done|done].
      intros ts' b' Hb'. rewrite <- (Heq ts' b' Hb'). by eapply Hall.
    + assert (get b' = get' b') as Hbb by (apply (Heq ts'); set_solver).
      rewrite (search_child _ _ Hg), (search_child _ _ Hg'); [done|done| |congruence|done..].
      intros ts'' b'' Hin. rewrite <- (Heq ts'' b''); [by eapply Hc1|set_solver].
  - destruct (own_setting_first c) as (c1 & v & c2 & -> & Hc1).
    { destruct (direct_setting key c) as [v|] eqn:Hd; [|done].
      apply direct_setting_Some in Hd as (c1 & c2 & -> & _). exists v. set_solver. }
    destruct (atoi v) as [n|f] eqn:Hn.
    + destruct (decide (0 <= n <= 65535)%Z).
      * by rewrite (search_valid _ _ Hg c1 v c2 n), (search_valid _ _ Hg' c1 v c2 n).
      * rewrite (search_invalid _ _ Hg c1 v c2 n), (search_invalid _ _ Hg' c1 v c2 n); try done; lia.
    + by rewrite (search_fault _ _ Hg c1 v c2 f), (search_fault _ _ Hg' c1 v c2 f).
Qed.
End setting_lemmas.

(** *** Credentials *)

(** [s] is the statement [user:password;]; the first colon is the separator. *)
Definition credential_entry (user password : str) (s : NginxConfigStatement) : Prop :=
  tokens_ s = [user ++ ":" ++ password] /\ ":"%char ∉ user.

Lemma add_credential_entry m s user password :
  credential_entry user password s ->
  add_credential m s = <[user := password]> m.
Proof.
  intros [Ht Hu]. unfold add_credential. rewrite Ht.
  change (":" ++ password) with (":"%char :: password).
  rewrite find_char_app, take_app_length by done. f_equal.
  change (":"%char :: password) with (":" ++ password). rewrite app_assoc.
  replace (S (length user)) with (length (user ++ ":")) by (rewrite length_app; simpl; lia).
  apply drop_app_length.
Qed.

Lemma add_credential_other m s user :
  (forall password, ~ credential_entry user password s) ->
  add_credential m s !! user = m !! user.
Proof.
  intros Hne. unfold add_credential.
  destruct (tokens_ s) as [|t [|]] eqn:Ht; try done.
  destruct (find_char ":" t) as [i|] eqn:Hf; [|done].
  apply find_char_Some in Hf as (u & p & -> & Hu & <-).
  rewrite take_app_length. apply lookup_insert_ne. intros <-. by apply (Hne p).
Qed.

Lemma credential_entry_dec user s :
  (exists password, credential_entry user password s) \/
  (forall password, ~ credential_entry user password s).
Proof.
  destruct (add_credential ∅ s !! user) as [p|] eqn:Hp.
  - left. unfold add_credential in Hp.
    destruct (tokens_ s) as [|t [|]] eqn:Ht; try done.
    destruct (find_char ":" t) as [i|] eqn:Hf; [|done].
    apply find_char_Some in Hf as (u & q & -> & Hu & <-).
    rewrite take_app_length in Hp. apply lookup_insert_Some in Hp as [[<- _]|[_ Hp]]; [|done].
    exists q. by split.
  - right. intros p Hs. rewrite (add_credential_entry _ _ _ _ Hs) in Hp.
    by rewrite lookup_insert_eq in Hp.
Qed.

Lemma foldl_add_credential_other b m user :
  (forall s, s ∈ b -> forall password, ~ credential_entry user password s) ->
  foldl add_credential m b !! user = m !! user.
Proof.
  revert m. induction b as [|s b IH]; intros m Hb; simpl; [done|].
  rewrite IH by (intros; apply Hb; by apply list_elem_of_further).
  apply add_credential_other, Hb, list_elem_of_here.
Qed.

(** The last entry of a user in the block wins. *)
Lemma foldl_add_credential_lookup b user password :
  foldl add_credential ∅ b !! user = Some password <->
  exists b1 s b2, b = b1 ++ s :: b2 /\ credential_entry user password s /\
    forall s', s' ∈ b2 -> forall p, ~ credential_entry user p s'.
Proof.
  split.
  - induction b as [|s b IH] using rev_ind; [done|].
    rewrite foldl_snoc. intros H.
    destruct (credential_entry_dec user s) as [[p Hs]|Hs].
    + rewrite (add_credential_entry _ _ _ _ Hs), lookup_insert_eq in H.
      simplify_eq. exists b, s, []. split_and!; [done..|]. by intros s' ?%elem_of_nil.
    + rewrite add_credential_other in H by done.
      destruct (IH H) as (b1 & s' & b2 & -> & Hs' & Hb2).
      exists b1, s', (b2 ++ [s]). rewrite <- app_assoc. split_and!; [done..|].
      intros s'' [?|Hs'']%elem_of_app; [by apply Hb2|]. apply list_elem_of_singleton in Hs'' as ->. done.
  - intros (b1 & s & b2 & -> & Hs & Hb2). rewrite foldl_app. simpl.
    rewrite foldl_add_credential_other by done.
    by rewrite (add_credential_entry _ _ _ _ Hs), lookup_insert_eq.
Qed.

(** The statements the scan passes over: no block, not named [credentials]. *)
Definition passed (s : NginxConfigStatement) : Prop :=
  child_block_ s = None /\ exists t ts, tokens_ s = t :: ts /\ t <> "credentials".

Lemma scan_passed rec c1 c2 :
  Forall passed c1 -> scan_credentials rec (c1 ++ c2) = scan_credentials rec c2.
Proof.
  induction 1 as [|s c1 (Hb & t & ts & Ht & Hne) _ IH]; [done|].
  cbn [app scan_credentials]. rewrite Ht. cbn. rewrite bool_decide_false by done.
  by rewrite Hb.
Qed.

Lemma get_credentials_block c1 ts b c2 :
  Forall passed c1 ->
  get_credentials (c1 ++ Statement ("credentials" :: ts) (Some b) :: c2) =
  Ok (foldl add_credential ∅ b).
Proof. intros. unfold get_credentials. by rewrite scan_passed. Qed.

Lemma get_credentials_descend c1 t ts b c2 :
  Forall passed c1 -> t <> "credentials" ->
  get_credentials (c1 ++ Statement (t :: ts) (Some b) :: c2) = get_credentials b.
Proof.
  intros. unfold get_credentials. rewrite scan_passed by done. cbn.
  by rewrite bool_decide_false.
Qed.

Definition leaf_credentials (s : NginxConfigStatement) : Prop :=
  exists ts, s = Statement ("credentials" :: ts) None.

Lemma scan_fault rec c f :
  Forall has_tokens c ->
  Forall (fun s => forall f, rec s = Fault f ->
    f = NullDereference /\ exists b s', child_block_ s = Some b /\ occurs s' b /\ leaf_credentials s') c ->
  scan_credentials rec c = Fault f ->
  f = NullDereference /\ exists s, occurs s c /\ leaf_credentials s.
Proof.
  intros Hwf Hrec. induction c as [|s c IH]; [done|].
  apply Forall_cons in Hwf as [Hs Hwf]. apply Forall_cons in Hrec as [Hr Hrec].
  destruct s as [[|t ts] b]; [by destruct Hs|]. cbn [scan_credentials].
  assert (forall s', occurs s' c -> occurs s' (Statement (t :: ts) b :: c)) as Hmono.
  { intros s' [c' ?|ts' b' c' ? ?]; [by apply occurs_here, list_elem_of_further|].
    eapply occurs_block; [by apply list_elem_of_further|done]. }
  cbn. case_bool_decide; subst; [|destruct b as [b|]].
  - destruct b; cbn; [done|]. intros [= <-]. split; [done|].
    exists (Statement ("credentials" :: ts) None). split; [|by eexists].
    apply occurs_here, list_elem_of_here.
  - intros Hf. destruct (Hr f Hf) as (-> & b' & s' & [= <-] & Ho & Hl).
    split; [done|]. exists s'. split; [|done].
    eapply occurs_block; [apply list_elem_of_here|done].
  - intros Hf. destruct (IH Hwf Hrec Hf) as (-> & s' & Ho & Hl). eauto.
Qed.

Lemma child_credentials_fault s f :
  deep has_tokens s -> child_credentials s = Fault f ->
  f = NullDereference /\ exists b s', child_block_ s = Some b /\ occurs s' b /\ leaf_credentials s'.
Proof.
  revert f. induction s as [ts|ts c IH] using statement_ind; intros f Hd; simpl; [done|].
  intros Hf. apply deep_block_inv in Hd.
  destruct (scan_fault child_credentials c f) as (-> & s' & Ho & Hl); [| |done|].
  - eapply Forall_impl; [done|]. intros. by apply deep_inv.
  - rewrite Forall_forall in *. eauto.
  - eauto 10.
Qed.

Lemma get_credentials_fault_source c f :
  wf_config c -> get_credentials c = Fault f ->
  f = NullDereference /\ exists s, occurs s c /\ leaf_credentials s.
Proof.
  intros Hwf. apply scan_fault.
  - eapply Forall_impl; [done|]. intros. by apply deep_inv.
  - eapply Forall_impl; [done|]. intros. by apply child_credentials_fault.
Qed.
