(* ===== verification/Tokenizer.v ===== *)
(** * The tokenizer of configuration files
      ([NginxConfigParser::ParseToken], [src/config_parser.cc])

    The input stream, the state machine of [ParseToken] as the code runs it
    (one [get] per iteration, [unget] after a delimiter), and a reference
    scanner [scan], by structural recursion on the remaining bytes, that
    [ParseToken] is proved to compute. *)

From S2P Require Import Prelude Cxx.
Local Open Scope str_scope.

Local Notation "c '=c' d" := (bool_decide (c = d)) (at level 70, no associativity).

(** ** Data *)
Inductive TokenType : Type :=
  | TOKEN_TYPE_START
  | TOKEN_TYPE_NORMAL
  | TOKEN_TYPE_START_BLOCK
  | TOKEN_TYPE_END_BLOCK
  | TOKEN_TYPE_COMMENT
  | TOKEN_TYPE_STATEMENT_END
  | TOKEN_TYPE_EOF
  | TOKEN_TYPE_ERROR.

Inductive TokenParserState : Type :=
  | TOKEN_STATE_INITIAL_WHITESPACE
  | TOKEN_STATE_SINGLE_QUOTE
  | TOKEN_STATE_DOUBLE_QUOTE
  | TOKEN_STATE_TOKEN_TYPE_COMMENT
  | TOKEN_STATE_TOKEN_TYPE_NORMAL
  | TOKEN_STATE_ESCAPE_WITHIN_SINGLE_QUOTE
  | TOKEN_STATE_ESCAPE_WITHIN_DOUBLE_QUOTE.

#[export] Instance TokenType_eq_dec : EqDecision TokenType.
Proof. solve_decision. Defined.
#[export] Instance TokenParserState_eq_dec : EqDecision TokenParserState.
Proof. solve_decision. Defined.

Definition TokenTypeAsString (type : TokenType) : str :=
  match type with
  | TOKEN_TYPE_START => "TOKEN_TYPE_START"
  | TOKEN_TYPE_NORMAL => "TOKEN_TYPE_NORMAL"
  | TOKEN_TYPE_START_BLOCK => "TOKEN_TYPE_START_BLOCK"
  | TOKEN_TYPE_END_BLOCK => "TOKEN_TYPE_END_BLOCK"
  | TOKEN_TYPE_COMMENT => "TOKEN_TYPE_COMMENT"
  | TOKEN_TYPE_STATEMENT_END => "TOKEN_TYPE_STATEMENT_END"
  | TOKEN_TYPE_EOF => "TOKEN_TYPE_EOF"
  | TOKEN_TYPE_ERROR => "TOKEN_TYPE_ERROR"
  end.

(** A [std::istream]: the bytes already read (latest first), the bytes to
    come, and [good()].  At the end of the stream [get()] returns [EOF], which
    is [0xff] as a [char], and the stream is no longer good; [unget()] puts
    the last byte back. *)
Record istream : Type := IStream {
  consumed : str;
  pending : str;
  good : bool
}.

Definition stream_of (s : str) : istream := IStream [] s true.

Definition EOF : ascii := "255"%char.

Definition get (i : istream) : ascii * istream :=
  if good i then
    match pending i with
    | c :: p => (c, IStream (c :: consumed i) p true)
    | [] => (EOF, IStream (consumed i) [] false)
    end
  else (EOF, i).

Definition unget (i : istream) : istream :=
  match consumed i with
  | c :: p => if good i then IStream p (c :: pending i) true else i
  | [] => IStream [] (pending i) false
  end.

(** ** [ParseToken] *)

(** A character that ends a token and is left in the stream. *)
Definition is_delimiter (c : ascii) : bool :=
  (c =c " "%char) || (c =c TAB) || (c =c NL) || (c =c ";"%char) ||
  (c =c "{"%char) || (c =c "}"%char).

(** What the body of the [while] loop does with the character [c]. *)
Inductive token_step : Type :=
  | Continue (state : TokenParserState) (value : str)
  | Return (type : TokenType) (value : str) (input : istream).

(** The closing quote of a quoted token, which a delimiter must follow. *)
Definition close_quote (value : str) (input : istream) : token_step :=
  let '(c_next, input') := get input in
  if is_delimiter c_next then Return TOKEN_TYPE_NORMAL value (unget input')
  else Return TOKEN_TYPE_ERROR value input'.

Definition ParseToken_step (state : TokenParserState) (value : str) (c : ascii)
    (input : istream) : token_step :=
  match state with
  | TOKEN_STATE_INITIAL_WHITESPACE =>
      if c =c "{"%char then Return TOKEN_TYPE_START_BLOCK [c] input
      else if c =c "}"%char then Return TOKEN_TYPE_END_BLOCK [c] input
      else if c =c "#"%char then Continue TOKEN_STATE_TOKEN_TYPE_COMMENT [c]
      else if c =c DQUOTE then Continue TOKEN_STATE_DOUBLE_QUOTE [c]
      else if c =c SQUOTE then Continue TOKEN_STATE_SINGLE_QUOTE [c]
      else if c =c ";"%char then Return TOKEN_TYPE_STATEMENT_END [c] input
      else if (c =c " "%char) || (c =c TAB) || (c =c NL) || (c =c CR) then
        Continue TOKEN_STATE_INITIAL_WHITESPACE value
      else Continue TOKEN_STATE_TOKEN_TYPE_NORMAL (value ++ [c])
  | TOKEN_STATE_SINGLE_QUOTE =>
      let value := value ++ [c] in
      if c =c SQUOTE then close_quote value input
      else if c =c BACKSLASH then
        Continue TOKEN_STATE_ESCAPE_WITHIN_SINGLE_QUOTE (removelast value)
      else Continue TOKEN_STATE_SINGLE_QUOTE value
  | TOKEN_STATE_DOUBLE_QUOTE =>
      let value := value ++ [c] in
      if c =c DQUOTE then close_quote value input
      else if c =c BACKSLASH then
        Continue TOKEN_STATE_ESCAPE_WITHIN_DOUBLE_QUOTE (removelast value)
      else Continue TOKEN_STATE_DOUBLE_QUOTE value
  | TOKEN_STATE_TOKEN_TYPE_COMMENT =>
      if (c =c NL) || (c =c CR) then Return TOKEN_TYPE_COMMENT value input
      else Continue TOKEN_STATE_TOKEN_TYPE_COMMENT (value ++ [c])
  | TOKEN_STATE_TOKEN_TYPE_NORMAL =>
      if is_delimiter c then Return TOKEN_TYPE_NORMAL value (unget input)
      else Continue TOKEN_STATE_TOKEN_TYPE_NORMAL (value ++ [c])
  | TOKEN_STATE_ESCAPE_WITHIN_SINGLE_QUOTE =>
      Continue TOKEN_STATE_SINGLE_QUOTE (value ++ [c])
  | TOKEN_STATE_ESCAPE_WITHIN_DOUBLE_QUOTE =>
      Continue TOKEN_STATE_DOUBLE_QUOTE (value ++ [c])
  end.

(** After the loop: the end of the file was reached. *)
Definition ParseToken_end (state : TokenParserState) : TokenType :=
  match state with
  | TOKEN_STATE_SINGLE_QUOTE | TOKEN_STATE_DOUBLE_QUOTE => TOKEN_TYPE_ERROR
  | _ => TOKEN_TYPE_EOF
  end.

Fixpoint ParseToken_loop (fuel : nat) (state : TokenParserState) (value : str)
    (input : istream) : outcome (TokenType * str * istream) :=
  match fuel with
  | O => Fault OutOfFuel
  | S fuel' =>
      if good input then
        let '(c, input') := get input in
        if good input' then
          match ParseToken_step state value c input' with
          | Continue state' value' => ParseToken_loop fuel' state' value' input'
          | Return type value' input'' => Ok (type, value', input'')
          end
        else Ok (ParseToken_end state, value, input')
      else Ok (ParseToken_end state, value, input)
  end.

(** Every iteration consumes one byte, so this fuel is never used up. *)
Definition ParseToken (input : istream) (value : str) :
    outcome (TokenType * str * istream) :=
  ParseToken_loop (S (length (pending input))) TOKEN_STATE_INITIAL_WHITESPACE value input.

(** ** The reference scanner *)

(** After the closing quote. *)
Definition scan_close (value p : str) : TokenType * str * str * bool :=
  match p with
  | [] => (TOKEN_TYPE_ERROR, value, [], false)
  | d :: p' =>
      if is_delimiter d then (TOKEN_TYPE_NORMAL, value, p, true)
      else (TOKEN_TYPE_ERROR, value, p', true)
  end.

(** The type and the text of the next token, the bytes after it, and whether
    the stream is still good. *)
Fixpoint scan (state : TokenParserState) (value : str) (p : str) :
    TokenType * str * str * bool :=
  match p with
  | [] => (ParseToken_end state, value, [], false)
  | c :: p' =>
      match state with
      | TOKEN_STATE_INITIAL_WHITESPACE =>
          if c =c "{"%char then (TOKEN_TYPE_START_BLOCK, [c], p', true)
          else if c =c "}"%char then (TOKEN_TYPE_END_BLOCK, [c], p', true)
          else if c =c "#"%char then scan TOKEN_STATE_TOKEN_TYPE_COMMENT [c] p'
          else if c =c DQUOTE then scan TOKEN_STATE_DOUBLE_QUOTE [c] p'
          else if c =c SQUOTE then scan TOKEN_STATE_SINGLE_QUOTE [c] p'
          else if c =c ";"%char then (TOKEN_TYPE_STATEMENT_END, [c], p', true)
          else if (c =c " "%char) || (c =c TAB) || (c =c NL) || (c =c CR) then
            scan TOKEN_STATE_INITIAL_WHITESPACE value p'
          else scan TOKEN_STATE_TOKEN_TYPE_NORMAL (value ++ [c]) p'
      | TOKEN_STATE_SINGLE_QUOTE =>
          if c =c SQUOTE then scan_close (value ++ [c]) p'
          else if c =c BACKSLASH then scan TOKEN_STATE_ESCAPE_WITHIN_SINGLE_QUOTE value p'
          else scan TOKEN_STATE_SINGLE_QUOTE (value ++ [c]) p'
      | TOKEN_STATE_DOUBLE_QUOTE =>
          if c =c DQUOTE then scan_close (value ++ [c]) p'
          else if c =c BACKSLASH then scan TOKEN_STATE_ESCAPE_WITHIN_DOUBLE_QUOTE value p'
          else scan TOKEN_STATE_DOUBLE_QUOTE (value ++ [c]) p'
      | TOKEN_STATE_TOKEN_TYPE_COMMENT =>
          if (c =c NL) || (c =c CR) then (TOKEN_TYPE_COMMENT, value, p', true)
          else scan TOKEN_STATE_TOKEN_TYPE_COMMENT (value ++ [c]) p'
      | TOKEN_STATE_TOKEN_TYPE_NORMAL =>
          if is_delimiter c then (TOKEN_TYPE_NORMAL, value, p, true)
          else scan TOKEN_STATE_TOKEN_TYPE_NORMAL (value ++ [c]) p'
      | TOKEN_STATE_ESCAPE_WITHIN_SINGLE_QUOTE =>
          scan TOKEN_STATE_SINGLE_QUOTE (value ++ [c]) p'
      | TOKEN_STATE_ESCAPE_WITHIN_DOUBLE_QUOTE =>
          scan TOKEN_STATE_DOUBLE_QUOTE (value ++ [c]) p'
      end
  end.

(** What [ParseToken] returns on a good stream with pending bytes [p]. *)
Definition next_token (p : str) : TokenType * str * str * bool :=
  scan TOKEN_STATE_INITIAL_WHITESPACE [] p.

(** ** Lemmas *)
Lemma removelast_snoc {A} (l : list A) x : removelast (l ++ [x]) = l.
Proof. apply removelast_last. Qed.

(** A stream that has read [past] and then the front of [p], up to [rest]. *)
Definition stream_at (past p : str) (r : TokenType * str * str * bool)
    (o : outcome (TokenType * str * istream)) : Prop :=
  exists past', o = Ok (r.1.1, IStream past' r.1.2 r.2) /\
    reverse past' ++ r.1.2 = reverse past ++ p.

Lemma stream_at_cons past c p r o :
  stream_at (c :: past) p r o -> stream_at past (c :: p) r o.
Proof.
  intros (past' & -> & Hp). exists past'. split; [done|].
  by rewrite Hp, reverse_cons, <- app_assoc.
Qed.

Lemma stream_at_return past p type value g :
  stream_at past p (type, value, p, g) (Ok (type, value, IStream past p g)).
Proof. by exists past. Qed.

Lemma close_quote_scan past p value :
  exists type value' input,
    close_quote value (IStream past p true) = Return type value' input /\
    stream_at past p (scan_close value p) (Ok (type, value', input)).
Proof.
  destruct p as [|d p]; unfold close_quote; simpl.
  - eexists _, _, _. split; [done|]. apply stream_at_return.
  - destruct (is_delimiter d); eexists _, _, _; (split; [done|]).
    + apply stream_at_return.
    + apply stream_at_cons, stream_at_return.
Qed.

(** The loop computes the scanner; the bytes it consumed and those it left
    are, together, the bytes of the stream. *)
Lemma ParseToken_loop_scan p : forall fuel state value past,
  length p < fuel ->
  stream_at past p (scan state value p)
    (ParseToken_loop fuel state value (IStream past p true)).
Proof.
  induction p as [|c p IH]; intros fuel state value past Hf;
    (destruct fuel as [|fuel]; [simpl in Hf; lia|]); simpl in Hf.
  { destruct state; apply stream_at_return. }
  assert (forall value', stream_at past (c :: p) (scan_close value' p)
    match close_quote value' (IStream (c :: past) p true) with
    | Continue state' v => ParseToken_loop fuel state' v (IStream (c :: past) p true)
    | Return type v input => Ok (type, v, input)
    end) as Hclose.
  { intros value'. destruct (close_quote_scan (c :: past) p value') as (? & ? & ? & -> & ?).
    by apply stream_at_cons. }
  destruct state; cbn [ParseToken_loop scan good get pending consumed ParseToken_step];
    rewrite ?removelast_snoc;
    repeat match goal with |- context [if ?b then _ else _] => destruct b end;
    first [ apply Hclose | apply stream_at_return
          | apply stream_at_cons; first [ apply stream_at_return | apply IH; lia ] ].
Qed.

Lemma ParseToken_scan past p value :
  stream_at past p (scan TOKEN_STATE_INITIAL_WHITESPACE value p)
    (ParseToken (IStream past p true) value).
Proof. apply ParseToken_loop_scan. simpl. lia. Qed.

(** *** What remains after a token *)
Lemma scan_length p : forall state value,
  length (scan state value p).1.2 <= length p.
Proof.
  induction p as [|c p IH]; intros state value; [done|].
  assert (forall v, length (scan_close v p).1.2 <= S (length p)) as Hclose.
  { intros v. destruct p; simpl; [lia|]. case_match; simpl; lia. }
  assert (forall st v, length (scan st v p).1.2 <= S (length p)) as Hnext.
  { intros. etrans; [apply IH|lia]. }
  destruct state; cbn [scan];
    repeat match goal with |- context [if ?b then _ else _] => destruct b end;
    cbn [fst snd length]; first [apply Hclose | apply Hnext | lia].
Qed.

(** A token other than the end of the file consumes at least one byte. *)
Lemma next_token_length p :
  (next_token p).1.1.1 <> TOKEN_TYPE_EOF ->
  length (next_token p).1.2 < length p.
Proof.
  unfold next_token. induction p as [|c p IH]; [done|].
  assert (forall st v, length (scan st v p).1.2 < S (length p)) as Hnext.
  { intros. pose proof (scan_length p st v). lia. }
  cbn [scan].
  repeat match goal with |- context [if ?b then _ else _] => destruct b end;
    cbn [fst snd length]; intros; first [apply Hnext | lia].
Qed.

(** The stream ends exactly when the scanner ran into its end. *)
Lemma scan_not_good p : forall state value,
  (scan state value p).2 = false ->
  (scan state value p).1.2 = [] /\
  ((scan state value p).1.1.1 = TOKEN_TYPE_EOF \/
   (scan state value p).1.1.1 = TOKEN_TYPE_ERROR).
Proof.
  induction p as [|c p IH]; intros state value.
  { destruct state; simpl; auto. }
  assert (forall v, (scan_close v p).2 = false ->
    (scan_close v p).1.2 = [] /\ ((scan_close v p).1.1.1 = TOKEN_TYPE_EOF \/
      (scan_close v p).1.1.1 = TOKEN_TYPE_ERROR)) as Hclose.
  { intros v. destruct p; simpl; [auto|]. case_match; simpl; naive_solver. }
  destruct state; cbn [scan];
    repeat match goal with |- context [if ?b then _ else _] => destruct b end;
    cbn [fst snd]; first [done | apply Hclose | apply IH].
Qed.

(** *** Tokens as they are written *)
Definition is_blank (c : ascii) : bool :=
  (c =c " "%char) || (c =c TAB) || (c =c NL) || (c =c CR).

(** A character that a plain token cannot start with. *)
Definition is_start_special (c : ascii) : bool :=
  (c =c "{"%char) || (c =c "}"%char) || (c =c "#"%char) || (c =c DQUOTE) ||
  (c =c SQUOTE) || (c =c ";"%char) || is_blank c.

(** Texts that are read back as the token they are: a plain word, or a quoted
    word without inner quotes or backslashes. *)
Definition plain_token (t : str) : Prop :=
  match t with
  | [] => False
  | c :: w => is_start_special c = false /\ Forall (fun d => is_delimiter d = false) w
  end.

Definition quoted_token (t : str) : Prop :=
  exists q w, t = q :: w ++ [q] /\ (q = SQUOTE \/ q = DQUOTE) /\
    Forall (fun d => d <> q /\ d <> BACKSLASH) w.

Definition printable_token (t : str) : Prop := plain_token t \/ quoted_token t.

Lemma scan_blank c p value :
  is_blank c = true ->
  scan TOKEN_STATE_INITIAL_WHITESPACE value (c :: p) =
  scan TOKEN_STATE_INITIAL_WHITESPACE value p.
Proof.
  unfold is_blank. rewrite !orb_true_iff, !bool_decide_eq_true.
  by intros [[[-> | ->] | ->] | ->].
Qed.

Lemma next_token_blanks ws p :
  Forall (fun c => is_blank c = true) ws -> next_token (ws ++ p) = next_token p.
Proof.
  induction 1 as [|c ws Hc _ IH]; [done|]. simpl app.
  unfold next_token in *. by rewrite scan_blank.
Qed.

Lemma scan_plain w d p value :
  Forall (fun c => is_delimiter c = false) w -> is_delimiter d = true ->
  scan TOKEN_STATE_TOKEN_TYPE_NORMAL value (w ++ d :: p) =
  (TOKEN_TYPE_NORMAL, value ++ w, d :: p, true).
Proof.
  intros Hw Hd. revert value. induction Hw as [|c w Hc _ IH]; intros value; simpl.
  - by rewrite Hd, app_nil_r.
  - rewrite Hc, IH, <- app_assoc. done.
Qed.

(** The closing quote ends the token, in both quoting states. *)
Lemma scan_quoted q state w d p value :
  (q, state) = (SQUOTE, TOKEN_STATE_SINGLE_QUOTE) \/
  (q, state) = (DQUOTE, TOKEN_STATE_DOUBLE_QUOTE) ->
  Forall (fun d => d <> q /\ d <> BACKSLASH) w -> is_delimiter d = true ->
  scan state value (w ++ q :: d :: p) = (TOKEN_TYPE_NORMAL, value ++ w ++ [q], d :: p, true).
Proof.
  intros Hq Hw Hd. revert value. induction Hw as [|c w [Hc Hb] _ IH]; intros value.
  - destruct Hq as [[= -> ->]|[= -> ->]]; simpl; by rewrite Hd.
  - rewrite <- app_comm_cons. destruct Hq as [[= -> ->]|[= -> ->]]; cbn [scan];
      rewrite !bool_decide_false by done; rewrite IH, <- app_assoc; done.
Qed.

Lemma next_token_printable t d p :
  printable_token t -> is_delimiter d = true ->
  next_token (t ++ d :: p) = (TOKEN_TYPE_NORMAL, t, d :: p, true).
Proof.
  unfold next_token. intros [Ht|(q & w & -> & Hq & Hw)] Hd.
  - destruct t as [|c w]; [done|]. destruct Ht as [Hc Hw].
    unfold is_start_special, is_blank in Hc.
    rewrite !orb_false_iff, !bool_decide_eq_false in Hc.
    destruct_and!. rewrite <- app_comm_cons. cbn [scan].
    rewrite !bool_decide_false by done. cbn [orb]. by rewrite scan_plain.
  - replace ((q :: w ++ [q]) ++ d :: p) with (q :: w ++ q :: d :: p)
      by (simpl; by rewrite <- app_assoc).
    destruct Hq as [-> | ->].
    + apply (scan_quoted SQUOTE TOKEN_STATE_SINGLE_QUOTE w d p [SQUOTE]); auto.
    + apply (scan_quoted DQUOTE TOKEN_STATE_DOUBLE_QUOTE w d p [DQUOTE]); auto.
Qed.
