(* ===== verification/Parser.v ===== *)
(** * The configuration parser
      ([NginxConfigParser::Parse], [src/config_parser.cc])

    [Parse] as the code runs it, over a store of [NginxConfig] objects that
    its stack points into: the statement at the back of the block on top of
    the stack is updated in place, and a new block is reached both from its
    statement and from the stack.

    The file then gives the abstract parser: a zipper over the tree, run on
    the token sequence [lex] of the input.  [Refinement.v] proves that [Parse]
    implements it. *)

From S2P Require Import Prelude Cxx Config Tokenizer.
Local Open Scope str_scope.

(** ** The store *)
Abbreviation loc := nat.

(** An [NginxConfigStatement] in memory; [obj_child] is [child_block_]. *)
Record statement_object : Type := StatementObject {
  obj_tokens : list str;
  obj_child : option loc
}.

(** The [NginxConfig] objects: the statements of each, by address. *)
Record store : Type := Store {
  configs : gmap loc (list statement_object);
  next_loc : loc
}.

Definition update_configs (st : store) (l : loc) (objs : list statement_object) : store :=
  Store (<[l := objs]> (configs st)) (next_loc st).

(** [new NginxConfig] *)
Definition new_config (st : store) : loc * store :=
  (next_loc st, Store (<[next_loc st := []]> (configs st)) (S (next_loc st))).

(** [l->statements_.emplace_back(new NginxConfigStatement)] *)
Definition emplace_back (l : loc) (st : store) : outcome store :=
  objs ← deref (configs st !! l);
  Ok (update_configs st l (objs ++ [StatementObject [] None])).

Fixpoint modify_last {A} (f : A -> A) (l : list A) : list A :=
  match l with
  | [] => []
  | [x] => [f x]
  | x :: l' => x :: modify_last f l'
  end.

(** An update of [l->statements_.back()], undefined when there is none. *)
Definition modify_back (f : statement_object -> statement_object) (l : loc) (st : store) :
    outcome store :=
  objs ← deref (configs st !! l);
  match objs with
  | [] => Fault VectorOutOfRange
  | _ => Ok (update_configs st l (modify_last f objs))
  end.

(** [back()->tokens_.push_back(token)] and [back()->child_block_.reset(b)]. *)
Definition push_token (token : str) (s : statement_object) : statement_object :=
  StatementObject (obj_tokens s ++ [token]) (obj_child s).
Definition reset_child (b : loc) (s : statement_object) : statement_object :=
  StatementObject (obj_tokens s) (Some b).

(** ** [Parse] *)
Record parser : Type := Parser {
  heap : store;
  config_stack : list loc;
  last_token_type : TokenType
}.

Inductive parse_step : Type :=
  | Next (p : parser)                  (* next iteration *)
  | Done (valid : bool) (st : store).  (* [return true], or the code after [break] *)

Definition stack_top (p : parser) : outcome loc := deref (head (config_stack p)).

(** [last_token_type] is one of those after which a new token may come. *)
Definition token_allowed (last : TokenType) : bool :=
  bool_decide (last = TOKEN_TYPE_START) ||
  bool_decide (last = TOKEN_TYPE_STATEMENT_END) ||
  bool_decide (last = TOKEN_TYPE_START_BLOCK) ||
  bool_decide (last = TOKEN_TYPE_END_BLOCK) ||
  bool_decide (last = TOKEN_TYPE_NORMAL).

(** The body of [while (true)] after [ParseToken]. *)
Definition Parse_step (token_type : TokenType) (token : str) (p : parser) :
    outcome parse_step :=
  let last := last_token_type p in
  match token_type with
  | TOKEN_TYPE_ERROR => Ok (Done false (heap p))
  | TOKEN_TYPE_COMMENT => Ok (Next p)
  | TOKEN_TYPE_START => Ok (Done false (heap p))
  | TOKEN_TYPE_NORMAL =>
      if token_allowed last then
        l ← stack_top p;
        st ← (if bool_decide (last <> TOKEN_TYPE_NORMAL) then emplace_back l (heap p)
              else Ok (heap p));
        st' ← modify_back (push_token token) l st;
        Ok (Next (Parser st' (config_stack p) token_type))
      else Ok (Done false (heap p))
  | TOKEN_TYPE_STATEMENT_END =>
      if bool_decide (last <> TOKEN_TYPE_NORMAL) then Ok (Done false (heap p))
      else Ok (Next (Parser (heap p) (config_stack p) token_type))
  | TOKEN_TYPE_START_BLOCK =>
      if bool_decide (last <> TOKEN_TYPE_NORMAL) then Ok (Done false (heap p))
      else
        let '(new, st) := new_config (heap p) in
        l ← stack_top p;
        st' ← modify_back (reset_child new) l st;
        Ok (Next (Parser st' (new :: config_stack p) token_type))
  | TOKEN_TYPE_END_BLOCK =>
      if bool_decide (last <> TOKEN_TYPE_STATEMENT_END) &&
         bool_decide (last <> TOKEN_TYPE_START_BLOCK) &&
         bool_decide (last <> TOKEN_TYPE_END_BLOCK)
      then Ok (Done false (heap p))
      else
        let stack := tail (config_stack p) in
        if bool_decide (length stack = 0) then Ok (Done false (heap p))
        else Ok (Next (Parser (heap p) stack token_type))
  | TOKEN_TYPE_EOF =>
      if bool_decide (last <> TOKEN_TYPE_STATEMENT_END) &&
         bool_decide (last <> TOKEN_TYPE_END_BLOCK) &&
         bool_decide (last <> TOKEN_TYPE_START)
      then Ok (Done false (heap p))
      else if bool_decide (1 < length (config_stack p)) then Ok (Done false (heap p))
      else Ok (Done true (heap p))
  end.

Fixpoint Parse_loop (fuel : nat) (config_file : istream) (p : parser) :
    outcome (bool * store) :=
  match fuel with
  | O => Fault OutOfFuel
  | S fuel' =>
      '(token_type, token, config_file') ← ParseToken config_file [];
      step ← Parse_step token_type token p;
      match step with
      | Next p' => Parse_loop fuel' config_file' p'
      | Done valid st => Ok (valid, st)
      end
  end.

(** [Parse(config_file, config)] for the freshly constructed [*config] of every
    call in the program, at address [0].  Every token but the last consumes a
    byte, so the fuel suffices. *)
Definition Parse (config_file : istream) : outcome (bool * store) :=
  Parse_loop (S (length (pending config_file))) config_file
    (Parser (Store {[0 := []]} 1) [0] TOKEN_TYPE_START).

(** [Parse(file_name, config)]: [None] when the file cannot be opened. *)
Definition Parse_file (contents : option str) : outcome (bool * store) :=
  match contents with
  | None => Ok (false, Store {[0 := []]} 1)
  | Some text => Parse (stream_of text)
  end.

(** The tree of the [NginxConfig] at an address, read from the store. *)
Definition load_statement (load : loc -> outcome NginxConfig) (s : statement_object) :
    outcome NginxConfigStatement :=
  match obj_child s with
  | None => Ok (Statement (obj_tokens s) None)
  | Some l => b ← load l; Ok (Statement (obj_tokens s) (Some b))
  end.

Fixpoint load_statements (load : loc -> outcome NginxConfig) (objs : list statement_object) :
    outcome NginxConfig :=
  match objs with
  | [] => Ok []
  | s :: objs' =>
      s' ← load_statement load s;
      c ← load_statements load objs';
      Ok (s' :: c)
  end.

Fixpoint load_config (fuel : nat) (st : store) (l : loc) : outcome NginxConfig :=
  match fuel with
  | O => Fault OutOfFuel
  | S fuel' =>
      objs ← deref (configs st !! l);
      load_statements (load_config fuel' st) objs
  end.

(** What a caller of [Parse] sees: the returned [bool], and the configuration
    in [*config]. *)
Definition parsed (r : outcome (bool * store)) : outcome (bool * NginxConfig) :=
  '(valid, st) ← r;
  c ← load_config (next_loc st) st 0;
  Ok (valid, c).

Definition parse_string (text : str) : outcome (bool * NginxConfig) :=
  parsed (Parse (stream_of text)).

(** ** The abstract parser *)

(** The tokens of a text, up to the end of the file or the first error. *)
Fixpoint lex_loop (fuel : nat) (p : str) : list (TokenType * str) :=
  match fuel with
  | O => []
  | S fuel' =>
      let '(type, token, rest, _) := next_token p in
      (type, token) ::
        (if bool_decide (type = TOKEN_TYPE_EOF) || bool_decide (type = TOKEN_TYPE_ERROR)
         then [] else lex_loop fuel' rest)
  end.

Definition lex (text : str) : list (TokenType * str) := lex_loop (S (length text)) text.

(** The tree under construction: the block being read, and, innermost first,
    the blocks around it, each as its finished statements and the tokens of
    the statement that is still open. *)
Record zipper : Type := Zipper {
  focus : NginxConfig;
  context : list (NginxConfig * list str);
  last_type : TokenType
}.

Fixpoint plug (c : NginxConfig) (ctx : list (NginxConfig * list str)) : NginxConfig :=
  match ctx with
  | [] => c
  | (finished, ts) :: ctx' => plug (finished ++ [Statement ts (Some c)]) ctx'
  end.

Definition add_token (token : str) (s : NginxConfigStatement) : NginxConfigStatement :=
  Statement (tokens_ s ++ [token]) (child_block_ s).

Definition zipper_step (token_type : TokenType) (token : str) (z : zipper) :
    zipper + bool * NginxConfig :=
  let fail := inr (false, plug (focus z) (context z)) in
  match token_type, last_type z with
  | TOKEN_TYPE_COMMENT, _ => inl z
  | TOKEN_TYPE_NORMAL, TOKEN_TYPE_NORMAL =>
      inl (Zipper (modify_last (add_token token) (focus z)) (context z) token_type)
  | TOKEN_TYPE_NORMAL,
    (TOKEN_TYPE_START | TOKEN_TYPE_STATEMENT_END | TOKEN_TYPE_START_BLOCK | TOKEN_TYPE_END_BLOCK) =>
      inl (Zipper (focus z ++ [Statement [token] None]) (context z) token_type)
  | TOKEN_TYPE_STATEMENT_END, TOKEN_TYPE_NORMAL =>
      inl (Zipper (focus z) (context z) token_type)
  | TOKEN_TYPE_START_BLOCK, TOKEN_TYPE_NORMAL =>
      match last (focus z) with
      | Some s => inl (Zipper [] ((removelast (focus z), tokens_ s) :: context z) token_type)
      | None => fail
      end
  | TOKEN_TYPE_END_BLOCK,
    (TOKEN_TYPE_STATEMENT_END | TOKEN_TYPE_START_BLOCK | TOKEN_TYPE_END_BLOCK) =>
      match context z with
      | [] => fail
      | (finished, ts) :: ctx =>
          inl (Zipper (finished ++ [Statement ts (Some (focus z))]) ctx token_type)
      end
  | TOKEN_TYPE_EOF, (TOKEN_TYPE_STATEMENT_END | TOKEN_TYPE_END_BLOCK | TOKEN_TYPE_START) =>
      match context z with
      | [] => inr (true, focus z)
      | _ => fail
      end
  | _, _ => fail
  end.

Fixpoint run (tokens : list (TokenType * str)) (z : zipper) : bool * NginxConfig :=
  match tokens with
  | [] => (false, plug (focus z) (context z))
  | (type, token) :: tokens' =>
      match zipper_step type token z with
      | inl z' => run tokens' z'
      | inr r => r
      end
  end.

Definition abstract_parse (text : str) : bool * NginxConfig :=
  run (lex text) (Zipper [] [] TOKEN_TYPE_START).

(** ** Lemmas *)
Lemma modify_last_snoc {A} (f : A -> A) l x : modify_last f (l ++ [x]) = l ++ [f x].
Proof.
  induction l as [|y l IH]; [done|]. simpl. rewrite IH.
  destruct (l ++ [x]) eqn:E; [by destruct l|done].
Qed.

Lemma lex_loop_fuel f1 f2 p :
  length p < f1 -> length p < f2 -> lex_loop f1 p = lex_loop f2 p.
Proof.
  revert f2 p. induction f1 as [|f1 IH]; intros [|f2] p H1 H2; try lia. simpl.
  destruct (next_token p) as [[[type token] rest] g] eqn:Hn. f_equal.
  destruct (decide (type = TOKEN_TYPE_EOF)) as [->|Hne]; [done|].
  destruct (bool_decide (type = TOKEN_TYPE_EOF) || bool_decide (type = TOKEN_TYPE_ERROR)); [done|].
  pose proof (next_token_length p) as Hl. rewrite Hn in Hl. simpl in Hl.
  specialize (Hl Hne). apply IH; lia.
Qed.

Lemma lex_cons p :
  lex p = (next_token p).1.1 ::
    (if bool_decide ((next_token p).1.1.1 = TOKEN_TYPE_EOF) ||
        bool_decide ((next_token p).1.1.1 = TOKEN_TYPE_ERROR)
     then [] else lex (next_token p).1.2).
Proof.
  unfold lex at 1. simpl. pose proof (next_token_length p) as Hl.
  destruct (next_token p) as [[[type token] rest] g] eqn:Hn. simpl in *. f_equal.
  destruct (decide (type = TOKEN_TYPE_EOF)) as [->|Hne]; [done|].
  rewrite (bool_decide_false (type = TOKEN_TYPE_EOF)) by done. simpl.
  case_match; [done|]. specialize (Hl Hne). apply lex_loop_fuel; lia.
Qed.
