(* ===== verification/Refinement.v ===== *)
(** * [Parse] implements the abstract parser

    A separation-style relation between the store of [NginxConfig] objects
    and trees ([rep]), its extension to the stack of [Parse] ([rep_stack]),
    and the simulation: each iteration of [Parse] is a step of the zipper. *)

From S2P Require Import Prelude Cxx Config Tokenizer Parser.
Local Open Scope str_scope.

(** ** The representation relation

    [rep h l c fp]: the object at [l] holds the tree [c], and the objects of
    that tree are those at the addresses [fp]. *)
Inductive rep (h : gmap loc (list statement_object)) : loc -> NginxConfig -> gset loc -> Prop :=
  | rep_config l objs c fp :
      h !! l = Some objs -> rep_objs h objs c fp -> l ∉ fp ->
      rep h l c ({[l]} ∪ fp)
with rep_objs (h : gmap loc (list statement_object)) :
    list statement_object -> NginxConfig -> gset loc -> Prop :=
  | rep_objs_nil : rep_objs h [] [] ∅
  | rep_objs_leaf ts objs c fp :
      rep_objs h objs c fp ->
      rep_objs h (StatementObject ts None :: objs) (Statement ts None :: c) fp
  | rep_objs_block ts l b fpb objs c fp :
      rep h l b fpb -> rep_objs h objs c fp -> fpb ## fp ->
      rep_objs h (StatementObject ts (Some l) :: objs) (Statement ts (Some b) :: c) (fpb ∪ fp).

Scheme rep_mut := Minimality for rep Sort Prop
  with rep_objs_mut := Minimality for rep_objs Sort Prop.

(** [rep_context h l stack ctx fp]: [l] is the block of the last statement of
    the object on top of [stack], and so on down the stack. *)
Inductive rep_context (h : gmap loc (list statement_object)) :
    loc -> list loc -> list (NginxConfig * list str) -> gset loc -> Prop :=
  | rep_context_nil : rep_context h 0 [] [] ∅
  | rep_context_cons l l' stack objs ts finished ctx fp fpc :
      h !! l' = Some (objs ++ [StatementObject ts (Some l)]) ->
      rep_objs h objs finished fp ->
      rep_context h l' stack ctx fpc ->
      l' ∉ fp -> l' ∉ fpc -> fp ## fpc ->
      rep_context h l (l' :: stack) ((finished, ts) :: ctx) ({[l']} ∪ fp ∪ fpc).

(** The object on top of the stack, with the objects under construction. *)
Inductive rep_stack (st : store) : list loc -> NginxConfig -> list (NginxConfig * list str) -> Prop :=
  | rep_stack_intro l stack objs focus ctx fp fpc :
      configs st !! l = Some objs ->
      rep_objs (configs st) objs focus fp ->
      rep_context (configs st) l stack ctx fpc ->
      l ∉ fp -> l ∉ fpc -> fp ## fpc ->
      (forall l', l' ∈ {[l]} ∪ fp ∪ fpc -> l' < next_loc st) ->
      rep_stack st (l :: stack) focus ctx.

(** The state of [Parse] that the zipper abstracts; after a token of a
    statement, that statement is at the back of the block. *)
Definition rep_parser (p : parser) (z : zipper) : Prop :=
  rep_stack (heap p) (config_stack p) (focus z) (context z) /\
  last_token_type p = last_type z /\
  (last_type z = TOKEN_TYPE_NORMAL ->
   exists c ts, focus z = c ++ [Statement ts None]) /\
  last_type z <> TOKEN_TYPE_COMMENT /\ last_type z <> TOKEN_TYPE_EOF /\
  last_type z <> TOKEN_TYPE_ERROR.

(** ** The frame property *)
Lemma rep_frame h l0 objs0 :
  (forall l c fp, rep h l c fp -> l0 ∉ fp -> rep (<[l0 := objs0]> h) l c fp) /\
  (forall objs c fp, rep_objs h objs c fp -> l0 ∉ fp -> rep_objs (<[l0 := objs0]> h) objs c fp).
Proof.
  split.
  - apply (rep_mut h (fun l c fp => l0 ∉ fp -> rep (<[l0 := objs0]> h) l c fp)
      (fun objs c fp => l0 ∉ fp -> rep_objs (<[l0 := objs0]> h) objs c fp));
      intros; try by constructor.
    + apply rep_config with objs; [|set_solver|done].
      rewrite lookup_insert_ne by set_solver. done.
    + constructor; set_solver.
    + constructor; set_solver.
  - apply (rep_objs_mut h (fun l c fp => l0 ∉ fp -> rep (<[l0 := objs0]> h) l c fp)
      (fun objs c fp => l0 ∉ fp -> rep_objs (<[l0 := objs0]> h) objs c fp));
      intros; try by constructor.
    + apply rep_config with objs; [|set_solver|done].
      rewrite lookup_insert_ne by set_solver. done.
    + constructor; set_solver.
    + constructor; set_solver.
Qed.

Lemma rep_objs_frame h l0 objs0 objs c fp :
  rep_objs h objs c fp -> l0 ∉ fp -> rep_objs (<[l0 := objs0]> h) objs c fp.
Proof. apply rep_frame. Qed.

Lemma rep_context_frame h l0 objs0 l stack ctx fp :
  rep_context h l stack ctx fp -> l0 ∉ fp ->
  rep_context (<[l0 := objs0]> h) l stack ctx fp.
Proof.
  induction 1 as [|l l' stack objs ts finished ctx fp fpc Hl Hobjs _ IH];
    intros Hl0; [constructor|].
  eapply rep_context_cons; [|by apply rep_objs_frame; [|set_solver]|apply IH|..];
    [|set_solver..].
  rewrite lookup_insert_ne by set_solver. done.
Qed.

Lemma rep_objs_app h objs1 objs2 c1 c2 fp1 fp2 :
  rep_objs h objs1 c1 fp1 -> rep_objs h objs2 c2 fp2 -> fp1 ## fp2 ->
  rep_objs h (objs1 ++ objs2) (c1 ++ c2) (fp1 ∪ fp2).
Proof.
  intros H1 H2. induction H1 as [|ts objs c fp H1 IH|ts l b fpb objs c fp Hb H1 IH Hd];
    intros Hdis; simpl.
  - by rewrite (left_id_L ∅ (∪)).
  - constructor. set_solver.
  - rewrite <- (assoc_L (∪)). constructor; [done| |]; set_solver.
Qed.

(** A block without a child at its back: the shape [NORMAL] tokens update. *)
Lemma rep_objs_snoc_leaf h objs c ts fp :
  rep_objs h objs (c ++ [Statement ts None]) fp ->
  exists objs', objs = objs' ++ [StatementObject ts None] /\ rep_objs h objs' c fp.
Proof.
  revert objs fp. induction c as [|s c IH]; intros objs fp H; simpl in H.
  - inversion H as [|? ? ? ? H'|]; subst. inversion H'; subst.
    exists []. by split; [|constructor].
  - inversion H as [|ts' objs' c' fp' H'|ts' l b fpb objs' c' fp' Hb H' Hd]; subst.
    + destruct (IH _ _ H') as (objs'' & -> & Ho).
      eexists (_ :: objs''). by split; [|constructor].
    + destruct (IH _ _ H') as (objs'' & -> & Ho).
      eexists (_ :: objs''). by split; [|constructor].
Qed.

(** ** The steps of [Parse] on represented stores *)

(** An update of the block on top of the stack, within its own objects. *)
Lemma rep_stack_update st l stack objs objs' focus focus' ctx :
  configs st !! l = Some objs ->
  (forall fp, rep_objs (configs st) objs focus fp -> rep_objs (configs st) objs' focus' fp) ->
  rep_stack st (l :: stack) focus ctx ->
  rep_stack (update_configs st l objs') (l :: stack) focus' ctx.
Proof.
  intros Hl Hupd H. inversion H as [? ? objs0 ? ? fp fpc Hl' Hobjs Hctx ? ? ? Hlt]; subst.
  simplify_eq. apply rep_stack_intro with objs' fp fpc; try done; simpl.
  - apply lookup_insert_eq.
  - apply rep_objs_frame; [by apply Hupd|done].
  - by apply rep_context_frame.
Qed.

Lemma rep_stack_top st l stack focus ctx :
  rep_stack st (l :: stack) focus ctx ->
  exists objs fp, configs st !! l = Some objs /\ rep_objs (configs st) objs focus fp.
Proof. inversion 1; eauto. Qed.

(** A [NORMAL] token that starts a statement. *)
Lemma new_statement_sim st l stack focus ctx token :
  rep_stack st (l :: stack) focus ctx ->
  exists st1 st2, emplace_back l st = Ok st1 /\
    modify_back (push_token token) l st1 = Ok st2 /\
    rep_stack st2 (l :: stack) (focus ++ [Statement [token] None]) ctx.
Proof.
  intros H. destruct (rep_stack_top _ _ _ _ _ H) as (objs & fp0 & Hl & _).
  unfold emplace_back, modify_back. rewrite Hl. simpl. eexists _, _. split; [done|].
  unfold update_configs at 1. simpl. rewrite lookup_insert_eq. simpl.
  rewrite modify_last_snoc. split; [by destruct objs|].
  unfold update_configs. simpl. rewrite insert_insert_eq.
  apply (rep_stack_update st l stack objs _ focus); [done| |done].
  intros fp Hobjs. rewrite <- (right_id_L ∅ (∪) fp).
  apply rep_objs_app; [done|repeat constructor|set_solver].
Qed.

(** A [NORMAL] token that continues a statement. *)
Lemma push_token_sim st l stack c ts ctx token :
  rep_stack st (l :: stack) (c ++ [Statement ts None]) ctx ->
  exists st', modify_back (push_token token) l st = Ok st' /\
    rep_stack st' (l :: stack) (c ++ [Statement (ts ++ [token]) None]) ctx.
Proof.
  intros H. destruct (rep_stack_top _ _ _ _ _ H) as (objs & fp0 & Hl & Hobjs0).
  destruct (rep_objs_snoc_leaf _ _ _ _ _ Hobjs0) as (objs' & -> & _).
  unfold modify_back. rewrite Hl. cbn [deref mbind outcome_bind].
  rewrite modify_last_snoc. eexists. split; [by destruct objs'|].
  apply (rep_stack_update st l stack _ _ (c ++ [Statement ts None]) _ _ Hl); [|done].
  intros fp Hobjs. destruct (rep_objs_snoc_leaf _ _ _ _ _ Hobjs) as (objs'' & Heq & Ho).
  apply app_inj_tail in Heq as [<- _]. rewrite <- (right_id_L ∅ (∪) fp).
  apply rep_objs_app; [done|repeat constructor|set_solver].
Qed.

(** A [START_BLOCK]: the new object becomes the child and the stack top. *)
Lemma start_block_sim st l stack c ts ctx :
  rep_stack st (l :: stack) (c ++ [Statement ts None]) ctx ->
  exists st', modify_back (reset_child (next_loc st)) l (new_config st).2 = Ok st' /\
    rep_stack st' (next_loc st :: l :: stack) [] ((c, ts) :: ctx).
Proof.
  intros H. inversion H as [? ? objs ? ? fp fpc Hl Hobjs Hctx Hfp Hfpc Hd Hlt]; subst.
  destruct (rep_objs_snoc_leaf _ _ _ _ _ Hobjs) as (objs' & -> & Hobjs').
  assert (next_loc st ∉ {[l]} ∪ fp ∪ fpc) as Hfresh.
  { intros Hin%Hlt. lia. }
  unfold modify_back. simpl. rewrite lookup_insert_ne by set_solver. rewrite Hl.
  cbn [deref mbind outcome_bind]. rewrite modify_last_snoc. eexists. split; [by destruct objs'|].
  apply rep_stack_intro with [] ∅ ({[l]} ∪ fp ∪ fpc); unfold update_configs; simpl.
  - rewrite lookup_insert_ne by set_solver. apply lookup_insert_eq.
  - constructor.
  - apply rep_context_cons with objs'; try done.
    + by rewrite lookup_insert_eq.
    + do 2 (apply rep_objs_frame; [|set_solver]). done.
    + do 2 (apply rep_context_frame; [|set_solver]). done.
  - apply not_elem_of_empty.
  - done.
  - apply disjoint_empty_l.
  - intros l' [[->%elem_of_singleton|Hin]%elem_of_union|Hin%Hlt]%elem_of_union; [lia| |lia].
    by apply not_elem_of_empty in Hin.
Qed.

(** An [END_BLOCK] that closes a block other than the outermost one. *)
Lemma end_block_sim st l l' stack focus finished ts ctx :
  rep_stack st (l :: l' :: stack) focus ((finished, ts) :: ctx) ->
  rep_stack st (l' :: stack) (finished ++ [Statement ts (Some focus)]) ctx.
Proof.
  intros H. inversion H as [? ? objs ? ? fp fpc Hl Hobjs Hctx Hfp Hfpc Hd Hlt]; subst.
  inversion Hctx as [|? ? ? objs' ? ? ? fp' fpc' Hl' Hobjs' Hctx' ? ? ?]; subst.
  apply rep_stack_intro with (objs' ++ [StatementObject ts (Some l)])
    (fp' ∪ (({[l]} ∪ fp) ∪ ∅)) fpc';
    [done| |done|clear Hlt; set_solver..|].
  - apply rep_objs_app; [done| |set_solver].
    apply rep_objs_block; [by apply rep_config with objs|constructor|set_solver].
  - intros l'' Hl''. apply Hlt. set_solver.
Qed.

Lemma rep_stack_length st stack focus ctx :
  rep_stack st stack focus ctx -> length stack = S (length ctx).
Proof.
  inversion 1 as [l stack' objs ? ? fp fpc Hl Hobjs Hctx Hfp Hfpc Hd Hlt]; subst.
  simpl. f_equal. clear -Hctx. induction Hctx; simpl; lia.
Qed.

(** The whole tree, from the object at address 0. *)
Definition represents (st : store) (c : NginxConfig) : Prop :=
  exists fp, rep (configs st) 0 c fp /\ forall l, l ∈ fp -> l < next_loc st.

Lemma rep_stack_plug st stack focus ctx :
  rep_stack st stack focus ctx -> represents st (plug focus ctx).
Proof.
  revert stack focus. induction ctx as [|[finished ts] ctx IH]; intros stack focus H.
  - inversion H as [l stack' objs ? ? fp fpc Hl Hobjs Hctx Hfp Hfpc Hd Hlt]; subst.
    inversion Hctx; subst. simpl. exists ({[0]} ∪ fp).
    split; [by apply rep_config with objs|]. intros l Hin. apply Hlt. set_solver.
  - simpl. inversion H as [l stack' objs ? ? fp fpc Hl Hobjs Hctx]; subst.
    inversion Hctx; subst. by eapply IH, end_block_sim.
Qed.

(** ** The simulation *)
Definition step_agrees (o : outcome parse_step) (r : zipper + bool * NginxConfig) : Prop :=
  match r with
  | inl z' => exists p', o = Ok (Next p') /\ rep_parser p' z'
  | inr (valid, c) => exists st, o = Ok (Done valid st) /\ represents st c
  end.

Lemma fail_agrees p z :
  rep_parser p z ->
  step_agrees (Ok (Done false (heap p))) (inr (false, plug (focus z) (context z))).
Proof. intros [H _]. exists (heap p). split; [done|]. by apply rep_stack_plug in H. Qed.

Lemma rep_parser_top p z :
  rep_parser p z -> exists l stack, config_stack p = l :: stack /\ stack_top p = Ok l.
Proof.
  intros [H _]. unfold stack_top. destruct H as [l stack]. by exists l, stack.
Qed.

Lemma normal_sim token p z :
  rep_parser p z ->
  step_agrees (Parse_step TOKEN_TYPE_NORMAL token p) (zipper_step TOKEN_TYPE_NORMAL token z).
Proof.
  intros Hp. destruct (rep_parser_top p z Hp) as (l & stack & Hstack & Htop).
  destruct p as [st stk last], z as [focus ctx last']. simpl in *. subst stk.
  destruct Hp as (H & Hlast & Hshape & Hne). simpl in *. subst last'.
  unfold Parse_step. simpl. clear Htop.
  assert (forall st2, rep_stack st2 (l :: stack) (focus ++ [Statement [token] None]) ctx ->
    rep_parser (Parser st2 (l :: stack) TOKEN_TYPE_NORMAL)
      (Zipper (focus ++ [Statement [token] None]) ctx TOKEN_TYPE_NORMAL)) as Hnew.
  { intros st2 H2. split_and!; simpl; [done|done| |done..]. eauto. }
  destruct last; try (by destruct_and!); unfold zipper_step; cbn [last_type step_agrees].
  2: { destruct Hshape as (c & ts & ->); [done|].
       destruct (push_token_sim st l stack c ts ctx token H) as (st' & Hst' & H').
       simpl. rewrite Hst'. simpl. eexists. split; [done|]. rewrite modify_last_snoc.
       split_and!; simpl; [done|done| |done..]. eauto. }
  all: destruct (new_statement_sim st l stack focus ctx token H) as (st1 & st2 & H1 & H2 & H3);
    simpl; rewrite H1; simpl; rewrite H2; simpl; eauto.
Qed.

Lemma start_block_step_sim token p z :
  rep_parser p z ->
  step_agrees (Parse_step TOKEN_TYPE_START_BLOCK token p)
    (zipper_step TOKEN_TYPE_START_BLOCK token z).
Proof.
  intros Hp. pose proof (fail_agrees p z Hp) as Hfail.
  destruct (rep_parser_top p z Hp) as (l & stack & Hstack & Htop).
  unfold Parse_step. rewrite Htop.
  destruct p as [st stk last], z as [focus ctx last']. simpl in *. subst stk.
  destruct Hp as (H & Hlast & Hshape & Hne). simpl in *. subst last'.
  destruct last; try apply Hfail. destruct Hshape as (c & ts & ->); [done|].
  destruct (start_block_sim st l stack c ts ctx H) as (st' & Hst' & H').
  simpl in *. rewrite Hst'. rewrite last_snoc, removelast_snoc. simpl.
  eexists. split; [done|]. split_and!; simpl; done.
Qed.

Lemma end_block_step_sim token p z :
  rep_parser p z ->
  step_agrees (Parse_step TOKEN_TYPE_END_BLOCK token p)
    (zipper_step TOKEN_TYPE_END_BLOCK token z).
Proof.
  intros Hp. pose proof (fail_agrees p z Hp) as Hfail.
  destruct (rep_parser_top p z Hp) as (l & stack & Hstack & Htop).
  unfold Parse_step.
  destruct p as [st stk last], z as [focus ctx last']. simpl in *. subst stk.
  destruct Hp as (H & Hlast & Hshape & Hne). simpl in *. subst last'.
  pose proof (rep_stack_length _ _ _ _ H) as Hlen. simpl in Hlen.
  destruct last; try apply Hfail; simpl;
    (destruct ctx as [|[finished ts] ctx];
     [rewrite bool_decide_true by (simpl in *; lia); apply Hfail|];
     rewrite bool_decide_false by (simpl in *; lia);
     destruct stack as [|l' stack]; [done|];
     eexists; split; [done|]; split_and!; simpl; [by eapply end_block_sim|done..]).
Qed.

Lemma eof_sim token p z :
  rep_parser p z ->
  step_agrees (Parse_step TOKEN_TYPE_EOF token p) (zipper_step TOKEN_TYPE_EOF token z).
Proof.
  intros Hp. pose proof (fail_agrees p z Hp) as Hfail.
  unfold Parse_step.
  destruct p as [st stk last], z as [focus ctx last'].
  destruct Hp as (H & Hlast & Hshape & Hne). simpl in *. subst last'.
  pose proof (rep_stack_length _ _ _ _ H) as Hlen.
  destruct last; try apply Hfail; simpl;
    (destruct ctx as [|fr ctx]; simpl in Hlen;
     [rewrite bool_decide_false by lia; eexists; split; [done|]; by apply rep_stack_plug in H
     |rewrite bool_decide_true by lia; apply Hfail]).
Qed.

Lemma Parse_step_sim type token p z :
  rep_parser p z ->
  step_agrees (Parse_step type token p) (zipper_step type token z).
Proof.
  intros Hp. destruct type.
  - exact (fail_agrees p z Hp).
  - by apply normal_sim.
  - by apply start_block_step_sim.
  - by apply end_block_step_sim.
  - by exists p.
  - pose proof (fail_agrees p z Hp) as Hfail. unfold Parse_step.
    destruct p as [st stk last], z as [focus ctx last'].
    destruct Hp as (H & Hlast & Hshape & Hne). simpl in *. subst last'.
    destruct last; try apply Hfail. simpl. eexists. split; [done|]. split_and!; simpl; done.
  - by apply eof_sim.
  - exact (fail_agrees p z Hp).
Qed.

(** The last token stops the parser. *)
Lemma zipper_step_last type token z :
  type = TOKEN_TYPE_EOF \/ type = TOKEN_TYPE_ERROR -> exists r, zipper_step type token z = inr r.
Proof.
  destruct z as [focus ctx last]. intros [-> | ->]; [|by eexists].
  destruct last; try by eexists; destruct ctx; by eexists.
  all: simpl; destruct ctx; by eexists.
Qed.

Lemma run_lex_cons p z :
  run (lex p) z =
  match zipper_step (next_token p).1.1.1 (next_token p).1.1.2 z with
  | inl z' => run (lex (next_token p).1.2) z'
  | inr r => r
  end.
Proof.
  rewrite lex_cons. destruct (next_token p) as [[[type token] rest] g]. simpl.
  destruct (zipper_step type token z) as [z'|r] eqn:Hz; [|done].
  destruct (bool_decide (type = TOKEN_TYPE_EOF) || bool_decide (type = TOKEN_TYPE_ERROR)) eqn:Hb;
    [|done].
  rewrite orb_true_iff, !bool_decide_eq_true in Hb.
  destruct (zipper_step_last type token z Hb) as [r Hr]. congruence.
Qed.

Lemma Parse_loop_sim fuel past text p z :
  length text < fuel -> rep_parser p z ->
  exists st, Parse_loop fuel (IStream past text true) p = Ok ((run (lex text) z).1, st) /\
    represents st (run (lex text) z).2.
Proof.
  revert past text p z. induction fuel as [|fuel IH]; intros past text p z Hf Hp; [lia|].
  destruct (ParseToken_scan past text []) as (past' & Htok & _).
  fold (next_token text) in Htok.
  cbn [Parse_loop]. rewrite Htok, run_lex_cons.
  pose proof (next_token_length text) as Hlen.
  pose proof (scan_not_good text TOKEN_STATE_INITIAL_WHITESPACE []) as Hgood.
  fold (next_token text) in Hgood.
  destruct (next_token text) as [[[type token] rest] g]. simpl in *.
  pose proof (Parse_step_sim type token p z Hp) as Hstep.
  destruct (zipper_step type token z) as [z'|[valid c]] eqn:Hz.
  - destruct Hstep as (p' & -> & Hp'). simpl.
    assert (type <> TOKEN_TYPE_EOF /\ type <> TOKEN_TYPE_ERROR) as [Hne1 Hne2].
    { split; intros ->; [destruct (zipper_step_last TOKEN_TYPE_EOF token z)
        |destruct (zipper_step_last TOKEN_TYPE_ERROR token z)]; auto; congruence. }
    destruct g; [|destruct Hgood as [_ []]; done].
    apply IH; [specialize (Hlen Hne1); lia|done].
  - destruct Hstep as (st & -> & Hst). simpl. by exists st.
Qed.

(** ** Reading the tree back *)
Lemma load_rep st n :
  forall l c fp, rep (configs st) l c fp -> size fp <= n -> load_config n st l = Ok c.
Proof.
  induction n as [|n IH]; intros l c fp Hrep Hn.
  - inversion Hrep; subst. rewrite size_union, size_singleton in Hn by set_solver. lia.
  - inversion Hrep as [? objs ? fp' Hl Hobjs Hnin]; subst.
    rewrite size_union, size_singleton in Hn by set_solver.
    simpl. rewrite Hl. simpl. assert (size fp' <= n) as Hn' by lia. clear Hn Hrep Hl Hnin.
    induction Hobjs as [|ts objs c fp' Hobjs IHo|ts l' b fpb objs c fp' Hb Hobjs IHo Hd]; simpl.
    + done.
    + by rewrite IHo.
    + rewrite size_union in Hn' by done.
      unfold load_statement. simpl.
      rewrite (IH l' b fpb) by (done || lia). simpl. rewrite IHo by lia. done.
Qed.

Lemma represents_load st c : represents st c -> load_config (next_loc st) st 0 = Ok c.
Proof.
  intros (fp & Hrep & Hlt). apply load_rep with fp; [done|].
  rewrite <- (size_set_seq 0 (next_loc st) (C:=gset nat)).
  apply subseteq_size. intros l Hl. apply elem_of_set_seq. specialize (Hlt l Hl). lia.
Qed.

Lemma rep_parser_init :
  rep_parser (Parser (Store {[0 := []]} 1) [0] TOKEN_TYPE_START) (Zipper [] [] TOKEN_TYPE_START).
Proof.
  split_and!; try done. simpl. apply rep_stack_intro with [] ∅ ∅; simpl.
  - apply lookup_singleton_eq.
  - constructor.
  - constructor.
  - apply not_elem_of_empty.
  - apply not_elem_of_empty.
  - apply disjoint_empty_l.
  - intros l' Hl'. apply elem_of_union in Hl' as [Hl'|?%not_elem_of_empty]; [|done].
    apply elem_of_union in Hl' as [->%elem_of_singleton|?%not_elem_of_empty]; [lia|done].
Qed.

Lemma parse_string_abstract text : parse_string text = Ok (abstract_parse text).
Proof.
  unfold parse_string, Parse, parsed, abstract_parse, stream_of. simpl pending.
  destruct (Parse_loop_sim (S (length text)) [] text _ _ (Nat.lt_succ_diag_r _) rep_parser_init)
    as (st & -> & Hst).
  simpl. rewrite (represents_load st _ Hst). simpl. by destruct (run _ _).
Qed.

Lemma Parse_returns text :
  exists valid st, Parse (stream_of text) = Ok (valid, st).
Proof.
  destruct (Parse_loop_sim (S (length text)) [] text _ _ (Nat.lt_succ_diag_r _) rep_parser_init)
    as (st & Heq & _). unfold Parse, stream_of. simpl pending. rewrite Heq. eauto.
Qed.
