(* ===== verification/Grammar.v ===== *)
(** * The language of configuration files

    The grammar the parser accepts, as the token sequence [config_tokens] of
    a tree; soundness and completeness of the abstract parser for it; and the
    round trip through [ToString]. *)

From S2P Require Import Prelude Cxx Config Tokenizer Parser.
Local Open Scope str_scope.

(** ** The tokens of a tree *)
Fixpoint statement_tokens (s : NginxConfigStatement) : list (TokenType * str) :=
  map (pair TOKEN_TYPE_NORMAL) (tokens_ s) ++
  match child_block_ s with
  | None => [(TOKEN_TYPE_STATEMENT_END, ";")]
  | Some c =>
      (TOKEN_TYPE_START_BLOCK, "{") ::
      concat (map statement_tokens c) ++ [(TOKEN_TYPE_END_BLOCK, "}")]
  end.

Definition config_tokens (c : NginxConfig) : list (TokenType * str) :=
  concat (map statement_tokens c).

(** The tokens of a text without its comments. *)
Definition significant (l : list (TokenType * str)) : list (TokenType * str) :=
  filter (fun t => t.1 <> TOKEN_TYPE_COMMENT) l.

(** A configuration whose tokens are read back as they are printed. *)
Definition printable_statement (s : NginxConfigStatement) : Prop :=
  tokens_ s <> [] /\ Forall printable_token (tokens_ s).
Definition printable (c : NginxConfig) : Prop := Forall (deep printable_statement) c.

(** The text of the tokens that always have the same one. *)
Definition text_ok (t : TokenType * str) : Prop :=
  match t.1 with
  | TOKEN_TYPE_STATEMENT_END => t.2 = ";"
  | TOKEN_TYPE_START_BLOCK => t.2 = "{"
  | TOKEN_TYPE_END_BLOCK => t.2 = "}"
  | _ => True
  end.

(** A token sequence that ends with its only end-of-file or error token. *)
Inductive complete : list (TokenType * str) -> Prop :=
  | complete_last type token :
      type = TOKEN_TYPE_EOF \/ type = TOKEN_TYPE_ERROR -> complete [(type, token)]
  | complete_cons type token l :
      type <> TOKEN_TYPE_EOF -> type <> TOKEN_TYPE_ERROR -> complete l ->
      complete ((type, token) :: l).

(** ** Lemmas on token sequences *)
Lemma scan_text p : forall state value, text_ok (scan state value p).1.1.
Proof.
  induction p as [|c p IH]; intros state value; [by destruct state|].
  assert (forall v, text_ok (scan_close v p).1.1) as Hclose.
  { intros v. destruct p; simpl; [done|]. by case_match. }
  destruct state; cbn [scan]; repeat case_bool_decide; subst;
    repeat match goal with |- context [if ?b then _ else _] => destruct b end;
    cbn [fst snd]; first [done | apply Hclose | apply IH].
Qed.

Lemma lex_ind (P : str -> list (TokenType * str) -> Prop) :
  (forall p, (next_token p).1.1.1 = TOKEN_TYPE_EOF \/ (next_token p).1.1.1 = TOKEN_TYPE_ERROR ->
    P p [(next_token p).1.1]) ->
  (forall p l, (next_token p).1.1.1 <> TOKEN_TYPE_EOF -> (next_token p).1.1.1 <> TOKEN_TYPE_ERROR ->
    P (next_token p).1.2 l -> P p ((next_token p).1.1 :: l)) ->
  forall p, P p (lex p).
Proof.
  intros Hlast Hcons p. assert (exists n, length p < n) as [n Hn] by (exists (S (length p)); lia).
  revert p Hn. induction n as [|n IH]; intros p Hn; [lia|].
  rewrite lex_cons. case_match eqn:Hb.
  - apply Hlast. by rewrite orb_true_iff, !bool_decide_eq_true in Hb.
  - rewrite orb_false_iff, !bool_decide_eq_false in Hb. destruct Hb as [H1 H2].
    apply Hcons; [done..|]. apply IH. pose proof (next_token_length p H1). lia.
Qed.

Lemma lex_complete p : complete (lex p).
Proof.
  apply (lex_ind (fun _ l => complete l)); clear p.
  - intros p Hp. destruct (next_token p).1.1. by apply complete_last.
  - intros p l H1 H2 Hl. destruct (next_token p).1.1. by apply complete_cons.
Qed.

Lemma lex_text_ok p : Forall text_ok (lex p).
Proof.
  apply (lex_ind (fun _ l => Forall text_ok l)); clear p.
  - intros p _. repeat constructor. apply scan_text.
  - intros p l _ _ Hl. constructor; [apply scan_text|done].
Qed.

Lemma significant_cons type token l :
  significant ((type, token) :: l) =
  if bool_decide (type = TOKEN_TYPE_COMMENT) then significant l
  else (type, token) :: significant l.
Proof.
  unfold significant. rewrite filter_cons. simpl.
  repeat case_decide; case_bool_decide; naive_solver.
Qed.

Lemma run_significant l z : run (significant l) z = run l z.
Proof.
  revert z. induction l as [|[type token] l IH]; intros z; [done|].
  rewrite significant_cons. case_bool_decide as Hc.
  - subst. rewrite IH. by destruct z.
  - simpl. destruct (zipper_step type token z); [apply IH|done].
Qed.

Lemma significant_complete l : complete l -> complete (significant l).
Proof.
  induction 1 as [type token Ht|type token l H1 H2 _ IH]; rewrite significant_cons.
  - rewrite bool_decide_false by (by destruct Ht as [-> | ->]). by constructor.
  - case_bool_decide; [done|]. by constructor.
Qed.

Lemma significant_text_ok l : Forall text_ok l -> Forall text_ok (significant l).
Proof.
  induction 1 as [|[type token] l Ht _ IH]; [constructor|].
  rewrite significant_cons. case_bool_decide; [done|]. by constructor.
Qed.

Lemma config_tokens_app c1 c2 : config_tokens (c1 ++ c2) = config_tokens c1 ++ config_tokens c2.
Proof. unfold config_tokens. by rewrite map_app, concat_app. Qed.

Lemma config_tokens_singleton s : config_tokens [s] = statement_tokens s.
Proof. unfold config_tokens. simpl. apply app_nil_r. Qed.

Lemma statement_tokens_block ts c :
  statement_tokens (Statement ts (Some c)) =
  map (pair TOKEN_TYPE_NORMAL) ts ++
  (TOKEN_TYPE_START_BLOCK, "{") :: config_tokens c ++ [(TOKEN_TYPE_END_BLOCK, "}")].
Proof. done. Qed.

(** ** Soundness: an accepted text is in the language *)

(** The tokens read so far, in terms of the zipper. *)
Fixpoint context_tokens (ctx : list (NginxConfig * list str)) : list (TokenType * str) :=
  match ctx with
  | [] => []
  | (finished, ts) :: ctx' =>
      context_tokens ctx' ++ config_tokens finished ++ map (pair TOKEN_TYPE_NORMAL) ts ++
      [(TOKEN_TYPE_START_BLOCK, "{")]
  end.

Definition wf_context (ctx : list (NginxConfig * list str)) : Prop :=
  Forall (fun fr => wf_config fr.1 /\ fr.2 <> []) ctx.

Definition read (z : zipper) (done_tokens : list (TokenType * str)) : Prop :=
  wf_config (focus z) /\ wf_context (context z) /\
  match last_type z with
  | TOKEN_TYPE_NORMAL =>
      exists c ts, focus z = c ++ [Statement ts None] /\
        done_tokens = context_tokens (context z) ++ config_tokens c ++
          map (pair TOKEN_TYPE_NORMAL) ts
  | _ => done_tokens = context_tokens (context z) ++ config_tokens (focus z)
  end.

Lemma wf_config_app c1 c2 : wf_config (c1 ++ c2) <-> wf_config c1 /\ wf_config c2.
Proof. apply Forall_app. Qed.

Lemma wf_config_singleton s : wf_config [s] <-> deep has_tokens s.
Proof. unfold wf_config. rewrite Forall_singleton. done. Qed.

Lemma read_step z dt type token z' :
  read z dt -> text_ok (type, token) -> type <> TOKEN_TYPE_COMMENT ->
  zipper_step type token z = inl z' -> read z' (dt ++ [(type, token)]).
Proof.
  destruct z as [f ctx lt]. unfold read. simpl.
  intros (Hf & Hctx & Hdt) Htext Hcomment Hstep.
  unfold text_ok in Htext.
  destruct type; try done; simpl in Htext; subst.
  - (* NORMAL *)
    assert (forall dt', dt' = context_tokens ctx ++ config_tokens f ->
      wf_config (f ++ [Statement [token] None]) /\ wf_context ctx /\
      exists c ts, f ++ [Statement [token] None] = c ++ [Statement ts None] /\
        dt' ++ [(TOKEN_TYPE_NORMAL, token)] = context_tokens ctx ++ config_tokens c ++
          map (pair TOKEN_TYPE_NORMAL) ts) as Hnew.
    { intros dt' ->. split_and!; [|done|].
      - apply wf_config_app. split; [done|]. apply wf_config_singleton; by constructor.
      - exists f, [token]. split; [done|]. by rewrite <- app_assoc. }
    destruct lt; simplify_eq/=; try by apply Hnew.
    destruct Hdt as (c & ts & -> & ->). rewrite modify_last_snoc.
    apply wf_config_app in Hf as [Hc Hts]. split_and!; [|done|].
    + apply wf_config_app. split; [done|]. apply wf_config_singleton. constructor.
      unfold has_tokens. simpl. by destruct ts.
    + exists c, (ts ++ [token]). split; [done|]. rewrite map_app, <- !app_assoc. done.
  - (* START_BLOCK *)
    destruct lt; simplify_eq/=; try (repeat case_match; by simplify_eq/=).
    destruct Hdt as (c & ts & -> & ->). rewrite last_snoc, removelast_snoc in Hstep.
    simplify_eq/=. apply wf_config_app in Hf as [Hc Hts%wf_config_singleton].
    split_and!; [constructor| |].
    + constructor; [|done]. split; [done|]. by apply deep_inv in Hts.
    + change (config_tokens []) with (@nil (TokenType * str)).
      by rewrite app_nil_r, <- !app_assoc.
  - (* END_BLOCK *)
    destruct lt; simplify_eq/=; destruct ctx as [|[finished ts] ctx]; simplify_eq/=;
      (apply Forall_cons in Hctx as [[Hfin Hts] Hctx]; split_and!;
       [apply wf_config_app; split; [done|]; apply wf_config_singleton; by constructor
       |done
       |rewrite config_tokens_app, config_tokens_singleton, statement_tokens_block;
        rewrite <- !app_assoc; done]).
  - (* STATEMENT_END *)
    destruct lt; simplify_eq/=. destruct Hdt as (c & ts & -> & ->).
    split_and!; [done..|]. rewrite config_tokens_app, config_tokens_singleton.
    by rewrite <- !app_assoc.
  - (* EOF *)
    destruct lt, ctx; by simplify_eq/=.
Qed.

Lemma run_sound l : complete l -> Forall text_ok l ->
  Forall (fun t => t.1 <> TOKEN_TYPE_COMMENT) l ->
  forall z dt c, read z dt -> run l z = (true, c) ->
  wf_config c /\ exists partial, dt ++ l = config_tokens c ++ [(TOKEN_TYPE_EOF, partial)].
Proof.
  induction 1 as [type token Ht|type token l H1 H2 _ IH]; intros Htext Hcom z dt c Hread Hrun.
  - simpl in Hrun. destruct z as [f ctx lt]. destruct Hread as (Hf & Hctx & Hdt). simpl in *.
    destruct Ht as [-> | ->]; [|done].
    destruct lt, ctx; simplify_eq/=; (split; [done|]; by exists token).
  - apply Forall_cons in Htext as [Htok Htext]. apply Forall_cons in Hcom as [Hc Hcom].
    simpl in Hrun. destruct (zipper_step type token z) as [z'|[valid c']] eqn:Hz.
    + assert (read z' (dt ++ [(type, token)])) as Hread' by (by eapply read_step).
      destruct (IH Htext Hcom z' _ c Hread' Hrun) as (Hwf & partial & Heq).
      split; [done|]. exists partial. rewrite <- Heq, <- app_assoc. done.
    + simplify_eq. destruct z as [f ctx lt].
      destruct type; try done; destruct lt; try done; simpl in Hz; repeat case_match; done.
Qed.

(** ** Completeness: every text of the language is accepted *)
Definition statement_start (lt : TokenType) : Prop :=
  lt = TOKEN_TYPE_START \/ lt = TOKEN_TYPE_STATEMENT_END \/
  lt = TOKEN_TYPE_START_BLOCK \/ lt = TOKEN_TYPE_END_BLOCK.

Definition statement_closed (lt : TokenType) : Prop :=
  lt = TOKEN_TYPE_STATEMENT_END \/ lt = TOKEN_TYPE_END_BLOCK.

Lemma closed_start lt : statement_closed lt -> statement_start lt.
Proof. unfold statement_closed, statement_start. naive_solver. Qed.

Lemma run_more_tokens ts : forall f ts0 ctx rest,
  run (map (pair TOKEN_TYPE_NORMAL) ts ++ rest)
    (Zipper (f ++ [Statement ts0 None]) ctx TOKEN_TYPE_NORMAL) =
  run rest (Zipper (f ++ [Statement (ts0 ++ ts) None]) ctx TOKEN_TYPE_NORMAL).
Proof.
  induction ts as [|t ts IH]; intros f ts0 ctx rest; [by rewrite app_nil_r|].
  simpl. rewrite modify_last_snoc. unfold add_token. simpl.
  rewrite IH, <- app_assoc. done.
Qed.

Lemma run_tokens ts f ctx lt rest :
  ts <> [] -> statement_start lt ->
  run (map (pair TOKEN_TYPE_NORMAL) ts ++ rest) (Zipper f ctx lt) =
  run rest (Zipper (f ++ [Statement ts None]) ctx TOKEN_TYPE_NORMAL).
Proof.
  intros Hts Hlt. destruct ts as [|t ts]; [done|].
  rewrite <- (run_more_tokens ts f [t]). simpl.
  by destruct Hlt as [-> | [-> | [-> | ->]]].
Qed.

Lemma run_block c : Forall (fun s => deep has_tokens s -> forall f ctx lt rest,
    statement_start lt -> exists lt', statement_closed lt' /\
    run (statement_tokens s ++ rest) (Zipper f ctx lt) =
    run rest (Zipper (f ++ [s]) ctx lt')) c ->
  wf_config c -> forall f ctx lt rest, statement_start lt ->
  exists lt', (lt' = lt /\ c = [] \/ statement_closed lt') /\
  run (config_tokens c ++ rest) (Zipper f ctx lt) = run rest (Zipper (f ++ c) ctx lt').
Proof.
  induction 1 as [|s c Hs _ IH]; intros Hwf f ctx lt rest Hlt.
  { exists lt. split; [by left|]. by rewrite app_nil_r. }
  apply Forall_cons in Hwf as [Hws Hwf].
  change (s :: c) with ([s] ++ c). rewrite config_tokens_app, config_tokens_singleton, <- app_assoc.
  destruct (Hs Hws f ctx lt (config_tokens c ++ rest) Hlt) as (lt1 & Hlt1 & ->).
  destruct (IH Hwf (f ++ [s]) ctx lt1 rest (closed_start _ Hlt1)) as (lt2 & Hlt2 & ->).
  exists lt2. rewrite <- app_assoc. split; [|done]. right.
  by destruct Hlt2 as [[-> _]|].
Qed.

Lemma run_statement s : deep has_tokens s -> forall f ctx lt rest,
  statement_start lt -> exists lt', statement_closed lt' /\
  run (statement_tokens s ++ rest) (Zipper f ctx lt) = run rest (Zipper (f ++ [s]) ctx lt').
Proof.
  induction s as [ts|ts c IH] using statement_ind; intros Hd f ctx lt rest Hlt.
  - exists TOKEN_TYPE_STATEMENT_END. split; [by left|]. simpl. rewrite <- app_assoc.
    rewrite run_tokens; [done|by apply deep_inv in Hd|done].
  - exists TOKEN_TYPE_END_BLOCK. split; [by right|].
    rewrite statement_tokens_block, <- app_assoc.
    rewrite run_tokens; [|by apply deep_inv in Hd|done].
    cbn [app run zipper_step focus last_type context].
    rewrite last_snoc, removelast_snoc. rewrite <- app_assoc.
    cbn [tokens_].
    destruct (run_block c IH (deep_block_inv _ _ _ Hd) [] ((f, ts) :: ctx)
      TOKEN_TYPE_START_BLOCK ([(TOKEN_TYPE_END_BLOCK, "}")] ++ rest)) as (lt' & Hlt' & ->);
      [unfold statement_start; tauto|].
    destruct Hlt' as [[-> _]|[-> | ->]]; done.
Qed.

Lemma run_complete c partial :
  wf_config c ->
  run (config_tokens c ++ [(TOKEN_TYPE_EOF, partial)]) (Zipper [] [] TOKEN_TYPE_START) = (true, c).
Proof.
  intros Hwf. destruct (run_block c) with (f := @nil NginxConfigStatement)
    (ctx := @nil (NginxConfig * list str)) (lt := TOKEN_TYPE_START)
    (rest := [(TOKEN_TYPE_EOF, partial)]) as (lt' & Hlt' & ->).
  - apply Forall_forall. intros. by apply run_statement.
  - done.
  - by left.
  - by destruct Hlt' as [[-> ->]|[-> | ->]].
Qed.

(** The abstract parser accepts exactly the language. *)
Lemma abstract_parse_iff text c :
  abstract_parse text = (true, c) <->
  wf_config c /\
  exists partial, significant (lex text) = config_tokens c ++ [(TOKEN_TYPE_EOF, partial)].
Proof.
  unfold abstract_parse. rewrite <- run_significant. split.
  - intros Hrun. eapply (run_sound (significant (lex text))) with (dt := []) in Hrun; [done|..].
    + apply significant_complete, lex_complete.
    + apply significant_text_ok, lex_text_ok.
    + apply Forall_forall. intros t Ht. by apply list_elem_of_filter in Ht as [? _].
    + split_and!; [constructor|constructor|done].
  - intros [Hwf [partial ->]]. by apply run_complete.
Qed.

(** ** Printing and parsing *)
Lemma lex_next p q : next_token p = next_token q -> lex p = lex q.
Proof. intros Heq. by rewrite (lex_cons p), (lex_cons q), Heq. Qed.

Lemma lex_blanks ws p : Forall (fun c => is_blank c = true) ws -> lex (ws ++ p) = lex p.
Proof. intros. by apply lex_next, next_token_blanks. Qed.

Lemma lex_printable t d p :
  printable_token t -> is_delimiter d = true ->
  lex (t ++ d :: p) = (TOKEN_TYPE_NORMAL, t) :: lex (d :: p).
Proof. intros Ht Hd. rewrite lex_cons, next_token_printable by done. done. Qed.

Lemma lex_semicolon p : lex (";"%char :: p) = (TOKEN_TYPE_STATEMENT_END, ";") :: lex p.
Proof. by rewrite lex_cons. Qed.

Lemma lex_open p : lex ("{"%char :: p) = (TOKEN_TYPE_START_BLOCK, "{") :: lex p.
Proof. by rewrite lex_cons. Qed.

Lemma lex_close p : lex ("}"%char :: p) = (TOKEN_TYPE_END_BLOCK, "}") :: lex p.
Proof. by rewrite lex_cons. Qed.

Lemma lex_newline p : lex (NL :: p) = lex p.
Proof. by apply (lex_blanks [NL]); repeat constructor. Qed.

Lemma lex_space p : lex (" "%char :: p) = lex p.
Proof. by apply (lex_blanks " "); repeat constructor. Qed.

Lemma lex_indent depth p : lex (indent depth ++ p) = lex p.
Proof.
  unfold indent. induction depth as [|depth IH]; [done|].
  simpl. by rewrite !lex_space.
Qed.

Lemma lex_join_tokens ts d p :
  ts <> [] -> Forall printable_token ts -> is_delimiter d = true ->
  lex (join_tokens ts ++ d :: p) = map (pair TOKEN_TYPE_NORMAL) ts ++ lex (d :: p).
Proof.
  intros Hne Hts Hd. induction Hts as [|t ts Ht Hts IH]; [done|].
  destruct ts as [|t' ts]; [by apply lex_printable|].
  change (join_tokens (t :: t' :: ts)) with (t ++ " "%char :: join_tokens (t' :: ts)).
  rewrite <- app_assoc, <- app_comm_cons, lex_printable, lex_space by done.
  by rewrite IH.
Qed.

Lemma lex_ToString s : deep printable_statement s -> forall depth p,
  lex (NginxConfigStatement_ToString depth s ++ p) = statement_tokens s ++ lex p.
Proof.
  induction s as [ts|ts c IH] using statement_ind; intros Hd depth p;
    destruct (deep_inv _ _ Hd) as [Hne Hts]; cbn [tokens_] in Hne, Hts.
  - cbn [NginxConfigStatement_ToString tokens_ child_block_].
    rewrite <- !app_assoc, lex_indent. change (";" ++ [NL] ++ p) with (";"%char :: NL :: p).
    rewrite lex_join_tokens, lex_semicolon, lex_newline by done.
    simpl. by rewrite <- app_assoc.
  - cbn [NginxConfigStatement_ToString tokens_ child_block_].
    rewrite statement_tokens_block, <- !app_assoc, lex_indent.
    match goal with |- context [" {" ++ [NL] ++ ?q] =>
      change (" {" ++ [NL] ++ q) with (" "%char :: "{"%char :: NL :: q) end.
    rewrite lex_join_tokens, lex_space, lex_open, lex_newline by done.
    f_equal. simpl. f_equal. apply deep_block_inv in Hd. clear Hne Hts.
    rewrite <- app_assoc.
    enough (forall q, lex (concat (map (NginxConfigStatement_ToString (S depth)) c) ++ q) =
      config_tokens c ++ lex q) as Hc.
    { rewrite Hc, lex_indent. simpl. by rewrite lex_close, lex_newline. }
    intros q. induction IH as [|s c Hs _ IHc]; [done|].
    apply Forall_cons in Hd as [Hds Hd]. simpl. rewrite <- app_assoc, Hs by done.
    rewrite IHc by done. unfold config_tokens. simpl. by rewrite <- app_assoc.
Qed.

Lemma lex_config_ToString_app c depth p : printable c ->
  lex (NginxConfig_ToString depth c ++ p) = config_tokens c ++ lex p.
Proof.
  intros Hc. unfold NginxConfig_ToString. induction Hc as [|s c Hs _ IH]; [done|]. simpl.
  rewrite <- app_assoc, lex_ToString, IH by done.
  unfold config_tokens. simpl. by rewrite <- app_assoc.
Qed.

Lemma lex_config_ToString c depth : printable c ->
  lex (NginxConfig_ToString depth c) = config_tokens c ++ [(TOKEN_TYPE_EOF, [])].
Proof. intros Hc. rewrite <- (app_nil_r (NginxConfig_ToString depth c)). by apply lex_config_ToString_app. Qed.

(** A word that runs into the end of the file is the text of the end-of-file
    token. *)
Lemma scan_plain_end w value :
  Forall (fun c => is_delimiter c = false) w ->
  scan TOKEN_STATE_TOKEN_TYPE_NORMAL value w = (TOKEN_TYPE_EOF, value ++ w, [], false).
Proof.
  intros Hw. revert value. induction Hw as [|c w Hc _ IH]; intros value; simpl.
  - by rewrite app_nil_r.
  - by rewrite Hc, IH, <- app_assoc.
Qed.

Lemma lex_plain_end w : plain_token w -> lex w = [(TOKEN_TYPE_EOF, w)].
Proof.
  destruct w as [|c w]; [done|]. intros [Hc Hw].
  assert (next_token (c :: w) = (TOKEN_TYPE_EOF, c :: w, [], false)) as Hn.
  { unfold next_token. cbn [scan]. unfold is_start_special, is_blank in Hc.
    rewrite !orb_false_iff in Hc. destruct_and!.
    repeat match goal with H : ?b = false |- _ => rewrite H; clear H end. simpl.
    by rewrite scan_plain_end. }
  rewrite lex_cons. by rewrite Hn.
Qed.

(** The token sequence of a tree holds no comment. *)
Lemma significant_app l1 l2 : significant (l1 ++ l2) = significant l1 ++ significant l2.
Proof. apply filter_app. Qed.

Lemma significant_map_normal ts :
  significant (map (pair TOKEN_TYPE_NORMAL) ts) = map (pair TOKEN_TYPE_NORMAL) ts.
Proof.
  induction ts as [|t ts IH]; [done|]. simpl map. rewrite significant_cons, IH.
  by rewrite bool_decide_false.
Qed.

Lemma significant_statement_tokens s : significant (statement_tokens s) = statement_tokens s.
Proof.
  induction s as [ts|ts c IH] using statement_ind.
  - simpl. by rewrite significant_app, significant_map_normal.
  - rewrite statement_tokens_block, significant_app, significant_map_normal. f_equal.
    rewrite significant_cons, significant_app, bool_decide_false by done. do 2 f_equal.
    unfold config_tokens. induction IH as [|s c Hs _ IHc]; [done|].
    simpl. by rewrite significant_app, Hs, IHc.
Qed.

Lemma significant_config_tokens c : significant (config_tokens c) = config_tokens c.
Proof.
  unfold config_tokens. induction c as [|s c IH]; [done|].
  simpl. by rewrite significant_app, significant_statement_tokens, IH.
Qed.

Lemma deep_impl (P Q : NginxConfigStatement -> Prop) s :
  (forall s, P s -> Q s) -> deep P s -> deep Q s.
Proof.
  intros HPQ. induction s as [ts|ts c IH] using statement_ind; intros Hd.
  - constructor. apply HPQ. by apply deep_inv.
  - constructor; [by apply HPQ, deep_inv|]. apply deep_block_inv in Hd.
    rewrite Forall_forall in *. eauto.
Qed.

Lemma printable_wf c : printable c -> wf_config c.
Proof.
  intros Hc. eapply Forall_impl; [exact Hc|]. intros s. apply deep_impl. by intros ? [].
Qed.

Lemma abstract_parse_ToString c depth :
  printable c -> abstract_parse (NginxConfig_ToString depth c) = (true, c).
Proof.
  intros Hc. apply abstract_parse_iff. split; [by apply printable_wf|].
  exists []. rewrite lex_config_ToString by done.
  by rewrite significant_app, significant_config_tokens.
Qed.

(** ** The tokens of a text without backslashes *)

(** The bytes after a token are the end of the text. *)
Lemma scan_suffix p : forall state value, (scan state value p).1.2 `suffix_of` p.
Proof.
  induction p as [|c p IH]; intros state value; [done|].
  assert (forall v, (scan_close v p).1.2 `suffix_of` c :: p) as Hclose.
  { intros v. destruct p as [|d p]; simpl; [apply suffix_nil|].
    case_match; simpl; [by apply suffix_cons_r|by do 2 apply suffix_cons_r]. }
  assert (forall st v, (scan st v p).1.2 `suffix_of` c :: p) as Hnext
    by (intros; by apply suffix_cons_r).
  destruct state; cbn [scan];
    repeat match goal with |- context [if ?b then _ else _] => destruct b end;
    cbn [fst snd]; first [apply Hclose | apply Hnext | done | by apply suffix_cons_r].
Qed.

(** A word, or a quoted word, that is still being read. *)
Definition partial_token (state : TokenParserState) (value : str) : Prop :=
  match state with
  | TOKEN_STATE_INITIAL_WHITESPACE => value = []
  | TOKEN_STATE_TOKEN_TYPE_NORMAL => plain_token value
  | TOKEN_STATE_SINGLE_QUOTE =>
      exists w, value = SQUOTE :: w /\ Forall (fun d => d <> SQUOTE /\ d <> BACKSLASH) w
  | TOKEN_STATE_DOUBLE_QUOTE =>
      exists w, value = DQUOTE :: w /\ Forall (fun d => d <> DQUOTE /\ d <> BACKSLASH) w
  | TOKEN_STATE_TOKEN_TYPE_COMMENT => True
  | _ => False
  end.

Definition token_printable (t : TokenType * str) : Prop :=
  t.1 = TOKEN_TYPE_NORMAL -> printable_token t.2.

Lemma plain_token_snoc value c :
  plain_token value -> is_delimiter c = false -> plain_token (value ++ [c]).
Proof.
  destruct value as [|d w]; [done|]. intros [Hd Hw] Hc. split; [done|]. apply Forall_app. auto.
Qed.

Lemma plain_token_start c :
  bool_decide (c = "{"%char) = false -> bool_decide (c = "}"%char) = false -> bool_decide (c = "#"%char) = false ->
  bool_decide (c = DQUOTE) = false -> bool_decide (c = SQUOTE) = false -> bool_decide (c = ";"%char) = false ->
  is_blank c = false -> plain_token [c].
Proof.
  intros H1 H2 H3 H4 H5 H6 H7. split; [|constructor].
  unfold is_start_special. by rewrite H1, H2, H3, H4, H5, H6, H7.
Qed.

Lemma quoted_snoc q w c :
  Forall (fun d => d <> q /\ d <> BACKSLASH) w -> c <> q -> c <> BACKSLASH ->
  exists w', q :: w ++ [c] = q :: w' /\ Forall (fun d => d <> q /\ d <> BACKSLASH) w'.
Proof. intros. exists (w ++ [c]). split; [done|]. apply Forall_app. auto. Qed.

Lemma scan_close_printable q w p :
  q = SQUOTE \/ q = DQUOTE -> Forall (fun d => d <> q /\ d <> BACKSLASH) w ->
  token_printable (scan_close ((q :: w) ++ [q]) p).1.1.
Proof.
  intros Hq Hw. destruct p as [|d p]; [done|]. simpl. case_match; [|done].
  intros _. right. by exists q, w.
Qed.

Lemma scan_printable p : forall state value,
  BACKSLASH ∉ p -> partial_token state value -> token_printable (scan state value p).1.1.
Proof.
  induction p as [|c p IH]; intros state value Hb Hp; [by destruct state|].
  apply not_elem_of_cons in Hb as [Hc Hb]. assert (c <> BACKSLASH) as Hne by congruence.
  destruct state; try done; simpl in Hp; cbn [scan].
  - subst value.
    destruct (bool_decide (c = "{"%char)) eqn:?; [done|]. destruct (bool_decide (c = "}"%char)) eqn:?; [done|].
    destruct (bool_decide (c = "#"%char)) eqn:?; [by apply IH|].
    destruct (bool_decide (c = DQUOTE)) eqn:E1; [apply bool_decide_eq_true in E1 as ->; apply IH; [done|by exists []]|].
    destruct (bool_decide (c = SQUOTE)) eqn:E2; [apply bool_decide_eq_true in E2 as ->; apply IH; [done|by exists []]|].
    destruct (bool_decide (c = ";"%char)) eqn:?; [done|].
    fold (is_blank c). destruct (is_blank c) eqn:?; apply IH; try done. by apply plain_token_start.
  - destruct Hp as (w & -> & Hw). case_bool_decide as Eq.
    + subst c. apply scan_close_printable; auto.
    + rewrite bool_decide_false by done. apply IH; [done|]. simpl. by apply quoted_snoc.
  - destruct Hp as (w & -> & Hw). case_bool_decide as Eq.
    + subst c. apply scan_close_printable; auto.
    + rewrite bool_decide_false by done. apply IH; [done|]. simpl. by apply quoted_snoc.
  - case_match; [done|]. by apply IH.
  - destruct (is_delimiter c) eqn:Hd; [by left|]. apply IH; [done|]. by apply plain_token_snoc.
Qed.

Lemma lex_printable_tokens text : BACKSLASH ∉ text -> Forall token_printable (lex text).
Proof.
  apply (lex_ind (fun p l => BACKSLASH ∉ p -> Forall token_printable l)); clear text.
  - intros p _ Hb. apply Forall_singleton.
    exact (scan_printable p TOKEN_STATE_INITIAL_WHITESPACE [] Hb eq_refl).
  - intros p l _ _ IH Hb. apply Forall_cons. split.
    { exact (scan_printable p TOKEN_STATE_INITIAL_WHITESPACE [] Hb eq_refl). }
    apply IH.
    destruct (scan_suffix p TOKEN_STATE_INITIAL_WHITESPACE []) as [pre Hpre].
    unfold next_token. rewrite Hpre in Hb. set_solver.
Qed.

Lemma statement_tokens_printable s :
  deep has_tokens s -> Forall token_printable (statement_tokens s) -> deep printable_statement s.
Proof.
  assert (forall ts, Forall token_printable (map (pair TOKEN_TYPE_NORMAL) ts) ->
    Forall printable_token ts) as Hts.
  { induction ts as [|t ts IHt]; intros Ht; [constructor|].
    apply Forall_cons in Ht as [Ht Hts]. constructor; [by apply Ht|by apply IHt]. }
  induction s as [ts|ts c IH] using statement_ind; intros Hd Ht.
  - apply Forall_app in Ht as [Ht _]. constructor. split; [by apply deep_inv in Hd|by apply Hts].
  - rewrite statement_tokens_block in Ht. apply Forall_app in Ht as [Ht Hc].
    apply Forall_cons in Hc as [_ Hc]. apply Forall_app in Hc as [Hc _].
    constructor; [split; [by apply deep_inv in Hd|by apply Hts]|].
    apply deep_block_inv in Hd. unfold config_tokens in Hc. clear Ht.
    induction IH as [|s c Hs _ IHc]; [constructor|].
    apply Forall_cons in Hd as [Hds Hd]. simpl in Hc. apply Forall_app in Hc as [Hcs Hc].
    constructor; [by apply Hs|by apply IHc].
Qed.

(** What is read from a text without backslashes can be written. *)
Lemma abstract_parse_printable text c :
  BACKSLASH ∉ text -> abstract_parse text = (true, c) -> printable c.
Proof.
  intros Hb [Hwf [partial Htok]]%abstract_parse_iff.
  assert (Forall token_printable (config_tokens c)) as Ht.
  { assert (Forall token_printable (significant (lex text))) as Hs.
    { apply Forall_forall. intros t Hin. apply list_elem_of_filter in Hin as [_ Hin].
      pose proof (lex_printable_tokens text Hb) as Hl. rewrite Forall_forall in Hl. by apply Hl. }
    rewrite Htok in Hs. by apply Forall_app in Hs as [? _]. }
  unfold config_tokens in Ht. clear Htok Hb. induction Hwf as [|s c Hs Hwf IH]; [constructor|].
  simpl in Ht. apply Forall_app in Ht as [Hts Htc].
  constructor; [by apply statement_tokens_printable|by apply IH].
Qed.
