(* ===== verification/Ownership.v ===== *)
(** * Ownership in the store of [Parse]

    Every [NginxConfig] but the outermost one is owned by the [child_block_]
    (a [unique_ptr]) of one statement, and a block is allocated after the
    block around it: the store is a tree of objects, so that destroying the
    outermost object destroys each object once.  [Parse] keeps it that way on
    every input, valid or not. *)

From S2P Require Import Prelude Cxx Config Tokenizer Parser.
Local Open Scope str_scope.

(** The block of the [i]th statement of the object at [l]. *)
Definition child_at (st : store) (l : loc) (i : nat) : option loc :=
  objs ← configs st !! l; s ← objs !! i; obj_child s.

(** The typing of the store. *)
Record well_owned (st : store) : Prop := WellOwned {
  allocated : forall l, is_Some (configs st !! l) <-> l < next_loc st;
  child_after : forall l i b, child_at st l i = Some b -> l < b < next_loc st;
  has_owner : forall b, 0 < b < next_loc st -> exists l i, child_at st l i = Some b;
  one_owner : forall b l i l' i',
    child_at st l i = Some b -> child_at st l' i' = Some b -> l = l' /\ i = i'
}.

(** The same children, in objects at the same addresses. *)
Record same_shape (st st' : store) : Prop := SameShape {
  same_next : next_loc st' = next_loc st;
  same_allocated : forall l, is_Some (configs st' !! l) <-> is_Some (configs st !! l);
  same_children : forall l i, child_at st' l i = child_at st l i
}.

Lemma same_shape_owned st st' : same_shape st st' -> well_owned st -> well_owned st'.
Proof.
  intros [Hn Ha Hc] [Hal Haf Hho Hoo]. split.
  - intros l. by rewrite Ha, Hn.
  - intros l i b. rewrite Hc, Hn. apply Haf.
  - intros b. rewrite Hn. intros (l & i & Hb)%Hho. exists l, i. by rewrite Hc.
  - intros b l i l' i'. rewrite !Hc. apply Hoo.
Qed.

Lemma same_shape_trans st1 st2 st3 : same_shape st1 st2 -> same_shape st2 st3 -> same_shape st1 st3.
Proof.
  intros [Hn Ha Hc] [Hn' Ha' Hc']. split; [congruence| |].
  - intros l. by rewrite Ha', Ha.
  - intros l i. by rewrite Hc', Hc.
Qed.

(** An object whose statements keep their children, and get new ones without. *)
Lemma update_same_shape st l objs objs' :
  configs st !! l = Some objs ->
  (forall i, (objs' !! i ≫= obj_child) = (objs !! i ≫= obj_child)) ->
  same_shape st (update_configs st l objs').
Proof.
  intros Hl Hobjs. split; [done| |].
  - intros l'. simpl. destruct (decide (l = l')) as [<-|]; [|by rewrite lookup_insert_ne].
    rewrite lookup_insert_eq, Hl. split; by eexists.
  - intros l' i. unfold child_at. simpl. destruct (decide (l = l')) as [<-|]; [|by rewrite lookup_insert_ne].
    rewrite lookup_insert_eq, Hl. apply Hobjs.
Qed.

Lemma emplace_back_shape l st st' : emplace_back l st = Ok st' -> same_shape st st'.
Proof.
  unfold emplace_back. destruct (configs st !! l) as [objs|] eqn:Hl; [|done]. intros [= <-].
  apply (update_same_shape st l objs _ Hl). intros i.
  destruct (decide (i < length objs)); [by rewrite lookup_app_l|].
  rewrite lookup_app_r, (lookup_ge_None_2 objs i) by lia.
  by destruct (i - length objs) as [|[]].
Qed.

Lemma lookup_modify_last {A} (f : A -> A) (l : list A) i :
  modify_last f l !! i = (if decide (S i = length l) then f <$> l !! i else l !! i).
Proof.
  destruct l as [|x l _] using rev_ind; [done|]. rewrite modify_last_snoc, length_app. simpl.
  case_decide as Hi.
  - replace i with (length l) by lia. by rewrite !list_lookup_middle.
  - destruct (decide (i < length l)); [by rewrite !lookup_app_l|].
    by rewrite !lookup_ge_None_2 by (rewrite length_app; simpl; lia).
Qed.

Lemma modify_back_inv f l st st' :
  modify_back f l st = Ok st' ->
  exists objs, configs st !! l = Some objs /\ objs <> [] /\
    st' = update_configs st l (modify_last f objs).
Proof.
  unfold modify_back. destruct (configs st !! l) as [objs|] eqn:Hl; [|done].
  cbn [deref mbind outcome_bind]. destruct objs as [|x objs]; [done|]. intros [= <-]. by exists (x :: objs).
Qed.

Lemma push_token_shape token l st st' :
  modify_back (push_token token) l st = Ok st' -> same_shape st st'.
Proof.
  intros (objs & Hl & _ & ->)%modify_back_inv. apply (update_same_shape st l objs _ Hl). intros i.
  rewrite lookup_modify_last. case_decide; [|done]. by destruct (objs !! i).
Qed.

(** ** The invariant of [Parse] *)

(** The statement at the back of the object at [l] has no block. *)
Definition open_back (st : store) (l : loc) : Prop :=
  exists objs s, configs st !! l = Some (objs ++ [s]) /\ obj_child s = None.

Definition parser_owned (p : parser) : Prop :=
  well_owned (heap p) /\ Forall (fun l => l < next_loc (heap p)) (config_stack p) /\
  (last_token_type p = TOKEN_TYPE_NORMAL -> exists l, head (config_stack p) = Some l /\ open_back (heap p) l).

Lemma push_token_open token l st st' :
  modify_back (push_token token) l st = Ok st' -> open_back st l -> open_back st' l.
Proof.
  intros (objs & Hl & _ & ->)%modify_back_inv (objs' & s & Hl' & Hs). simplify_eq.
  exists objs', (push_token token s). simpl. rewrite lookup_insert_eq, modify_last_snoc. done.
Qed.

Lemma emplace_back_open l st st' : emplace_back l st = Ok st' -> open_back st' l.
Proof.
  unfold emplace_back. destruct (configs st !! l) as [objs|]; [|done]. intros [= <-].
  exists objs, (StatementObject [] None). simpl. by rewrite lookup_insert_eq.
Qed.

(** A new block, owned by the statement at the back of the object at [l]. *)
Lemma new_block_owned l st st' :
  well_owned st -> open_back st l ->
  modify_back (reset_child (next_loc st)) l (new_config st).2 = Ok st' ->
  well_owned st' /\ next_loc st' = S (next_loc st).
Proof.
  intros [Hal Haf Hho Hoo] (objs & s & Hl & Hs) (objs1 & Hl1 & _ & ->)%modify_back_inv.
  assert (l < next_loc st) as Hlt by (apply Hal; by rewrite Hl).
  simpl in Hl1. rewrite lookup_insert_ne in Hl1 by lia. simplify_eq.
  assert (forall l' i, child_at (update_configs (new_config st).2 l
      (modify_last (reset_child (next_loc st)) (objs ++ [s]))) l' i =
    if decide (l' = l /\ i = length objs) then Some (next_loc st) else child_at st l' i) as Hch.
  { intros l' i. unfold child_at. simpl. rewrite modify_last_snoc.
    destruct (decide (l' = l)) as [->|Hne].
    - rewrite lookup_insert_eq, Hl. simpl. case_decide as Hi.
      + destruct Hi as [_ ->]. by rewrite list_lookup_middle.
      + destruct (decide (i < length objs)); [by rewrite !lookup_app_l|].
        assert (length objs < i) by (destruct (decide (i = length objs)); [by destruct Hi|lia]).
        by rewrite !lookup_ge_None_2 by (rewrite length_app; simpl; lia).
    - rewrite (decide_False (P := l' = l /\ i = length objs)) by naive_solver.
      rewrite lookup_insert_ne by done. destruct (decide (l' = next_loc st)) as [->|].
      + rewrite lookup_insert_eq. simpl.
        destruct (configs st !! next_loc st) eqn:E; [|done].
        assert (next_loc st < next_loc st) by (apply Hal; by rewrite E). lia.
      + by rewrite lookup_insert_ne. }
  split; [|done]. split.
  - intros l'. simpl. destruct (decide (l' = l)) as [->|]; [rewrite lookup_insert_eq|rewrite lookup_insert_ne by done].
    { split; [lia|by eexists]. }
    destruct (decide (l' = next_loc st)) as [->|]; [rewrite lookup_insert_eq|rewrite lookup_insert_ne by done].
    { split; [lia|by eexists]. }
    rewrite Hal. lia.
  - intros l' i b. rewrite Hch. simpl. case_decide as Hd; [|intros ?%Haf; lia].
    intros [= <-]. destruct Hd as [-> _]. lia.
  - intros b Hb. simpl in Hb. destruct (decide (b = next_loc st)) as [->|].
    + exists l, (length objs). rewrite Hch. by rewrite decide_True.
    + destruct (Hho b) as (l' & i & Hc); [lia|]. exists l', i. rewrite Hch.
      rewrite decide_False; [done|]. intros [-> ->].
      unfold child_at in Hc. rewrite Hl in Hc. simpl in Hc.
      rewrite list_lookup_middle in Hc by done. simpl in Hc. congruence.
  - intros b l1 i1 l2 i2. rewrite !Hch. repeat case_decide; destruct_and?; subst; intros H1 H2.
    + done.
    + injection H1 as <-. apply Haf in H2. lia.
    + injection H2 as <-. apply Haf in H1. lia.
    + by eapply Hoo.
Qed.

(** ** [Parse] keeps the invariant *)
Definition step_owned (o : outcome parse_step) : Prop :=
  match o with
  | Ok (Next p') => parser_owned p'
  | Ok (Done _ st) => well_owned st
  | Fault _ => True
  end.

Lemma same_shape_stack st st' (stack : list loc) :
  same_shape st st' -> Forall (fun l => l < next_loc st) stack ->
  Forall (fun l => l < next_loc st') stack.
Proof. intros [Hn _ _] Hs. by rewrite Hn. Qed.

Lemma normal_owned token p : parser_owned p -> step_owned (Parse_step TOKEN_TYPE_NORMAL token p).
Proof.
  destruct p as [st stack last]. intros (Ho & Hs & Hn). simpl in *.
  destruct (token_allowed last); [|done]. destruct stack as [|l stack]; [done|]. simpl.
  case_bool_decide as Hl.
  - destruct (emplace_back l st) as [st1|] eqn:H1; [|done]. simpl.
    destruct (modify_back _ l st1) as [st2|] eqn:H2; [|done]. simpl.
    assert (same_shape st st2) as Hsh
      by (eapply same_shape_trans; [by eapply emplace_back_shape|by eapply push_token_shape]).
    split_and!; simpl; [by eapply same_shape_owned|by eapply same_shape_stack|].
    intros _. exists l. split; [done|]. by eapply push_token_open, emplace_back_open.
  - destruct (Hn Hl) as (l' & [= <-] & Hopen). simpl.
    destruct (modify_back _ l st) as [st2|] eqn:H2; [|done]. simpl.
    assert (same_shape st st2) as Hsh by (by eapply push_token_shape).
    split_and!; simpl; [by eapply same_shape_owned|by eapply same_shape_stack|].
    intros _. exists l. split; [done|]. by eapply push_token_open.
Qed.

Lemma start_block_owned token p :
  parser_owned p -> step_owned (Parse_step TOKEN_TYPE_START_BLOCK token p).
Proof.
  destruct p as [st stack last]. intros (Ho & Hs & Hn). unfold Parse_step. simpl in *.
  case_bool_decide as Hl; [done|]. destruct (Hn Hl) as (l & Hhead & Hopen).
  destruct stack as [|l' stack]; [done|]. injection Hhead as ->. simpl.
  destruct (modify_back (reset_child (next_loc st)) l (new_config st).2) as [st'|] eqn:Hm; simpl in Hm |- *;
    [|by rewrite Hm].
  rewrite Hm. simpl. destruct (new_block_owned l st st') as [Ho' Hn']; [done..|].
  split_and!; simpl; [done| |done]. constructor; [lia|].
  eapply Forall_impl; [exact Hs|]. simpl. lia.
Qed.

Lemma Parse_step_owned type token p : parser_owned p -> step_owned (Parse_step type token p).
Proof.
  intros Hp. destruct type; [|by apply normal_owned|by apply start_block_owned|..];
    unfold Parse_step; try (repeat case_match; simpl; apply Hp).
  - (* END_BLOCK *)
    destruct (bool_decide _ && bool_decide _ && bool_decide _); [apply Hp|]. simpl. case_bool_decide; [apply Hp|].
    destruct Hp as (Ho & Hs & _). split_and!; simpl; [done| |done].
    destruct (config_stack p); [done|]. by apply Forall_cons in Hs as [_ ?].
  - (* STATEMENT_END *)
    case_bool_decide; [apply Hp|]. destruct Hp as (Ho & Hs & _). by split_and!.
Qed.

Lemma Parse_loop_owned fuel : forall input p valid st,
  parser_owned p -> Parse_loop fuel input p = Ok (valid, st) -> well_owned st.
Proof.
  induction fuel as [|fuel IH]; intros input p valid st Hp; simpl; [done|].
  destruct (ParseToken input []) as [[[type token] input']|]; [|done]. simpl.
  pose proof (Parse_step_owned type token p Hp) as Hs.
  destruct (Parse_step type token p) as [[p'|valid' st']|]; simpl; [by apply IH| |done].
  by intros [= _ <-].
Qed.

Lemma parser_owned_init :
  parser_owned (Parser (Store {[0 := []]} 1) [0] TOKEN_TYPE_START).
Proof.
  assert (forall l i, child_at (Store {[0 := []]} 1) l i = None) as Hnone.
  { intros l i. unfold child_at. simpl. destruct (decide (l = 0)) as [->|].
    - by rewrite lookup_singleton_eq.
    - by rewrite lookup_singleton_ne. }
  split_and!; simpl; [|repeat constructor|done]. split; simpl.
  - intros l. destruct (decide (l = 0)) as [->|].
    + rewrite lookup_singleton_eq. split; [lia|by eexists].
    + rewrite lookup_singleton_ne by done. split; [by intros []|lia].
  - intros l i b. by rewrite Hnone.
  - lia.
  - intros b l i l' i'. by rewrite Hnone.
Qed.
