(* ===== verification/Console.v ===== *)
(** * What [Parse] prints ([src/config_parser.cc])

    [Parse] writes a line for every token it reads, and a last one when it
    rejects the text.  [Parse_console] is that output: the loop of [Parser.v]
    with the two calls of [printf].  What the abstract parser prints is
    [run_console], and the two agree. *)

From S2P Require Import Prelude Cxx Config Tokenizer Parser Refinement.
Local Open Scope str_scope.

(** [printf("%s: %s\n", TokenTypeAsString(token_type), token.c_str())] *)
Definition token_line (token_type : TokenType) (token : str) : str :=
  TokenTypeAsString token_type ++ ": " ++ c_str token ++ [NL].

Definition bad_transition (last_token_type token_type : TokenType) : str :=
  "Bad transition from " ++ TokenTypeAsString last_token_type ++ " to " ++
  TokenTypeAsString token_type ++ [NL].

Fixpoint Parse_console_loop (fuel : nat) (config_file : istream) (p : parser) : outcome str :=
  match fuel with
  | O => Fault OutOfFuel
  | S fuel' =>
      '(token_type, token, config_file') ← ParseToken config_file [];
      let line := token_line token_type token in
      step ← Parse_step token_type token p;
      match step with
      | Next p' => lines ← Parse_console_loop fuel' config_file' p'; Ok (line ++ lines)
      | Done true _ => Ok line
      | Done false _ => Ok (line ++ bad_transition (last_token_type p) token_type)
      end
  end.

Definition Parse_console (text : str) : outcome str :=
  Parse_console_loop (S (length text)) (stream_of text)
    (Parser (Store {[0 := []]} 1) [0] TOKEN_TYPE_START).

(** ** The abstract parser *)
Fixpoint run_console (tokens : list (TokenType * str)) (z : zipper) : str :=
  match tokens with
  | [] => []
  | (type, token) :: tokens' =>
      token_line type token ++
      match zipper_step type token z with
      | inl z' => run_console tokens' z'
      | inr (true, _) => []
      | inr (false, _) => bad_transition (last_type z) type
      end
  end.

Definition lines_of (tokens : list (TokenType * str)) : str :=
  concat (map (fun t => token_line t.1 t.2) tokens).

Lemma run_console_lex_cons p z :
  run_console (lex p) z =
  token_line (next_token p).1.1.1 (next_token p).1.1.2 ++
  match zipper_step (next_token p).1.1.1 (next_token p).1.1.2 z with
  | inl z' => run_console (lex (next_token p).1.2) z'
  | inr (true, _) => []
  | inr (false, _) => bad_transition (last_type z) (next_token p).1.1.1
  end.
Proof.
  rewrite lex_cons. destruct (next_token p) as [[[type token] rest] g]. simpl.
  destruct (zipper_step type token z) as [z'|r] eqn:Hz; [|done].
  destruct (bool_decide (type = TOKEN_TYPE_EOF) || bool_decide (type = TOKEN_TYPE_ERROR)) eqn:Hb;
    [|done].
  rewrite orb_true_iff, !bool_decide_eq_true in Hb.
  destruct (zipper_step_last type token z Hb) as [r Hr]. congruence.
Qed.

(** The console agrees along the simulation of [Refinement.v]. *)
Lemma Parse_console_sim fuel past text p z :
  length text < fuel -> rep_parser p z ->
  Parse_console_loop fuel (IStream past text true) p = Ok (run_console (lex text) z).
Proof.
  revert past text p z. induction fuel as [|fuel IH]; intros past text p z Hf Hp; [lia|].
  destruct (ParseToken_scan past text []) as (past' & Htok & _). fold (next_token text) in Htok.
  cbn [Parse_console_loop]. rewrite Htok, run_console_lex_cons.
  pose proof (next_token_length text) as Hlen.
  pose proof (scan_not_good text TOKEN_STATE_INITIAL_WHITESPACE []) as Hgood.
  fold (next_token text) in Hgood.
  destruct (next_token text) as [[[type token] rest] g]. simpl in *.
  pose proof (Parse_step_sim type token p z Hp) as Hstep.
  destruct (zipper_step type token z) as [z'|[valid c]] eqn:Hz.
  - destruct Hstep as (p' & -> & Hp'). simpl.
    assert (type <> TOKEN_TYPE_EOF /\ type <> TOKEN_TYPE_ERROR) as [Hne1 Hne2].
    { split; intros ->; [destruct (zipper_step_last TOKEN_TYPE_EOF token z)
        |destruct (zipper_step_last TOKEN_TYPE_ERROR token z)]; auto; congruence. }
    destruct g; [|destruct Hgood as [_ []]; done].
    rewrite (IH past' rest p' z') by (done || specialize (Hlen Hne1); lia). done.
  - destruct Hstep as (st & -> & Hst). destruct Hp as (_ & <- & _). simpl.
    destruct valid; by rewrite ?app_nil_r.
Qed.

Lemma Parse_console_abstract text :
  Parse_console text = Ok (run_console (lex text) (Zipper [] [] TOKEN_TYPE_START)).
Proof.
  apply Parse_console_sim; [simpl; lia|]. apply rep_parser_init.
Qed.

(** ** What is printed, by the verdict *)
Definition stops (t : TokenType * str) : Prop := t.1 = TOKEN_TYPE_EOF \/ t.1 = TOKEN_TYPE_ERROR.

(** The tokens of a text: the last one stops the parser, and no other. *)
Inductive lexed : list (TokenType * str) -> Prop :=
  | lexed_last t : stops t -> lexed [t]
  | lexed_cons t ts : ~ stops t -> lexed ts -> lexed (t :: ts).

Lemma lex_lexed n : forall text, length text < n -> lexed (lex text).
Proof.
  induction n as [|n IH]; intros text Hn; [lia|]. rewrite lex_cons.
  pose proof (next_token_length text) as Hlen.
  destruct (next_token text) as [[[type token] rest] g]. simpl in *.
  destruct (bool_decide (type = TOKEN_TYPE_EOF)) eqn:He; simpl.
  { apply lexed_last. left. by apply bool_decide_eq_true in He. }
  apply bool_decide_eq_false in He. destruct (bool_decide (type = TOKEN_TYPE_ERROR)) eqn:Hr.
  { apply lexed_last. right. by apply bool_decide_eq_true in Hr. }
  apply bool_decide_eq_false in Hr. apply lexed_cons; [by intros []|].
  apply IH. specialize (Hlen He). lia.
Qed.

Lemma zipper_step_accepts type token z c : zipper_step type token z = inr (true, c) -> type = TOKEN_TYPE_EOF.
Proof.
  destruct z as [focus ctx last]. unfold zipper_step. simpl.
  destruct type, last; simpl; try done; by repeat case_match.
Qed.

(** All tokens when the text is accepted; else those up to the one that is
    rejected, and the types of the bad transition. *)
Lemma run_console_verdict tokens : lexed tokens -> forall z,
  if (run tokens z).1 then run_console tokens z = lines_of tokens
  else exists front t rest last, tokens = front ++ t :: rest /\
    run_console tokens z = lines_of (front ++ [t]) ++ bad_transition last t.1.
Proof.
  induction 1 as [[type token] Hstop|[type token] ts Hne Hts IH]; intros z; simpl.
  - destruct (zipper_step_last type token z Hstop) as [[valid c] ->]. destruct valid; [done|].
    exists [], (type, token), [], (last_type z). split; [done|]. unfold lines_of. simpl. by rewrite app_nil_r.
  - destruct (zipper_step type token z) as [z'|[valid c]] eqn:Hz.
    + specialize (IH z'). destruct (run ts z').1; [by rewrite IH|].
      destruct IH as (front & t & rest & last & -> & ->).
      exists ((type, token) :: front), t, rest, last. split; [done|].
      unfold lines_of. simpl. by rewrite <- app_assoc.
    + destruct valid.
      * destruct Hne. left. by eapply zipper_step_accepts.
      * exists [], (type, token), ts, (last_type z). split; [done|].
        unfold lines_of. simpl. by rewrite app_nil_r.
Qed.
