(* ===== verification/Base64.v ===== *)
(** * Base64 decoding ([base64_decode], [src/session.cc])

    The decoder as the code runs it: a 256-entry table, a 32-bit accumulator
    that wraps around, and a bit counter.  The specification reads the input
    as a stream of bits, six per character of the alphabet, and cuts it into
    bytes; [encode] is the encoding of RFC 4648, section 4.

    [val << 6] shifts bits out of the [int] from the sixth character on; as
    C++20 defines it (and compilers do for earlier versions), the result is
    the value modulo 2^32. *)

From S2P Require Import Prelude Cxx.
Local Open Scope str_scope.

(** ** The code *)
Definition alphabet : str :=
  "ABCDEFGHIJKLMNOPQRSTUVWXYZabcdefghijklmnopqrstuvwxyz0123456789+/".

(** [std::vector<int> T(256, -1)] and the loop that fills it. *)
Definition T_table : list Z :=
  foldl (fun T i =>
    match alphabet !! i with
    | Some c => <[Z.to_nat (code c) := Z.of_nat i]> T
    | None => T
    end) (replicate 256 (-1)%Z) (seq 0 64).

(** [T[c]] *)
Definition T (c : ascii) : Z := default (-1)%Z (T_table !! Z.to_nat (code c)).
Arguments T : simpl never.

(** [char((val >> valb) & 0xFF)] *)
Definition byte_at (val valb : Z) : ascii :=
  ascii_of_N (Z.to_N (Z.land (Z.shiftr val valb) 255)).

Fixpoint decode_loop (input : str) (val valb : Z) (out : str) : str :=
  match input with
  | [] => out
  | c :: input' =>
      if bool_decide (T c = -1)%Z then out
      else
        let val := to_int (to_int (Z.shiftl val 6) + T c) in
        let valb := (valb + 6)%Z in
        if bool_decide (0 <= valb)%Z
        then decode_loop input' val (valb - 8) (out ++ [byte_at val valb])
        else decode_loop input' val valb out
  end.

Definition base64_decode (input : str) : str := decode_loop input 0 (-8) [].

(** ** The specification *)

(** The value of a list of bits, the most significant first. *)
Definition bits_value (l : list bool) : Z :=
  foldl (fun a b => 2 * a + Z.b2z b)%Z 0%Z l.

Definition bits6 (z : Z) : list bool :=
  [Z.testbit z 5; Z.testbit z 4; Z.testbit z 3; Z.testbit z 2; Z.testbit z 1; Z.testbit z 0].

(** The bits of the characters up to the first one outside the alphabet. *)
Fixpoint input_bits (input : str) : list bool :=
  match input with
  | [] => []
  | c :: input' =>
      if bool_decide (T c = -1)%Z then [] else bits6 (T c) ++ input_bits input'
  end.

(** The bytes of a list of bits; an incomplete last byte is dropped. *)
Fixpoint bytes_of_bits (l : list bool) : str :=
  match l with
  | b7 :: b6 :: b5 :: b4 :: b3 :: b2 :: b1 :: b0 :: l' =>
      Ascii b0 b1 b2 b3 b4 b5 b6 b7 :: bytes_of_bits l'
  | _ => []
  end.

Definition decode_spec (input : str) : str := bytes_of_bits (input_bits input).

(** The encoder. *)
Definition bits8 (c : ascii) : list bool :=
  match c with Ascii b0 b1 b2 b3 b4 b5 b6 b7 => [b7; b6; b5; b4; b3; b2; b1; b0] end.

Definition alphabet_char (l : list bool) : ascii :=
  default "="%char (alphabet !! Z.to_nat (bits_value l)).

Fixpoint chars_of_bits (l : list bool) : str :=
  match l with
  | b5 :: b4 :: b3 :: b2 :: b1 :: b0 :: l' =>
      alphabet_char [b5; b4; b3; b2; b1; b0] :: chars_of_bits l'
  | [] => []
  | _ => [alphabet_char (take 6 (l ++ replicate 5 false))]
  end.

Definition encode (s : str) : str :=
  let cs := chars_of_bits (concat (map bits8 s)) in
  cs ++ replicate ((4 - length cs mod 4) mod 4) "="%char.

(** ** Lemmas: bits *)
Lemma bits_value_snoc l b : bits_value (l ++ [b]) = (2 * bits_value l + Z.b2z b)%Z.
Proof. unfold bits_value. by rewrite foldl_snoc. Qed.

Lemma bits_value_app l1 l2 :
  bits_value (l1 ++ l2) = (bits_value l1 * 2 ^ Z.of_nat (length l2) + bits_value l2)%Z.
Proof.
  induction l2 as [|b l2 IH] using rev_ind.
  - rewrite app_nil_r. simpl. unfold bits_value at 3. simpl. lia.
  - rewrite app_assoc, !bits_value_snoc, IH, length_app, Nat2Z.inj_add.
    rewrite Z.pow_add_r by lia. simpl length. change (2 ^ Z.of_nat 1)%Z with 2%Z. ring.
Qed.

Lemma bits_value_range l : (0 <= bits_value l < 2 ^ Z.of_nat (length l))%Z.
Proof.
  induction l as [|b l IH] using rev_ind; [done|].
  rewrite bits_value_snoc, length_app, Nat2Z.inj_add, Z.pow_add_r by lia.
  simpl length. change (2 ^ Z.of_nat 1)%Z with 2%Z.
  destruct b; simpl Z.b2z; lia.
Qed.

Lemma T_range c : (-1 <= T c < 64)%Z.
Proof. destruct c as [[] [] [] [] [] [] [] []]; vm_compute; split; congruence. Qed.

Lemma bits_value_bits6 z : (0 <= z < 64)%Z -> bits_value (bits6 z) = z.
Proof.
  intros Hz. assert (exists n, n < 64 /\ z = Z.of_nat n) as (n & Hn & ->).
  { exists (Z.to_nat z). lia. }
  do 64 (destruct n as [|n]; [reflexivity|]). lia.
Qed.

Lemma bytes_of_bits_cons l1 l2 :
  length l1 = 8 ->
  bytes_of_bits (l1 ++ l2) = ascii_of_N (Z.to_N (bits_value l1)) :: bytes_of_bits l2.
Proof.
  intros Hl. destruct l1 as [|b7 [|b6 [|b5 [|b4 [|b3 [|b2 [|b1 [|b0 [|]]]]]]]]]; try done.
  simpl app. cbn [bytes_of_bits]. f_equal.
  by destruct b0, b1, b2, b3, b4, b5, b6, b7.
Qed.

Lemma bytes_of_bits_short l : length l < 8 -> bytes_of_bits l = [].
Proof.
  intros Hl. destruct l as [|b7 [|b6 [|b5 [|b4 [|b3 [|b2 [|b1 [|b0 l]]]]]]]]; try done.
  simpl in Hl. lia.
Qed.

(** ** Lemmas: the accumulator *)

(** The conversion to [int] keeps the low bits. *)
Lemma to_int_mod z k : (0 <= k <= 32)%Z -> (to_int z mod 2 ^ k = z mod 2 ^ k)%Z.
Proof.
  intros Hk. unfold to_int, to_signed.
  rewrite <- (Zminus_mod_idemp_l (_ mod _)), Z.mod_mod_divide.
  - rewrite Zminus_mod_idemp_l. f_equal. lia.
  - exists (2 ^ (32 - k))%Z. rewrite <- Z.pow_add_r by lia. f_equal. lia.
Qed.

Lemma shift_in val n t r :
  (0 <= n <= 26)%Z -> (0 <= t < 64)%Z -> (val mod 2 ^ n = r)%Z ->
  (to_int (to_int (Z.shiftl val 6) + t) mod 2 ^ (n + 6) = r * 64 + t)%Z.
Proof.
  intros Hn Ht Hr. rewrite to_int_mod by lia.
  rewrite <- Zplus_mod_idemp_l, to_int_mod, Zplus_mod_idemp_l by lia.
  rewrite Z.shiftl_mul_pow2 by lia. change (2 ^ 6)%Z with 64%Z.
  rewrite Z.pow_add_r by lia. change (2 ^ 6)%Z with 64%Z.
  assert (0 < 2 ^ n)%Z by (apply Z.pow_pos_nonneg; lia).
  pose proof (Z.div_mod val (2 ^ n)) as Hval. pose proof (Z.mod_pos_bound val (2 ^ n)).
  symmetry. apply Z.mod_unique_pos with (val / 2 ^ n)%Z; nia.
Qed.

Lemma byte_at_bits val k l1 l2 :
  length l1 = 8 -> k = Z.of_nat (length l2) ->
  (val mod 2 ^ (k + 8) = bits_value (l1 ++ l2))%Z ->
  byte_at val k = ascii_of_N (Z.to_N (bits_value l1)).
Proof.
  intros Hl -> Hval. unfold byte_at. do 2 f_equal.
  pose proof (bits_value_range l1) as H1. pose proof (bits_value_range l2) as H2.
  rewrite Hl in H1. rewrite bits_value_app in Hval.
  change 255%Z with (Z.ones 8). rewrite Z.land_ones, Z.shiftr_div_pow2 by lia.
  rewrite Z.pow_add_r in Hval by lia.
  set (P := (2 ^ Z.of_nat (length l2))%Z) in *.
  change (2 ^ Z.of_nat 8)%Z with 256%Z in H1. change (2 ^ 8)%Z with 256%Z in *.
  assert (0 < P)%Z by (apply Z.pow_pos_nonneg; lia).
  pose proof (Z.div_mod val (P * 256)) as Hdiv. rewrite Hval in Hdiv.
  assert (val / P = val / (P * 256) * 256 + bits_value l1)%Z as ->.
  { symmetry. apply Z.div_unique_pos with (bits_value l2); nia. }
  rewrite Z.add_comm, Z_mod_plus_full. by apply Z.mod_small.
Qed.

Lemma decode_loop_bits input : forall val pb out,
  length pb < 8 -> (val mod 2 ^ Z.of_nat (length pb) = bits_value pb)%Z ->
  decode_loop input val (Z.of_nat (length pb) - 8) out =
  out ++ bytes_of_bits (pb ++ input_bits input).
Proof.
  induction input as [|c input IH]; intros val pb out Hlen Hval.
  { simpl. by rewrite app_nil_r, bytes_of_bits_short, app_nil_r by done. }
  cbn [decode_loop input_bits]. case_bool_decide as Hc.
  { by rewrite app_nil_r, bytes_of_bits_short, app_nil_r by done. }
  pose proof (T_range c) as Ht. set (t := T c) in *.
  set (val' := to_int (to_int (Z.shiftl val 6) + t)).
  assert (Z.of_nat (length (pb ++ bits6 t)) = Z.of_nat (length pb) + 6)%Z as Hlen'.
  { rewrite length_app. simpl. lia. }
  assert (val' mod 2 ^ Z.of_nat (length (pb ++ bits6 t)) = bits_value (pb ++ bits6 t))%Z as Hval'.
  { rewrite bits_value_app, bits_value_bits6, Hlen' by lia.
    apply (shift_in val (Z.of_nat (length pb)) t (bits_value pb)); [lia|lia|done]. }
  rewrite app_assoc. case_bool_decide as Hvalb.
  - set (l1 := take 8 (pb ++ bits6 t)). set (l2 := drop 8 (pb ++ bits6 t)).
    assert (pb ++ bits6 t = l1 ++ l2) as Hl by (symmetry; apply take_drop).
    assert (length l1 = 8) as Hl1 by (apply length_take_le; lia).
    assert (Z.of_nat (length pb) - 8 + 6 = Z.of_nat (length l2))%Z as Hl2.
    { unfold l2. rewrite length_drop. lia. }
    rewrite Hl in Hval', Hlen' |- *. rewrite <- app_assoc, bytes_of_bits_cons by done.
    rewrite (byte_at_bits val' _ l1 l2) by
      (done || (rewrite Hl2, <- Hval', length_app, Hl1; do 2 f_equal; lia)).
    rewrite Hl2, IH.
    + rewrite <- app_assoc. done.
    + lia.
    + rewrite bits_value_app in Hval'.
      pose proof (bits_value_range l2). rewrite length_app, Hl1, Nat2Z.inj_add, Z.pow_add_r in Hval' by lia.
      set (P := (2 ^ Z.of_nat (length l2))%Z) in *. change (2 ^ Z.of_nat 8)%Z with 256%Z in Hval'.
      pose proof (Z.div_mod val' (256 * P)).
      symmetry. apply Z.mod_unique_pos with (val' / (256 * P) * 256 + bits_value l1)%Z; nia.
  - replace (Z.of_nat (length pb) - 8 + 6)%Z with (Z.of_nat (length (pb ++ bits6 t)) - 8)%Z by lia.
    apply IH; [lia|done].
Qed.

Lemma base64_decode_spec input : base64_decode input = decode_spec input.
Proof. apply (decode_loop_bits input 0 [] []); simpl; [lia|done]. Qed.

(** ** Lemmas: the encoder *)
Lemma bytes_of_bits_bits8 s z : length z < 8 -> bytes_of_bits (concat (map bits8 s) ++ z) = s.
Proof.
  intros Hz. induction s as [|c s IH]; [by apply bytes_of_bits_short|].
  simpl. rewrite <- app_assoc. destruct c. simpl. by rewrite IH.
Qed.

Lemma T_alphabet_char b5 b4 b3 b2 b1 b0 :
  T (alphabet_char [b5; b4; b3; b2; b1; b0]) <> (-1)%Z /\
  bits6 (T (alphabet_char [b5; b4; b3; b2; b1; b0])) = [b5; b4; b3; b2; b1; b0].
Proof. by destruct b5, b4, b3, b2, b1, b0; vm_compute. Qed.

Lemma input_bits_alphabet_char l s : length l = 6 ->
  input_bits (alphabet_char l :: s) = l ++ input_bits s.
Proof.
  intros Hl. destruct l as [|b5 [|b4 [|b3 [|b2 [|b1 [|b0 [|]]]]]]]; try done.
  destruct (T_alphabet_char b5 b4 b3 b2 b1 b0) as [Hne Hb].
  cbn [input_bits]. rewrite bool_decide_false by done. by rewrite Hb.
Qed.

(** Encoding pads the bits with fewer than six zeros. *)
Lemma input_bits_chars n : forall l s, length l <= n -> input_bits s = [] ->
  exists k, k < 6 /\ input_bits (chars_of_bits l ++ s) = l ++ replicate k false.
Proof.
  induction n as [|n IH]; intros l s Hn Hs.
  { destruct l; [|simpl in Hn; lia]. exists 0. split; [lia|]. done. }
  destruct l as [|b5 [|b4 [|b3 [|b2 [|b1 [|b0 l]]]]]].
  - exists 0. split; [lia|]. done.
  - exists 5. split; [lia|]. simpl app at 1.
    rewrite input_bits_alphabet_char, Hs by done. done.
  - exists 4. split; [lia|]. simpl app at 1.
    rewrite input_bits_alphabet_char, Hs by done. done.
  - exists 3. split; [lia|]. simpl app at 1.
    rewrite input_bits_alphabet_char, Hs by done. done.
  - exists 2. split; [lia|]. simpl app at 1.
    rewrite input_bits_alphabet_char, Hs by done. done.
  - exists 1. split; [lia|]. simpl app at 1.
    rewrite input_bits_alphabet_char, Hs by done. done.
  - destruct (IH l s) as (k & Hk & Heq); [simpl in Hn; lia|done|].
    exists k. split; [done|]. cbn [chars_of_bits].
    rewrite <- app_comm_cons, input_bits_alphabet_char, Heq by done. done.
Qed.

Lemma input_bits_padding n : input_bits (replicate n "="%char) = [].
Proof. by destruct n. Qed.

Lemma base64_decode_encode s : base64_decode (encode s) = s.
Proof.
  rewrite base64_decode_spec. unfold decode_spec, encode.
  destruct (input_bits_chars _ (concat (map bits8 s)) _ (le_n _)
    (input_bits_padding ((4 - length (chars_of_bits (concat (map bits8 s))) mod 4) mod 4)))
    as (k & Hk & ->).
  apply bytes_of_bits_bits8. rewrite length_replicate. lia.
Qed.

(** Everything after the first character outside the alphabet is ignored. *)
Lemma base64_decode_prefix s c t :
  T c = (-1)%Z -> base64_decode (s ++ c :: t) = base64_decode s.
Proof.
  intros Hc. rewrite !base64_decode_spec. unfold decode_spec. f_equal.
  induction s as [|d s IH]; cbn [app input_bits].
  - by rewrite (bool_decide_true (T c = _)).
  - destruct (bool_decide (T d = (-1)%Z)); [done|]. by rewrite IH.
Qed.

