(* ===== verification/Http.v ===== *)
(** * The interface of Boost.Beast that the server uses

    Requests, responses and the incremental parser are third-party code: the
    class [BeastHttp] names the operations the sources call, and
    [BeastHttpLaws] states the documented behaviour the theorems rely on
    (a setter is observed by its getter and by no other one;
    [prepare_payload] sets the Content-Length of a body of known size). *)

From S2P Require Import Prelude Cxx.
Local Open Scope str_scope.

(** ** Values of the library's enumerations *)

(** [http::verb]; only the four methods below are compared against. *)
Inductive verb : Type :=
  | verb_get | verb_post | verb_put | verb_delete | verb_other.

(** The [http::field]s the sources name. *)
Inductive field : Type :=
  | field_authorization | field_content_type | field_content_length
  | field_server | field_www_authenticate.

#[export] Instance verb_eq_dec : EqDecision verb.
Proof. solve_decision. Defined.
#[export] Instance field_eq_dec : EqDecision field.
Proof. solve_decision. Defined.

(** [http::status] *)
Definition status_ok : Z := 200.
Definition status_bad_request : Z := 400.
Definition status_unauthorized : Z := 401.
Definition status_not_found : Z := 404.
Definition status_internal_server_error : Z := 500.

(** What a fresh [http::request_parser] does with the whole buffer: [put]
    reports an error, the message is complete ([is_done]), more input is
    needed, or an exception is thrown. *)
Inductive put_result (R : Type) : Type :=
  | PutError (message : str)
  | PutDone (request : R)
  | PutMore
  | PutThrow.
Arguments PutError {R} message.
Arguments PutDone {R} request.
Arguments PutMore {R}.
Arguments PutThrow {R}.

(** ** The operations *)
Class BeastHttp : Type := {
  (* http::request<http::string_body> *)
  Request : Type;
  req_method : Request -> verb;
  req_method_string : Request -> str;
  req_target : Request -> str;
  req_version : Request -> Z;
  req_body : Request -> str;
  req_fields : Request -> list (str * str);
  req_find : field -> Request -> option str;
  req_set : field -> str -> Request -> Request;
  (* http::response<http::string_body> *)
  Response : Type;
  default_response : Response;
  new_response : Z -> Z -> Response;
  res_result : Response -> Z;
  res_set_result : Z -> Response -> Response;
  res_version : Response -> Z;
  res_set_version : Z -> Response -> Response;
  res_body : Response -> str;
  res_set_body : str -> Response -> Response;
  res_find : field -> Response -> option str;
  res_set : field -> str -> Response -> Response;
  res_content_length : Z -> Response -> Response;
  res_prepare_payload : Response -> Response;
  (* http::request_parser<http::string_body> *)
  parser_put : str -> put_result Request
}.

(** The length of a string, as [size()] returns it. *)
Definition size_of (s : str) : Z := Z.of_nat (length s).

(** A status whose responses carry a body. *)
Definition has_payload (status : Z) : Prop :=
  (200 <= status)%Z /\ status <> 204%Z /\ status <> 304%Z.

(** ** The laws *)
Class BeastHttpLaws (B : BeastHttp) : Prop := {
  result_new s v : res_result (new_response s v) = s;
  version_new s v : res_version (new_response s v) = v;
  body_new s v : res_body (new_response s v) = [];
  find_new f s v : res_find f (new_response s v) = None;

  result_set_result s r : res_result (res_set_result s r) = s;
  version_set_result s r : res_version (res_set_result s r) = res_version r;
  body_set_result s r : res_body (res_set_result s r) = res_body r;
  find_set_result f s r : res_find f (res_set_result s r) = res_find f r;

  result_set_version v r : res_result (res_set_version v r) = res_result r;
  version_set_version v r : res_version (res_set_version v r) = v;
  body_set_version v r : res_body (res_set_version v r) = res_body r;
  find_set_version f v r : res_find f (res_set_version v r) = res_find f r;

  result_set_body b r : res_result (res_set_body b r) = res_result r;
  version_set_body b r : res_version (res_set_body b r) = res_version r;
  body_set_body b r : res_body (res_set_body b r) = b;
  find_set_body f b r : res_find f (res_set_body b r) = res_find f r;

  result_set f v r : res_result (res_set f v r) = res_result r;
  version_set f v r : res_version (res_set f v r) = res_version r;
  body_set f v r : res_body (res_set f v r) = res_body r;
  find_set f v r : res_find f (res_set f v r) = Some v;
  find_set_ne f g v r : f <> g -> res_find g (res_set f v r) = res_find g r;

  result_content_length n r : res_result (res_content_length n r) = res_result r;
  version_content_length n r : res_version (res_content_length n r) = res_version r;
  body_content_length n r : res_body (res_content_length n r) = res_body r;
  find_content_length_ne n f r : f <> field_content_length ->
    res_find f (res_content_length n r) = res_find f r;

  result_prepare r : res_result (res_prepare_payload r) = res_result r;
  version_prepare r : res_version (res_prepare_payload r) = res_version r;
  body_prepare r : res_body (res_prepare_payload r) = res_body r;
  find_prepare_ne f r : f <> field_content_length ->
    res_find f (res_prepare_payload r) = res_find f r;
  find_prepare r : has_payload (res_result r) ->
    res_find field_content_length (res_prepare_payload r) =
    Some (to_string (size_of (res_body r)))
}.

(** A header ends with an empty line. *)
Definition HEADER_END : str := [CR; NL; CR; NL].

Fixpoint has_header_end (b : str) : bool :=
  match b with
  | [] => false
  | _ :: b' => bool_decide (HEADER_END `prefix_of` b) || has_header_end b'
  end.

(** [put] without [eager(true)] returns after the header (the documentation of
    [basic_parser::eager]): what follows it in the buffer has no influence.
    Before the end of the header it reports an error, [error::need_more] at
    least (the documentation of [basic_parser::put]; a test of the session,
    on a request without its last two line ends, expects as much). *)
Class BeastHeaderLaws (B : BeastHttp) : Prop := {
  put_incomplete b : has_header_end b = false -> exists m, parser_put b = PutError m;
  put_complete b x : has_header_end b = true -> parser_put (b ++ x) = parser_put b
}.

(** ** Automation: observing a response *)
Create Rewrite HintDb beast.

#[export] Hint Rewrite @result_new @version_new @body_new @find_new
  @result_set_result @version_set_result @body_set_result @find_set_result
  @result_set_version @version_set_version @body_set_version @find_set_version
  @result_set_body @version_set_body @body_set_body @find_set_body
  @result_set @version_set @body_set @find_set
  @result_content_length @version_content_length @body_content_length
  @result_prepare @version_prepare @body_prepare
  using typeclasses eauto : beast.
#[export] Hint Rewrite @find_set_ne @find_content_length_ne @find_prepare_ne @find_prepare
  using (first [typeclasses eauto | discriminate
    | autorewrite with beast; unfold has_payload; lia]) : beast.

(** What a client observes of a response that a handler has completed. *)
Definition observed `{BeastHttp} (r : Response) (status : Z) (version : Z)
    (content_type : str) (body : str) : Prop :=
  res_result r = status /\ res_version r = version /\
  res_find field_content_type r = Some content_type /\
  res_body r = body /\
  res_find field_content_length r = Some (to_string (size_of body)).

(** A response whose Content-Length is the length of its body. *)
Definition sized `{BeastHttp} (r : Response) : Prop :=
  res_find field_content_length r = Some (to_string (size_of (res_body r))).

Lemma prepare_sized `{BeastHttpLaws} r : has_payload (res_result r) -> sized (res_prepare_payload r).
Proof. intros Hp. unfold sized. by rewrite body_prepare, find_prepare. Qed.

Lemma observed_sized `{BeastHttp} r status v t body : observed r status v t body -> sized r.
Proof. by intros (_ & _ & _ & <- & ?). Qed.

Ltac observe :=
  unfold observed, status_ok, status_bad_request, status_unauthorized, status_not_found,
    status_internal_server_error in *;
  split_and!; autorewrite with beast; try done.
