(* ===== verification/Mime.v ===== *)
(** * MIME types ([src/http/mime_types.h], [src/http/mime_types.cc]) *)

From S2P Require Import Prelude Cxx.
Local Open Scope str_scope.

Record mapping : Type := Mapping { extension : str; mime_type : str }.

Definition mappings : list mapping := [
  Mapping "gif" "image/gif";
  Mapping "htm" "text/html";
  Mapping "html" "text/html";
  Mapping "jpg" "image/jpeg";
  Mapping "png" "image/png";
  Mapping "pdf" "application/pdf"
].

Fixpoint find_mapping (ms : list mapping) (ext : str) : str :=
  match ms with
  | [] => "text/plain"
  | m :: ms' => if bool_decide (extension m = ext) then mime_type m else find_mapping ms' ext
  end.

Definition extension_to_type (ext : str) : str := find_mapping mappings ext.

Lemma find_mapping_cases ms ext :
  (exists m, m ∈ ms /\ extension m = ext /\ find_mapping ms ext = mime_type m) \/
  ((forall m, m ∈ ms -> extension m <> ext) /\ find_mapping ms ext = "text/plain").
Proof.
  induction ms as [|m ms IH]; simpl.
  - right. split; [|done]. by intros m ?%elem_of_nil.
  - case_bool_decide.
    + left. exists m. split_and!; [apply list_elem_of_here|done..].
    + destruct IH as [(m' & Hm & He & Hf)|[Hne Hf]].
      * left. exists m'. split_and!; [by apply list_elem_of_further|done..].
      * right. split; [|done]. intros m' [-> | ?]%elem_of_cons; [done|by apply Hne].
Qed.
