(* ===== verification/RequestParser.v ===== *)
(** * The request parser ([src/http/request_parser.cc]) *)

From S2P Require Import Prelude Cxx Http.

Section request_parser.
Context `{BeastHttp}.

Record RequestParser : Type := Parser_ { req_ : Request }.

(** [parse]: a fresh library parser on a buffer with the whole request.  The
    [std::exception]s of the library are caught. *)
Definition parse (raw_request : str) (p : RequestParser) : bool * RequestParser :=
  match parser_put raw_request with
  | PutError _ => (false, p)
  | PutDone request => (true, Parser_ request)
  | PutMore => (false, p)
  | PutThrow => (false, p)
  end.

Definition getRequest (p : RequestParser) : Request := req_ p.
End request_parser.
