(* ===== verification/Storage.v ===== *)
(** * Entity storage ([src/api/file_storage.cc], [src/api/crud_handler.cc])

    [FileStorage] maps an entity and an id to a file; [CRUDHandler] implements
    the interface [ICRUDHandler] on top of it.  The file system is third-party
    code (the operating system, [boost::filesystem], the streams): the class
    [FileSystem] names the operations and [FileSystemLaws] their documented
    behaviour on the files of a storage directory.

    [CrudLaws] is what [ICRUDHandler] promises to its client, the API request
    handler: a map from entities and ids to data.  [CRUDHandler] is proved to
    satisfy it. *)

From S2P Require Import Prelude Cxx.
Local Open Scope str_scope.

(** ** The file system

    [None] stands for an exception ([filesystem_error]), except for
    [fs_open_read], where it stands for a stream that could not be opened. *)
Class FileSystem (F : Type) : Type := {
  fs_exists : str -> F -> option bool;
  fs_is_regular_file : str -> F -> option bool;
  fs_open_read : str -> F -> option str;
  (* create_directories(path(p).parent_path()) *)
  fs_create_parent : str -> F -> option F;
  (* std::ofstream ofs(p); ofs << data; ofs.close(): errors are not reported *)
  fs_open_write : str -> str -> F -> F;
  fs_remove : str -> F -> option F
}.

(** The files at the paths of [storage]: accessible, writable, and changed
    by nobody else. *)
Class FileSystemLaws {F : Type} (fs : FileSystem F) (storage : str -> Prop) : Prop := {
  exists_total p s : storage p -> exists b, fs_exists p s = Some b;
  create_parent_total p s : storage p -> exists s', fs_create_parent p s = Some s';
  create_parent_frame p q s s' : storage p -> storage q ->
    fs_create_parent p s = Some s' ->
    fs_exists q s' = fs_exists q s /\ fs_open_read q s' = fs_open_read q s;
  write_here p d s s' : storage p -> fs_create_parent p s = Some s' ->
    fs_exists p (fs_open_write p d s') = Some true /\
    fs_open_read p (fs_open_write p d s') = Some d;
  write_frame p q d s : storage p -> storage q -> p <> q ->
    fs_exists q (fs_open_write p d s) = fs_exists q s /\
    fs_open_read q (fs_open_write p d s) = fs_open_read q s;
  remove_here p s : storage p -> fs_exists p s = Some true ->
    exists s', fs_remove p s = Some s' /\ fs_exists p s' = Some false;
  remove_frame p q s s' : storage p -> storage q -> p <> q ->
    fs_remove p s = Some s' ->
    fs_exists q s' = fs_exists q s /\ fs_open_read q s' = fs_open_read q s
}.

(** An exception that no handler between here and the [noexcept] function
    [handleRequest] catches. *)
Definition uncaught {A} (o : option A) : outcome A :=
  match o with Some a => Ok a | None => Fault Terminated end.

(** ** [FileStorage] *)
Section file_storage.
Context {F : Type} {fs : FileSystem F} (base_path_ : str).

Definition getPath (entity : str) (id : Z) : str :=
  base_path_ ++ entity ++ "/" ++ to_string id.

Definition FileStorage_write (entity : str) (id : Z) (data : str) (s : F) : outcome F :=
  let path := getPath entity id in
  s' ← uncaught (fs_create_parent path s);
  Ok (fs_open_write path data s').

(** [buffer << ifs.rdbuf()] reads nothing from a stream that is not open. *)
Definition FileStorage_read (entity : str) (id : Z) (s : F) : str :=
  default [] (fs_open_read (getPath entity id) s).

Definition FileStorage_remove (entity : str) (id : Z) (s : F) : outcome F :=
  uncaught (fs_remove (getPath entity id) s).
End file_storage.

(** ** [ICRUDHandler] *)
Class ICRUDHandler (S : Type) : Type := {
  crud_create : str -> str -> S -> outcome (str * S);
  crud_read : str -> Z -> S -> outcome str;
  crud_update : str -> Z -> str -> S -> outcome (bool * S);
  crud_delete : str -> Z -> S -> outcome (bool * S);
  crud_exists : str -> Z -> S -> outcome bool
}.

(** ** [CRUDHandler] *)
Section crud_handler.
Context {F : Type} {fs : FileSystem F} (base_path_ : str).

Definition CRUDHandler_exists (entity : str) (id : Z) (s : F) : outcome bool :=
  uncaught (fs_exists (getPath base_path_ entity id) s).

(** One iteration of [while (exists(path)) ++id;]. *)
Definition next_id_step (entity : str) (s : F) (id : Z) : Z + outcome Z :=
  match CRUDHandler_exists entity id s with
  | Ok true =>
      match int_incr id with
      | Ok id' => inl id'
      | Fault f => inr (Fault f)
      end
  | Ok false => inr (Ok id)
  | Fault f => inr (Fault f)
  end.

(** The loop ends after at most 2^31 - 1 iterations: [++id] then overflows. *)
Definition getNextId (entity : str) (s : F) : outcome Z :=
  match iter_pow2 31 (next_id_step entity s) 1%Z with
  | inr r => r
  | inl _ => Fault OutOfFuel
  end.

(** ["{\"id\": " << id << "}"] *)
Definition id_json (id : Z) : str :=
  ["{"%char; DQUOTE] ++ "id" ++ [DQUOTE] ++ ": " ++ to_string id ++ "}".

Definition CRUDHandler_create (entity data : str) (s : F) : outcome (str * F) :=
  id ← getNextId entity s;
  s' ← FileStorage_write base_path_ entity id data s;
  Ok (id_json id, s').

Definition CRUDHandler_read (entity : str) (id : Z) (s : F) : outcome str :=
  Ok (FileStorage_read base_path_ entity id s).

Definition CRUDHandler_update (entity : str) (id : Z) (data : str) (s : F) :
    outcome (bool * F) :=
  e ← CRUDHandler_exists entity id s;
  if negb e then Ok (false, s)
  else
    s' ← FileStorage_write base_path_ entity id data s;
    Ok (true, s').

Definition CRUDHandler_delete (entity : str) (id : Z) (s : F) : outcome (bool * F) :=
  e ← CRUDHandler_exists entity id s;
  if negb e then Ok (false, s)
  else
    s' ← FileStorage_remove base_path_ entity id s;
    Ok (true, s').

#[local] Instance CRUDHandler : ICRUDHandler F := {
  crud_create := CRUDHandler_create;
  crud_read := CRUDHandler_read;
  crud_update := CRUDHandler_update;
  crud_delete := CRUDHandler_delete;
  crud_exists := CRUDHandler_exists
}.
End crud_handler.

(** ** What [ICRUDHandler] promises

    [lookup s e id] is the data stored for [id] of entity [e]; the promise is
    made for the entities [entity_ok]. *)
Class CrudLaws {S : Type} (H : ICRUDHandler S) (entity_ok : str -> Prop)
    (lookup : S -> str -> Z -> option str) : Prop := {
  crud_exists_spec e id s : entity_ok e ->
    crud_exists e id s = Ok (bool_decide (is_Some (lookup s e id)));
  crud_read_spec e id s d : entity_ok e -> lookup s e id = Some d ->
    crud_read e id s = Ok d;
  crud_update_absent e id d s : entity_ok e -> lookup s e id = None ->
    crud_update e id d s = Ok (false, s);
  crud_update_present e id d s : entity_ok e -> is_Some (lookup s e id) ->
    exists s', crud_update e id d s = Ok (true, s') /\ lookup s' e id = Some d /\
      forall e' id', entity_ok e' -> (e', id') <> (e, id) -> lookup s' e' id' = lookup s e' id';
  crud_delete_absent e id s : entity_ok e -> lookup s e id = None ->
    crud_delete e id s = Ok (false, s);
  crud_delete_present e id s : entity_ok e -> is_Some (lookup s e id) ->
    exists s', crud_delete e id s = Ok (true, s') /\ lookup s' e id = None /\
      forall e' id', entity_ok e' -> (e', id') <> (e, id) -> lookup s' e' id' = lookup s e' id';
  (* the first free id *)
  crud_create_free e d s id : entity_ok e -> (1 <= id <= INT_MAX)%Z ->
    (forall i, (1 <= i < id)%Z -> is_Some (lookup s e i)) -> lookup s e id = None ->
    exists s', crud_create e d s = Ok (id_json id, s') /\ lookup s' e id = Some d /\
      forall e' id', entity_ok e' -> (e', id') <> (e, id) -> lookup s' e' id' = lookup s e' id';
  crud_create_full e d s : entity_ok e ->
    (forall i, (1 <= i <= INT_MAX)%Z -> is_Some (lookup s e i)) ->
    crud_create e d s = Fault IntegerOverflow
}.

(** A slash in front of an entity does not matter: below a registered prefix
    [GET], [PUT] and [DELETE] name an entity with the slash that follows the
    prefix, [POST] without it. *)
Class CrudSlash {S : Type} (H : ICRUDHandler S) (entity_ok : str -> Prop) : Prop := {
  slash_exists e id s : entity_ok e -> crud_exists ("/" ++ e) id s = crud_exists e id s;
  slash_read e id s : entity_ok e -> crud_read ("/" ++ e) id s = crud_read e id s;
  slash_update e id d s : entity_ok e -> crud_update ("/" ++ e) id d s = crud_update e id d s;
  slash_delete e id s : entity_ok e -> crud_delete ("/" ++ e) id s = crud_delete e id s
}.

(** ** [CRUDHandler] keeps the promise *)
Lemma getPath_split base entity id :
  getPath base entity id = (base ++ entity) ++ "/"%char :: to_string id.
Proof. unfold getPath. by rewrite <- app_assoc. Qed.

(** Different entities or ids have different files. *)
Lemma getPath_injective base e1 e2 id1 id2 :
  getPath base e1 id1 = getPath base e2 id2 -> e1 = e2 /\ id1 = id2.
Proof.
  rewrite !getPath_split. intros Heq.
  apply last_separator_inj in Heq as [He Hid]; [|by apply to_string_no_sep..].
  split; [by simplify_list_eq|by apply to_string_inj].
Qed.

Definition storage_path (base : str) (entity_ok : str -> Prop) (p : str) : Prop :=
  exists entity id, entity_ok entity /\ p = getPath base entity id.

(** The data [CRUDHandler] stores for an id of an entity. *)
Definition stored {F} {fs : FileSystem F} (base : str) (s : F) (entity : str) (id : Z) : option str :=
  match fs_exists (getPath base entity id) s with
  | Some true => Some (FileStorage_read base entity id s)
  | _ => None
  end.

Section crud_laws.
Context {F : Type} {fs : FileSystem F} (base : str) (entity_ok : str -> Prop).
Context {laws : FileSystemLaws fs (storage_path base entity_ok)}.

Lemma storage_getPath e id : entity_ok e -> storage_path base entity_ok (getPath base e id).
Proof. intros. by exists e, id. Qed.
#[local] Hint Resolve storage_getPath : core.

Lemma exists_stored e id s : entity_ok e ->
  CRUDHandler_exists base e id s = Ok (bool_decide (is_Some (stored base s e id))).
Proof.
  intros He. unfold CRUDHandler_exists, stored.
  destruct (exists_total (getPath base e id) s) as [[] Hb]; [by auto| |]; by rewrite Hb.
Qed.

Lemma exists_true e id s : entity_ok e -> is_Some (stored base s e id) ->
  CRUDHandler_exists base e id s = Ok true.
Proof. intros. rewrite exists_stored by done. by rewrite bool_decide_true. Qed.

Lemma exists_false e id s : entity_ok e -> stored base s e id = None ->
  CRUDHandler_exists base e id s = Ok false.
Proof.
  intros He Hs. rewrite exists_stored, Hs by done.
  by rewrite bool_decide_false by (by intros []).
Qed.

Lemma path_ne e id e' id' : (e', id') <> (e, id) -> getPath base e id <> getPath base e' id'.
Proof. intros Hne Heq. apply getPath_injective in Heq as [-> ->]. done. Qed.

Lemma stored_frame s s' e id :
  fs_exists (getPath base e id) s' = fs_exists (getPath base e id) s ->
  fs_open_read (getPath base e id) s' = fs_open_read (getPath base e id) s ->
  stored base s' e id = stored base s e id.
Proof. unfold stored, FileStorage_read. by intros -> ->. Qed.

Lemma write_stored e id d s : entity_ok e ->
  exists s', FileStorage_write base e id d s = Ok s' /\ stored base s' e id = Some d /\
    forall e' id', entity_ok e' -> (e', id') <> (e, id) ->
      stored base s' e' id' = stored base s e' id'.
Proof.
  intros He. unfold FileStorage_write.
  destruct (create_parent_total (getPath base e id) s) as [s1 H1]; [by auto|].
  rewrite H1. simpl. eexists. split; [done|]. split.
  - unfold stored, FileStorage_read.
    destruct (write_here (getPath base e id) d s s1) as [-> ->]; [by auto|done|done].
  - intros e' id' He' Hne.
    destruct (create_parent_frame (getPath base e id) (getPath base e' id') s s1) as [E1 R1];
      [by auto..|].
    destruct (write_frame (getPath base e id) (getPath base e' id') d s1) as [E2 R2];
      [by auto..|by apply path_ne|].
    apply stored_frame; congruence.
Qed.

Lemma remove_stored e id s : entity_ok e -> is_Some (stored base s e id) ->
  exists s', FileStorage_remove base e id s = Ok s' /\ stored base s' e id = None /\
    forall e' id', entity_ok e' -> (e', id') <> (e, id) ->
      stored base s' e' id' = stored base s e' id'.
Proof.
  intros He [d Hd].
  assert (fs_exists (getPath base e id) s = Some true) as Hex.
  { unfold stored in Hd. by repeat case_match. }
  destruct (remove_here (getPath base e id) s) as (s' & Hr & Hex'); [by auto|done|].
  unfold FileStorage_remove. rewrite Hr. exists s'. split; [done|]. split.
  - unfold stored. by rewrite Hex'.
  - intros e' id' He' Hne.
    destruct (remove_frame (getPath base e id) (getPath base e' id') s s') as [E R];
      [by auto..|by apply path_ne|done|]. by apply stored_frame.
Qed.

Lemma next_id_step_used e s id : entity_ok e -> is_Some (stored base s e id) -> (id < INT_MAX)%Z ->
  next_id_step base e s id = inl (id + 1)%Z.
Proof.
  intros. unfold next_id_step. rewrite exists_true by done. unfold int_incr.
  by rewrite bool_decide_true.
Qed.

(** The least id that is not in use, when there is one. *)
Lemma getNextId_free e s id : entity_ok e -> (1 <= id <= INT_MAX)%Z ->
  (forall i, (1 <= i < id)%Z -> is_Some (stored base s e i)) -> stored base s e id = None ->
  getNextId base e s = Ok id.
Proof.
  intros He Hid Hused Hfree. unfold getNextId.
  rewrite (iter_pow2_trace (next_id_step base e s) (fun n => 1 + Z.of_nat n)%Z
    (Z.to_nat (id - 1)) 31 (Ok id)); [done| | |].
  - intros i Hi. rewrite next_id_step_used; [f_equal; lia|done|apply Hused; lia|lia].
  - unfold next_id_step. rewrite exists_false; [do 2 f_equal; lia|done|].
    by replace (1 + Z.of_nat (Z.to_nat (id - 1)))%Z with id by lia.
  - unfold INT_MAX in Hid. change (2 ^ Z.of_nat 31)%Z with 2147483648%Z. lia.
Qed.

(** When every positive [int] is in use, the counter overflows. *)
Lemma getNextId_full e s : entity_ok e ->
  (forall i, (1 <= i <= INT_MAX)%Z -> is_Some (stored base s e i)) ->
  getNextId base e s = Fault IntegerOverflow.
Proof.
  intros He Hused. unfold getNextId.
  rewrite (iter_pow2_trace (next_id_step base e s) (fun n => 1 + Z.of_nat n)%Z
    (Z.to_nat (INT_MAX - 1)) 31 (Fault IntegerOverflow)); [done| | |].
  - intros i Hi. rewrite next_id_step_used; [f_equal; lia|done|apply Hused; lia|lia].
  - unfold next_id_step. rewrite Z2Nat.id by (unfold INT_MAX; lia).
    rewrite exists_true; [|done|apply Hused; unfold INT_MAX; lia].
    unfold int_incr. rewrite bool_decide_false by lia. done.
  - rewrite Z2Nat.id by (unfold INT_MAX; lia). unfold INT_MAX.
    change (2 ^ Z.of_nat 31)%Z with 2147483648%Z. lia.
Qed.

#[export] Instance CRUDHandler_laws :
  CrudLaws (CRUDHandler base) entity_ok (stored base).
Proof.
  split; simpl.
  - intros. by apply exists_stored.
  - intros e id s d He Hd. unfold CRUDHandler_read. f_equal.
    unfold stored in Hd. repeat case_match; by simplify_eq.
  - intros e id d s He Hn. unfold CRUDHandler_update. by rewrite exists_false.
  - intros e id d s He Hs. unfold CRUDHandler_update. rewrite exists_true by done. simpl.
    destruct (write_stored e id d s He) as (s' & -> & H1 & H2). eauto.
  - intros e id s He Hn. unfold CRUDHandler_delete. by rewrite exists_false.
  - intros e id s He Hs. unfold CRUDHandler_delete. rewrite exists_true by done. simpl.
    destruct (remove_stored e id s He Hs) as (s' & -> & H1 & H2). eauto.
  - intros e d s id He Hid Hused Hfree. unfold CRUDHandler_create.
    rewrite (getNextId_free e s id) by done. simpl.
    destruct (write_stored e id d s He) as (s' & -> & H1 & H2). eauto.
  - intros e d s He Hused. unfold CRUDHandler_create. by rewrite getNextId_full.
Qed.
End crud_laws.

(** ** Slashes *)

(** A run of slashes in a path is one slash. *)
Class FileSystemSlashes {F : Type} (fs : FileSystem F) : Prop := {
  exists_slashes p q s : fs_exists (p ++ "//" ++ q) s = fs_exists (p ++ "/" ++ q) s;
  open_read_slashes p q s : fs_open_read (p ++ "//" ++ q) s = fs_open_read (p ++ "/" ++ q) s;
  create_parent_slashes p q s :
    fs_create_parent (p ++ "//" ++ q) s = fs_create_parent (p ++ "/" ++ q) s;
  open_write_slashes p q d s :
    fs_open_write (p ++ "//" ++ q) d s = fs_open_write (p ++ "/" ++ q) d s;
  remove_slashes p q s : fs_remove (p ++ "//" ++ q) s = fs_remove (p ++ "/" ++ q) s
}.

(** When the directory of the storage ends with a slash, a slash in front of
    the entity does not matter. *)
Section slashes.
Context {F : Type} {fs : FileSystem F} {sl : FileSystemSlashes fs} (base : str).

Lemma getPath_slash e id :
  getPath (base ++ "/") ("/" ++ e) id = base ++ "//" ++ (e ++ "/" ++ to_string id).
Proof. unfold getPath. by simplify_list_eq. Qed.

Lemma getPath_no_slash e id :
  getPath (base ++ "/") e id = base ++ "/" ++ (e ++ "/" ++ to_string id).
Proof. unfold getPath. by simplify_list_eq. Qed.

Lemma slash_CRUDHandler_exists e id s :
  CRUDHandler_exists (base ++ "/") ("/" ++ e) id s = CRUDHandler_exists (base ++ "/") e id s.
Proof.
  unfold CRUDHandler_exists. by rewrite getPath_slash, getPath_no_slash, exists_slashes.
Qed.

Lemma slash_FileStorage_write e id d s :
  FileStorage_write (base ++ "/") ("/" ++ e) id d s = FileStorage_write (base ++ "/") e id d s.
Proof.
  unfold FileStorage_write. rewrite getPath_slash, getPath_no_slash, create_parent_slashes.
  destruct (fs_create_parent _ _); simpl; [|done]. f_equal. apply open_write_slashes.
Qed.

#[export] Instance CRUDHandler_slash entity_ok :
  CrudSlash (CRUDHandler (base ++ "/")) entity_ok.
Proof.
  split; cbn [crud_exists crud_read crud_update crud_delete CRUDHandler]; intros.
  - apply slash_CRUDHandler_exists.
  - unfold CRUDHandler_read, FileStorage_read.
    by rewrite getPath_slash, getPath_no_slash, open_read_slashes.
  - unfold CRUDHandler_update. rewrite slash_CRUDHandler_exists.
    destruct (CRUDHandler_exists _ _ _ _) as [[]|]; [|done|done].
    run_ok. by rewrite slash_FileStorage_write.
  - unfold CRUDHandler_delete. rewrite slash_CRUDHandler_exists.
    destruct (CRUDHandler_exists _ _ _ _) as [[]|]; [|done|done].
    run_ok. unfold FileStorage_remove. by rewrite getPath_slash, getPath_no_slash, remove_slashes.
Qed.
End slashes.
