(* ===== verification/Handlers.v ===== *)
(** * The request handlers without an API ([src/request_handler/])

    Each [handleRequest] is a function from the request and the response
    object it fills in to the filled-in response.  The object is the one the
    session keeps, so what a handler does not set stays as it was.

    The static handler reads the file system; an exception of
    [boost::filesystem] leaves the [noexcept] function and terminates the
    program ([Fault Terminated]). *)

From S2P Require Import Prelude Cxx Http Mime Storage.
Local Open Scope str_scope.

Definition CRLF : str := [CR; NL].

(** ** [requestToString] *)
Section echo.
Context `{BeastHttp}.

Definition field_line (f : str * str) : str := f.1 ++ ": " ++ f.2 ++ CRLF.

Definition requestToString (req : Request) : str :=
  req_method_string req ++ " " ++ req_target req ++ " HTTP/" ++
  to_string (req_version req / 10) ++ "." ++ to_string (req_version req mod 10) ++ CRLF ++
  concat (map field_line (req_fields req)) ++
  CRLF ++
  req_body req.
End echo.

(** ** The handlers that only look at the request *)
Section simple_handlers.
Context `{BeastHttp}.

Definition Echo_handleRequest (req : Request) (res : Response) : Response :=
  let res := res_set_version (req_version req) res in
  let res := res_set_result status_ok res in
  let res := res_set_body (requestToString req) res in
  let res := res_set field_content_type "text/plain" res in
  let res := res_content_length (size_of (res_body res)) res in
  res_prepare_payload res.

Definition Health_handleRequest (req : Request) (res : Response) : Response :=
  let res := res_set_version (req_version req) res in
  let res := res_set_result status_ok res in
  let res := res_set_body "OK" res in
  let res := res_set field_content_type "text/plain" res in
  let res := res_content_length (size_of (res_body res)) res in
  res_prepare_payload res.

(** The thread sleeps for five seconds first. *)
Definition Sleep_handleRequest (req : Request) (res : Response) : Response :=
  let res := res_set_result status_ok res in
  let res := res_set_version (req_version req) res in
  let res := res_set field_content_type "text/plain" res in
  let res := res_set_body "Processed after a delay" res in
  res_prepare_payload res.

Definition NotFound_handleRequest (req : Request) (res : Response) : Response :=
  let res := res_set_result status_not_found res in
  let res := res_set_version (req_version req) res in
  let res := res_set field_content_type "text/plain" res in
  let res := res_set_body "Invalid request type, Handler not found" res in
  let res := res_content_length (size_of (res_body res)) res in
  res_prepare_payload res.
End simple_handlers.

(** ** [RequestHandlerStatic] *)

Section static.
Context `{BeastHttp} {F : Type} {fs : FileSystem F}.

(** [uri.replace(0, prefix.length(), root); uri.replace(0, 1, "../")] *)
Definition static_path (root prefix target : str) : str :=
  replace_front (replace_front target (length prefix) root) 1 "../".

Definition file_not_found (req : Request) (res : Response) : Response :=
  let res := res_set_result status_not_found res in
  let res := res_set_version (req_version req) res in
  let res := res_set field_content_type "text/plain" res in
  let res := res_set_body "File not found" res in
  res_prepare_payload res.

(** The extension: what follows the last dot of the whole path. *)
Definition path_extension (uri : str) : outcome str :=
  match find_last_of "." uri with
  | Some cursor => substr uri (cursor + 1)
  | None => Ok []
  end.

Definition file_found (req : Request) (ext body : str) (res : Response) : Response :=
  let res := res_set_result status_ok res in
  let res := res_set_version (req_version req) res in
  let res := res_set field_content_length (to_string (size_of body)) res in
  let res := res_set field_content_type (extension_to_type ext) res in
  let res := res_set_body body res in
  res_prepare_payload res.

Definition Static_handleRequest (root prefix : str) (req : Request) (res : Response)
    (s : F) : outcome Response :=
  let uri := static_path root prefix (req_target req) in
  e ← uncaught (fs_exists uri s);
  if negb e then Ok (file_not_found req res)
  else
    r ← uncaught (fs_is_regular_file uri s);
    if negb r then Ok (file_not_found req res)
    else
      match fs_open_read (c_str uri) s with
      | None => Ok (file_not_found req res)
      | Some body =>
          ext ← path_extension uri;
          Ok (file_found req ext body res)
      end.
End static.

(** ** Lemmas *)
Section lemmas.
Context `{BeastHttpLaws}.

Lemma Echo_observed req res :
  observed (Echo_handleRequest req res) 200 (req_version req) "text/plain" (requestToString req).
Proof. unfold Echo_handleRequest. observe. Qed.

Lemma Health_observed req res :
  observed (Health_handleRequest req res) 200 (req_version req) "text/plain" "OK".
Proof. unfold Health_handleRequest. observe. Qed.

Lemma Sleep_observed req res :
  observed (Sleep_handleRequest req res) 200 (req_version req) "text/plain"
    "Processed after a delay".
Proof. unfold Sleep_handleRequest. observe. Qed.

Lemma NotFound_observed req res :
  observed (NotFound_handleRequest req res) 404 (req_version req) "text/plain"
    "Invalid request type, Handler not found".
Proof. unfold NotFound_handleRequest. observe. Qed.

Lemma file_not_found_observed req res :
  observed (file_not_found req res) 404 (req_version req) "text/plain" "File not found".
Proof. unfold file_not_found. observe. Qed.

Lemma file_found_observed req ext body res :
  observed (file_found req ext body res) 200 (req_version req) (extension_to_type ext) body.
Proof. unfold file_found. observe. Qed.
End lemmas.

(** The file a registered prefix maps a target to: the leading byte of the
    root (its [/]) becomes [../], the rest of the target is kept as it is. *)
Lemma static_path_spec r0 root prefix rest :
  static_path (r0 :: root) prefix (prefix ++ rest) = "../" ++ root ++ rest.
Proof. unfold static_path, replace_front. rewrite drop_app_length. done. Qed.

Lemma path_extension_spec (s ext : str) :
  "."%char ∉ ext -> path_extension (s ++ "."%char :: ext) = Ok ext.
Proof.
  intros He. pose proof (after_last "." s ext He) as Ha. unfold path_extension.
  rewrite find_last_of_app in Ha |- * by done. simpl in Ha. by rewrite Nat.add_1_r.
Qed.

Lemma path_extension_ok uri : is_ok (path_extension uri).
Proof.
  unfold path_extension. pose proof (after_last_ok "." uri) as Ha.
  destruct (find_last_of "." uri) as [i|]; simpl in *; [by rewrite Nat.add_1_r|apply is_ok_Ok].
Qed.
