(* ===== verification/Api.v ===== *)
(** * The API request handler ([src/request_handler/request_handler_api.cc])

    [API_handleRequest] is the whole [handleRequest], over any
    [ICRUDHandler].  [api_step] is the abstract specification: what each of
    the five requests does to the map of stored entities. *)

From S2P Require Import Prelude Cxx Http Storage.
Local Open Scope str_scope.

(** [boost::lexical_cast<int>]; [None] stands for [bad_lexical_cast]. *)
Class LexicalCast : Type := lexical_cast_int : str -> option Z.

Class LexicalCastLaws (L : LexicalCast) : Prop := {
  lexical_cast_to_string z : in_int z = true -> lexical_cast_int (to_string z) = Some z;
  lexical_cast_fits t z : lexical_cast_int t = Some z -> in_int z = true
}.

(** [std::isdigit(s[0])]; [s[0]] of an empty string is the NUL byte. *)
Definition starts_with_digit (s : str) : bool :=
  match s with c :: _ => isdigit c | [] => isdigit "000"%char end.

Section api.
Context `{BeastHttp} `{LexicalCast} {S : Type} {crud_handler_ : ICRUDHandler S} (prefix_ : str).

(** [removePrefix]: the new path, or [None] when it returns [false]. *)
Definition removePrefix (path : str) : outcome (option str) :=
  if bool_decide (length path < length prefix_) then Ok None
  else
    p ← substr_n path 0 (length prefix_);
    if bool_decide (p <> prefix_) then Ok None
    else new_path ← substr path (length prefix_); Ok (Some new_path).

(** [res->result(status); res->body() = body; res->prepare_payload();] *)
Definition reply (status : Z) (body : str) (res : Response) : Response :=
  res_prepare_payload (res_set_body body (res_set_result status res)).

(** The entity and the id of a path without its prefix. *)
Definition split_entity (entity_id : str) : outcome (str * str) :=
  id_str ← substr entity_id (npos_succ (find_last_of "/" entity_id));
  Ok (substr_to entity_id (find_last_of "/" entity_id), id_str).

Definition handle_post (req : Request) (res : Response) (s : S) : outcome (Response * S) :=
  let target := req_target req in
  entity ← substr target (npos_succ (find_last_of "/" target));
  '(response_body, s) ← crud_create entity (req_body req) s;
  Ok (res_prepare_payload (res_set_body response_body (res_set_result status_ok res)), s).

(** One iteration of the loop that lists the ids of an entity. *)
Definition list_step (entity_id : str) (s : S) (st : Z * str) :
    (Z * str) + outcome str :=
  let (id, response_body) := st in
  match crud_exists entity_id id s with
  | Ok true =>
      let response_body :=
        (if bool_decide (1 < id)%Z then response_body ++ ", " else response_body)
        ++ to_string id in
      match int_incr id with
      | Ok id => inl (id, response_body)
      | Fault f => inr (Fault f)
      end
  | Ok false => inr (Ok (response_body ++ "]"))
  | Fault f => inr (Fault f)
  end.

Definition list_ids (entity_id : str) (s : S) : outcome str :=
  match iter_pow2 31 (list_step entity_id s) (1%Z, "[") with
  | inr r => r
  | inl _ => Fault OutOfFuel
  end.

Definition handle_get (req : Request) (res : Response) (s : S) : outcome Response :=
  r ← removePrefix (req_target req);
  match r with
  | None => Ok (reply status_not_found "Invalid Request: get request" res)
  | Some entity_id =>
      '(entity, id_str) ← split_entity entity_id;
      if negb (starts_with_digit id_str) then
        response_body ← list_ids entity_id s;
        Ok (res_prepare_payload (res_set_result status_ok (res_set_body response_body res)))
      else
        match lexical_cast_int id_str with
        | None => Ok (reply status_not_found "Invalid Request: retrieve failed" res)
        | Some id =>
            e ← crud_exists entity id s;
            if negb e then
              Ok (reply status_not_found "Invalid Request: file not found" res)
            else
              response_body ← crud_read entity id s;
              Ok (res_prepare_payload (res_set_result status_ok (res_set_body response_body res)))
        end
  end.

Definition handle_put (req : Request) (res : Response) (s : S) : outcome (Response * S) :=
  r ← removePrefix (req_target req);
  match r with
  | None => Ok (reply status_not_found "Invalid Request" res, s)
  | Some entity_id =>
      '(entity, id_str) ← split_entity entity_id;
      match lexical_cast_int id_str with
      | None => Ok (reply status_not_found "Invalid Request" res, s)
      | Some id =>
          '(success, s) ← crud_update entity id (req_body req) s;
          if negb success then Ok (reply status_not_found "Invalid Request" res, s)
          else Ok (res_prepare_payload (res_set_result status_ok res), s)
      end
  end.

Definition handle_delete (req : Request) (res : Response) (s : S) : outcome (Response * S) :=
  r ← removePrefix (req_target req);
  match r with
  | None => Ok (reply status_not_found "Invalid Request: entity does not exist" res, s)
  | Some entity_id =>
      '(entity, id_str) ← split_entity entity_id;
      match lexical_cast_int id_str with
      | None =>
          Ok (reply status_bad_request "Invalid Request: entity_id could not be parsed" res, s)
      | Some id =>
          '(success, s) ← crud_delete entity id s;
          if negb success then
            Ok (reply status_not_found "Invalid Request: entity id does not exist" res, s)
          else Ok (reply status_ok "successfully deleted" res, s)
      end
  end.

Definition unsupported_json : str :=
  ["{"%char; DQUOTE] ++ "error" ++ [DQUOTE] ++ ": " ++ [DQUOTE] ++ "Unsupported HTTP method"
    ++ [DQUOTE; "}"%char].

Definition API_handleRequest (req : Request) (res : Response) (s : S) :
    outcome (Response * S) :=
  let res := res_set_version (req_version req) res in
  let res := res_set field_content_type "application/json" res in
  match req_method req with
  | verb_post => handle_post req res s
  | verb_get => res ← handle_get req res s; Ok (res, s)
  | verb_put => handle_put req res s
  | verb_delete => handle_delete req res s
  | verb_other => Ok (reply status_bad_request unsupported_json res, s)
  end.
End api.

(** ** The abstract specification *)

Inductive api_call : Type :=
  | Create (entity data : str)
  | List_ (entity : str)
  | Read (entity : str) (id : Z)
  | Update (entity : str) (id : Z) (data : str)
  | Delete (entity : str) (id : Z).

Definition table := str -> Z -> option str.

Definition set_entry (lk : table) (e : str) (id : Z) (v : option str) : table :=
  fun e' id' => if decide ((e', id') = (e, id)) then v else lk e' id'.

(** [n] is the least positive id that is not in use. *)
Definition first_free (lk : table) (e : str) (n : Z) : Prop :=
  (1 <= n <= INT_MAX)%Z /\ lk e n = None /\
  forall i, (1 <= i < n)%Z -> is_Some (lk e i).

(** ["[1, 2, ..., n]"] *)
Fixpoint ids_from (id : Z) (n : nat) : str :=
  match n with
  | O => []
  | S n' => (if bool_decide (1 < id)%Z then ", " else []) ++ to_string id ++ ids_from (id + 1) n'
  end.

Definition ids_json (n : nat) : str := "[" ++ ids_from 1 n ++ "]".

(** A request, its status and body, and the map afterwards; [old_body] is the
    body the response object had before. *)
Inductive api_step (old_body : str) (lk : table) : api_call -> Z -> str -> table -> Prop :=
  | create_step e d id : first_free lk e id ->
      api_step old_body lk (Create e d) 200 (id_json id) (set_entry lk e id (Some d))
  | list_step_ e n : first_free lk e n ->
      api_step old_body lk (List_ e) 200 (ids_json (Z.to_nat (n - 1))) lk
  | read_step e id d : in_int id = true -> (0 <= id)%Z -> lk e id = Some d ->
      api_step old_body lk (Read e id) 200 d lk
  | read_absent_step e id : in_int id = true -> (0 <= id)%Z -> lk e id = None ->
      api_step old_body lk (Read e id) 404 "Invalid Request: file not found" lk
  | update_step e id d : in_int id = true -> is_Some (lk e id) ->
      api_step old_body lk (Update e id d) 200 old_body (set_entry lk e id (Some d))
  | update_absent_step e id d : in_int id = true -> lk e id = None ->
      api_step old_body lk (Update e id d) 404 "Invalid Request" lk
  | delete_step e id : in_int id = true -> is_Some (lk e id) ->
      api_step old_body lk (Delete e id) 200 "successfully deleted" (set_entry lk e id None)
  | delete_absent_step e id : in_int id = true -> lk e id = None ->
      api_step old_body lk (Delete e id) 404 "Invalid Request: entity id does not exist" lk.

(** The request that makes a call below [prefix]. *)
Definition makes_call `{BeastHttp} (prefix : str) (call : api_call) (req : Request) : Prop :=
  match call with
  | Create e d => req_method req = verb_post /\ req_body req = d /\
      req_target req = prefix ++ "/" ++ e
  | List_ e => req_method req = verb_get /\ req_target req = prefix ++ "/" ++ e
  | Read e id => req_method req = verb_get /\
      req_target req = prefix ++ "/" ++ e ++ "/" ++ to_string id
  | Update e id d => req_method req = verb_put /\ req_body req = d /\
      req_target req = prefix ++ "/" ++ e ++ "/" ++ to_string id
  | Delete e id => req_method req = verb_delete /\
      req_target req = prefix ++ "/" ++ e ++ "/" ++ to_string id
  end.

Definition call_entity (call : api_call) : str :=
  match call with
  | Create e _ | List_ e | Read e _ | Update e _ _ | Delete e _ => e
  end.

(** The names of entities: what the code assumes of them ("cannot start with
    a digit") and a single path component. *)
Definition entity_name (e : str) : Prop :=
  "/"%char ∉ e /\ starts_with_digit e = false.

(** Responses the handler gives an error status to. *)
Definition api_statuses : list Z := [200; 400; 404]%Z.

(** ** Lemmas: paths *)
Lemma removePrefix_app prefix rest : removePrefix prefix (prefix ++ rest) = Ok (Some rest).
Proof.
  unfold removePrefix, substr_n. rewrite length_app, bool_decide_false by lia.
  rewrite bool_decide_true by lia. simpl. rewrite drop_0, take_app_length.
  rewrite bool_decide_false by naive_solver. by rewrite substr_app.
Qed.

Lemma removePrefix_other prefix path :
  (forall rest, path <> prefix ++ rest) -> removePrefix prefix path = Ok None.
Proof.
  intros Hp. unfold removePrefix, substr_n. case_bool_decide; [done|].
  rewrite bool_decide_true by lia. simpl. rewrite drop_0.
  rewrite bool_decide_true; [done|]. intros Heq. apply (Hp (drop (length prefix) path)).
  rewrite <- Heq at 1. by rewrite take_drop.
Qed.

Lemma split_entity_app e t : "/"%char ∉ t -> split_entity (e ++ "/" ++ t) = Ok (e, t).
Proof.
  intros Ht. unfold split_entity. change ("/" ++ t) with ("/"%char :: t).
  rewrite after_last by done. simpl. by rewrite before_last.
Qed.

Lemma to_string_no_slash id : "/"%char ∉ to_string id.
Proof. by apply to_string_no_sep. Qed.

Lemma to_string_starts_with_digit id : (0 <= id)%Z -> starts_with_digit (to_string id) = true.
Proof. intros Hid. destruct (to_string_cons id Hid) as (c & s & -> & Hc & _). done. Qed.

#[export] Hint Resolve to_string_no_slash : swifties.

(** The loop over the ids of an entity, from id [id] on. *)
Lemma ids_from_snoc n : forall id, ids_from id (S n) =
  ids_from id n ++ (if bool_decide (1 < id + Z.of_nat n)%Z then ", " else []) ++
  to_string (id + Z.of_nat n).
Proof.
  induction n as [|n IH]; intros id.
  - simpl. rewrite Z.add_0_r, app_nil_r. done.
  - change (ids_from id (S (S n))) with
      ((if bool_decide (1 < id)%Z then ", " else []) ++ to_string id ++ ids_from (id + 1) (S n)).
    rewrite (IH (id + 1)%Z). simpl ids_from. rewrite <- !app_assoc.
    replace (id + 1 + Z.of_nat n)%Z with (id + Z.of_nat (S n))%Z by lia. done.
Qed.

Section api_lemmas.
Context `{BeastHttpLaws} `{LexicalCastLaws}.
Context {S : Type} {crud : ICRUDHandler S} {entity_ok : str -> Prop} {lookup : S -> table}.
Context {laws : CrudLaws crud entity_ok lookup} {slash : CrudSlash crud entity_ok}.

(** The loop of the list request visits the ids in use from 1 on. *)
Lemma list_ids_spec e s n :
  entity_ok e -> first_free (lookup s) e n ->
  list_ids ("/" ++ e) s = Ok (ids_json (Z.to_nat (n - 1))).
Proof.
  intros He (Hn & Hfree & Hused). unfold list_ids.
  rewrite (iter_pow2_trace (list_step ("/" ++ e) s)
    (fun k => (1 + Z.of_nat k, "[" ++ ids_from 1 k)%Z) (Z.to_nat (n - 1)) 31
    (Ok (ids_json (Z.to_nat (n - 1))))); [done| | |].
  - intros i Hi. unfold list_step. rewrite slash_exists by done.
    rewrite (crud_exists_spec e _ s) by done.
    rewrite bool_decide_true by (apply Hused; lia). unfold int_incr.
    rewrite bool_decide_true by lia. rewrite ids_from_snoc. do 2 f_equal; [lia|].
    case_bool_decide; simpl; by rewrite ?app_assoc, <- ?app_assoc.
  - unfold list_step. rewrite slash_exists by done.
    rewrite (crud_exists_spec e _ s) by done.
    replace (1 + Z.of_nat (Z.to_nat (n - 1)))%Z with n by lia. rewrite Hfree.
    rewrite bool_decide_false by (by intros []). unfold ids_json. by rewrite <- app_assoc.
  - unfold INT_MAX in Hn. change (2 ^ Z.of_nat 31)%Z with 2147483648%Z. lia.
Qed.

Lemma reply_observed status body res v :
  has_payload status -> res_version res = v ->
  res_find field_content_type res = Some "application/json" ->
  observed (reply status body res) status v "application/json" body.
Proof. intros (? & ? & ?) ? ?. unfold reply. observe. Qed.

Lemma result_last_observed status body res v :
  has_payload status -> res_version res = v ->
  res_find field_content_type res = Some "application/json" ->
  observed (res_prepare_payload (res_set_result status (res_set_body body res))) status v
    "application/json" body.
Proof. intros (? & ? & ?) ? ?. observe. Qed.

Lemma result_only_observed status body res v :
  has_payload status -> res_version res = v -> res_body res = body ->
  res_find field_content_type res = Some "application/json" ->
  observed (res_prepare_payload (res_set_result status res)) status v "application/json" body.
Proof. intros (? & ? & ?) ? ? ?. observe. all: congruence. Qed.

(** ** One lemma per call *)
Context (names : forall e, entity_ok e -> entity_name e).

Definition agrees (s : S) (lk : table) : Prop :=
  forall e id, entity_ok e -> lookup s e id = lk e id.

(** The response is as specified and the map is the one specified. *)
Definition outcome_agrees (o : outcome (Response * S)) (version status : Z) (body : str)
    (lk : table) : Prop :=
  exists res' s', o = Ok (res', s') /\
    observed res' status version "application/json" body /\ agrees s' lk.

Lemma agrees_set_entry s s' e id v :
  lookup s' e id = v ->
  (forall e' id', entity_ok e' -> (e', id') <> (e, id) -> lookup s' e' id' = lookup s e' id') ->
  agrees s' (set_entry (lookup s) e id v).
Proof.
  intros Hv Hf e' id' He'. unfold set_entry. case_decide; simplify_eq; [done|by apply Hf].
Qed.

Lemma entity_no_slash e : entity_ok e -> "/"%char ∉ e.
Proof. intros He. apply names in He. apply He. Qed.

(** The path of an id below the prefix. *)
Lemma removePrefix_id prefix e id :
  removePrefix prefix (prefix ++ "/" ++ e ++ "/" ++ to_string id) =
    Ok (Some (("/" ++ e) ++ "/" ++ to_string id)).
Proof. rewrite removePrefix_app. by rewrite <- app_assoc. Qed.

Context (prefix : str) (req : Request) (res : Response) (s : S).
Context (Hversion : res_version res = req_version req).
Context (Htype : res_find field_content_type res = Some "application/json").

Lemma create_agrees e d id :
  entity_ok e -> makes_call prefix (Create e d) req -> first_free (lookup s) e id ->
  outcome_agrees (handle_post req res s) (req_version req) 200 (id_json id)
    (set_entry (lookup s) e id (Some d)).
Proof.
  intros He (_ & Hd & Ht) (Hid & Hfree & Hused). unfold handle_post. rewrite Ht, Hd.
  change (prefix ++ "/" ++ e) with (prefix ++ "/"%char :: e).
  rewrite after_last by (by apply entity_no_slash). simpl.
  destruct (crud_create_free e d s id) as (s' & -> & Hl & Hf); [done..|]. simpl.
  eexists _, _. split_and!; [done| |by apply agrees_set_entry].
  by apply (reply_observed 200).
Qed.

Lemma list_agrees e n :
  entity_ok e -> makes_call prefix (List_ e) req -> first_free (lookup s) e n ->
  exists res', handle_get prefix req res s = Ok res' /\
    observed res' 200 (req_version req) "application/json" (ids_json (Z.to_nat (n - 1))).
Proof.
  intros He (_ & Ht) Hfree. unfold handle_get. rewrite Ht, removePrefix_app. simpl.
  destruct (names e He) as [Hslash Hdigit].
  pose proof (split_entity_app [] e Hslash) as Hs. simpl in Hs. rewrite Hs. simpl.
  rewrite Hdigit. simpl. pose proof (list_ids_spec e s n He Hfree) as Hl. simpl in Hl.
  rewrite Hl. simpl. eexists. split; [done|]. by apply result_last_observed.
Qed.

Lemma get_id_cases e id :
  entity_ok e -> makes_call prefix (Read e id) req -> in_int id = true -> (0 <= id)%Z ->
  handle_get prefix req res s =
  match lookup s e id with
  | Some d => Ok (res_prepare_payload (res_set_result status_ok (res_set_body d res)))
  | None => Ok (reply status_not_found "Invalid Request: file not found" res)
  end.
Proof.
  intros He (_ & Ht) Hid Hpos. unfold handle_get. rewrite Ht, removePrefix_id. simpl.
  change ("/"%char :: e ++ "/"%char :: to_string id) with (("/" ++ e) ++ "/" ++ to_string id).
  rewrite split_entity_app by auto with swifties. simpl.
  rewrite to_string_starts_with_digit by done. simpl.
  rewrite lexical_cast_to_string by done.
  change ("/"%char :: e) with ("/" ++ e). rewrite slash_exists by done.
  rewrite (crud_exists_spec e _ s) by done.
  destruct (lookup s e id) as [d|] eqn:Hl; simpl; [|done].
  pose proof (slash_read e id s He) as Hr. simpl in Hr. rewrite Hr.
  by rewrite (crud_read_spec e id s d).
Qed.

Lemma put_agrees e id d :
  entity_ok e -> makes_call prefix (Update e id d) req -> in_int id = true ->
  handle_put prefix req res s =
  ('(success, s') ← crud_update e id d s;
   if negb success then Ok (reply status_not_found "Invalid Request" res, s')
   else Ok (res_prepare_payload (res_set_result status_ok res), s')).
Proof.
  intros He (_ & Hd & Ht) Hid. unfold handle_put. rewrite Ht, Hd, removePrefix_id. simpl.
  change ("/"%char :: e ++ "/"%char :: to_string id) with (("/" ++ e) ++ "/" ++ to_string id).
  rewrite split_entity_app by auto with swifties. simpl.
  rewrite lexical_cast_to_string by done.
  change ("/"%char :: e) with ("/" ++ e). by rewrite slash_update.
Qed.

Lemma delete_agrees e id :
  entity_ok e -> makes_call prefix (Delete e id) req -> in_int id = true ->
  handle_delete prefix req res s =
  ('(success, s') ← crud_delete e id s;
   if negb success then
     Ok (reply status_not_found "Invalid Request: entity id does not exist" res, s')
   else Ok (reply status_ok "successfully deleted" res, s')).
Proof.
  intros He (_ & Ht) Hid. unfold handle_delete. rewrite Ht, removePrefix_id. simpl.
  change ("/"%char :: e ++ "/"%char :: to_string id) with (("/" ++ e) ++ "/" ++ to_string id).
  rewrite split_entity_app by auto with swifties. simpl.
  rewrite lexical_cast_to_string by done.
  change ("/"%char :: e) with ("/" ++ e). by rewrite slash_delete.
Qed.

(** [agrees] lets the calls be specified on any table the state agrees with. *)
Lemma agrees_first_free lk e n :
  agrees s lk -> entity_ok e -> first_free lk e n -> first_free (lookup s) e n.
Proof.
  intros Ha He (Hn & Hfree & Hused). split; [done|]. split; [by rewrite Ha|].
  intros i Hi. rewrite Ha by done. by apply Hused.
Qed.

Lemma agrees_set lk e id v s' :
  agrees s lk -> agrees s' (set_entry (lookup s) e id v) -> agrees s' (set_entry lk e id v).
Proof.
  intros Ha Hs e' id' He'. rewrite Hs by done. unfold set_entry. case_decide; [done|by apply Ha].
Qed.

Lemma update_agrees lk e id d :
  entity_ok e -> makes_call prefix (Update e id d) req -> in_int id = true ->
  agrees s lk -> is_Some (lk e id) ->
  outcome_agrees (handle_put prefix req res s) (req_version req) 200 (res_body res)
    (set_entry lk e id (Some d)).
Proof.
  intros He Hc Hid Ha Hs. rewrite (put_agrees e id d) by done.
  destruct (crud_update_present e id d s) as (s' & -> & Hl & Hf); [done|by rewrite Ha|].
  run_ok. eexists _, _. split_and!; [done| |].
  - by apply result_only_observed.
  - eapply agrees_set; [done|]. by apply agrees_set_entry.
Qed.

Lemma remove_agrees lk e id :
  entity_ok e -> makes_call prefix (Delete e id) req -> in_int id = true ->
  agrees s lk -> is_Some (lk e id) ->
  outcome_agrees (handle_delete prefix req res s) (req_version req) 200 "successfully deleted"
    (set_entry lk e id None).
Proof.
  intros He Hc Hid Ha Hs. rewrite (delete_agrees e id) by done.
  destruct (crud_delete_present e id s) as (s' & -> & Hl & Hf); [done|by rewrite Ha|].
  run_ok. eexists _, _. split_and!; [done| |].
  - by apply (reply_observed 200).
  - eapply agrees_set; [done|]. by apply agrees_set_entry.
Qed.

(** Every call, on the response object with its first two fields set. *)
Lemma call_agrees lk call status body lk' :
  makes_call prefix call req -> entity_ok (call_entity call) -> agrees s lk ->
  api_step (res_body res) lk call status body lk' ->
  outcome_agrees
    (match req_method req with
     | verb_post => handle_post req res s
     | verb_get => res ← handle_get prefix req res s; Ok (res, s)
     | verb_put => handle_put prefix req res s
     | verb_delete => handle_delete prefix req res s
     | verb_other => Ok (reply status_bad_request unsupported_json res, s)
     end) (req_version req) status body lk'.
Proof.
  intros Hc He Ha Hs.
  assert (req_method req = match call with
    | Create _ _ => verb_post | List_ _ | Read _ _ => verb_get
    | Update _ _ _ => verb_put | Delete _ _ => verb_delete end) as ->
    by (destruct call; apply Hc).
  destruct Hs as [e d id Hff|e n Hff|e id d Hid Hpos Hl|e id Hid Hpos Hl|e id d Hid Hl
    |e id d Hid Hl|e id Hid Hl|e id Hid Hl]; simpl in He.
  - destruct (create_agrees e d id) as (r & s' & ? & ? & ?); [done..|by eapply agrees_first_free|].
    exists r, s'. split_and!; [done..|]. by eapply agrees_set.
  - destruct (list_agrees e n) as (r & -> & ?); [done..|by eapply agrees_first_free|].
    by exists r, s.
  - rewrite (get_id_cases e id), Ha by done. rewrite Hl. run_ok.
    eexists _, _. split_and!; [done| |done]. by apply result_last_observed.
  - rewrite (get_id_cases e id), Ha by done. rewrite Hl. run_ok.
    eexists _, _. split_and!; [done| |done]. by apply reply_observed.
  - by apply update_agrees.
  - rewrite (put_agrees e id d), (crud_update_absent e id d s) by (done || by rewrite Ha). run_ok.
    eexists _, _. split_and!; [done| |done]. by apply reply_observed.
  - by apply remove_agrees.
  - rewrite (delete_agrees e id), (crud_delete_absent e id s) by (done || by rewrite Ha). run_ok.
    eexists _, _. split_and!; [done| |done]. by apply reply_observed.
Qed.
End api_lemmas.

(** ** Lemmas: every response *)
Section responses.
Context `{BeastHttpLaws} `{LexicalCast} {S : Type} {crud : ICRUDHandler S}.

(** Operations that report a failure leave the state alone. *)
Class CrudRefusals : Prop := {
  refused_update e id d s s' : crud_update e id d s = Ok (false, s') -> s' = s;
  refused_delete e id s s' : crud_delete e id s = Ok (false, s') -> s' = s
}.

(** The answer to [req], on the object [res] with the first two fields set. *)
Definition answers (req : Request) (s : S) (o : outcome (Response * S)) : Prop :=
  forall res' s', o = Ok (res', s') ->
    res_version res' = req_version req /\
    res_find field_content_type res' = Some "application/json" /\
    res_result res' ∈ api_statuses /\
    (res_result res' <> 200%Z -> s' = s) /\
    sized res'.

Lemma api_has_payload status : status ∈ api_statuses -> has_payload status.
Proof. unfold api_statuses, has_payload. rewrite !elem_of_cons, elem_of_nil. lia. Qed.

Context {refusals : CrudRefusals} (prefix : str) (req : Request) (res : Response) (s : S).
Context (Hversion : res_version res = req_version req).
Context (Htype : res_find field_content_type res = Some "application/json").

Lemma reply_answers status body s' :
  status ∈ api_statuses -> status = 200%Z \/ s' = s -> answers req s (Ok (reply status body res, s')).
Proof.
  intros Hs Hc res' s'' [= <- <-]. unfold reply.
  split_and!; try (autorewrite with beast; done).
  - autorewrite with beast. naive_solver.
  - apply prepare_sized. autorewrite with beast. by apply api_has_payload.
Qed.

Lemma result_last_answers body s' :
  answers req s (Ok (res_prepare_payload (res_set_result status_ok (res_set_body body res)), s')).
Proof.
  intros res' s'' [= <- <-]. split_and!; try (autorewrite with beast; done).
  - autorewrite with beast. unfold api_statuses, status_ok. set_solver.
  - apply prepare_sized. autorewrite with beast. unfold has_payload, status_ok. lia.
Qed.

Lemma result_only_answers s' :
  answers req s (Ok (res_prepare_payload (res_set_result status_ok res), s')).
Proof.
  intros res' s'' [= <- <-]. split_and!; try (autorewrite with beast; done).
  - autorewrite with beast. unfold api_statuses, status_ok. set_solver.
  - apply prepare_sized. autorewrite with beast. unfold has_payload, status_ok. lia.
Qed.

Lemma fault_answers f : answers req s (Fault f).
Proof. by intros ? ?. Qed.

Lemma not_found_answers body s' :
  s' = s -> answers req s (Ok (reply status_not_found body res, s')).
Proof. intros. apply reply_answers; [unfold api_statuses, status_not_found; set_solver|by right]. Qed.

Lemma bad_request_answers body :
  answers req s (Ok (reply status_bad_request body res, s)).
Proof. apply reply_answers; [unfold api_statuses, status_bad_request; set_solver|by right]. Qed.

Lemma ok_answers body s' : answers req s (Ok (reply status_ok body res, s')).
Proof. apply reply_answers; [unfold api_statuses, status_ok; set_solver|by left]. Qed.

Lemma post_answers : answers req s (handle_post req res s).
Proof.
  unfold handle_post. destruct (substr _ _) as [entity|]; [|apply fault_answers].
  run_ok. destruct (crud_create _ _ _) as [[body s']|]; [|apply fault_answers].
  apply ok_answers.
Qed.

Lemma get_answers : answers req s (res' ← handle_get prefix req res s; Ok (res', s)).
Proof.
  unfold handle_get. destruct (removePrefix _ _) as [[entity_id|]|];
    [|by apply not_found_answers|apply fault_answers].
  run_ok. destruct (split_entity _) as [[entity id_str]|]; [|apply fault_answers].
  run_ok. destruct (negb _).
  - destruct (list_ids _ _); [apply result_last_answers|apply fault_answers].
  - destruct (lexical_cast_int _) as [id|]; [|by apply not_found_answers].
    destruct (crud_exists _ _ _) as [[]|]; [|by apply not_found_answers|apply fault_answers].
    run_ok.
    destruct (crud_read _ _ _); [apply result_last_answers|apply fault_answers].
Qed.

Lemma put_answers : answers req s (handle_put prefix req res s).
Proof.
  unfold handle_put. destruct (removePrefix _ _) as [[entity_id|]|];
    [|by apply not_found_answers|apply fault_answers].
  run_ok. destruct (split_entity _) as [[entity id_str]|]; [|apply fault_answers].
  run_ok. destruct (lexical_cast_int _) as [id|]; [|by apply not_found_answers].
  destruct (crud_update _ _ _ _) as [[[] s']|] eqn:Hu; [| |apply fault_answers].
  - apply result_only_answers.
  - apply not_found_answers. by eapply refused_update.
Qed.

Lemma delete_answers : answers req s (handle_delete prefix req res s).
Proof.
  unfold handle_delete. destruct (removePrefix _ _) as [[entity_id|]|];
    [|by apply not_found_answers|apply fault_answers].
  run_ok. destruct (split_entity _) as [[entity id_str]|]; [|apply fault_answers].
  run_ok. destruct (lexical_cast_int _) as [id|]; [|apply bad_request_answers].
  destruct (crud_delete _ _ _) as [[[] s']|] eqn:Hu; [| |apply fault_answers].
  - apply ok_answers.
  - apply not_found_answers. by eapply refused_delete.
Qed.
End responses.
Arguments CrudRefusals {S} crud.

Lemma API_answers `{BeastHttpLaws} `{LexicalCast} {S : Type} {crud : ICRUDHandler S}
    {refusals : CrudRefusals crud} (prefix : str) (req : Request) (res : Response) (s : S) :
  answers req s (API_handleRequest prefix req res s).
Proof.
  unfold API_handleRequest. destruct (req_method req);
    [apply get_answers|apply post_answers|apply put_answers|apply delete_answers|apply bad_request_answers];
    by autorewrite with beast.
Qed.

#[export] Instance CRUDHandler_refusals {F} {fs : FileSystem F} base :
  CrudRefusals (CRUDHandler base).
Proof.
  split; cbn [crud_update crud_delete CRUDHandler]; unfold CRUDHandler_update, CRUDHandler_delete;
    intros *; destruct (CRUDHandler_exists _ _ _ _) as [[]|]; run_ok;
    try congruence.
  - by destruct (FileStorage_write _ _ _ _ _).
  - by destruct (FileStorage_remove _ _ _ _).
Qed.
