(* ===== verification/Logger.v ===== *)
(** * The logger ([src/logger.h], [src/logger.cc])

    The logging core of Boost.Log is seen through what the program gives it:
    the sinks registered with it, in order, and the records pushed to it.
    The methods of [Logger] are the records they push; the other components
    emit them as part of their traces. *)

From S2P Require Import Prelude Cxx Http.
Local Open Scope str_scope.

(** [boost::log::trivial::severity_level] *)
Inductive severity_level : Type := trace | debug | info | warning | error | fatal.

#[export] Instance severity_level_eq_dec : EqDecision severity_level.
Proof. solve_decision. Defined.

Record log_record : Type := LogRecord { severity : severity_level; message : str }.

#[export] Instance log_record_eq_dec : EqDecision log_record.
Proof. solve_decision. Defined.

(** ** The records of the methods *)
Definition logServerInitialization : log_record :=
  LogRecord trace "Server has been initialized".
Definition logTraceFile (trace_message : str) : log_record :=
  LogRecord trace ("Trace: " ++ trace_message).
Definition logErrorFile (error_message : str) : log_record :=
  LogRecord error ("Error: " ++ error_message).
Definition logDebugFile (debug_message : str) : log_record :=
  LogRecord debug ("Debug: " ++ debug_message).
Definition logResponse (response_message : str) : log_record :=
  LogRecord info ("ResponseMetrics: " ++ response_message).
Definition logWarningFile (warning_message : str) : log_record :=
  LogRecord warning ("Warning: " ++ warning_message).
Definition logSig : log_record := LogRecord warning "Shutting down the server...".

Definition logTrace : log_record := LogRecord trace "This is a trace severity message".
Definition logDebug : log_record := LogRecord debug "This is a debug severity message".
Definition logWarning : log_record := LogRecord warning "This is a warning severity message".
Definition logError : log_record := LogRecord error "This is a error severity message".
Definition logFatal : log_record := LogRecord fatal "This is a fatal severity message".

Definition logTraceHTTPrequest `{BeastHttp} (http_request : Request) : log_record :=
  LogRecord trace ("Trace: " ++ req_method_string http_request ++ " " ++
    req_target http_request ++ " HTTP " ++ to_string (req_version http_request / 10) ++
    "." ++ to_string (req_version http_request mod 10)).

(** ** The singleton *)

(** The sinks [init] registers. *)
Inductive sink : Type :=
  | file_log (file_name format : str) (rotation_size : Z)
  | console_log (format : str).

#[export] Instance sink_eq_dec : EqDecision sink.
Proof. solve_decision. Defined.

Record log_core : Type := LogCore {
  logger : bool;                (* Logger::logger is not null *)
  sinks : list sink;
  records : list log_record
}.

Definition init (core : log_core) : log_core :=
  {| logger := logger core;
     sinks := sinks core ++
       [file_log "../logs/server_log_%Y-%m-%d.log" "[%TimeStamp%]:[%ThreadID%]:%Message%"
          (10 * 1024 * 1024);
        console_log ">> %Message%"];
     records := records core |}.

(** [new Logger()] runs [init] before the pointer is assigned. *)
Definition getLogger (core : log_core) : log_core :=
  if logger core then core
  else
    let core := init core in
    {| logger := true; sinks := sinks core; records := records core |}.

(** A method called on the result of [getLogger]. *)
Definition log (r : log_record) (core : log_core) : log_core :=
  let core := getLogger core in
  {| logger := logger core; sinks := sinks core; records := records core ++ [r] |}.

Definition initial_core : log_core := LogCore false [] [].

Lemma log_once rs : forall core,
  logger core = true ->
  foldl (fun c r => log r c) core rs = LogCore true (sinks core) (records core ++ rs).
Proof.
  induction rs as [|r rs IH]; intros core Hl; simpl.
  - rewrite app_nil_r. destruct core; simpl in *; by subst.
  - unfold log at 2, getLogger. rewrite Hl, IH by done. simpl.
    by rewrite <- app_assoc.
Qed.
