(* ===== verification/Dispatcher.v ===== *)
(** * The dispatcher ([src/request_handler_dispatcher.cc])

    The handlers the configuration registers, and the choice of the handler
    for a target.  A handler object is a value of [handler]: its class and
    the strings its constructor was given.  Nothing changes a handler object
    after its construction, so sharing ([shared_ptr]) cannot be observed. *)

From S2P Require Import Prelude Cxx Config Logger Http Storage Handlers Api.
Local Open Scope str_scope.

Inductive handler : Type :=
  | HandlerStatic (root prefix : str)
  | HandlerEcho
  | HandlerAPI (base_path prefix : str)
  | HandlerHealth
  | HandlerSleep
  | Handler404.

#[export] Instance handler_eq_dec : EqDecision handler.
Proof. solve_decision. Defined.

(** ** The constructors of the classes

    They keep their arguments; [CRUDHandler(root)] keeps the root as the base
    path of its [FileStorage]. *)
Definition new_RequestHandlerStatic (rootString prefix_ : str) : handler :=
  let prefix := prefix_ in
  let root := "/" in
  let root := rootString in
  HandlerStatic root prefix.
Definition new_FileStorage (base_path : str) : str := base_path.
Definition new_CRUDHandler (base_path : str) : str := new_FileStorage base_path.
Definition new_RequestHandlerAPI (crud_handler prefix : str) : handler :=
  HandlerAPI crud_handler prefix.
Definition new_RequestHandlerEcho : handler := HandlerEcho.
Definition new_RequestHandlerHealth : handler := HandlerHealth.
Definition new_RequestHandlerSleep : handler := HandlerSleep.
Definition new_RequestHandler404 : handler := Handler404.

(** ** The names: the virtual call [handler->getName()] *)
Definition RequestHandlerStatic_getName : str := "StaticHandler".
Definition RequestHandlerEcho_getName : str := "EchoHandler".
Definition RequestHandlerAPI_getName : str := "APIHandler".
Definition RequestHandlerHealth_getName : str := "HealthHandler".
Definition RequestHandlerSleep_getName : str := "SleepHandler".
Definition RequestHandler404_getName : str := "404Handler".

Definition getName (h : handler) : str :=
  match h with
  | HandlerStatic _ _ => RequestHandlerStatic_getName
  | HandlerEcho => RequestHandlerEcho_getName
  | HandlerAPI _ _ => RequestHandlerAPI_getName
  | HandlerHealth => RequestHandlerHealth_getName
  | HandlerSleep => RequestHandlerSleep_getName
  | Handler404 => RequestHandler404_getName
  end.

(** The virtual call [handler->handleRequest(request, &response_)]. *)
Definition handleRequest `{BeastHttp} `{LexicalCast} {F} `{FileSystem F} (h : handler)
    (req : Request) (res : Response) (s : F) : outcome (Response * F) :=
  match h with
  | HandlerStatic root prefix => res ← Static_handleRequest root prefix req res s; Ok (res, s)
  | HandlerEcho => Ok (Echo_handleRequest req res, s)
  | HandlerAPI base_path prefix =>
      API_handleRequest (crud_handler_ := CRUDHandler base_path) prefix req res s
  | HandlerHealth => Ok (Health_handleRequest req res, s)
  | HandlerSleep => Ok (Sleep_handleRequest req res, s)
  | Handler404 => Ok (NotFound_handleRequest req res, s)
  end.

(** ** [registerPath] *)

(** The loop over the statements of the block that looks for the root. *)
Fixpoint find_root (root : str) (statements : NginxConfig) : outcome str :=
  match statements with
  | [] => Ok root
  | statement :: statements =>
      t0 ← vec_at (tokens_ statement) 0;
      if bool_decide (t0 = "root") && bool_decide (length (tokens_ statement) = 2) then
        t1 ← vec_at (tokens_ statement) 1;
        find_root t1 statements
      else find_root root statements
  end.

Definition registerPath (path_uri handler_type : str) (config : NginxConfig)
    (handlers_ : gmap str handler) : outcome (bool * gmap str handler) :=
  let path_uri := pop_trailing "/" path_uri in
  if bool_decide (is_Some (handlers_ !! path_uri)) then Ok (false, handlers_)
  else if bool_decide (handler_type = "StaticHandler") then
    root ← find_root "/" config;
    Ok (true, <[path_uri := new_RequestHandlerStatic root path_uri]> handlers_)
  else if bool_decide (handler_type = "EchoHandler") then
    Ok (true, <[path_uri := new_RequestHandlerEcho]> handlers_)
  else if bool_decide (handler_type = "APIHandler") then
    root ← find_root "/" config;
    let crud_handler := new_CRUDHandler root in
    Ok (true, <[path_uri := new_RequestHandlerAPI crud_handler path_uri]> handlers_)
  else if bool_decide (handler_type = "HealthHandler") then
    Ok (true, <[path_uri := new_RequestHandlerHealth]> handlers_)
  else if bool_decide (handler_type = "SleepHandler") then
    Ok (true, <[path_uri := new_RequestHandlerSleep]> handlers_)
  else Ok (false, handlers_).

(** ** [initRequestHandlers] *)

(** What the function changes: [num_registered], [handlers_] and the log. *)
Record init_state : Type := InitState {
  num_registered : nat;
  handlers_ : gmap str handler;
  init_log : list log_record
}.

(** The loop over the statements of a server block. *)
Fixpoint register_locations (statements : NginxConfig) (st : init_state) : outcome init_state :=
  match statements with
  | [] => Ok st
  | child_statement :: statements =>
      t0 ← vec_at (tokens_ child_statement) 0;
      if bool_decide (t0 <> "location") then register_locations statements st
      else
        t1 ← vec_at (tokens_ child_statement) 1;
        t2 ← vec_at (tokens_ child_statement) 2;
        block ← deref (child_block_ child_statement);
        '(registered, hs) ← registerPath t1 t2 block (handlers_ st);
        register_locations statements
          (if (registered : bool) then
             {| num_registered := S (num_registered st);
                handlers_ := hs;
                init_log := init_log st ++ [logDebugFile ("Initialized handler: " ++ t2)] |}
           else {| num_registered := num_registered st; handlers_ := hs;
                   init_log := init_log st |})
  end.

(** The loop over the statements of the configuration: it stops ([break])
    after the first [server] statement that has no other token. *)
Fixpoint register_server (statements : NginxConfig) (st : init_state) : outcome init_state :=
  match statements with
  | [] => Ok st
  | statement :: statements =>
      t0 ← vec_at (tokens_ statement) 0;
      if bool_decide (t0 = "server") then
        if bool_decide (length (tokens_ statement) <> 1) then register_server statements st
        else
          child_block ← deref (child_block_ statement);
          register_locations child_block st
      else register_server statements st
  end.

Definition initRequestHandlers (config : NginxConfig) (hs : gmap str handler) :
    outcome init_state :=
  st ← register_server config (InitState 0 hs []);
  Ok (if bool_decide (handlers_ st !! ("/" : str) = None) then
        {| num_registered := num_registered st;
           handlers_ := <[("/" : str) := new_RequestHandler404]> (handlers_ st);
           init_log := init_log st |}
      else st).

(** The constructor. *)
Definition RequestHandlerDispatcher (config : NginxConfig) : outcome init_state :=
  initRequestHandlers config ∅.

(** ** [getRequestHandler] *)
Definition match_entry (uri : str) (best : str * option handler) (entry : str * handler) :
    str * option handler :=
  if bool_decide (take (length entry.1) uri = entry.1) then
    if bool_decide (length best.1 < length entry.1) then (entry.1, Some entry.2) else best
  else best.

Definition getRequestHandler (hs : gmap str handler) (target : str) : option handler :=
  let uri := pop_trailing "/" target in
  (foldl (match_entry uri) ([], None) (map_entries hs)).2.

(** ** The abstract specification *)

(** The value of the last [root] statement with one argument. *)
Definition root_value (s : NginxConfigStatement) : option str :=
  match tokens_ s with
  | [t; r] => if decide (t = "root") then Some r else None
  | _ => None
  end.

Definition block_root (b : NginxConfig) : str := default "/" (last (omap root_value b)).

(** The handler a location makes. *)
Definition make_handler (path type : str) (block : NginxConfig) : option handler :=
  if decide (type = "StaticHandler") then Some (HandlerStatic (block_root block) path)
  else if decide (type = "EchoHandler") then Some HandlerEcho
  else if decide (type = "APIHandler") then Some (HandlerAPI (block_root block) path)
  else if decide (type = "HealthHandler") then Some HandlerHealth
  else if decide (type = "SleepHandler") then Some HandlerSleep
  else None.

Definition location_entry (s : NginxConfigStatement) : option (str * handler) :=
  match s with
  | Statement (t0 :: path :: type :: _) (Some block) =>
      if decide (t0 = "location") then
        pair (pop_trailing "/" path) <$> make_handler (pop_trailing "/" path) type block
      else None
  | _ => None
  end.

(** The statements of the server block the dispatcher reads. *)
Fixpoint server_block (c : NginxConfig) : option (option NginxConfig) :=
  match c with
  | [] => None
  | s :: c' => if decide (tokens_ s = ["server"]) then Some (child_block_ s) else server_block c'
  end.

(** A location has a path, a type and a block. *)
Definition location_ok (s : NginxConfigStatement) : Prop :=
  head (tokens_ s) = Some "location" ->
  3 <= length (tokens_ s) /\ is_Some (child_block_ s).

(** The configurations the dispatcher can read. *)
Definition dispatchable (c : NginxConfig) : Prop :=
  match server_block c with
  | Some (Some b) => Forall location_ok b
  | Some None => False
  | None => True
  end.

Definition server_entries (c : NginxConfig) : list (str * handler) :=
  match server_block c with Some (Some b) => omap location_entry b | _ => [] end.

(** The first location of a path wins; the fallback is last. *)
Definition dispatch_table (c : NginxConfig) : gmap str handler :=
  list_to_map (server_entries c ++ [("/", Handler404)]).

(** [h] belongs to the longest registered non-empty prefix of [uri]. *)
Definition longest_prefix (hs : gmap str handler) (uri : str) (h : handler) : Prop :=
  exists p, hs !! p = Some h /\ p <> [] /\ p `prefix_of` uri /\
    forall q h', hs !! q = Some h' -> q `prefix_of` uri -> length q <= length p.

(** ** Lemmas: registration *)
Lemma wf_statement s c : wf_config (s :: c) ->
  (exists t0 ts, tokens_ s = t0 :: ts) /\ wf_config c.
Proof.
  intros [Hs Hc]%Forall_cons. apply deep_inv in Hs. unfold has_tokens in Hs.
  destruct (tokens_ s); [done|]. by eauto.
Qed.

Lemma wf_block s c b : wf_config (s :: c) -> child_block_ s = Some b -> wf_config b.
Proof.
  intros [Hs Hc]%Forall_cons Hb. destruct s as [ts cb]. simpl in Hb. subst.
  by apply deep_block_inv in Hs.
Qed.

Lemma find_root_spec b : forall root, wf_config b ->
  find_root root b = Ok (default root (last (omap root_value b))).
Proof.
  induction b as [|s b IH]; intros root Hwf; [done|].
  destruct (wf_statement s b Hwf) as [(t0 & ts & Ht) Hb].
  simpl. unfold root_value. rewrite Ht. simpl.
  destruct ts as [|r [|]]; simpl; rewrite ?andb_false_r, ?andb_true_r; [by apply IH| |by apply IH].
  case_bool_decide; [|rewrite decide_False by done; by apply IH].
  rewrite decide_True by done. simpl. rewrite IH by done. by rewrite last_cons; destruct (last _).
Qed.

(** What [registerPath] does: nothing for a taken path or an unknown type. *)
Lemma registerPath_spec path type b hs : wf_config b ->
  registerPath path type b hs =
  Ok (match hs !! pop_trailing "/" path, make_handler (pop_trailing "/" path) type b with
      | None, Some h => (true, <[pop_trailing "/" path := h]> hs)
      | _, _ => (false, hs)
      end).
Proof.
  intros Hwf. unfold registerPath, make_handler.
  destruct (hs !! _) eqn:Hl; [by rewrite bool_decide_true by eauto|].
  rewrite bool_decide_false by (by intros []). rewrite !find_root_spec by done.
  unfold block_root. repeat (case_bool_decide; [by rewrite decide_True by done|];
    rewrite decide_False by done). done.
Qed.

(** The effect of one location on the table: a taken path stays. *)
Definition add_entry (e : option (str * handler)) (st : init_state) : gmap str handler :=
  match e with
  | Some (p, h) => handlers_ st ∪ {[p := h]}
  | None => handlers_ st
  end.

(** One location, registered or not. *)
Lemma register_location s b st :
  location_ok s -> wf_config (s :: b) ->
  exists st', register_locations (s :: b) st = register_locations b st' /\
    handlers_ st' = add_entry (location_entry s) st /\
    num_registered st' + size (handlers_ st) = num_registered st + size (handlers_ st').
Proof.
  intros Hok Hwf. destruct (wf_statement s b Hwf) as [(t0 & ts & Ht) Hb].
  simpl. rewrite Ht. cbn [vec_at lookup list_lookup mbind outcome_bind].
  case_bool_decide as Ht0.
  { exists st. split_and!; [done| |done]. destruct s as [ts' [b'|]]; simpl in *; subst; [|by destruct ts as [|? []]].
    destruct ts as [|t1 [|t2 ts]]; simpl; [done|done|]. by rewrite decide_False. }
  subst t0. unfold location_ok in Hok. rewrite Ht in Hok.
  destruct (Hok eq_refl) as [Hlen [block Hblock]].
  destruct ts as [|t1 [|t2 ts]]; simpl in Hlen; [lia..|].
  rewrite Hblock. simpl. pose proof (wf_block _ _ _ Hwf Hblock) as Hwb.
  rewrite registerPath_spec by done. destruct s as [ts' cb]. simpl in Ht, Hblock. subst. simpl.
  destruct (handlers_ st !! pop_trailing "/" t1) as [h0|] eqn:Hl.
  - eexists. split; [done|]. simpl. split; [|done].
    destruct (make_handler _ _ _); simpl; [|done].
    apply map_eq. intros i. rewrite lookup_union. destruct (decide (i = pop_trailing "/" t1)) as [->|].
    + rewrite Hl, lookup_singleton_eq. done.
    + rewrite lookup_singleton_ne by done. by destruct (handlers_ st !! i).
  - destruct (make_handler _ _ _) as [h|] eqn:Hm; simpl; [|by eexists].
    eexists. split; [done|]. simpl. split.
    + rewrite insert_union_singleton_r; done.
    + rewrite map_size_insert_None by done. lia.
Qed.

Lemma register_locations_spec b : forall st, Forall location_ok b -> wf_config b ->
  exists st', register_locations b st = Ok st' /\
    handlers_ st' = handlers_ st ∪ list_to_map (omap location_entry b) /\
    num_registered st' + size (handlers_ st) = num_registered st + size (handlers_ st').
Proof.
  induction b as [|s b IH]; intros st Hok Hwf.
  { exists st. split_and!; [done| |done]. simpl. by rewrite map_union_empty. }
  apply Forall_cons in Hok as [Hs Hb].
  destruct (register_location s b st Hs Hwf) as (st1 & -> & Hh1 & Hn1).
  destruct (IH st1 Hb) as (st2 & -> & Hh2 & Hn2); [by eapply wf_statement|].
  exists st2. split_and!; [done| |lia].
  rewrite Hh2, Hh1. simpl. unfold add_entry.
  destruct (location_entry s) as [[p h]|]; simpl; [|done].
  by rewrite insert_union_singleton_l, (assoc_L (∪)).
Qed.

#[export] Instance location_ok_dec s : Decision (location_ok s).
Proof. unfold location_ok. apply _. Defined.

(** A location without a path, a type or a block is a fault. *)
Lemma register_locations_fault b : forall st, ~ Forall location_ok b -> wf_config b ->
  exists f, register_locations b st = Fault f.
Proof.
  induction b as [|s b IH]; intros st Hok Hwf; [by destruct Hok|].
  destruct (decide (location_ok s)) as [Hs|Hs].
  - destruct (register_location s b st Hs Hwf) as (st1 & -> & _).
    apply IH; [|by eapply wf_statement]. intros Hb. by apply Hok, Forall_cons.
  - clear IH Hok. destruct (wf_statement s b Hwf) as [(t0 & ts & Ht) _].
    simpl. unfold location_ok in Hs. rewrite Ht in Hs |- *. simpl in Hs |- *.
    case_bool_decide as Ht0; [destruct Hs; congruence|]. subst.
    destruct ts as [|t1 [|t2 ts]]; simpl; [by eexists..|].
    destruct (child_block_ s) eqn:Hb; simpl; [|by eexists].
    destruct Hs. intros _. split; [simpl; lia|by eexists].
Qed.

(** The loop stops at the block [server_block] finds. *)
Lemma register_server_block c st : wf_config c ->
  register_server c st =
  match server_block c with
  | None => Ok st
  | Some None => Fault NullDereference
  | Some (Some b) => register_locations b st
  end.
Proof.
  induction c as [|s c IH]; intros Hwf; [done|].
  destruct (wf_statement s c Hwf) as [(t0 & ts & Ht) Hc].
  cbn [register_server server_block]. rewrite Ht. cbn [vec_at lookup list_lookup mbind outcome_bind].
  case_bool_decide; subst.
  - destruct ts as [|t1 ts].
    + rewrite decide_True by done. by destruct (child_block_ s).
    + rewrite decide_False by done. by apply IH.
  - rewrite decide_False by congruence. by apply IH.
Qed.

Lemma server_block_wf c b : wf_config c -> server_block c = Some (Some b) -> wf_config b.
Proof.
  induction c as [|s c IH]; intros Hwf Hb; simpl in Hb; [done|].
  case_decide; [simplify_eq; by eapply wf_block|].
  apply IH; [by eapply wf_statement|done].
Qed.

(** The fallback handler is added when no location took the root path. *)
Lemma add_fallback (m : gmap str handler) :
  (if bool_decide (m !! ("/" : str) = None) then <[("/" : str) := Handler404]> m else m)
  = m ∪ {[("/" : str) := Handler404]}.
Proof.
  case_bool_decide as Hm.
  - by rewrite insert_union_singleton_r.
  - apply map_eq. intros i. rewrite lookup_union.
    destruct (decide (i = "/")) as [->|].
    + rewrite lookup_singleton_eq. by destruct (m !! ("/" : str)).
    + rewrite lookup_singleton_ne by done. by destruct (m !! i).
Qed.

Lemma dispatch_table_union c :
  dispatch_table c = list_to_map (server_entries c) ∪ {[("/" : str) := Handler404]}.
Proof. unfold dispatch_table. rewrite list_to_map_app. simpl. by rewrite insert_empty. Qed.

Lemma RequestHandlerDispatcher_table c : wf_config c -> dispatchable c ->
  exists st, RequestHandlerDispatcher c = Ok st /\ handlers_ st = dispatch_table c /\
    num_registered st = size (list_to_map (M := gmap str handler) (server_entries c)).
Proof.
  intros Hwf Hd. unfold RequestHandlerDispatcher, initRequestHandlers.
  rewrite register_server_block by done. rewrite dispatch_table_union, <- add_fallback.
  unfold dispatchable, server_entries in *.
  destruct (server_block c) as [[b|]|] eqn:Hb; [|done|].
  - destruct (register_locations_spec b (InitState 0 ∅ [])) as (st & Hr & Hh & Hn);
      [done|by eapply server_block_wf|].
    rewrite Hr. simpl in *. rewrite map_empty_union in Hh. rewrite map_size_empty in Hn.
    rewrite <- Hh. eexists. split; [done|]. case_bool_decide; simpl; (split; [done|lia]).
  - simpl. eexists. split; [done|]. by case_bool_decide.
Qed.

Lemma RequestHandlerDispatcher_faults c : wf_config c -> ~ dispatchable c ->
  exists f, RequestHandlerDispatcher c = Fault f.
Proof.
  intros Hwf Hd. unfold RequestHandlerDispatcher, initRequestHandlers.
  rewrite register_server_block by done. unfold dispatchable in Hd.
  destruct (server_block c) as [[b|]|] eqn:Hb; [|by eexists|done].
  destruct (register_locations_fault b (InitState 0 ∅ [])) as [f ->];
    [done|by eapply server_block_wf|by eexists].
Qed.

#[export] Instance dispatchable_dec c : Decision (dispatchable c).
Proof. unfold dispatchable. destruct (server_block c) as [[]|]; apply _. Defined.

Lemma RequestHandlerDispatcher_Ok c st : wf_config c -> RequestHandlerDispatcher c = Ok st ->
  handlers_ st = dispatch_table c.
Proof.
  intros Hwf Hst. destruct (decide (dispatchable c)) as [Hd|Hd].
  - destruct (RequestHandlerDispatcher_table c Hwf Hd) as (st' & Hst' & Hh & _). congruence.
  - destruct (RequestHandlerDispatcher_faults c Hwf Hd) as [f Hf]. congruence.
Qed.

(** ** Lemmas: the choice of a handler *)

(** What the loop has found so far. *)
Definition best_of (uri : str) (entries : list (str * handler)) (best : str * option handler) : Prop :=
  (forall q h, (q, h) ∈ entries -> q `prefix_of` uri -> length q <= length best.1) /\
  match best.2 with
  | Some h => (best.1, h) ∈ entries /\ best.1 <> [] /\ best.1 `prefix_of` uri
  | None => best.1 = []
  end.

Lemma take_prefix (q uri : str) : take (length q) uri = q <-> q `prefix_of` uri.
Proof.
  split.
  - intros <-. exists (drop (length q) uri). by rewrite take_drop.
  - intros [k ->]. apply take_app_length.
Qed.

Lemma match_entry_best uri l e best :
  best_of uri l best -> best_of uri (l ++ [e]) (match_entry uri best e).
Proof.
  intros [Hmax Hbest]. destruct e as [q h]. unfold match_entry. simpl.
  assert (forall q' h', (q', h') ∈ l ++ [(q, h)] -> (q', h') ∈ l \/ q' = q) as Hcases.
  { intros q' h'. rewrite elem_of_app, list_elem_of_singleton. naive_solver. }
  assert (match best.2 with
    | Some h0 => (best.1, h0) ∈ l ++ [(q, h)] /\ best.1 <> [] /\ best.1 `prefix_of` uri
    | None => best.1 = [] end) as Hkeep.
  { destruct (best.2); [|done]. rewrite elem_of_app. naive_solver. }
  case_bool_decide as Hq; [case_bool_decide as Hl|].
  - split; simpl.
    + intros q' h' [Hin| ->]%Hcases Hp; [|done]. specialize (Hmax _ _ Hin Hp). lia.
    + split_and!; [rewrite elem_of_app, list_elem_of_singleton; by right| |by apply take_prefix].
      intros ->. simpl in Hl. lia.
  - split; [|done]. intros q' h' [Hin| ->]%Hcases Hp; [by eapply Hmax|lia].
  - split; [|done]. intros q' h' [Hin| ->]%Hcases Hp; [by eapply Hmax|].
    by apply take_prefix in Hp.
Qed.

Lemma foldl_best uri l2 : forall l1 best,
  best_of uri l1 best -> best_of uri (l1 ++ l2) (foldl (match_entry uri) best l2).
Proof.
  induction l2 as [|e l2 IH]; intros l1 best Hb; simpl; [by rewrite app_nil_r|].
  rewrite cons_middle, app_assoc. by apply IH, match_entry_best.
Qed.

Lemma getRequestHandler_best hs target :
  exists p, best_of (pop_trailing "/" target) (map_entries hs)
    (p, getRequestHandler hs target).
Proof.
  unfold getRequestHandler.
  pose proof (foldl_best (pop_trailing "/" target) (map_entries hs) [] ([], None)) as Hb.
  simpl in Hb. destruct (foldl _ _ _) as [p h]. exists p. apply Hb. split; [|done].
  intros q h' Hin. by apply elem_of_nil in Hin.
Qed.

(** The handler of the longest registered prefix; prefixes of one string of
    the same length are equal, so the order of the entries does not matter. *)
Lemma getRequestHandler_spec hs target h :
  getRequestHandler hs target = Some h <-> longest_prefix hs (pop_trailing "/" target) h.
Proof.
  destruct (getRequestHandler_best hs target) as (p & Hmax & Hbest). simpl in *.
  split.
  - intros Hh. rewrite Hh in Hbest. destruct Hbest as (Hin & Hne & Hp).
    exists p. split_and!; [by apply elem_of_map_entries|done..|].
    intros q h' Hq Hqp. eapply Hmax; [by apply elem_of_map_entries|done].
  - intros (q & Hq & Hne & Hqp & Hqmax).
    assert (length q <= length p) as Hle.
    { eapply Hmax; [by apply elem_of_map_entries|done]. }
    destruct (getRequestHandler hs target) as [h'|].
    + destruct Hbest as (Hin & Hpne & Hp). apply elem_of_map_entries in Hin.
      assert (p = q) as <-.
      { pose proof (Hqmax _ _ Hin Hp). apply take_prefix in Hp, Hqp.
        rewrite <- Hp, <- Hqp. f_equal. lia. }
      congruence.
    + subst. destruct q; [done|simpl in Hle; lia].
Qed.
