(* ===== verification/Faults.v ===== *)
(** * How a request handler can fail

    No loop of a handler runs for ever and no string operation of a handler
    is out of range, on any file system: [handleRequest] fails in two ways
    only, an exception of the file system that leaves the [noexcept] function
    and the overflow of the counter of ids. *)

From S2P Require Import Prelude Cxx Http Mime Storage Handlers Api Dispatcher.
Local Open Scope str_scope.

(** The faults of a handler, and the outcomes with no other fault. *)
Definition handler_fault (f : fault) : Prop := f = Terminated \/ f = IntegerOverflow.

Definition tame {A} (o : outcome A) : Prop := forall f, o = Fault f -> handler_fault f.

Section tame.
Context {A B : Type}.

Lemma tame_Ok (a : A) : tame (Ok a).
Proof. done. Qed.

Lemma tame_bind (o : outcome A) (k : A -> outcome B) :
  tame o -> (forall a, o = Ok a -> tame (k a)) -> tame (o ≫= k).
Proof. intros Ho Hk. destruct o as [a|f]; [by apply Hk|]. intros f' [= <-]. by apply Ho. Qed.

Lemma tame_uncaught (o : option A) : tame (uncaught o).
Proof. destruct o; [done|]. intros f [= <-]. by left. Qed.

Lemma tame_is_ok (o : outcome A) : is_ok o -> tame o.
Proof. by intros [a ->]. Qed.
End tame.

Create HintDb tame.
#[export] Hint Resolve tame_Ok tame_bind tame_uncaught tame_is_ok after_last_ok path_extension_ok : tame.

(** Walks through a handler: binds, branches, and the hints at the leaves. *)
Ltac walk := repeat first
  [ progress intros | solve [auto with tame] | apply tame_bind | case_match ].

(** ** The loops over the ids *)
Section loops.
Context {St : Type} (id_of : St -> Z).

(** A loop that counts an [int] up from 1 stops before its fuel runs out. *)
Lemma counting_loop_tame {R} (stp : St -> St + outcome R) s :
  (forall s s', stp s = inl s' -> (id_of s < INT_MAX)%Z /\ id_of s' = (id_of s + 1)%Z) ->
  (forall s o, stp s = inr o -> tame o) ->
  id_of s = 1%Z ->
  exists o, iter_pow2 31 stp s = inr o /\ tame o.
Proof.
  intros Hnext Hstop Hs.
  destruct (iter_pow2_terminates stp (fun s => 1 <= id_of s)%Z
    (fun s => Z.to_nat (INT_MAX - id_of s)) 31 s) as (s' & o & _ & Ho & ->).
  - intros s1 s2 H1 [H2 H3]%Hnext. lia.
  - lia.
  - rewrite Hs. unfold INT_MAX. change (2 ^ Z.of_nat 31)%Z with 2147483648%Z. lia.
  - exists o. split; [done|]. by apply (Hstop s').
Qed.
End loops.

Lemma int_incr_tame i : tame (int_incr i).
Proof. unfold int_incr. case_bool_decide; [apply tame_Ok|]. intros f [= <-]. by right. Qed.

Lemma int_incr_Ok i i' : int_incr i = Ok i' -> (i < INT_MAX)%Z /\ i' = (i + 1)%Z.
Proof. unfold int_incr. case_bool_decide; [|done]. by intros [= <-]. Qed.

#[export] Hint Resolve int_incr_tame : tame.

(** ** The API handler, over any [ICRUDHandler] that fails in these ways only *)
Class CrudTame {St : Type} (H : ICRUDHandler St) : Prop := {
  tame_create e d s : tame (crud_create e d s);
  tame_read e id s : tame (crud_read e id s);
  tame_update e id d s : tame (crud_update e id d s);
  tame_delete e id s : tame (crud_delete e id s);
  tame_exists e id s : tame (crud_exists e id s)
}.

#[export] Hint Resolve tame_create tame_read tame_update tame_delete tame_exists : tame.

Section api.
Context `{BeastHttp} `{LexicalCast} {St : Type} `{CrudTame St} (prefix : str).

Lemma removePrefix_tame path : tame (removePrefix prefix path).
Proof.
  unfold removePrefix, substr_n, substr. case_bool_decide; [apply tame_Ok|].
  rewrite !bool_decide_true by lia. run_ok. case_bool_decide; apply tame_Ok.
Qed.

Lemma split_entity_tame entity_id : tame (split_entity entity_id).
Proof. unfold split_entity. apply tame_bind; auto with tame. Qed.

Lemma list_step_next entity_id s st st' :
  list_step entity_id s st = inl st' -> (st.1 < INT_MAX)%Z /\ st'.1 = (st.1 + 1)%Z.
Proof.
  unfold list_step. destruct st as [id body]. destruct (crud_exists _ _ _) as [[]|]; [|done..].
  destruct (int_incr id) as [id'|] eqn:Hi; [|done]. intros [= <-]. by apply int_incr_Ok.
Qed.

Lemma list_step_tame entity_id s st o : list_step entity_id s st = inr o -> tame o.
Proof.
  unfold list_step. destruct st as [id body].
  pose proof (tame_exists entity_id id s) as He.
  destruct (crud_exists entity_id id s) as [[]|f].
  - pose proof (int_incr_tame id) as Hi. destruct (int_incr id) as [|f']; intros [= <-].
    intros f [= <-]. by apply Hi.
  - by intros [= <-].
  - intros [= <-] f' [= <-]. by apply He.
Qed.

Lemma list_ids_tame entity_id s : tame (list_ids entity_id s).
Proof.
  unfold list_ids.
  destruct (counting_loop_tame fst (list_step entity_id s) (1%Z, "[")) as (o & -> & Ho); [| |done|done].
  - intros. by apply (list_step_next entity_id s).
  - intros. by eapply list_step_tame.
Qed.

Hint Resolve removePrefix_tame split_entity_tame list_ids_tame : tame.

Lemma API_handleRequest_tame req res s : tame (API_handleRequest prefix req res s).
Proof.
  unfold API_handleRequest, handle_post, handle_get, handle_put, handle_delete. walk.
Qed.
End api.

(** ** The file storage and every handler *)
Section handlers.
Context `{BeastHttp} `{LexicalCast} {F : Type} {fs : FileSystem F}.

Lemma next_id_step_next base entity s id id' :
  next_id_step base entity s id = inl id' -> (id < INT_MAX)%Z /\ id' = (id + 1)%Z.
Proof.
  unfold next_id_step. destruct (CRUDHandler_exists _ _ _ _) as [[]|]; [|done..].
  destruct (int_incr id) as [i|] eqn:Hi; [|done]. intros [= <-]. by apply int_incr_Ok.
Qed.

Lemma next_id_step_tame base entity s id o : next_id_step base entity s id = inr o -> tame o.
Proof.
  unfold next_id_step, CRUDHandler_exists.
  destruct (fs_exists _ s) as [[]|]; simpl; [|by intros [= <-]|].
  - pose proof (int_incr_tame id) as Hi. destruct (int_incr id) as [|f]; intros [= <-].
    intros f' [= <-]. by apply Hi.
  - intros [= <-] f [= <-]. by left.
Qed.

Lemma getNextId_tame base entity s : tame (getNextId base entity s).
Proof.
  unfold getNextId.
  destruct (counting_loop_tame id (next_id_step base entity s) 1%Z) as (o & -> & Ho);
    [| |done|done].
  - intros. by apply (next_id_step_next base entity s).
  - intros. by eapply next_id_step_tame.
Qed.

(** The search for a free id on any file system: it stops at the first id
    whose file does not exist, or cannot be examined, or at the last [int]. *)
Lemma getNextId_result base entity s :
  exists id, (1 <= id <= INT_MAX)%Z /\
    (forall i, (1 <= i < id)%Z -> fs_exists (getPath base entity i) s = Some true) /\
    match fs_exists (getPath base entity id) s with
    | Some true => id = INT_MAX /\ getNextId base entity s = Fault IntegerOverflow
    | Some false => getNextId base entity s = Ok id
    | None => getNextId base entity s = Fault Terminated
    end.
Proof.
  unfold getNextId.
  destruct (iter_pow2_terminates (next_id_step base entity s)
    (fun id => (1 <= id <= INT_MAX)%Z /\
       forall i, (1 <= i < id)%Z -> fs_exists (getPath base entity i) s = Some true)
    (fun id => Z.to_nat (INT_MAX - id)) 31 1%Z) as (id & o & [Hid Hused] & Ho & ->).
  - unfold next_id_step, CRUDHandler_exists. intros id id' [Hid Hused].
    destruct (fs_exists _ s) as [[]|] eqn:He; [|done..]. simpl.
    destruct (int_incr id) as [i|] eqn:Hi; [|done]. intros [= <-].
    apply int_incr_Ok in Hi as [Hlt ->]. split; [split; [lia|]|lia].
    intros i Hi. destruct (decide (i = id)) as [->|]; [done|]. apply Hused. lia.
  - split; [unfold INT_MAX; lia|]. intros. lia.
  - unfold INT_MAX. change (2 ^ Z.of_nat 31)%Z with 2147483648%Z. lia.
  - exists id. split; [done|]. split; [done|].
    unfold next_id_step, CRUDHandler_exists in Ho.
    destruct (fs_exists _ s) as [[]|]; simpl in Ho; [|by injection Ho as <-..].
    unfold int_incr in Ho. case_bool_decide; [done|]. injection Ho as <-. split; [lia|done].
Qed.

Hint Resolve getNextId_tame : tame.

#[export] Instance CRUDHandler_tame base : CrudTame (CRUDHandler base).
Proof.
  split; intros; cbn [crud_create crud_read crud_update crud_delete crud_exists CRUDHandler];
    unfold CRUDHandler_create, CRUDHandler_read, CRUDHandler_update, CRUDHandler_delete,
      CRUDHandler_exists, FileStorage_write, FileStorage_remove; walk.
Qed.

Lemma Static_handleRequest_Terminated root prefix req res s f :
  Static_handleRequest root prefix req res s = Fault f -> f = Terminated.
Proof.
  unfold Static_handleRequest. destruct (path_extension_ok (static_path root prefix (req_target req)))
    as [ext Hext].
  destruct (fs_exists _ s) as [[]|]; cbn [uncaught mbind outcome_bind negb]; [|done|by intros [= <-]].
  destruct (fs_is_regular_file _ s) as [[]|]; cbn [uncaught mbind outcome_bind negb];
    [|done|by intros [= <-]].
  destruct (fs_open_read _ s); [|done]. rewrite Hext. done.
Qed.

Lemma Static_handleRequest_tame root prefix req res s :
  tame (Static_handleRequest root prefix req res s).
Proof. intros f Hf. left. by eapply Static_handleRequest_Terminated. Qed.

Hint Resolve Static_handleRequest_tame API_handleRequest_tame : tame.

Lemma handleRequest_tame h req res s : tame (handleRequest h req res s).
Proof. unfold handleRequest. walk. all: auto with tame typeclass_instances. Qed.
End handlers.

#[export] Hint Resolve handleRequest_tame : tame.
