(* ===== verification/Session.v ===== *)
(** * The session ([src/session.h], [src/session.cc])

    A session reads a request, authenticates it, has the dispatcher's handler
    fill in the response and writes it.  Its state is the record [session];
    the asynchronous operations it has started and not completed are counted
    in its socket, and the records it logs are appended to its log.  The two
    callbacks are functions; [conn_step] is the step relation of a connection,
    in which the completions of outstanding operations are interleaved.

    [std::chrono::steady_clock::now()] is an argument, in nanoseconds. *)

From S2P Require Import Prelude Cxx Logger Base64 Http Storage Api Dispatcher.
Local Open Scope str_scope.

(** The asynchronous operations in flight, and whether the socket is open. *)
Record socket : Type := Socket { reads : nat; writes : nat; is_open : bool }.

#[export] Instance socket_eq_dec : EqDecision socket.
Proof. solve_decision. Defined.

Section session.
Context `{BeastHttp} `{LexicalCast} {F : Type} `{FileSystem F}.

Record session : Type := Session {
  socket_ : socket;
  credentials_ : gmap str str;
  dispatcher_ : gmap str handler;
  response_ : Response;
  last_auth_time_ : Z;
  auth_time_ : Z;
  buffer_ : str;
  session_log : list log_record
}.

(** ** Assignments to the fields *)
Definition set_socket (k : socket) (s : session) : session :=
  Session k (credentials_ s) (dispatcher_ s) (response_ s) (last_auth_time_ s)
    (auth_time_ s) (buffer_ s) (session_log s).
Definition set_response (res : Response) (s : session) : session :=
  Session (socket_ s) (credentials_ s) (dispatcher_ s) res (last_auth_time_ s)
    (auth_time_ s) (buffer_ s) (session_log s).
Definition set_last_auth_time (t : Z) (s : session) : session :=
  Session (socket_ s) (credentials_ s) (dispatcher_ s) (response_ s) t
    (auth_time_ s) (buffer_ s) (session_log s).
Definition set_buffer (b : str) (s : session) : session :=
  Session (socket_ s) (credentials_ s) (dispatcher_ s) (response_ s) (last_auth_time_ s)
    (auth_time_ s) b (session_log s).
Definition add_log (r : log_record) (s : session) : session :=
  Session (socket_ s) (credentials_ s) (dispatcher_ s) (response_ s) (last_auth_time_ s)
    (auth_time_ s) (buffer_ s) (session_log s ++ [r]).

Definition new_session (dispatcher : gmap str handler) (credentials : gmap str str)
    (auth_time : Z) (now : Z) : session :=
  Session (Socket 0 0 true) credentials dispatcher default_response now auth_time [] [].

(** ** Starting operations *)
Definition start_read (k : socket) : socket := Socket (S (reads k)) (writes k) (is_open k).
Definition start_write (k : socket) : socket := Socket (reads k) (S (writes k)) (is_open k).

Definition handle_read (s : session) : session :=
  add_log (logDebugFile "Waiting for data from client")
    (set_socket (start_read (socket_ s)) s).

Definition handle_write (s : session) : session :=
  add_log (logDebugFile "Writing response to client")
    (set_socket (start_write (socket_ s)) s).

Definition start (s : session) : session := handle_read s.

(** ** Authentication *)
Definition authenticate (auth_header : str) (now : Z) (s : session) :
    outcome (bool * session) :=
  if negb (compare_prefix auth_header (length ("Basic " : str)) "Basic ") then Ok (false, s)
  else
    encoded ← substr auth_header (length ("Basic " : str));
    let decoded := base64_decode encoded in
    match find_char ":" decoded with
    | None => Ok (false, s)
    | Some delimiter_pos =>
        username ← substr_n decoded 0 delimiter_pos;
        password ← substr decoded (delimiter_pos + 1);
        if bool_decide (credentials_ s !! username = Some password) then
          Ok (true, set_last_auth_time now s)
        else Ok (false, s)
    end.

(** [duration_cast<seconds>(now - last_auth_time_).count()] *)
Definition seconds_between (last now : Z) : Z := Z.quot (now - last) 1000000000.

Definition is_session_expired (now : Z) (s : session) : bool * session :=
  let expired := bool_decide (auth_time_ s < seconds_between (last_auth_time_ s) now)%Z in
  if expired then
    (true, handle_read (set_last_auth_time now
      (add_log (logDebugFile "Session expired, starting new session...") s)))
  else (false, s).

(** ** Responses of the session itself *)
Definition status_text (res : Response) : str := to_string (to_int (res_result res)).

Definition send_unauthorized_response (s : session) : session :=
  let s := add_log (logDebugFile "Sending 401 Unauthorized response") s in
  let res := new_response status_unauthorized 11 in
  let res := res_set field_server "Beast" res in
  let res := res_set field_content_type "text/html" res in
  let res := res_set field_www_authenticate
    ("Basic realm=" ++ [DQUOTE] ++ "User Visible Realm" ++ [DQUOTE]) res in
  let res := res_set_body "Unauthorized" res in
  let res := res_prepare_payload res in
  let s := set_response res s in
  let s := add_log (logResponse ("Unauthorized " ++ status_text res)) s in
  handle_write s.

(** [response_ = {status, 11}; response_.body() = body; prepare_payload()] *)
Definition plain_response (status : Z) (body : str) : Response :=
  res_prepare_payload (res_set_body body (new_response status 11)).

(** ** [handle_read_callback] *)

(** The handler for the target fills in the response. *)
Definition dispatch (request : Request) (s : session) (fs : F) : outcome (session * F) :=
  let target_string := req_target request in
  '(handlerTag, s, fs) ←
    match getRequestHandler (dispatcher_ s) target_string with
    | None =>
        Ok (("Handler not found" : str),
            set_response (plain_response status_not_found "Not Found")
              (add_log (logErrorFile ("No handler found for URI: " ++ target_string)) s),
            fs)
    | Some handler =>
        '(res, fs) ← handleRequest handler request (response_ s) fs;
        Ok (getName handler, set_response res s, fs)
    end;
  let s := add_log (logDebugFile "Sending a response message to client...") s in
  let s := add_log (logDebugFile ("Status Code: " ++ status_text (response_ s))) s in
  let s := add_log (logResponse (handlerTag ++ " " ++ status_text (response_ s))) s in
  Ok (handle_write s, fs).

(** The record of the [Authorization] header of a request. *)
Definition header_record (request : Request) : log_record :=
  match req_find field_authorization request with
  | Some value => logDebugFile ("Authorization header is set: " ++ value)
  | None => logDebugFile "Authorization header is not set"
  end.

(** The part of the callback that handles a complete request. *)
Definition handle_request (request : Request) (now1 now2 : Z) (s : session) (fs : F) :
    outcome (Z * session * F) :=
  let s := add_log (logTraceHTTPrequest request) s in
  let s := add_log (header_record request) s in
  let (expired, s) := is_session_expired now1 s in
  if expired then
    let request := req_set field_authorization [] request in
    let s := add_log (logDebugFile ("Authorization header is set (after removing): " ++
      default [] (req_find field_authorization request))) s in
    let s := add_log (logDebugFile "Authorization header removed due to expired session") s in
    Ok (1%Z, send_unauthorized_response s, fs)
  else
    match req_find field_authorization request with
    | None => Ok (1%Z, send_unauthorized_response s, fs)
    | Some auth_header =>
        '(authenticated, s) ← authenticate auth_header now2 s;
        if negb authenticated then Ok (1%Z, send_unauthorized_response s, fs)
        else
          '(s, fs) ← dispatch request s fs;
          Ok (0%Z, s, fs)
    end.

(** [error] is the message of the error of the read, if any; [bytes] are the
    bytes transferred, which [buffer_.commit] makes readable.  When the parser
    needs more input the callback starts another read and then reaches its
    end without a [return], which is undefined behaviour. *)
Definition handle_read_callback (error : option str) (bytes : str) (now1 now2 : Z)
    (s : session) (fs : F) : outcome (Z * session * F) :=
  match error with
  | Some error_message =>
      Ok (1%Z, add_log (logErrorFile ("Read error: " ++ error_message)) s, fs)
  | None =>
      let s := set_buffer (buffer_ s ++ bytes) s in
      match parser_put (buffer_ s) with
      | PutError error_message =>
          let s := add_log (logErrorFile ("Error parsing request: " ++ error_message)) s in
          let s := set_response (plain_response status_bad_request "Bad request") s in
          Ok (1%Z, handle_write s, fs)
      | PutDone request => handle_request request now1 now2 s fs
      | PutMore => Fault MissingReturn (* after [handle_read] *)
      | PutThrow =>
          let s := add_log (logErrorFile "Exception caught in handle_read_callback") s in
          let s := set_response
            (plain_response status_internal_server_error "Internal Server Error") s in
          Ok (1%Z, handle_write s, fs)
      end
  end.

(** ** [handle_write_callback] *)
Definition handle_write_callback (error : option str) (s : session) : Z * session :=
  match error with
  | None =>
      (1%Z, add_log (logDebugFile "Session Complete")
        (set_socket (Socket (reads (socket_ s)) (writes (socket_ s)) false) s))
  | Some error_message =>
      (0%Z, add_log (logErrorFile ("Error passed to handle_write_callback: " ++ error_message)) s)
  end.

(** ** The connection

    The server starts one read; the event loop runs the callback of any
    operation in flight.  [async_write] keeps a reference to [response_]:
    what is sent is the response at the time of the write.  [c_late] counts
    the reads that completed after the authentication time had run out. *)
Record conn : Type := Conn {
  c_session : session;
  c_fs : F;
  c_sent : list Response;
  c_late : nat
}.

Definition expired (now : Z) (s : session) : Prop :=
  (auth_time_ s < seconds_between (last_auth_time_ s) now)%Z.

#[export] Instance expired_dec now s : Decision (expired now s).
Proof. unfold expired. apply _. Defined.

Definition finish_read (s : session) : session :=
  set_socket (Socket (pred (reads (socket_ s))) (writes (socket_ s)) (is_open (socket_ s))) s.
Definition finish_write (s : session) : session :=
  set_socket (Socket (reads (socket_ s)) (pred (writes (socket_ s))) (is_open (socket_ s))) s.

(** A read that succeeds has transferred some bytes, at most the 4096 that
    [buffer_.prepare] made room for. *)
Definition transferred (error : option str) (bytes : str) : Prop :=
  error = None -> 0 < length bytes <= 4096.

Inductive conn_step : conn -> conn -> Prop :=
  | read_completes error bytes now1 now2 c r s' fs' :
      0 < reads (socket_ (c_session c)) ->
      transferred error bytes ->
      (last_auth_time_ (c_session c) <= now1 <= now2)%Z ->
      handle_read_callback error bytes now1 now2 (finish_read (c_session c)) (c_fs c)
        = Ok (r, s', fs') ->
      conn_step c (Conn s' fs' (c_sent c)
        (if decide (expired now1 (c_session c)) then S (c_late c) else c_late c))
  | write_completes error c :
      0 < writes (socket_ (c_session c)) ->
      conn_step c (Conn (handle_write_callback error (finish_write (c_session c))).2 (c_fs c)
        (match error with
         | None => c_sent c ++ [response_ (c_session c)]
         | Some _ => c_sent c
         end) (c_late c)).

Definition initial_conn (dispatcher : gmap str handler) (credentials : gmap str str)
    (auth_time now : Z) (fs : F) : conn :=
  Conn (start (new_session dispatcher credentials auth_time now)) fs [] 0.

Definition reachable (c0 c : conn) : Prop := rtc conn_step c0 c.
End session.
