(* ===== verification/SessionCases.v ===== *)
(** * The session, case by case

    The specification of the session of [Session.v]: which headers are valid,
    which requests are let through, and what a completed read leads to, up to
    the log.  Sessions that differ in their logs only are equivalent ([≡]),
    and every operation respects that: the log never influences what the
    session does. *)

From S2P Require Import Prelude Cxx Logger Base64 Http Storage Api Dispatcher Session.
Local Open Scope str_scope.

Section session_cases.
Context `{BeastHttp} `{LexicalCast} {F : Type} `{FileSystem F}.

(** ** Specification *)

(** The [Authorization] header of a user: [Basic], and the Base64 encoding
    of the name, a colon and the password that the configuration gives it. *)
Definition valid_header (credentials : gmap str str) (h : str) : Prop :=
  exists e u p, h = "Basic " ++ e /\ base64_decode e = u ++ ":" ++ p /\
    ":"%char ∉ u /\ credentials !! u = Some p.

(** A request the session lets through. *)
Definition authorized (request : Request) (now : Z) (s : session) : Prop :=
  ~ expired now s /\
  exists h, req_find field_authorization request = Some h /\ valid_header (credentials_ s) h.

(** The session without its log. *)
Definition erase (s : session) : session :=
  Session (socket_ s) (credentials_ s) (dispatcher_ s) (response_ s) (last_auth_time_ s)
    (auth_time_ s) (buffer_ s) [].

(** Equality up to the log. *)
Record same_but_log (s1 s2 : session) : Prop := SameButLog { same_fields : erase s1 = erase s2 }.

#[export] Instance session_equiv : Equiv session := same_but_log.

#[export] Instance session_equivalence : Equivalence (≡@{session}).
Proof.
  split.
  - by constructor.
  - intros s1 s2 [Hs]. by constructor.
  - intros s1 s2 s3 [H12] [H23]. constructor. congruence.
Qed.

(** What a session that starts writing [res] looks like. *)
Definition writing (res : Response) (s : session) : session :=
  set_response res (set_socket (start_write (socket_ s)) s).
Definition reading (s : session) : session := set_socket (start_read (socket_ s)) s.

Definition unauthorized_response : Response :=
  res_prepare_payload (res_set_body "Unauthorized"
    (res_set field_www_authenticate
      ("Basic realm=" ++ [DQUOTE] ++ "User Visible Realm" ++ [DQUOTE])
      (res_set field_content_type "text/html"
        (res_set field_server "Beast" (new_response status_unauthorized 11))))).

(** ** Lemmas: authentication *)
Lemma authenticate_spec h now s :
  exists b : bool, authenticate h now s = Ok (b, if b then set_last_auth_time now s else s) /\
    (b = true <-> valid_header (credentials_ s) h).
Proof.
  unfold authenticate. destruct (compare_prefix h _ "Basic ") eqn:Hc; cbn [negb].
  2: { exists false. split; [done|]. split; [done|]. intros (e & u & p & -> & _).
    rewrite (proj2 (compare_prefix_true ("Basic " ++ e) "Basic ")) in Hc by eauto. done. }
  apply compare_prefix_true in Hc as [e ->]. rewrite substr_app. run_ok.
  destruct (find_char ":" (base64_decode e)) as [i|] eqn:Hf.
  - apply find_char_Some in Hf as (u & p & Hd & Hu & <-). rewrite Hd.
    unfold substr_n. rewrite bool_decide_true by lia. run_ok.
    rewrite drop_0, take_app_length. replace (length u + 1) with (length (u ++ [":"%char]))
      by (rewrite length_app; done).
    rewrite (cons_middle ":"%char u p), app_assoc, substr_app. run_ok.
    case_bool_decide as Hl; [exists true|exists false]; (split; [done|]).
    + split; [|done]. intros _. by exists e, u, p.
    + split; [done|]. intros (e' & u' & p' & He & Hd' & Hu' & Hl'). simplify_list_eq. destruct Hl.
      rewrite Hd in Hd'. change (":" ++ p') with (":"%char :: p') in Hd'.
      pose proof (find_char_app ":" u p Hu) as E1.
      rewrite Hd', (find_char_app ":" u' p' Hu') in E1. injection E1 as E1.
      apply app_inj_1 in Hd' as [-> [= ->]]; [done|lia].
  - exists false. split; [done|]. split; [done|]. intros (e' & u & p & He & Hd & _).
    simplify_list_eq. apply find_char_None in Hf. rewrite Hd in Hf. set_solver.
Qed.

Lemma valid_header_encode credentials u p :
  ":"%char ∉ u -> valid_header credentials ("Basic " ++ encode (u ++ ":" ++ p)) <->
    credentials !! u = Some p.
Proof.
  intros Hu. split.
  - intros (e & u' & p' & He & Hd & Hu' & Hl). simplify_list_eq.
    rewrite base64_decode_encode in Hd.
    pose proof (find_char_app ":" u p Hu) as E1. change (u ++ ":"%char :: p = u' ++ ":"%char :: p') in Hd.
    rewrite Hd, (find_char_app ":" u' p' Hu') in E1. injection E1 as E1.
    apply app_inj_1 in Hd as [-> [= ->]]; [done|lia].
  - intros Hl. exists (encode (u ++ ":" ++ p)), u, p. by rewrite base64_decode_encode.
Qed.

(** ** Lemmas: the branches, up to the log *)
Lemma equiv_inv (s1 s2 : session) : s1 ≡ s2 ->
  socket_ s1 = socket_ s2 /\ credentials_ s1 = credentials_ s2 /\
  dispatcher_ s1 = dispatcher_ s2 /\ response_ s1 = response_ s2 /\
  last_auth_time_ s1 = last_auth_time_ s2 /\ auth_time_ s1 = auth_time_ s2 /\
  buffer_ s1 = buffer_ s2.
Proof. by intros [[=]]. Qed.

#[export] Instance socket_proper : Proper ((≡) ==> (=)) socket_.
Proof. by intros ?? (? & _)%equiv_inv. Qed.
#[export] Instance credentials_proper : Proper ((≡) ==> (=)) credentials_.
Proof. by intros ?? (_ & ? & _)%equiv_inv. Qed.
#[export] Instance dispatcher_proper : Proper ((≡) ==> (=)) dispatcher_.
Proof. by intros ?? (_ & _ & ? & _)%equiv_inv. Qed.
#[export] Instance response_proper : Proper ((≡) ==> (=)) response_.
Proof. by intros ?? (_ & _ & _ & ? & _)%equiv_inv. Qed.
#[export] Instance last_auth_time_proper : Proper ((≡) ==> (=)) last_auth_time_.
Proof. by intros ?? (_ & _ & _ & _ & ? & _)%equiv_inv. Qed.
#[export] Instance auth_time_proper : Proper ((≡) ==> (=)) auth_time_.
Proof. by intros ?? (_ & _ & _ & _ & _ & ? & _)%equiv_inv. Qed.
#[export] Instance buffer_proper : Proper ((≡) ==> (=)) buffer_.
Proof. by intros ?? (_ & _ & _ & _ & _ & _ & ?)%equiv_inv. Qed.

#[export] Instance set_socket_proper : Proper ((=) ==> (≡) ==> (≡)) set_socket.
Proof. intros k ? <- s1 s2 [[=]]. constructor. unfold erase. simpl. congruence. Qed.
#[export] Instance set_response_proper : Proper ((=) ==> (≡) ==> (≡)) set_response.
Proof. intros r ? <- s1 s2 [[=]]. constructor. unfold erase. simpl. congruence. Qed.
#[export] Instance set_last_auth_time_proper : Proper ((=) ==> (≡) ==> (≡)) set_last_auth_time.
Proof. intros t ? <- s1 s2 [[=]]. constructor. unfold erase. simpl. congruence. Qed.
#[export] Instance set_buffer_proper : Proper ((=) ==> (≡) ==> (≡)) set_buffer.
Proof. intros b ? <- s1 s2 [[=]]. constructor. unfold erase. simpl. congruence. Qed.
#[export] Instance add_log_proper : Proper ((=) ==> (≡) ==> (≡)) add_log.
Proof. intros r ? <- s1 s2 [[=]]. constructor. unfold erase. simpl. congruence. Qed.

#[export] Instance writing_proper : Proper ((=) ==> (≡) ==> (≡)) writing.
Proof. intros r ? <- s1 s2 Hs. unfold writing. by rewrite Hs. Qed.
#[export] Instance reading_proper : Proper ((≡) ==> (≡)) reading.
Proof. intros s1 s2 Hs. unfold reading. by rewrite Hs. Qed.
#[export] Instance finish_read_proper : Proper ((≡) ==> (≡)) finish_read.
Proof. intros s1 s2 Hs. unfold finish_read. by rewrite Hs. Qed.
#[export] Instance expired_proper : Proper ((=) ==> (≡) ==> iff) expired.
Proof. intros now ? <- s1 s2 Hs. unfold expired. by rewrite Hs. Qed.
#[export] Instance authorized_proper : Proper ((=) ==> (=) ==> (≡) ==> iff) authorized.
Proof. intros req ? <- now ? <- s1 s2 Hs. unfold authorized. by setoid_rewrite Hs. Qed.

Lemma add_log_equiv r s : add_log r s ≡ s.
Proof. done. Qed.

Lemma is_session_expired_spec now s :
  (expired now s /\ (is_session_expired now s).1 = true /\
    (is_session_expired now s).2 ≡ reading (set_last_auth_time now s)) \/
  (~ expired now s /\ is_session_expired now s = (false, s)).
Proof. unfold is_session_expired, expired. case_bool_decide; [left|right]; done. Qed.

Lemma send_unauthorized_equiv s :
  send_unauthorized_response s ≡ writing unauthorized_response s.
Proof. done. Qed.

(** What the dispatcher makes of a request on a response object. *)
Definition answer_with (d : gmap str handler) (request : Request) (res : Response) (fs : F) :
    outcome (Response * F) :=
  match getRequestHandler d (req_target request) with
  | None => Ok (plain_response status_not_found "Not Found", fs)
  | Some h => handleRequest h request res fs
  end.

Definition answer (request : Request) (s : session) (fs : F) : outcome (Response * F) :=
  answer_with (dispatcher_ s) request (response_ s) fs.

#[export] Instance answer_proper : Proper ((=) ==> (≡) ==> (=) ==> (=)) answer.
Proof. intros req ? <- s1 s2 Hs fs ? <-. unfold answer. by rewrite Hs. Qed.

Lemma dispatch_spec request s fs :
  match answer request s fs with
  | Ok (res, fs') =>
      exists s', dispatch request s fs = Ok (s', fs') /\ s' ≡ writing res s
  | Fault f => dispatch request s fs = Fault f
  end.
Proof.
  unfold answer, answer_with, dispatch. destruct (getRequestHandler _ _) as [h|]; [|by eexists].
  destruct (handleRequest h request (response_ s) fs) as [[res fs']|f]; [|done].
  by eexists.
Qed.

(** The three ways a complete request is handled. *)
Inductive request_case (request : Request) (now1 now2 : Z) (s : session) (fs : F) :
    outcome (Z * session * F) -> Prop :=
  | case_expired s' :
      expired now1 s ->
      s' ≡ (writing unauthorized_response (reading (set_last_auth_time now1 s))) ->
      request_case request now1 now2 s fs (Ok (1%Z, s', fs))
  | case_refused s' :
      ~ expired now1 s -> ~ authorized request now1 s ->
      s' ≡ (writing unauthorized_response s) ->
      request_case request now1 now2 s fs (Ok (1%Z, s', fs))
  | case_served s' res fs' :
      authorized request now1 s ->
      answer request s fs = Ok (res, fs') ->
      s' ≡ (writing res (set_last_auth_time now2 s)) ->
      request_case request now1 now2 s fs (Ok (0%Z, s', fs'))
  | case_fault f :
      authorized request now1 s ->
      answer request s fs = Fault f ->
      request_case request now1 now2 s fs (Fault f).

(** The request after the check of the expiry. *)
Definition after_expiry (request : Request) (now2 : Z) (s : session) (fs : F) :
    outcome (Z * session * F) :=
  match req_find field_authorization request with
  | None => Ok (1%Z, send_unauthorized_response s, fs)
  | Some auth_header =>
      '(authenticated, s) ← authenticate auth_header now2 s;
      if negb (authenticated : bool) then Ok (1%Z, send_unauthorized_response s, fs)
      else '(s, fs) ← dispatch request s fs; Ok (0%Z, s, fs)
  end.

Lemma after_expiry_cases request now1 now2 s s1 fs :
  s1 ≡ s -> ~ expired now1 s ->
  request_case request now1 now2 s fs (after_expiry request now2 s1 fs).
Proof.
  intros He Hexp. unfold after_expiry.
  destruct (req_find field_authorization request) as [h|] eqn:Hh.
  2: { apply case_refused; [done| |by rewrite send_unauthorized_equiv, He].
    intros (_ & h & Hh' & _). congruence. }
  destruct (authenticate_spec h now2 s1) as (b & -> & Hb). run_ok.
  rewrite He in Hb. destruct b; cbn [negb].
  - assert (authorized request now1 s) as Hauth by (split; [done|]; exists h; naive_solver).
    pose proof (dispatch_spec request (set_last_auth_time now2 s1) fs) as Hd.
    assert (answer request (set_last_auth_time now2 s1) fs = answer request s fs) as Ha'
      by (unfold answer; simpl; by rewrite He).
    rewrite Ha' in Hd.
    destruct (answer request s fs) as [[res fs']|f] eqn:Ha.
    + destruct Hd as (s' & -> & Hs'). run_ok.
      eapply case_served; [done..|]. by rewrite Hs', He.
    + rewrite Hd. by apply case_fault.
  - apply case_refused; [done| |by rewrite send_unauthorized_equiv, He].
    intros (_ & h' & Hh' & Hv). assert (h' = h) as -> by congruence.
    apply Hb in Hv. done.
Qed.

Lemma handle_request_cases request now1 now2 s fs :
  request_case request now1 now2 s fs (handle_request request now1 now2 s fs).
Proof.
  unfold handle_request.
  set (s1 := add_log (header_record request) _).
  assert (s1 ≡ s) as He by done.
  clearbody s1. destruct (is_session_expired_spec now1 s1) as [(Hexp & E1 & E2)|[Hexp ->]].
  - destruct (is_session_expired now1 s1) as [b s2]. simpl in E1, E2. subst b.
    apply case_expired; [by rewrite <- He|].
    by rewrite send_unauthorized_equiv, E2, He.
  - apply (after_expiry_cases request now1 now2 s s1 fs); [done|].
    by rewrite <- He.
Qed.

(** The ways a completed read is handled; [s0] has the bytes in its buffer. *)
Inductive read_case (error : option str) (bytes : str) (now1 now2 : Z) (s : session) (fs : F) :
    outcome (Z * session * F) -> Prop :=
  | case_read_error m s' : error = Some m -> s' ≡ s ->
      read_case error bytes now1 now2 s fs (Ok (1%Z, s', fs))
  | case_parse_error m s' : error = None -> parser_put (buffer_ s ++ bytes) = PutError m ->
      s' ≡ (writing (plain_response status_bad_request "Bad request")
        (set_buffer (buffer_ s ++ bytes) s)) ->
      read_case error bytes now1 now2 s fs (Ok (1%Z, s', fs))
  | case_throw s' : error = None -> parser_put (buffer_ s ++ bytes) = PutThrow ->
      s' ≡ (writing (plain_response status_internal_server_error
        "Internal Server Error") (set_buffer (buffer_ s ++ bytes) s)) ->
      read_case error bytes now1 now2 s fs (Ok (1%Z, s', fs))
  | case_more : error = None -> parser_put (buffer_ s ++ bytes) = PutMore ->
      read_case error bytes now1 now2 s fs (Fault MissingReturn)
  | case_request request o : error = None ->
      parser_put (buffer_ s ++ bytes) = PutDone request ->
      request_case request now1 now2 (set_buffer (buffer_ s ++ bytes) s) fs o ->
      read_case error bytes now1 now2 s fs o.

Lemma handle_read_callback_cases error bytes now1 now2 s fs :
  read_case error bytes now1 now2 s fs (handle_read_callback error bytes now1 now2 s fs).
Proof.
  unfold handle_read_callback. destruct error as [m|]; [by eapply case_read_error|].
  simpl buffer_. destruct (parser_put (buffer_ s ++ bytes)) as [m|request| |] eqn:Hp.
  - by eapply case_parse_error.
  - eapply case_request; [done..|]. apply handle_request_cases.
  - by eapply case_more.
  - by eapply case_throw.
Qed.

(** ** Lemmas: the connection *)

(** What the callbacks never change. *)
Definition same_config (s s' : session) : Prop :=
  credentials_ s' = credentials_ s /\ dispatcher_ s' = dispatcher_ s /\
  auth_time_ s' = auth_time_ s.

(** The responses that are not a handler's. *)
Definition refusal (res : Response) : Prop :=
  res = plain_response status_bad_request "Bad request" \/
  res = plain_response status_internal_server_error "Internal Server Error" \/
  res = unauthorized_response.

(** A completed read, seen from the operations in flight, the file system
    and the response. *)
Inductive read_effect (s : session) (fs : F) (now1 : Z) (s' : session) (fs' : F) : Prop :=
  | effect_none : socket_ s' = socket_ s -> response_ s' = response_ s -> fs' = fs ->
      read_effect s fs now1 s' fs'
  | effect_refused : socket_ s' = start_write (socket_ s) ->
      refusal (response_ s') -> fs' = fs -> read_effect s fs now1 s' fs'
  | effect_late : expired now1 s -> socket_ s' = start_write (start_read (socket_ s)) ->
      refusal (response_ s') -> fs' = fs -> read_effect s fs now1 s' fs'
  | effect_served request : authorized request now1 s ->
      socket_ s' = start_write (socket_ s) ->
      answer request s fs = Ok (response_ s', fs') -> read_effect s fs now1 s' fs'.

Lemma read_callback_effect error bytes now1 now2 s fs r s' fs' :
  handle_read_callback error bytes now1 now2 s fs = Ok (r, s', fs') ->
  same_config s s' /\ read_effect s fs now1 s' fs'.
Proof.
  intros Heq. pose proof (handle_read_callback_cases error bytes now1 now2 s fs) as Hc.
  rewrite Heq in Hc. unfold same_config.
  inversion Hc as [m ? ? E|m ? ? ? E|? ? ? E| |request o ? ? Hr]; subst.
  1-3: apply equiv_inv in E; simpl in E; destruct E as (Ek & ? & ? & Er & ?); split; [naive_solver|].
  - by apply effect_none.
  - apply effect_refused; [done| |done]. unfold refusal. auto.
  - apply effect_refused; [done| |done]. unfold refusal. auto.
  - inversion Hr as [? Hexp E|? Hexp Hna E|? res ? Ha Hans E|]; subst;
      apply equiv_inv in E; simpl in E; destruct E as (Ek & ? & ? & Er & ?); (split; [naive_solver|]).
    + apply effect_late; [done..| |done]. unfold refusal. auto.
    + apply effect_refused; [done| |done]. unfold refusal. auto.
    + apply (effect_served _ _ _ _ _ request); [done..|].
      change (answer request (set_buffer (buffer_ s ++ bytes) s) fs) with (answer request s fs) in Hans.
      congruence.
Qed.

(** What the return value says: 0 for a request the dispatcher answered, and
    otherwise no file changed and any response is a refusal. *)
Lemma read_callback_served error bytes now1 now2 s fs r s' fs' :
  handle_read_callback error bytes now1 now2 s fs = Ok (r, s', fs') ->
  (r = 0%Z /\ exists request, parser_put (buffer_ s ++ bytes) = PutDone request /\
    authorized request now1 s /\ answer request s fs = Ok (response_ s', fs')) \/
  (r <> 0%Z /\ fs' = fs /\ (refusal (response_ s') \/
    (response_ s' = response_ s /\ writes (socket_ s') = writes (socket_ s)))).
Proof.
  intros Heq. pose proof (handle_read_callback_cases error bytes now1 now2 s fs) as Hc.
  rewrite Heq in Hc. unfold refusal.
  inversion Hc as [m ? ? E|m ? ? ? E|? ? ? E| |request o ? ? Hr]; subst.
  - right. split_and!; [done..|]. right. by rewrite E.
  - right. split_and!; [done..|]. left. rewrite E. auto.
  - right. split_and!; [done..|]. left. rewrite E. auto.
  - inversion Hr as [? Hexp E|? Hexp Hna E|? res ? Ha Hans E|]; subst.
    + right. split_and!; [done..|]. left. rewrite E. auto.
    + right. split_and!; [done..|]. left. rewrite E. auto.
    + left. split; [done|]. exists request. rewrite E. by split_and!.
Qed.

(** A fault of the callback is its missing [return], or the fault of the
    handler of an authorized request. *)
Lemma read_callback_Fault error bytes now1 now2 s fs f :
  handle_read_callback error bytes now1 now2 s fs = Fault f <->
  error = None /\ ((parser_put (buffer_ s ++ bytes) = PutMore /\ f = MissingReturn) \/
    exists request, parser_put (buffer_ s ++ bytes) = PutDone request /\
      authorized request now1 s /\ answer request s fs = Fault f).
Proof.
  pose proof (handle_read_callback_cases error bytes now1 now2 s fs) as Hc. split.
  - intros Heq. rewrite Heq in Hc. inversion Hc as [| | |? Hput|request o ? Hput Hr]; subst.
    + split; [done|]. by left.
    + inversion Hr; subst. split; [done|]. right. by exists request.
  - generalize dependent (handle_read_callback error bytes now1 now2 s fs). intros out Hc.
    intros (-> & Hcase). inversion Hc as [m ? Hm|m ? ? Hp|? ? Hp|? Hp|request' o ? Hp Hr E]; subst;
      try congruence; destruct Hcase as [[Hput ->]|(request & Hput & Ha & Hans)]; try congruence.
    assert (request' = request) as -> by congruence.
    inversion Hr as [s' Hx|s' ? Hna|s' res fs' ? Ha'|f' ? Ha']; subst;
      try (by destruct Ha); try (by destruct Hna);
      change (answer request (set_buffer (buffer_ s ++ bytes) s) fs)
        with (answer request s fs) in Ha'; congruence.
Qed.

(** The time of the last authentication moves to a time of the callback. *)
Lemma read_callback_time error bytes now1 now2 s fs r s' fs' :
  handle_read_callback error bytes now1 now2 s fs = Ok (r, s', fs') ->
  last_auth_time_ s' = last_auth_time_ s \/ last_auth_time_ s' = now1 \/ last_auth_time_ s' = now2.
Proof.
  intros Heq. pose proof (handle_read_callback_cases error bytes now1 now2 s fs) as Hc.
  rewrite Heq in Hc.
  inversion Hc as [m ? ? E|m ? ? ? E|? ? ? E| |request o ? ? Hr]; subst.
  4: inversion Hr as [? ? E|? ? ? E|? ? ? ? ? E|]; subst.
  all: rewrite E; auto.
Qed.

(** The invariant: one read at most, and one operation or response sent more
    than the number of late reads. *)
Definition conn_ok (c0 c : conn (F := F)) : Prop :=
  same_config (c_session c0) (c_session c) /\
  reads (socket_ (c_session c)) <= 1 /\
  reads (socket_ (c_session c)) + writes (socket_ (c_session c)) + length (c_sent c)
    <= 1 + c_late c.

Lemma conn_step_ok c0 c c' : conn_ok c0 c -> conn_step c c' -> conn_ok c0 c'.
Proof.
  intros (Hsame & Hr & Hrw) Hs. unfold conn_ok, same_config in *.
  destruct Hs as [error bytes now1 now2 c r s' fs' Hpos _ _ Heq|error c Hpos].
  - apply read_callback_effect in Heq as [Hsame' Heff]. unfold same_config in Hsame'.
    simpl in *. split; [destruct_and!; split_and!; congruence|].
    destruct (reads (socket_ (c_session c))) as [|[|]] eqn:Hreads; [lia| |lia].
    destruct Heff as [Hk|Hk|Hl Hk|? _ Hk]; rewrite Hk; simpl in *; rewrite ?Hreads; simpl;
      destruct (decide (expired now1 (c_session c))); try done; lia.
  - destruct error; simpl in *; (split; [done|]); rewrite ?length_app; simpl; lia.
Qed.

Lemma reachable_ok c0 c : conn_ok c0 c0 -> reachable c0 c -> conn_ok c0 c.
Proof.
  intros Hok. apply (rtc_ind_r (conn_ok c0) c0); [done|].
  intros c1 c2 _ Hs Hok1. by eapply conn_step_ok.
Qed.

Lemma initial_conn_ok d cr a now fs :
  conn_ok (initial_conn d cr a now fs) (initial_conn d cr a now fs).
Proof. unfold conn_ok, same_config. simpl. split_and!; auto. Qed.

(** A connection no request is authorized on: its files stay as they are and
    what it sends are refusals. *)
Definition unserved (fs : F) (c : conn (F := F)) : Prop :=
  c_fs c = fs /\ Forall refusal (c_sent c) /\
  (writes (socket_ (c_session c)) = 0 \/ refusal (response_ (c_session c))).

Lemma conn_step_unserved c0 fs c c' :
  (forall s request now, same_config (c_session c0) s -> (last_auth_time_ s <= now)%Z ->
    ~ authorized request now s) ->
  conn_ok c0 c -> unserved fs c -> conn_step c c' -> unserved fs c'.
Proof.
  intros Hnone (Hsame & _) (Hfs & Hsent & Hresp) Hs. unfold unserved in *.
  destruct Hs as [error bytes now1 now2 c r s' fs' Hpos _ Hnow Heq|error c Hpos].
  - apply read_callback_effect in Heq as [_ Heff]. simpl.
    destruct Heff as [Hk Hr|? ? ?|? ? ? ?|request Ha];
      [rewrite Hk, Hr; split_and!; try done; congruence
      |split_and!; [congruence|done|by right]|split_and!; [congruence|done|by right]|].
    exfalso. eapply (Hnone _ request now1); [exact Hsame| |exact Ha]. apply Hnow.
  - destruct error; simpl; (split_and!; [done| |]); try done.
    + destruct Hresp as [Hw|]; [left; by rewrite Hw|by right].
    + destruct Hresp as [Hw|Hr]; [lia|]. apply Forall_app. split; [done|by apply Forall_singleton].
    + destruct Hresp as [Hw|]; [left; by rewrite Hw|by right].
Qed.

Lemma reachable_unserved d cr a now fs c :
  (forall s request now', credentials_ s = cr -> auth_time_ s = a ->
    (last_auth_time_ s <= now')%Z -> ~ authorized request now' s) ->
  reachable (initial_conn d cr a now fs) c -> unserved fs c.
Proof.
  intros Hnone Hr.
  assert (conn_ok (initial_conn d cr a now fs) c /\ unserved fs c) as [_ Hu]; [|done].
  revert c Hr. apply (rtc_ind_r (fun c => conn_ok (initial_conn d cr a now fs) c /\ unserved fs c)
    (initial_conn d cr a now fs)).
  - split; [apply initial_conn_ok|]. split_and!; [done|constructor|by left].
  - intros c1 c2 _ Hs [Hok Hu]. split; [by eapply conn_step_ok|].
    eapply conn_step_unserved; [|done..].
    intros s request now' (Hc & _ & Ha). apply Hnone; [done|done].
Qed.

Lemma unserved_no_credentials d a now fs c :
  reachable (initial_conn d ∅ a now fs) c -> unserved fs c.
Proof.
  apply reachable_unserved.
  intros s request now' Hc _ _ [_ (h & _ & e & u & p & _ & _ & _ & Hl)]. by rewrite Hc in Hl.
Qed.

Lemma unserved_negative_time d cr a now fs c :
  (a < 0)%Z -> reachable (initial_conn d cr a now fs) c -> unserved fs c.
Proof.
  intros Hneg. apply reachable_unserved.
  intros s request now' _ Ha Hlast [Hexp _]. apply Hexp. unfold expired, seconds_between.
  rewrite Ha. pose proof (Z.quot_pos (now' - last_auth_time_ s) 1000000000). lia.
Qed.

(** An authorized request is served by the handler of the longest prefix. *)
Lemma read_callback_serves bytes now1 now2 s fs request h res fs' :
  parser_put (buffer_ s ++ bytes) = PutDone request -> authorized request now1 s ->
  longest_prefix (dispatcher_ s) (pop_trailing "/" (req_target request)) h ->
  handleRequest h request (response_ s) fs = Ok (res, fs') ->
  exists s', handle_read_callback None bytes now1 now2 s fs = Ok (0%Z, s', fs') /\
    response_ s' = res /\ socket_ s' = start_write (socket_ s) /\ last_auth_time_ s' = now2.
Proof.
  intros Hput Hauth Hh Hres. apply getRequestHandler_spec in Hh.
  assert (answer request (set_buffer (buffer_ s ++ bytes) s) fs = Ok (res, fs')) as Hans.
  { unfold answer, answer_with. simpl. by rewrite Hh. }
  pose proof (handle_read_callback_cases None bytes now1 now2 s fs) as Hc.
  generalize dependent (handle_read_callback None bytes now1 now2 s fs). intros out Hc.
  inversion Hc as [m ? Hm|m ? ? Hp|? ? Hp|? Hp|request' o ? Hp Hr]; try congruence.
  assert (request' = request) as -> by congruence.
  inversion Hr as [s' Hx|s' ? Hna|s' res' fs2 ? Ha E|f ? Ha]; subst; try congruence.
  - by destruct Hauth.
  - by destruct Hna.
  - exists s'. apply equiv_inv in E. simpl in E. destruct_and!. split_and!; congruence.
Qed.
End session_cases.

(** From two sessions equal up to their logs, the equalities of the fields. *)
Ltac erased E := apply equiv_inv in E; simpl in E; destruct_and!.

#[local] Arguments handle_read_callback : simpl never.

(** ** Results up to the log *)
Section results.
Context `{BeastHttp} `{LexicalCast} {F : Type} `{FileSystem F}.

Definition same_result (o1 o2 : outcome (Z * session * F)) : Prop :=
  match o1, o2 with
  | Ok (r1, s1, fs1), Ok (r2, s2, fs2) => r1 = r2 /\ s1 ≡ s2 /\ fs1 = fs2
  | Fault f1, Fault f2 => f1 = f2
  | _, _ => False
  end.

#[export] Instance same_result_equivalence : Equivalence same_result.
Proof.
  split.
  - by intros [[[]]|].
  - intros [[[]]|] [[[]]|]; simpl; try done. by intros (-> & -> & ->).
  - intros [[[]]|] [[[]]|] [[[]]|]; simpl; try done; [|congruence].
    intros (-> & -> & ->) (-> & -> & ->). done.
Qed.

(** The case analysis of [SessionCases.v] determines the result. *)
Lemma request_case_same request now1 now2 s1 s2 fs o1 o2 :
  s1 ≡ s2 -> request_case request now1 now2 s1 fs o1 -> request_case request now1 now2 s2 fs o2 ->
  same_result o1 o2.
Proof.
  intros Hs C C'.
  destruct C as [s1' He E1|s1' He Hn E1|s1' res1 fs1 Ha Hr1 E1|f1 Ha Hr1];
    destruct C' as [s2' He' E2|s2' He' Hn' E2|s2' res2 fs2 Ha' Hr2 E2|f2 Ha' Hr2];
    rewrite Hs in *; try (by destruct Ha); try (by destruct Ha'); try done; simpl;
    try (rewrite Hr1 in Hr2; simplify_eq);
    first [done | split_and!; try done; by rewrite E1, E2].
Qed.

Lemma read_case_same error bytes now1 now2 s1 s2 fs o1 o2 :
  s1 ≡ s2 -> read_case error bytes now1 now2 s1 fs o1 -> read_case error bytes now1 now2 s2 fs o2 ->
  same_result o1 o2.
Proof.
  intros Hs C C'. assert (buffer_ s1 = buffer_ s2) as Hb by (by rewrite Hs).
  destruct C as [m1 s1' -> E1|m1 s1' He P1 E1|s1' He P1 E1|He P1|req1 o1 He P1 R];
    destruct C' as [m2 s2' He' E2|m2 s2' He' P2 E2|s2' He' P2 E2|He' P2|req2 o2 He' P2 R'];
    try congruence; try rewrite Hb in *; try congruence;
    try done; try (simpl; split_and!; try done; by rewrite E1, E2, Hs).
  assert (req1 = req2) as <- by congruence.
  eapply request_case_same; [|exact R|exact R']. by rewrite Hs.
Qed.

#[export] Instance handle_read_callback_proper :
  Proper ((=) ==> (=) ==> (=) ==> (=) ==> (≡) ==> (=) ==> same_result) handle_read_callback.
Proof.
  intros e ? <- b ? <- n1 ? <- n2 ? <- s1 s2 Hs fs ? <-.
  eapply read_case_same; [done|apply handle_read_callback_cases..].
Qed.

(** A completed read adds its bytes to the buffer. *)
Lemma read_callback_buffer error bytes now1 now2 s fs r s' fs' :
  handle_read_callback error bytes now1 now2 s fs = Ok (r, s', fs') ->
  buffer_ s' = buffer_ s ++ (if error is None then bytes else []).
Proof.
  intros Heq. pose proof (handle_read_callback_cases error bytes now1 now2 s fs) as Hc.
  rewrite Heq in Hc.
  inversion Hc as [m ? ? E|m ? ? ? E|? ? ? E| |request o ? ? Hr]; subst.
  4: inversion Hr as [? ? E|? ? ? E|? ? ? ? ? E|]; subst.
  all: erased E; rewrite ?app_nil_r; congruence.
Qed.
End results.
