(* ===== verification/Server.v ===== *)
(** * The server ([src/server.h], [src/server.cc], [src/server_main.cc])

    The server listens on a port and keeps one [async_accept] in flight; each
    accepted connection is a session.  [main] reads the configuration file
    and starts the server.  Binding the port is the operating system's
    ([listen_on]: the message of the exception, if any); the event loop is the
    step relation [server_step], with [Session.conn_step] for each session. *)

From S2P Require Import Prelude Cxx Config Tokenizer Parser Logger Http Storage Api Dispatcher Session SessionCases.
Local Open Scope str_scope.

Section server.
Context `{BeastHttp} `{LexicalCast} {F : Type} `{FileSystem F}.

Record server : Type := Server {
  acceptor_port : Z;
  server_dispatcher_ : gmap str handler;
  server_credentials_ : gmap str str;
  server_auth_time_ : Z;
  accepting : list session;     (* sessions whose [async_accept] is in flight *)
  started : list session        (* sessions started by [handle_accept] *)
}.

(** [start_accept]; its argument is not used. *)
Definition start_accept (now : Z) (s : server) : server :=
  Server (acceptor_port s) (server_dispatcher_ s) (server_credentials_ s)
    (server_auth_time_ s)
    (accepting s ++ [new_session (server_dispatcher_ s) (server_credentials_ s)
      (server_auth_time_ s) now])
    (started s).

(** The completion of the accept of [new_session]. *)
Definition handle_accept (new_session : session) (error : option str) (now : Z) (s : server) :
    server :=
  let s :=
    match error with
    | None =>
        Server (acceptor_port s) (server_dispatcher_ s) (server_credentials_ s)
          (server_auth_time_ s) (accepting s) (started s ++ [start new_session])
    | Some _ => s
    end in
  start_accept now s.

(** The constructor.  [port] is a [short]; the endpoint takes an
    [unsigned short].  The inner option is the exception of the acceptor. *)
Definition new_server (listen_on : Z -> option str) (port : Z) (config : NginxConfig)
    (credentials : gmap str str) (auth_time : Z) (now : Z) :
    outcome (server * list log_record + str) :=
  match listen_on (to_ushort port) with
  | Some error_message => Ok (inr error_message)
  | None =>
      d ← RequestHandlerDispatcher config;
      Ok (inl (start_accept now
        (Server (to_ushort port) (handlers_ d) credentials auth_time [] []), init_log d))
  end.

(** The server when an accept has completed; [rest] are in flight still. *)
Definition accept_taken (rest : list session) (s : server) : server :=
  Server (acceptor_port s) (server_dispatcher_ s) (server_credentials_ s)
    (server_auth_time_ s) rest (started s).

Inductive server_step : server -> server -> Prop :=
  | accept_completes s sess rest error now :
      accepting s = sess :: rest ->
      server_step s (handle_accept sess error now (accept_taken rest s)).

(** ** [main] *)
Inductive main_result : Type :=
  | Exit (code : Z)
  | Running (s : server).

Record main_run : Type := MainRun { result : main_result; main_log : list log_record }.

(** [open_file] is the contents of a file that can be opened. *)
Definition main (argv : list str) (open_file : str -> option str)
    (listen_on : Z -> option str) (now : Z) : outcome main_run :=
  if bool_decide (length argv <> 2) then
    Ok (MainRun (Exit 1) [logErrorFile "Wrong usage port is needed"])
  else
    file_name ← vec_at argv 1;
    let l := [logTraceFile "Parsing config file ..."] in
    '(ok, config) ← parsed (Parse_file (open_file file_name));
    if negb ok then Ok (MainRun (Exit (-1)) (l ++ [logErrorFile "Unable to parse config file"]))
    else
      let l := l ++ [logTraceFile "Parsed!"; logTraceFile "Checking port ..."] in
      port ← get_config_port config;
      if bool_decide (port = -1)%Z then
        Ok (MainRun (Exit (-1)) (l ++ [logErrorFile "Invalid Port"]))
      else
        let l := l ++ [logTraceFile "Port Retrieved!"; logTraceFile "Checking auth time ..."] in
        t ← get_auth_time config;
        let auth_time := to_short t in
        if bool_decide (auth_time = -1)%Z then
          Ok (MainRun (Exit (-1)) (l ++ [logErrorFile "Invalid Auth Time"]))
        else
          let l := l ++ [logTraceFile "Auth Time Retrieved!"] in
          credentials ← get_credentials config;
          s ← new_server listen_on (to_short port) config credentials auth_time now;
          match s with
          | inr error_message =>
              Ok (MainRun (Exit 0) (l ++ [logErrorFile ("Exception: " ++ error_message)]))
          | inl (s, dispatcher_log) =>
              Ok (MainRun (Running s) (l ++ dispatcher_log ++ [logServerInitialization;
                logTraceFile ("Starting server on port " ++ to_string port);
                logTraceFile ("Authorization timeout: " ++ to_string auth_time ++ " seconds")]))
          end.

(** The handler of SIGINT: a record and the exit code. *)
Definition signalHandler (signal : Z) : list log_record * Z := ([logSig], 1%Z).

(** ** Lemmas *)

(** A session made with the server's dispatcher, credentials and time. *)
Definition configured (s : server) (sess : session) : Prop :=
  dispatcher_ sess = server_dispatcher_ s /\ credentials_ sess = server_credentials_ s /\
  auth_time_ sess = server_auth_time_ s.

Definition same_server (s s' : server) : Prop :=
  acceptor_port s' = acceptor_port s /\ server_dispatcher_ s' = server_dispatcher_ s /\
  server_credentials_ s' = server_credentials_ s /\ server_auth_time_ s' = server_auth_time_ s.

(** One accept in flight; the started sessions read, and wait for nothing else. *)
Definition server_ok (s : server) : Prop :=
  (exists sess, accepting s = [sess] /\ configured s sess /\ socket_ sess = Socket 0 0 true) /\
  Forall (fun sess => configured s sess /\ socket_ sess = Socket 1 0 true) (started s).

Lemma start_accept_ok now s :
  accepting s = [] ->
  Forall (fun sess => configured s sess /\ socket_ sess = Socket 1 0 true) (started s) ->
  server_ok (start_accept now s) /\ same_server s (start_accept now s).
Proof.
  intros Ha Hs. unfold server_ok, start_accept, same_server, configured in *. simpl. rewrite Ha.
  split_and!; [eexists; split; [done|by split_and!]|done..].
Qed.

Lemma server_step_ok s s' :
  server_ok s -> server_step s s' ->
  server_ok s' /\ same_server s s' /\
  (started s' = started s \/ exists sess, started s' = started s ++ [sess]).
Proof.
  intros [(sess & Ha & Hc & Hsock) Hstarted] Hs. destruct Hs as [s sess' rest error now Hacc].
  rewrite Ha in Hacc. injection Hacc as <- <-. unfold handle_accept.
  destruct error as [m|]; (split; [|split]).
  - by apply start_accept_ok.
  - done.
  - by left.
  - apply start_accept_ok; [done|]. simpl. apply Forall_app. split; [done|].
    apply Forall_singleton. unfold configured in *. simpl. rewrite Hsock. done.
  - done.
  - right. by eexists.
Qed.

Lemma main_Running argv open_file listen_on now s l :
  main argv open_file listen_on now = Ok (MainRun (Running s) l) ->
  exists file_name program text config port t credentials d,
    argv = [program; file_name] /\ open_file file_name = Some text /\
    parsed (Parse (stream_of text)) = Ok (true, config) /\
    get_config_port config = Ok port /\ port <> (-1)%Z /\
    get_auth_time config = Ok t /\ to_short t <> (-1)%Z /\
    get_credentials config = Ok credentials /\
    RequestHandlerDispatcher config = Ok d /\
    listen_on (to_ushort (to_short port)) = None /\
    s = start_accept now (Server (to_ushort (to_short port)) (handlers_ d) credentials
      (to_short t) [] []).
Proof.
  unfold main. case_bool_decide as Hargv; [done|].
  destruct argv as [|program [|file_name [|]]]; simpl in Hargv; try lia. simpl.
  destruct (open_file file_name) as [text|] eqn:Ho; [|done]. simpl.
  destruct (parsed (Parse (stream_of text))) as [[[] config]|] eqn:Hp; simpl; [|done..].
  destruct (get_config_port config) as [port|] eqn:Hport; simpl; [|done].
  case_bool_decide; [done|].
  destruct (get_auth_time config) as [t|] eqn:Ht; simpl; [|done].
  case_bool_decide; [done|].
  destruct (get_credentials config) as [cr|] eqn:Hcr; simpl; [|done].
  unfold new_server. destruct (listen_on _) eqn:Hl; simpl; [done|].
  destruct (RequestHandlerDispatcher config) as [d|] eqn:Hd; simpl; [|done].
  intros [= <- <-]. eexists file_name, program, text, config, port, t, cr, d.
  split_and!; done.
Qed.
End server.
