(* ===== verification/World.v ===== *)
(** * The running server

    [main] leaves the event loop to run the completions of the operations in
    flight: the accept of the server, and the reads and writes of every
    connection.  All handlers share the file system, and all callbacks run on
    one thread.  [world] is the state of the whole: the server object, its
    connections, the file system, the clock, and the clients that are still
    to connect; [world_step] runs one callback.

    What a client sends is a list of pieces, each read by one completion; a
    read may complete with an error instead, a write too, and an accept.  A
    fault of a handler ends the program, and so does SIGINT ([w_down]).
    [w_log] is what the program has logged since the event loop started.
    [w_history] records the requests that reached the dispatcher, in order;
    the program does not keep it. *)

From S2P Require Import Prelude Cxx Config Logger Base64 Http Storage Handlers Api Dispatcher Faults Session SessionCases Server.
Local Open Scope str_scope.

Section world.
Context `{BeastHttp} `{LexicalCast} {F : Type} `{FileSystem F}.

(** A connection: its session, what its client sends from now on, the
    responses sent, and the number of late reads. *)
Record link : Type := Link {
  l_session : session;
  l_input : list str;
  l_sent : list Response;
  l_late : nat
}.

(** A request that a handler answered: the connection, the request, and the
    response object before and after. *)
Record served : Type := Served {
  sv_link : nat;
  sv_request : Request;
  sv_before : Response;
  sv_after : Response
}.

(** How the program has ended: a fault of a handler, or [exit]. *)
Inductive ending : Type := Crashed (f : fault) | Exited (code : Z).

#[export] Instance ending_eq_dec : EqDecision ending.
Proof. solve_decision. Defined.

Record world : Type := World {
  w_server : server;
  w_links : list link;
  w_fs : F;
  w_now : Z;
  w_clients : list (list str);
  w_log : list log_record;
  w_history : list served;
  w_down : option ending
}.

(** ** Completions *)

(** The next piece of the client, or an error. *)
Inductive arrives : option str -> str -> list str -> list str -> Prop :=
  | piece_arrives bytes input : 0 < length bytes <= 4096 -> arrives None bytes (bytes :: input) input
  | read_fails error_message input : arrives (Some error_message) [] input input.

(** The entry of the history for a callback that returned [r]. *)
Definition history_entry (i : nat) (r : Z) (s : session) (bytes : str) (s' : session) :
    list served :=
  match r, parser_put (buffer_ s ++ bytes) with
  | 0%Z, PutDone request => [Served i request (response_ s) (response_ s')]
  | _, _ => []
  end.

Definition late_reads (now : Z) (l : link) : nat :=
  if decide (expired now (l_session l)) then S (l_late l) else l_late l.

(** What a callback has logged. *)
Definition new_records (s s' : session) : list log_record :=
  drop (length (session_log s)) (session_log s').

(** What the callback had logged when it failed. *)
Definition crash_records (s : session) (bytes : str) : list log_record :=
  match parser_put (buffer_ s ++ bytes) with
  | PutDone request => [logTraceHTTPrequest request; header_record request]
  | PutMore => [logDebugFile "Waiting for data from client"]
  | _ => []
  end.

(** The sessions that the handler of an accept has started. *)
Definition newly_started (s s' : server) : list session := drop (length (started s)) (started s').

(** The connections with them, each with the client that connected. *)
Definition accept_links (client : list str) (s s' : server) (ls : list link) : list link :=
  ls ++ map (fun sess => Link sess client [] 0) (newly_started s s').

Definition accept_records (sess : session) (s s' : server) : list log_record :=
  concat (map (new_records sess) (newly_started s s')).

(** ** The event loop

    A SIGINT is handled between two callbacks. *)
Inductive world_step : world -> world -> Prop :=
  | world_accept w client clients sess rest error now :
      w_down w = None -> w_clients w = client :: clients ->
      accepting (w_server w) = sess :: rest -> (w_now w <= now)%Z ->
      world_step w (World (handle_accept sess error now (accept_taken rest (w_server w)))
        (accept_links client (w_server w)
          (handle_accept sess error now (accept_taken rest (w_server w))) (w_links w))
        (w_fs w) now clients
        (w_log w ++ accept_records sess (w_server w)
          (handle_accept sess error now (accept_taken rest (w_server w))))
        (w_history w) None)
  | world_read w i l error bytes input now1 now2 r s' fs' :
      w_down w = None -> w_links w !! i = Some l -> 0 < reads (socket_ (l_session l)) ->
      arrives error bytes (l_input l) input -> (w_now w <= now1 <= now2)%Z ->
      handle_read_callback error bytes now1 now2 (finish_read (l_session l)) (w_fs w)
        = Ok (r, s', fs') ->
      world_step w (World (w_server w)
        (<[i := Link s' input (l_sent l) (late_reads now1 l)]> (w_links w)) fs' now2
        (w_clients w) (w_log w ++ new_records (l_session l) s')
        (w_history w ++ history_entry i r (l_session l) bytes s') None)
  | world_crash w i l error bytes input now1 now2 f :
      w_down w = None -> w_links w !! i = Some l -> 0 < reads (socket_ (l_session l)) ->
      arrives error bytes (l_input l) input -> (w_now w <= now1 <= now2)%Z ->
      handle_read_callback error bytes now1 now2 (finish_read (l_session l)) (w_fs w) = Fault f ->
      world_step w (World (w_server w) (w_links w) (w_fs w) now2 (w_clients w)
        (w_log w ++ crash_records (l_session l) bytes) (w_history w) (Some (Crashed f)))
  | world_write w i l error :
      w_down w = None -> w_links w !! i = Some l -> 0 < writes (socket_ (l_session l)) ->
      world_step w (World (w_server w)
        (<[i := Link (handle_write_callback error (finish_write (l_session l))).2 (l_input l)
           (match error with
            | None => l_sent l ++ [response_ (l_session l)]
            | Some _ => l_sent l
            end) (l_late l)]> (w_links w)) (w_fs w) (w_now w) (w_clients w)
        (w_log w ++ new_records (l_session l)
          (handle_write_callback error (finish_write (l_session l))).2) (w_history w) None)
  | world_signal w signal :
      w_down w = None ->
      world_step w (World (w_server w) (w_links w) (w_fs w) (w_now w) (w_clients w)
        (w_log w ++ (signalHandler signal).1) (w_history w)
        (Some (Exited (signalHandler signal).2))).

(** The server has been constructed and the clients are to come. *)
Definition initial_world (s : server) (fs : F) (now : Z) (clients : list (list str)) : world :=
  World s [] fs now clients [] [] None.

(** ** The abstract server

    A table of handlers and a table of credentials: a request with the header
    of a user is answered by the handler of its target, one request at a
    time, on the file system that the previous one left. *)
Definition credentialed (cr : gmap str str) (request : Request) : Prop :=
  exists h, req_find field_authorization request = Some h /\ valid_header cr h.

Inductive serial (d : gmap str handler) (cr : gmap str str) : F -> list served -> F -> Prop :=
  | serial_nil fs : serial d cr fs [] fs
  | serial_snoc fs es fs1 e fs2 :
      serial d cr fs es fs1 -> credentialed cr (sv_request e) ->
      answer_with d (sv_request e) (sv_before e) fs1 = Ok (sv_after e, fs2) ->
      serial d cr fs (es ++ [e]) fs2.

(** ** Lemmas: the accepts *)
Lemma newly_started_accept sess error now rest s :
  newly_started s (handle_accept sess error now (accept_taken rest s)) =
  match error with None => [start sess] | Some _ => [] end.
Proof.
  unfold newly_started, handle_accept. destruct error; simpl; [by rewrite drop_all|].
  by rewrite drop_app_length.
Qed.

Lemma accept_links_eq client sess error now rest s ls :
  accept_links client s (handle_accept sess error now (accept_taken rest s)) ls =
  match error with None => ls ++ [Link (start sess) client [] 0] | Some _ => ls end.
Proof.
  unfold accept_links. rewrite newly_started_accept. destruct error; simpl; by rewrite ?app_nil_r.
Qed.

Lemma accept_records_eq sess error now rest s :
  accept_records sess s (handle_accept sess error now (accept_taken rest s)) =
  match error with None => new_records sess (start sess) | Some _ => [] end.
Proof.
  unfold accept_records. rewrite newly_started_accept. destruct error; simpl; by rewrite ?app_nil_r.
Qed.

(** ** Lemmas: the connections *)

(** A connection of the world, as the connection of [Session.v]. *)
Definition link_conn (fs : F) (l : link) : conn := Conn (l_session l) fs (l_sent l) (l_late l).

Definition link_ok (s0 : server) (now : Z) (l : link) : Prop :=
  configured s0 (l_session l) /\ (last_auth_time_ (l_session l) <= now)%Z /\
  reads (socket_ (l_session l)) <= 1 /\
  reads (socket_ (l_session l)) + writes (socket_ (l_session l)) + length (l_sent l)
    <= 1 + l_late l.

Lemma arrives_transferred error bytes input input' :
  arrives error bytes input input' -> transferred error bytes.
Proof. unfold transferred. by destruct 1. Qed.

(** A completed read of a connection of the world is a step of that connection. *)
Lemma world_read_conn_step l input fs error bytes now1 now2 r s' fs' :
  0 < reads (socket_ (l_session l)) -> transferred error bytes ->
  (last_auth_time_ (l_session l) <= now1 <= now2)%Z ->
  handle_read_callback error bytes now1 now2 (finish_read (l_session l)) fs = Ok (r, s', fs') ->
  conn_step (link_conn fs l) (link_conn fs' (Link s' input (l_sent l) (late_reads now1 l))).
Proof. intros. by eapply (read_completes error bytes now1 now2 (link_conn fs l)). Qed.

Lemma world_write_conn_step l fs error :
  0 < writes (socket_ (l_session l)) ->
  conn_step (link_conn fs l) (link_conn fs
    (Link (handle_write_callback error (finish_write (l_session l))).2 (l_input l)
      (match error with
       | None => l_sent l ++ [response_ (l_session l)]
       | Some _ => l_sent l
       end) (l_late l))).
Proof. intros. by apply (write_completes error (link_conn fs l)). Qed.

Lemma link_ok_conn_ok s0 now l fs :
  link_ok s0 now l <-> (last_auth_time_ (l_session l) <= now)%Z /\
  conn_ok (initial_conn (server_dispatcher_ s0) (server_credentials_ s0) (server_auth_time_ s0)
    now fs) (link_conn fs l).
Proof. unfold link_ok, conn_ok, configured, same_config. split; intros; destruct_and!; by split_and!. Qed.

Lemma link_ok_step s0 now now' l l' fs fs' :
  link_ok s0 now l -> conn_step (link_conn fs l) (link_conn fs' l') ->
  (last_auth_time_ (l_session l') <= now')%Z -> link_ok s0 now' l'.
Proof.
  rewrite !(link_ok_conn_ok s0 _ _ fs). intros [_ Hok] Hs Ht. split; [done|].
  by apply (conn_step_ok _ _ _ Hok) in Hs.
Qed.

Lemma link_ok_mono s0 now now' l : (now <= now')%Z -> link_ok s0 now l -> link_ok s0 now' l.
Proof. unfold link_ok. intros Hn (? & ? & ? & ?). split_and!; try done. lia. Qed.

Lemma links_ok_mono s0 now now' ls :
  (now <= now')%Z -> Forall (link_ok s0 now) ls -> Forall (link_ok s0 now') ls.
Proof. intros Hn Hls. eapply Forall_impl; [exact Hls|]. intros l. by apply link_ok_mono. Qed.

(** ** Lemmas: the invariant of the world *)
Definition world_ok (s0 : server) (w : world) : Prop :=
  server_ok (w_server w) /\ same_server s0 (w_server w) /\
  Forall (fun sess => last_auth_time_ sess <= w_now w)%Z (accepting (w_server w)) /\
  Forall (link_ok s0 (w_now w)) (w_links w) /\
  length (w_links w) = length (started (w_server w)).

Lemma handle_accept_ok s0 now now' error sess rest s :
  server_ok s -> same_server s0 s -> accepting s = sess :: rest ->
  Forall (fun sess => last_auth_time_ sess <= now)%Z (accepting s) -> (now <= now')%Z ->
  let s' := handle_accept sess error now' (accept_taken rest s) in
  server_ok s' /\ same_server s0 s' /\
  Forall (fun sess => last_auth_time_ sess <= now')%Z (accepting s') /\
  link_ok s0 now' (Link (start sess) [] [] 0) /\
  length (started s') = length (started s) + (if error is None then 1 else 0).
Proof.
  intros Hok Hsame Hacc Ht Hn s'.
  destruct (server_step_ok s s' Hok) as (Hok' & Hsame' & _); [by econstructor|].
  destruct Hok as [(sess' & Ha & (Hd & Hc & Hau) & Hk) _]. rewrite Hacc in Ha, Ht. injection Ha as -> ->.
  rewrite Forall_singleton in Ht. unfold same_server, configured in *.
  destruct_and!. split_and!; [done|congruence..| | |].
  - unfold s', handle_accept. destruct error; simpl; apply Forall_singleton; simpl; lia.
  - unfold link_ok. split_and!; simpl; try (rewrite Hk; simpl; lia); [|lia].
    unfold configured. simpl. split_and!; congruence.
  - unfold s', handle_accept. destruct error; simpl; rewrite ?length_app; simpl; lia.
Qed.

Lemma world_step_ok s0 w w' : world_ok s0 w -> world_step w w' -> world_ok s0 w'.
Proof.
  intros (Hok & Hsame & Ht & Hl & Hlen) Hs.
  assert (forall now i l l' fs fs', (w_now w <= now)%Z -> w_links w !! i = Some l ->
    conn_step (link_conn fs l) (link_conn fs' l') -> (last_auth_time_ (l_session l') <= now)%Z ->
    Forall (link_ok s0 now) (<[i := l']> (w_links w)) /\
    length (<[i := l']> (w_links w)) = length (started (w_server w))) as Hupd.
  { intros now i l l' fs fs' Hn Hi Hstep Htime. rewrite length_insert. split; [|done].
    apply Forall_insert; [by apply (links_ok_mono s0 (w_now w))|].
    eapply link_ok_step; [exact (Forall_lookup_1 _ _ _ _ Hl Hi)|done|done]. }
  destruct Hs as [w client clients sess rest error now _ _ Hacc Hn
    |w i l error bytes input now1 now2 r s' fs' _ Hi Hr Ha Hn Heq
    |w i l error bytes input now1 now2 f _ Hi Hr Ha Hn Heq|w i l error _ Hi Hw|w signal _].
  - destruct (handle_accept_ok s0 (w_now w) now error sess rest (w_server w)) as
      (Hok' & Hsame' & Ht' & Hlink & Hlen'); [done..|].
    assert (Forall (link_ok s0 now) (w_links w)) as Hl'
      by (by apply (links_ok_mono s0 (w_now w))).
    rewrite accept_links_eq. unfold world_ok. simpl. split_and!; [done..| |]; destruct error; simpl;
      rewrite ?length_app; simpl; try done; try lia.
    apply Forall_app. split; [done|]. by apply Forall_singleton.
  - assert (last_auth_time_ (l_session l) <= w_now w)%Z as Hlast
      by apply (Forall_lookup_1 _ _ _ _ Hl Hi).
    assert (last_auth_time_ s' <= now2)%Z as Hlast'.
    { apply read_callback_time in Heq. simpl in Heq. lia. }
    destruct (Hupd now2 i l (Link s' input (l_sent l) (late_reads now1 l)) (w_fs w) fs')
      as [? ?]; [lia|done| |done|].
    { apply (world_read_conn_step l input (w_fs w) error bytes now1 now2 r s' fs');
        [done|by eapply arrives_transferred|lia|done]. }
    unfold world_ok. simpl. split_and!; try done.
    eapply Forall_impl; [exact Ht|]. intros sess. simpl. lia.
  - unfold world_ok. simpl. split_and!; try done.
    + eapply Forall_impl; [exact Ht|]. intros sess. simpl. lia.
    + apply (links_ok_mono s0 (w_now w)); [lia|done].
  - assert (last_auth_time_ (l_session l) <= w_now w)%Z as Hlast
      by apply (Forall_lookup_1 _ _ _ _ Hl Hi).
    edestruct (Hupd (w_now w) i l) as [? ?];
      [lia|done|by apply (world_write_conn_step l (w_fs w) error)|by destruct error|].
    unfold world_ok. simpl. by split_and!.
  - by unfold world_ok.
Qed.

Lemma initial_world_ok s fs now clients :
  server_ok s -> started s = [] ->
  Forall (fun sess => last_auth_time_ sess <= now)%Z (accepting s) ->
  world_ok s (initial_world s fs now clients).
Proof.
  intros Hok Hs Ht. unfold world_ok, same_server. simpl. rewrite Hs. split_and!; try done.
Qed.

(** ** Lemmas: what was answered *)

(** A response that a handler made for connection [i]. *)
Definition answered (es : list served) (i : nat) (res : Response) : Prop :=
  exists e, e ∈ es /\ sv_link e = i /\ sv_after e = res.

Definition accounted (es : list served) (i : nat) (l : link) : Prop :=
  Forall (fun res => refusal res \/ answered es i res) (l_sent l) /\
  (writes (socket_ (l_session l)) = 0 \/ refusal (response_ (l_session l)) \/
   answered es i (response_ (l_session l))).

Lemma answered_app es es' i res : answered es i res -> answered (es ++ es') i res.
Proof. intros (e & He & ? & ?). exists e. split; [|done]. apply elem_of_app. by left. Qed.

Lemma accounted_app es es' i l : accounted es i l -> accounted (es ++ es') i l.
Proof.
  intros [Hs Hr]. split.
  - eapply Forall_impl; [done|]. intros res [?|?]; [by left|right]. by apply answered_app.
  - destruct Hr as [?|[?|?]]; [by left|by right; left|right; right]. by apply answered_app.
Qed.

(** A completed read extends the history by what it answered. *)
Lemma history_entry_served i r (s : session) bytes s' fs fs' error now1 now2 :
  handle_read_callback error bytes now1 now2 (finish_read s) fs = Ok (r, s', fs') ->
  (history_entry i r s bytes s' = [] /\ fs' = fs /\ (refusal (response_ s') \/
    (response_ s' = response_ s /\ writes (socket_ s') = writes (socket_ s)))) \/
  exists request, history_entry i r s bytes s' = [Served i request (response_ s) (response_ s')] /\
    authorized request now1 s /\
    answer_with (dispatcher_ s) request (response_ s) fs = Ok (response_ s', fs').
Proof.
  intros [(-> & request & Hput & Ha & Hans)|(Hr & ? & ?)]%read_callback_served.
  - right. exists request. unfold history_entry. simpl in Hput. by rewrite Hput.
  - left. split_and!; [|done..]. unfold history_entry. destruct r; try done.
Qed.

Definition world_history_ok (s0 : server) (fs0 : F) (w : world) : Prop :=
  serial (server_dispatcher_ s0) (server_credentials_ s0) fs0 (w_history w) (w_fs w) /\
  forall i l, w_links w !! i = Some l -> accounted (w_history w) i l.

Lemma world_step_history s0 fs0 w w' :
  world_ok s0 w -> world_history_ok s0 fs0 w -> world_step w w' -> world_history_ok s0 fs0 w'.
Proof.
  intros (Hok & _ & _ & Hl & _) [Hser Hacc] Hs. unfold world_history_ok.
  destruct Hs as [w client clients sess rest error now _ _ Hsess Hn
    |w i l error bytes input now1 now2 r s' fs' _ Hi Hr Ha Hn Heq
    |w i l error bytes input now1 now2 f _ Hi Hr Ha Hn Heq|w i l error _ Hi Hw|w signal _];
    rewrite ?accept_links_eq; simpl.
  - split; [done|]. intros i l Hi. destruct error; [by apply Hacc|].
    apply lookup_snoc_Some in Hi as [[_ Hi]|[_ <-]]; [by apply Hacc|]. split; [constructor|].
    left. simpl. destruct Hok as [(sess' & Hs & _ & Hk) _]. rewrite Hsess in Hs.
    injection Hs as -> _. by rewrite Hk.
  - destruct (Forall_lookup_1 _ _ _ _ Hl Hi) as ((Hd & Hc & _) & _).
    assert (forall es, accounted (w_history w ++ es) i (Link s' input (l_sent l) (late_reads now1 l)) ->
      forall j l', <[i := Link s' input (l_sent l) (late_reads now1 l)]> (w_links w) !! j = Some l' ->
      accounted (w_history w ++ es) j l') as Hlinks.
    { intros es Hnew j l' Hj. apply list_lookup_insert_Some in Hj as [(<- & <- & _)|[_ Hj]]; [done|].
      by apply accounted_app, Hacc. }
    destruct (Hacc _ _ Hi) as [Hsent Hresp].
    destruct (history_entry_served i _ _ _ _ _ _ _ _ _ Heq)
      as [(Hh & -> & Hres)|(request & Hh & [_ Hcred] & Hans)]; rewrite Hh in *.
    + split; [by rewrite app_nil_r|]. apply Hlinks. rewrite app_nil_r. split; [done|]. simpl.
      destruct Hres as [?|[-> ->]]; [by right; left|done].
    + split.
      * apply serial_snoc with (w_fs w); [done|unfold credentialed; by rewrite <- Hc|].
        simpl. by rewrite <- Hd.
      * apply Hlinks. split; [exact (proj1 (accounted_app _ _ _ _ (conj Hsent Hresp)))|]. do 2 right.
        eexists. split; [apply elem_of_app; right; by apply list_elem_of_singleton|done].
  - done.
  - split; [done|]. intros j l' Hj. apply list_lookup_insert_Some in Hj as [(<- & <- & _)|[_ Hj]].
    2: by apply Hacc.
    destruct (Hacc _ _ Hi) as [Hsent [?|Hresp]]; [lia|]. split.
    + simpl. destruct error; [done|]. apply Forall_app. split; [done|]. by apply Forall_singleton.
    + right. by destruct error.
  - done.
Qed.

Lemma world_reachable_ok s fs now clients w :
  server_ok s -> started s = [] ->
  Forall (fun sess => last_auth_time_ sess <= now)%Z (accepting s) ->
  rtc world_step (initial_world s fs now clients) w ->
  world_ok s w /\ world_history_ok s fs w.
Proof.
  intros Hok Hs Ht. apply (rtc_invariant world_step (fun w => world_ok s w /\ world_history_ok s fs w)).
  - intros w1 w2 [H1' H2'] Hstep. split; [by eapply world_step_ok|by eapply world_step_history].
  - split; [by apply initial_world_ok|]. split; [constructor|done].
Qed.
End world.
