(* ===== verification/Endings.v ===== *)
(** * How the running server ends

    What can end the program; servers that serve nobody; and the measure by
    which the event loop comes to rest. *)

From S2P Require Import Prelude Cxx Config Logger Base64 Http Storage Handlers Api Dispatcher Faults Session SessionCases Server World.
Local Open Scope str_scope.

Section endings.
Context `{BeastHttp} `{LexicalCast} {F : Type} `{FileSystem F}.

(** ** Lemmas: the end of the program *)

(** The program has crashed in the callback of a read of some connection:
    its client sent a message that the parser calls incomplete, or a request
    with the header of a user whose handler failed on the present files.
    [exit] is that of SIGINT. *)
Definition down_ok (s0 : server) (w : world (F := F)) : Prop :=
  forall e, w_down w = Some e ->
    match e with
    | Crashed f => exists i l bytes input,
        w_links w !! i = Some l /\ l_input l = bytes :: input /\
        ((parser_put (buffer_ (l_session l) ++ bytes) = PutMore /\ f = MissingReturn) \/
         exists request, parser_put (buffer_ (l_session l) ++ bytes) = PutDone request /\
           credentialed (server_credentials_ s0) request /\
           answer_with (server_dispatcher_ s0) request (response_ (l_session l)) (w_fs w) = Fault f)
    | Exited code => code = 1%Z /\ last (w_log w) = Some logSig
    end.

Lemma world_step_down s0 (w w' : world (F := F)) : world_ok s0 w -> world_step w w' -> down_ok s0 w'.
Proof.
  intros (_ & _ & _ & Hl & _) Hs e He.
  destruct Hs as [| |w i l error bytes input now1 now2 f' _ Hi _ Har _ Heq| |w signal _];
    simplify_eq/=; [|by rewrite last_snoc].
  destruct (Forall_lookup_1 _ _ _ _ Hl Hi) as ((Hd & Hc & _) & _).
  apply read_callback_Fault in Heq as (-> & Hcase). inversion Har; subst.
  exists i, l, bytes, input. split_and!; [done|done|].
  destruct Hcase as [?|(request & Hput & [_ Hcred] & Hans)]; [by left|right]. exists request.
  unfold credentialed, answer in *. simpl in *. rewrite <- Hd, <- Hc. done.
Qed.

Lemma reachable_down_ok s fs now clients w :
  server_ok s -> started s = [] ->
  Forall (fun sess => last_auth_time_ sess <= now)%Z (accepting s) ->
  rtc world_step (initial_world s fs now clients) w -> down_ok s w.
Proof.
  intros Hok Hs Ht Hr.
  destruct (rtc_invariant world_step (fun w => world_ok s w /\ down_ok s w)
    (initial_world s fs now clients) w) as [_ Hd]; [| |done|done].
  - intros w1 w2 [H1' _] Hstep. split; [by eapply world_step_ok|by eapply world_step_down].
  - split; [by apply initial_world_ok|done].
Qed.

(** ** Lemmas: servers that serve nobody *)

(** No request is authorized on a session of the server, at any time. *)
Definition unservable (s0 : server) : Prop :=
  forall request now sess, configured s0 sess -> (last_auth_time_ sess <= now)%Z ->
    ~ authorized request now sess.

Definition unserved_world (fs : F) (w : world (F := F)) : Prop :=
  w_fs w = fs /\ w_history w = [] /\ forall f, w_down w = Some (Crashed f) -> f = MissingReturn.

Lemma unservable_step s0 fs (w w' : world (F := F)) :
  unservable s0 -> world_ok s0 w -> unserved_world fs w -> world_step w w' -> unserved_world fs w'.
Proof.
  intros Hno (_ & _ & _ & Hl & _) (Hfs & Hh & Hd) Hs. unfold unserved_world.
  destruct Hs as [|w i l error bytes input now1 now2 r s' fs' _ Hi Hr Ha Hn Heq
    |w i l error bytes input now1 now2 f _ Hi Hr Ha Hn Heq| |]; simpl; try done;
    destruct (Forall_lookup_1 _ _ _ _ Hl Hi) as (Hconf & Htime & _).
  - destruct (history_entry_served i _ _ _ _ _ _ _ _ _ Heq)
      as [(-> & -> & _)|(request & _ & Hauth & _)]; [by rewrite app_nil_r|].
    exfalso. eapply Hno; [exact Hconf| |exact Hauth]. lia.
  - split_and!; [done..|]. intros f' [= <-].
    apply read_callback_Fault in Heq as (_ & [[_ ?]|(request & _ & Hauth & _)]); [done|].
    exfalso. eapply (Hno request now1 (l_session l)); [exact Hconf|lia|exact Hauth].
Qed.

Lemma unservable_world s fs now clients w :
  server_ok s -> started s = [] ->
  Forall (fun sess => last_auth_time_ sess <= now)%Z (accepting s) -> unservable s ->
  rtc world_step (initial_world s fs now clients) w ->
  unserved_world fs w /\ forall i l, w_links w !! i = Some l -> Forall refusal (l_sent l).
Proof.
  intros Hok Hs Ht Hno Hr.
  assert (unserved_world fs w) as Hu.
  { apply (rtc_invariant world_step (fun w => world_ok s w /\ unserved_world fs w)
      (initial_world s fs now clients) w); [| |done].
    - intros w1 w2 [H1' H2'] Hstep. split; [by eapply world_step_ok|by eapply unservable_step].
    - split; [by apply initial_world_ok|done]. }
  split; [done|]. intros i l Hi.
  destruct (world_reachable_ok s fs now clients w) as (_ & _ & Hacc); [done..|].
  destruct (Hacc i l Hi) as [Hsent _]. destruct Hu as (_ & Hh & _). rewrite Hh in Hsent.
  eapply Forall_impl; [exact Hsent|]. intros res [?|(e & He & _)]; [done|]. by apply elem_of_nil in He.
Qed.

Lemma no_credentials_unservable s : server_credentials_ s = ∅ -> unservable s.
Proof.
  intros Hcr request now sess (_ & Hc & _) _ [_ (h & _ & e & u & p & _ & _ & _ & Hl)].
  by rewrite Hc, Hcr, lookup_empty in Hl.
Qed.

Lemma negative_time_unservable s : (server_auth_time_ s < 0)%Z -> unservable s.
Proof.
  intros Hneg request now sess (_ & _ & Ha) Ht [Hexp _]. apply Hexp. unfold expired, seconds_between.
  rewrite Ha. pose proof (Z.quot_pos (now - last_auth_time_ sess) 1000000000). lia.
Qed.

(** What the constructor of the server leaves. *)
Lemma new_server_ok listen_on port config credentials auth_time now s l :
  new_server listen_on port config credentials auth_time now = Ok (inl (s, l)) ->
  server_ok s /\ started s = [] /\
  Forall (fun sess => last_auth_time_ sess <= now)%Z (accepting s) /\
  server_credentials_ s = credentials /\ server_auth_time_ s = auth_time /\
  exists d, RequestHandlerDispatcher config = Ok d /\ server_dispatcher_ s = handlers_ d.
Proof.
  unfold new_server. destruct (listen_on _); [done|].
  destruct (RequestHandlerDispatcher config) as [d|]; [|done]. intros [= <- _].
  split_and!; try done.
  - by apply start_accept_ok.
  - apply Forall_singleton. simpl. lia.
  - by exists d.
Qed.

(** ** Lemmas: the event loop comes to rest *)

(** The steps that are left: at most three per piece a client still sends
    (its read, the read and the write that start then), and the operations in
    flight. *)
Definition link_weight (l : link) : nat :=
  3 * length (l_input l) + reads (socket_ (l_session l)) + writes (socket_ (l_session l)).

Definition client_weight (client : list str) : nat := 3 * length client + 2.

Definition world_weight (w : world (F := F)) : nat :=
  sum_list_with link_weight (w_links w) + sum_list_with client_weight (w_clients w) +
  (if w_down w is None then 1 else 0).

Lemma read_effect_weight s fs now1 s' fs' :
  read_effect s fs now1 s' fs' ->
  reads (socket_ s') + writes (socket_ s') <= reads (socket_ s) + writes (socket_ s) + 2.
Proof. destruct 1 as [Hk|Hk|? Hk|? ? Hk]; rewrite Hk; simpl; lia. Qed.

Lemma read_error_weight m bytes now1 now2 (s : session) fs r s' fs' :
  handle_read_callback (Some m) bytes now1 now2 s fs = Ok (r, s', fs') -> socket_ s' = socket_ s.
Proof. by intros [= <- <- <-]. Qed.

Lemma world_step_weight s0 (w w' : world (F := F)) :
  world_ok s0 w -> world_step w w' -> world_weight w' < world_weight w.
Proof.
  intros (Hok & _ & _ & Hl & _) Hs. unfold world_weight.
  destruct Hs as [w client clients sess rest error now Hd Hc Hsess Hn
    |w i l error bytes input now1 now2 r s' fs' Hd Hi Hr Ha Hn Heq
    |w i l error bytes input now1 now2 f Hd Hi Hr Ha Hn Heq|w i l error Hd Hi Hw|w signal Hd];
    rewrite ?accept_links_eq; simpl; rewrite Hd; try rewrite Hc; simpl.
  - destruct Hok as [(sess' & Hs & _ & Hk) _]. rewrite Hsess in Hs. injection Hs as -> _.
    unfold client_weight. destruct error; [lia|]. rewrite sum_list_with_app. simpl.
    unfold link_weight. simpl. rewrite Hk. simpl. lia.
  - pose proof (sum_list_with_insert link_weight _ _ _
      (Link s' input (l_sent l) (late_reads now1 l)) Hi) as Hsum.
    enough (link_weight (Link s' input (l_sent l) (late_reads now1 l)) < link_weight l) by lia.
    unfold link_weight. simpl. destruct Ha as [bytes input Hb|m input].
    + apply read_callback_effect in Heq as [_ Heff]. apply read_effect_weight in Heff.
      simpl in *. lia.
    + apply read_error_weight in Heq. rewrite Heq. simpl. lia.
  - lia.
  - match goal with |- context [<[i := ?l']> _] =>
      pose proof (sum_list_with_insert link_weight _ _ _ l' Hi) as Hsum;
      enough (link_weight l' < link_weight l) by lia end.
    unfold link_weight. simpl. destruct error; simpl; lia.
  - lia.
Qed.

(** Nothing is left to do: no client waits, no connection has an operation in
    flight; or the program is down. *)
Definition at_rest (w : world (F := F)) : Prop :=
  w_down w <> None \/
  (w_clients w = [] /\
   Forall (fun l => reads (socket_ (l_session l)) = 0 /\ writes (socket_ (l_session l)) = 0)
     (w_links w)).

Lemma world_progress s0 w : world_ok s0 w -> at_rest w \/ exists w', world_step w w'.
Proof.
  intros ([(sess & Hacc & _) _] & _ & _ & Hl & _). unfold at_rest.
  destruct (w_down w) as [f|] eqn:Hd; [by left; left|].
  destruct (w_clients w) as [|client clients] eqn:Hc.
  2: { right. eexists. by eapply (world_accept w client clients sess [] None (w_now w)). }
  destruct (decide (Forall (fun l => reads (socket_ (l_session l)) = 0 /\
    writes (socket_ (l_session l)) = 0) (w_links w))) as [Hall|Hn]; [by left; right|right].
  apply not_Forall_Exists, Exists_exists in Hn as (l & Hin & Hbusy); [|apply _].
  apply list_elem_of_lookup in Hin as [i Hi].
  destruct (decide (writes (socket_ (l_session l)) = 0)) as [Hw|Hw].
  - eexists. eapply (world_read w i l (Some []) [] (l_input l) (w_now w) (w_now w));
      [done|done| |constructor|lia|reflexivity]. destruct (decide (reads (socket_ (l_session l)) = 0)); [by destruct Hbusy|lia].
  - eexists. eapply (world_write w i l None); [done|done|lia].
Qed.
End endings.
