(* ===== verification/Metrics.v ===== *)
(** * The log of the running server

    The handlers log nothing; the session does.  The records of
    [logResponse], with severity [info], are the metrics of the server: one
    for every request that reached the dispatcher and one for every 401.  The
    metrics of a run are compared with its history. *)

From S2P Require Import Prelude Cxx Config Tokenizer Parser Logger Http Storage Handlers Api Dispatcher Session SessionCases Server World.
Local Open Scope str_scope.

(** The messages of the metrics in a log, in order. *)
Definition is_metric (r : log_record) : Prop := severity r = info.

#[export] Instance is_metric_dec r : Decision (is_metric r).
Proof. unfold is_metric. apply _. Defined.

Definition metrics (l : list log_record) : list str := message <$> filter is_metric l.

Lemma metrics_app l1 l2 : metrics (l1 ++ l2) = metrics l1 ++ metrics l2.
Proof. unfold metrics. by rewrite filter_app, fmap_app. Qed.

Lemma metrics_none l : Forall (fun r => severity r <> info) l -> metrics l = [].
Proof.
  unfold metrics. induction 1 as [|r l Hr Hl IH]; [done|]. rewrite filter_cons_False; done.
Qed.

(** Closes [logs s s' ms] when [s'] is [s] with explicit records added. *)
Ltac appended :=
  eexists; unfold send_unauthorized_response, handle_write, handle_read;
  cbn [session_log add_log set_socket set_response set_last_auth_time set_buffer snd];
  rewrite <- ?app_assoc; split; [reflexivity|].

Section audit.
Context `{BeastHttp} `{LexicalCast} {F : Type} `{FileSystem F}.

(** What the log says of a request that reached the dispatcher: the name of
    the handler and the status of the response. *)
Definition handler_tag (d : gmap str handler) (request : Request) : str :=
  match getRequestHandler d (req_target request) with
  | Some h => getName h
  | None => "Handler not found"
  end.

Definition metric_of (d : gmap str handler) (request : Request) (res : Response) : str :=
  message (logResponse (handler_tag d request ++ " " ++ status_text res)).

Definition entry_metric (d : gmap str handler) (e : served) : str :=
  metric_of d (sv_request e) (sv_after e).

(** What it says of a 401. *)
Definition refusal_metric : str :=
  message (logResponse ("Unauthorized " ++ status_text unauthorized_response)).

Lemma metric_of_not_refusal d request res : metric_of d request res <> refusal_metric.
Proof.
  unfold metric_of, refusal_metric, handler_tag. simpl.
  by destruct (getRequestHandler _ _) as [[]|].
Qed.

(** ** Lemmas: what the callbacks log *)

(** [s'] has logged [recs] since [s], among them the metrics [ms]. *)
Definition logs (s s' : session) (ms : list str) : Prop :=
  exists recs, session_log s' = session_log s ++ recs /\ metrics recs = ms.

Lemma logs_refl s : logs s s [].
Proof. exists []. by rewrite app_nil_r. Qed.

Lemma logs_trans s1 s2 s3 ms1 ms2 : logs s1 s2 ms1 -> logs s2 s3 ms2 -> logs s1 s3 (ms1 ++ ms2).
Proof.
  intros (r1 & H12 & <-) (r2 & H23 & <-). exists (r1 ++ r2).
  by rewrite H23, H12, <- app_assoc, metrics_app.
Qed.

Lemma logs_same (s1 s1' s2 : session) ms :
  session_log s1 = session_log s1' -> logs s1 s2 ms -> logs s1' s2 ms.
Proof. intros Hs (recs & ? & ?). exists recs. by rewrite <- Hs. Qed.

Lemma add_log_silent r s : severity r <> info -> logs s (add_log r s) [].
Proof. intros Hr. exists [r]. split; [done|]. apply metrics_none. by repeat constructor. Qed.


Lemma handle_read_silent s : logs s (handle_read s) [].
Proof. apply (logs_same (set_socket (start_read (socket_ s)) s)); [done|]. by apply add_log_silent. Qed.

Lemma header_record_silent request : severity (header_record request) <> info.
Proof. unfold header_record. by destruct (req_find _ _). Qed.

Lemma send_unauthorized_logs s : logs s (send_unauthorized_response s) [refusal_metric].
Proof. by appended. Qed.

Lemma is_session_expired_logs now s : logs s (is_session_expired now s).2 [].
Proof.
  unfold is_session_expired. case_bool_decide; [|apply logs_refl]. by appended.
Qed.

Lemma authenticate_logs h now s b s' :
  authenticate h now s = Ok (b, s') -> session_log s' = session_log s.
Proof.
  intros Ha. destruct (authenticate_spec h now s) as (b' & Hs & _). rewrite Ha in Hs.
  injection Hs as -> ->. by destruct b'.
Qed.

Lemma dispatch_logs request s fs s' fs' :
  dispatch request s fs = Ok (s', fs') ->
  logs s s' [metric_of (dispatcher_ s) request (response_ s')].
Proof.
  unfold dispatch, metric_of, handler_tag.
  destruct (getRequestHandler _ _) as [h|]; run_ok.
  - destruct (handleRequest _ _ _ _) as [[res fs1]|]; run_ok; [|done]. intros [= <- _].
    by appended.
  - intros [= <- _]. by appended.
Qed.

(** The metric of a callback. *)
Definition read_metrics (error : option str) (s : session) (bytes : str) (r : Z)
    (s' : session) : list str :=
  match error, parser_put (buffer_ s ++ bytes) with
  | None, PutDone request =>
      match r with
      | 0%Z => [metric_of (dispatcher_ s) request (response_ s')]
      | _ => [refusal_metric]
      end
  | _, _ => []
  end.

Lemma handle_request_logs request now1 now2 s fs r s' fs' :
  handle_request request now1 now2 s fs = Ok (r, s', fs') ->
  logs s s' (match r with
             | 0%Z => [metric_of (dispatcher_ s) request (response_ s')]
             | _ => [refusal_metric]
             end).
Proof.
  unfold handle_request. set (s1 := add_log (header_record request) _).
  assert (logs s s1 []) as H1'.
  { eapply (logs_trans _ _ _ [] []); [by apply (add_log_silent (logTraceHTTPrequest request))|].
    apply add_log_silent, header_record_silent. }
  assert (dispatcher_ s = dispatcher_ s1) as Hd by done. clearbody s1.
  pose proof (is_session_expired_logs now1 s1) as H2'.
  destruct (is_session_expired_spec now1 s1) as [(_ & He & _)|[_ He]].
  - destruct (is_session_expired now1 s1) as [b s2]. simpl in He, H2'. subst b.
    intros [= <- <- _]. eapply (logs_trans _ _ _ [] _ H1'), (logs_trans _ _ _ [] _ H2').
    by appended.
  - rewrite He. destruct (req_find _ _) as [h|].
    2: { intros [= <- <- _]. eapply (logs_trans _ _ _ [] _ H1'), send_unauthorized_logs. }
    destruct (authenticate h now2 s1) as [[b s2]|] eqn:Ha; run_ok; [|done].
    pose proof (authenticate_logs _ _ _ _ _ Ha) as Hl.
    destruct b; cbn [negb].
    + destruct (dispatch request s2 fs) as [[s3 fs1]|] eqn:Hdis; run_ok; [|done].
      intros [= <- <- _]. eapply (logs_trans _ _ _ [] _ H1'). apply dispatch_logs in Hdis.
      apply (logs_same s2); [done|].
      destruct (authenticate_spec h now2 s1) as (b' & Hs & _). rewrite Ha in Hs.
      injection Hs as <- ->. by rewrite Hd.
    + intros [= <- <- _]. eapply (logs_trans _ _ _ [] _ H1').
      apply (logs_same s2); [done|]. apply send_unauthorized_logs.
Qed.

Lemma read_callback_logs error bytes now1 now2 s fs r s' fs' :
  handle_read_callback error bytes now1 now2 s fs = Ok (r, s', fs') ->
  logs s s' (read_metrics error s bytes r s').
Proof.
  unfold handle_read_callback, read_metrics. destruct error as [m|].
  { intros [= _ <- _]. by appended. }
  cbn [buffer_ set_buffer]. destruct (parser_put _) as [m|request| |].
  - intros [= _ <- _]. by appended.
  - intros Hr%handle_request_logs. exact Hr.
  - done.
  - intros [= _ <- _]. by appended.
Qed.

Lemma write_callback_logs error s : logs s (handle_write_callback error s).2 [].
Proof. destruct error; by appended. Qed.

(** ** Lemmas: the log of a world *)
Lemma new_records_metrics (s s1 s' : session) ms :
  logs s1 s' ms -> session_log s1 = session_log s -> metrics (new_records s s') = ms.
Proof. intros (recs & Hl & <-) Hs. unfold new_records. by rewrite Hl, Hs, drop_app_length. Qed.

Lemma crash_records_metrics s bytes : metrics (crash_records s bytes) = [].
Proof.
  unfold crash_records. destruct (parser_put _); try done. apply metrics_none.
  repeat constructor; first [done|apply header_record_silent].
Qed.

(** The metrics that are not those of a 401. *)
Definition served_metrics (l : list log_record) : list str :=
  filter (fun m => m <> refusal_metric) (metrics l).

Lemma served_metrics_app l1 l2 : served_metrics (l1 ++ l2) = served_metrics l1 ++ served_metrics l2.
Proof. unfold served_metrics. by rewrite metrics_app, filter_app. Qed.

(** A completed read logs the metric of the entry it adds to the history. *)
Lemma read_served_metrics i error bytes input input' now1 now2 s fs r s' fs' :
  arrives error bytes input input' ->
  handle_read_callback error bytes now1 now2 (finish_read s) fs = Ok (r, s', fs') ->
  served_metrics (new_records s s') = entry_metric (dispatcher_ s) <$> history_entry i r s bytes s'.
Proof.
  intros Ha Heq. unfold served_metrics.
  rewrite (new_records_metrics s (finish_read s) s' _ (read_callback_logs _ _ _ _ _ _ _ _ _ Heq)) by done.
  unfold read_metrics, history_entry. simpl buffer_.
  assert (error <> None -> r <> 0%Z) as Herr.
  { destruct error; [|done]. intros _. unfold handle_read_callback in Heq. by injection Heq as <- _ _. }
  destruct error as [m|].
  { destruct r; try done. }
  destruct (parser_put _) as [m|request| |]; try by destruct r.
  assert (filter (fun m => m <> refusal_metric) [refusal_metric] = []) as Hno
    by (rewrite filter_cons_False; naive_solver).
  destruct r; try exact Hno.
  simpl. by rewrite filter_cons_True by apply metric_of_not_refusal.
Qed.

Definition audited (s0 : server) (w : world (F := F)) : Prop :=
  served_metrics (w_log w) = entry_metric (server_dispatcher_ s0) <$> w_history w.

Lemma world_step_audited s0 w w' :
  world_ok s0 w -> audited s0 w -> world_step w w' -> audited s0 w'.
Proof.
  intros (_ & _ & _ & Hl & _) Ha Hs. unfold audited in *.
  destruct Hs as [w client clients sess rest error now _ _ _ _
    |w i l error bytes input now1 now2 r s' fs' _ Hi _ Har _ Heq
    |w i l error bytes input now1 now2 f _ _ _ _ _ _|w i l error _ _ _|w signal _];
    rewrite ?accept_records_eq; simpl; rewrite served_metrics_app, Ha, ?fmap_app.
  - destruct error; [by rewrite app_nil_r|].
    unfold served_metrics. rewrite (new_records_metrics sess sess (start sess) [] (handle_read_silent sess)) by done.
    by rewrite app_nil_r.
  - f_equal. destruct (Forall_lookup_1 _ _ _ _ Hl Hi) as ((Hd & _) & _). rewrite <- Hd.
    by eapply read_served_metrics.
  - unfold served_metrics. by rewrite crash_records_metrics, app_nil_r.
  - unfold served_metrics.
    rewrite (new_records_metrics (l_session l) _ _ [] (write_callback_logs error (finish_write (l_session l)))) by done.
    by rewrite app_nil_r.
  - by rewrite app_nil_r.
Qed.

(** ** Lemmas: the log of [main] *)
Lemma metrics_silent l r : severity r <> info -> metrics (l ++ [r]) = metrics l.
Proof. intros Hr. rewrite metrics_app, (metrics_none [r]), app_nil_r; [done|]. by repeat constructor. Qed.

Lemma register_locations_log b : forall st st',
  register_locations b st = Ok st' -> metrics (init_log st') = metrics (init_log st).
Proof.
  induction b as [|s b IH]; intros st st'; simpl; [by intros [= <-]|].
  destruct (vec_at (tokens_ s) 0); run_ok; [|done]. case_bool_decide; [apply IH|].
  destruct (vec_at (tokens_ s) 1); run_ok; [|done]. destruct (vec_at (tokens_ s) 2); run_ok; [|done].
  destruct (deref _); run_ok; [|done]. destruct (registerPath _ _ _ _) as [[[] hs]|]; run_ok; [| |done].
  - intros ->%IH. by apply metrics_silent.
  - by intros ->%IH.
Qed.

Lemma register_server_log c : forall st st',
  register_server c st = Ok st' -> metrics (init_log st') = metrics (init_log st).
Proof.
  induction c as [|s c IH]; intros st st'; simpl; [by intros [= <-]|].
  destruct (vec_at (tokens_ s) 0); run_ok; [|done]. case_bool_decide; [|apply IH].
  case_bool_decide; [apply IH|]. destruct (deref _); run_ok; [|done]. apply register_locations_log.
Qed.

Lemma dispatcher_log config d : RequestHandlerDispatcher config = Ok d -> metrics (init_log d) = [].
Proof.
  unfold RequestHandlerDispatcher, initRequestHandlers.
  destruct (register_server _ _) as [st|] eqn:Hr; run_ok; [|done].
  apply register_server_log in Hr. intros [= <-]. by case_bool_decide.
Qed.

(** [main] logs no metrics before the event loop, but logs something. *)
Lemma main_log_silent argv open_file listen_on now s l :
  main argv open_file listen_on now = Ok (MainRun (Running s) l) -> metrics l = [] /\ l <> [].
Proof.
  unfold main. case_bool_decide; [done|]. destruct (vec_at argv 1) as [file_name|]; run_ok; [|done].
  destruct (parsed _) as [[[] config]|]; simpl; [|done..].
  destruct (get_config_port config) as [port|]; simpl; [|done]. case_bool_decide; [done|].
  destruct (get_auth_time config) as [t|]; simpl; [|done]. case_bool_decide; [done|].
  destruct (get_credentials config) as [cr|]; simpl; [|done]. unfold new_server.
  destruct (listen_on _); simpl; [done|].
  destruct (RequestHandlerDispatcher config) as [d|] eqn:Hd; simpl; [|done].
  intros [= <- <-]. split; [|done]. apply dispatcher_log in Hd.
  match goal with |- metrics (?a :: ?b :: ?c :: ?d :: ?e :: ?f :: ?rest) = _ =>
    change (metrics rest = []) end.
  by rewrite metrics_app, Hd.
Qed.
End audit.
