(* ===== verification/Isolation.v ===== *)
(** * The first read of a connection

    With the parser of Boost.Beast, as the session uses it, the bytes of the
    first read decide what a connection of the running server does for
    ever. *)

From S2P Require Import Prelude Cxx Logger Http Storage Api Dispatcher Session SessionCases Server World.
Local Open Scope str_scope.

#[local] Arguments handle_read_callback : simpl never.

Section first_read.
Context `{BeastHttp} `{LexicalCast} {F : Type} `{FileSystem F}.

(** The sessions that wait for a connection are as the constructor made them. *)
Definition fresh (s : server) (sess : session) : Prop :=
  exists t, sess = new_session (server_dispatcher_ s) (server_credentials_ s) (server_auth_time_ s) t.

Lemma world_step_fresh s0 (w w' : world (F := F)) :
  world_ok s0 w -> Forall (fresh s0) (accepting (w_server w)) -> world_step w w' ->
  Forall (fresh s0) (accepting (w_server w')).
Proof.
  intros (Hok & Hsame & _) Hf Hs. destruct Hs as [w client clients sess rest error now _ _ Hacc _| | | |];
    simpl; try done.
  assert (Forall (fresh s0) rest) as Hrest by (rewrite Hacc in Hf; by apply Forall_cons_1 in Hf as [_ ?]).
  destruct Hsame as (_ & Hd & Hc & Ha).
  unfold handle_accept. destruct error; simpl; apply Forall_app; (split; [done|]);
    apply Forall_singleton; exists now; by rewrite Hd, Hc, Ha.
Qed.

Definition bad_request : Response := plain_response status_bad_request "Bad request".
Definition internal_error : Response :=
  plain_response status_internal_server_error "Internal Server Error".

(** No request of connection [i] reached the dispatcher. *)
Definition no_entry (es : list served) (i : nat) : Prop := forall e, e ∈ es -> sv_link e <> i.

(** The connection reads no more and sends [res], if anything. *)
Definition only_sends (res : Response) (l : link) : Prop :=
  reads (socket_ (l_session l)) = 0 /\ Forall (fun r => r = res) (l_sent l) /\
  (writes (socket_ (l_session l)) = 0 \/ response_ (l_session l) = res).

Definition silent (l : link) : Prop :=
  writes (socket_ (l_session l)) = 0 /\ l_sent l = [].

(** What a connection may do when the parser says [p] of its first read. *)
Definition decided (es : list served) (i : nat) (l : link) (p : put_result Request) : Prop :=
  match p with
  | PutDone request => forall e, e ∈ es -> sv_link e = i -> sv_request e = request
  | PutMore => False
  | PutError _ => no_entry es i /\ only_sends bad_request l
  | PutThrow => no_entry es i /\ only_sends internal_error l
  end.

(** The connection has read nothing yet, or its first read has decided. *)
Definition first_read (es : list served) (i : nat) (l : link) : Prop :=
  (buffer_ (l_session l) = [] /\ no_entry es i /\ silent l) \/
  exists first, 0 < length first <= 4096 /\ first `prefix_of` buffer_ (l_session l) /\
    parser_put (buffer_ (l_session l)) = parser_put first /\ decided es i l (parser_put first).

(** Entries of other connections change nothing. *)
Lemma no_entry_app es es' i : no_entry es i -> no_entry es' i -> no_entry (es ++ es') i.
Proof. intros H1' H2' e [He|He]%elem_of_app; auto. Qed.

Lemma decided_app es es' i l p : no_entry es' i -> decided es i l p -> decided (es ++ es') i l p.
Proof.
  intros Hno. destruct p; simpl.
  - intros [? ?]. split; [|done]. by apply no_entry_app.
  - intros Hd e [He|He]%elem_of_app Hi; [by apply Hd|]. by destruct (Hno e He).
  - done.
  - intros [? ?]. split; [|done]. by apply no_entry_app.
Qed.

Lemma first_read_app es es' i l : no_entry es' i -> first_read es i l -> first_read (es ++ es') i l.
Proof.
  intros Hno [(? & ? & ?)|(first & ? & ? & ? & ?)]; [left|right].
  - split_and!; [done| |done]. by apply no_entry_app.
  - exists first. split; [done|]. split_and!; [done..|]. by apply decided_app.
Qed.

Lemma history_entry_link i r s bytes s' e : e ∈ history_entry i r s bytes s' -> sv_link e = i.
Proof.
  unfold history_entry. destruct (parser_put _); destruct r; simpl;
    try by intros ?%elem_of_nil.
  by intros ->%list_elem_of_singleton.
Qed.

Lemma history_entry_request i r s bytes s' e request :
  parser_put (buffer_ s ++ bytes) = PutDone request ->
  e ∈ history_entry i r s bytes s' -> sv_request e = request.
Proof.
  intros Hput. unfold history_entry. rewrite Hput.
  destruct r; simpl; try by intros ?%elem_of_nil. by intros ->%list_elem_of_singleton.
Qed.

Lemma history_entry_none i r s bytes s' :
  (forall request, parser_put (buffer_ s ++ bytes) <> PutDone request) ->
  history_entry i r s bytes s' = [].
Proof. unfold history_entry. intros Hp. destruct (parser_put _); destruct r; naive_solver. Qed.

(** A read that fails changes neither buffer nor responses. *)
Lemma read_error_session m bytes now1 now2 (s : session) fs r s' fs' :
  handle_read_callback (Some m) bytes now1 now2 (finish_read s) fs = Ok (r, s', fs') ->
  r = 1%Z /\ s' ≡ finish_read s.
Proof. by intros [= <- <- _]. Qed.

(** What a read of the first bytes, or of bytes that make no difference,
    leads to. *)
Lemma read_decides es i l bytes input now1 now2 (fs : F) r s' fs' n :
  let s := l_session l in
  handle_read_callback None bytes now1 now2 (finish_read s) fs = Ok (r, s', fs') ->
  0 < reads (socket_ s) <= 1 ->
  (no_entry es i /\ silent l) \/ (exists request, parser_put (buffer_ s ++ bytes) = PutDone request /\
    forall e, e ∈ es -> sv_link e = i -> sv_request e = request) ->
  decided (es ++ history_entry i r s bytes s') i (Link s' input (l_sent l) n)
    (parser_put (buffer_ s ++ bytes)).
Proof.
  intros s Heq Hr Hcase.
  pose proof (handle_read_callback_cases None bytes now1 now2 (finish_read s) fs) as Hc.
  rewrite Heq in Hc. unfold decided.
  destruct (parser_put (buffer_ s ++ bytes)) as [m|request| |] eqn:Hput.
  2: { intros e [He|He]%elem_of_app Hi.
    - destruct Hcase as [[Hno _]|(request' & Hr' & Hall)]; [by destruct (Hno e He)|].
      injection Hr' as <-. by apply Hall.
    - by eapply history_entry_request. }
  2: { exfalso. inversion Hc; simpl in *; congruence. }
  all: destruct Hcase as [[Hno [Hw Hsent]]|(request' & Hr' & _)]; [|done].
  all: rewrite (history_entry_none i r s bytes s'), app_nil_r by (by rewrite Hput).
  all: split; [done|]; unfold only_sends, silent; simpl.
  all: inversion Hc as [m' s1 Hm E|m' s1 ? Hp E|s1 ? Hp E| |request o ? Hp _]; subst;
    try discriminate Hm; simpl in Hp; try congruence; rewrite Hsent, !E; unfold s in *; simpl; auto with lia.
Qed.

Context {laws : BeastHeaderLaws _}.

(** Bytes after the header make no difference to the parser. *)
Lemma put_not_error b x : (forall m, parser_put b <> PutError m) -> parser_put (b ++ x) = parser_put b.
Proof.
  intros Hne. apply put_complete. destruct (has_header_end b) eqn:He; [done|].
  destruct (put_incomplete b He) as [m Hm]. by destruct (Hne m).
Qed.

Lemma first_read_read es i l error bytes input input' now1 now2 (fs : F) r s' fs' n :
  handle_read_callback error bytes now1 now2 (finish_read (l_session l)) fs = Ok (r, s', fs') ->
  arrives error bytes input input' -> 0 < reads (socket_ (l_session l)) <= 1 -> first_read es i l ->
  first_read (es ++ history_entry i r (l_session l) bytes s') i (Link s' input' (l_sent l) n).
Proof.
  intros Heq Ha Hr Hfirst. pose proof (read_callback_buffer _ _ _ _ _ _ _ _ _ Heq) as Hb.
  simpl in Hb. unfold first_read. simpl. rewrite Hb.
  destruct Ha as [bytes input Hlen|m input].
  - right. destruct Hfirst as [(Hnil & Hno & Hsil)|(first & Hlen' & Hpre & Hput & Hd)].
    + assert (parser_put (buffer_ (l_session l) ++ bytes) = parser_put bytes) as Hp by (by rewrite Hnil).
      exists bytes. rewrite <- Hp. split_and!; [lia|lia|by rewrite Hnil|done|].
      eapply read_decides; [done|done|by left].
    + assert (forall m, parser_put first <> PutError m) as Hne.
      { intros m Hm. rewrite Hm in Hd. destruct Hd as [_ [? _]]. lia. }
      assert (parser_put (buffer_ (l_session l) ++ bytes) = parser_put first) as Hput'
        by (rewrite put_not_error; by rewrite ?Hput).
      exists first. split_and!; [lia|lia|by apply prefix_app_r|done|]. rewrite <- Hput'.
      eapply read_decides; [done|done|]. rewrite Hput'.
      destruct (parser_put first) as [m|request| |]; simpl in Hd.
      * by destruct (Hne m).
      * right. by exists request.
      * done.
      * destruct Hd as [_ [? _]]. lia.
  - destruct (read_error_session _ _ _ _ _ _ _ _ _ Heq) as [-> Hs'].
    rewrite app_nil_r. change (history_entry i (1%Z) (l_session l) [] s') with (@nil served).
    rewrite app_nil_r. destruct Hfirst as [(Hnil & Hno & Hsil)|(first & Hlen & Hpre & Hput & Hd)].
    + left. split_and!; [done..|]. unfold silent in *. simpl. by rewrite Hs'.
    + right. exists first. split_and!; [lia|lia|done|done|].
      destruct (parser_put first); unfold decided, silent, only_sends in *; simpl; rewrite ?Hs'; simpl.
      * destruct Hd as [? (? & ?)]. lia.
      * done.
      * done.
      * destruct Hd as [? (? & ?)]. lia.
Qed.

Lemma first_read_write es i l error n :
  0 < writes (socket_ (l_session l)) -> first_read es i l ->
  first_read es i (Link (handle_write_callback error (finish_write (l_session l))).2 (l_input l)
    (match error with
     | None => l_sent l ++ [response_ (l_session l)]
     | Some _ => l_sent l
     end) n).
Proof.
  intros Hw [(_ & _ & Hsil)|(first & Hlen & Hpre & Hput & Hd)]; [destruct Hsil; lia|].
  right. exists first. split; [done|].
  assert (buffer_ (handle_write_callback error (finish_write (l_session l))).2
    = buffer_ (l_session l)) as Hb by (by destruct error).
  simpl. rewrite Hb. split_and!; [done..|].
  assert (forall res, only_sends res l -> only_sends res
    (Link (handle_write_callback error (finish_write (l_session l))).2 (l_input l)
      (match error with
       | None => l_sent l ++ [response_ (l_session l)]
       | Some _ => l_sent l
       end) n)) as Honly.
  { intros res (Hr & Hs & [?|Hres]); [lia|]. unfold only_sends. simpl.
    destruct error; simpl; split_and!; auto. apply Forall_app. by rewrite Forall_singleton. }
  destruct (parser_put first); simpl in *.
  - destruct Hd. split; [done|by apply Honly].
  - done.
  - done.
  - destruct Hd. split; [done|by apply Honly].
Qed.

(** The invariant of the world; entries belong to accepted connections. *)
Definition first_reads (w : world (F := F)) : Prop :=
  (forall e, e ∈ w_history w -> sv_link e < length (w_links w)) /\
  forall i l, w_links w !! i = Some l -> first_read (w_history w) i l.

Lemma first_reads_insert (w : world (F := F)) i l l' es :
  first_reads w -> w_links w !! i = Some l -> (forall e, e ∈ es -> sv_link e = i) ->
  first_read (w_history w ++ es) i l' ->
  (forall e, e ∈ w_history w ++ es -> sv_link e < length (<[i := l']> (w_links w))) /\
  forall j lj, <[i := l']> (w_links w) !! j = Some lj -> first_read (w_history w ++ es) j lj.
Proof.
  intros [Hlen Hall] Hi Hes Hnew. split.
  - rewrite length_insert. intros e [He|He]%elem_of_app; [by apply Hlen|].
    rewrite (Hes e He). by eapply lookup_lt_Some.
  - intros j lj Hj. apply list_lookup_insert_Some in Hj as [(<- & <- & _)|[Hne Hj]]; [done|].
    apply first_read_app; [|by apply Hall]. intros e He. rewrite (Hes e He). congruence.
Qed.

Lemma world_step_first_reads s0 w w' :
  world_ok s0 w -> Forall (fresh s0) (accepting (w_server w)) -> first_reads w ->
  world_step w w' -> first_reads w'.
Proof.
  intros (_ & _ & _ & Hl & _) Hf Hfr Hs. pose proof Hfr as [Hlen Hall].
  destruct Hs as [w client clients sess rest error now _ _ Hacc _
    |w i l error bytes input now1 now2 r s' fs' _ Hi Hr Ha _ Heq
    |w i l error bytes input now1 now2 f _ _ _ _ _ _|w i l error _ Hi Hw|w signal _];
    rewrite ?accept_links_eq; unfold first_reads; simpl; try done.
  - destruct error as [m|]; [done|]. split.
    { intros e He. rewrite length_app. specialize (Hlen e He). simpl. lia. }
    intros i l Hi. apply lookup_snoc_Some in Hi as [[_ Hi]|[-> <-]]; [by apply Hall|].
    rewrite Hacc in Hf. apply Forall_cons_1 in Hf as [[t ->] _]. left. split_and!; [done| |done].
    intros e He Heq. specialize (Hlen e He). lia.
  - apply (first_reads_insert w i l); [done..| |].
    + intros e. apply history_entry_link.
    + eapply first_read_read; [done|done| |by apply Hall].
      destruct (Forall_lookup_1 _ _ _ _ Hl Hi) as (_ & _ & ? & _). lia.
  - rewrite <- (app_nil_r (w_history w)). apply (first_reads_insert w i l); [done..| |].
    + by intros e ?%elem_of_nil.
    + rewrite app_nil_r. by apply first_read_write, Hall.
Qed.
End first_read.
