(* ===== verification/Silence.v ===== *)
(** * Clients that are never served

    A connection of which no request reaches a handler leaves no trace: the
    same run without its bytes has the same server, the same files, the same
    history and the same other connections.  A run is compared with one in
    which the client of connection [i] connects and sends nothing ([alike]). *)

From S2P Require Import Prelude Cxx Logger Http Storage Api Dispatcher Session SessionCases Server World Isolation.
Local Open Scope str_scope.

Section silence.
Context `{BeastHttp} `{LexicalCast} {F : Type} `{FileSystem F}.

(** The worlds differ in connection [i] only, which has sent nothing and has
    been sent nothing in the second one.  The clock of the second one may be
    behind: it has not run the callbacks of connection [i]. *)
Record alike (i : nat) (w w' : world (F := F)) : Prop := Alike {
  alike_server : w_server w' = w_server w;
  alike_fs : w_fs w' = w_fs w;
  alike_history : w_history w' = w_history w;
  alike_down : w_down w' = None;
  alike_now : (w_now w' <= w_now w)%Z;
  alike_length : length (w_links w') = length (w_links w);
  alike_links j : j <> i -> w_links w' !! j = w_links w !! j;
  alike_idle l : w_links w' !! i = Some l -> l_input l = [] /\ l_sent l = []
}.

(** ** Lemmas: one step *)

(** A step of another connection is a step of the second world. *)
Lemma alike_insert i j l (ls ls' : list link) :
  j <> i -> length ls' = length ls -> (forall k, k <> i -> ls' !! k = ls !! k) ->
  (forall k, k <> i -> <[j := l]> ls' !! k = <[j := l]> ls !! k).
Proof.
  intros Hj Hlen Hls k Hk. destruct (decide (k = j)) as [->|Hne].
  - destruct (decide (j < length ls)).
    + by rewrite !list_lookup_insert_eq by lia.
    + rewrite !list_insert_ge by lia. by apply Hls.
  - rewrite !list_lookup_insert_ne by done. by apply Hls.
Qed.

(** A read whose request reaches no handler leaves the files. *)
Lemma unserved_read i (s : session) fs error bytes now1 now2 r s' fs' es :
  handle_read_callback error bytes now1 now2 (finish_read s) fs = Ok (r, s', fs') ->
  no_entry (es ++ history_entry i r s bytes s') i ->
  history_entry i r s bytes s' = [] /\ fs' = fs.
Proof.
  intros Heq Hno. destruct (history_entry_served i _ _ _ _ _ _ _ _ _ Heq) as [(? & ? & _)|(q & Hh & _)];
    [done|].
  rewrite Hh in Hno. destruct (Hno (Served i q (response_ s) (response_ s'))); [|done].
  apply elem_of_app. right. by apply list_elem_of_singleton.
Qed.

Lemma no_entry_app_l es es' i : no_entry (es ++ es') i -> no_entry es i.
Proof. intros Hno e He. apply Hno, elem_of_app. by left. Qed.

(** The first client of the second world, when the step is an accept: the
    client of the first world, or one that sends nothing if the connection is
    number [i]. *)
Definition hushed (i : nat) (w1 w2 : world (F := F)) (client : list str) : list str :=
  if decide (length (w_links w1) = i /\ length (w_links w2) = S i) then [] else client.

Lemma alike_accept i w w2 w' client clients rest' sess rest error now :
  alike i w w' -> accepting (w_server w) = sess :: rest -> (w_now w <= now)%Z ->
  w2 = World (handle_accept sess error now (accept_taken rest (w_server w)))
      (accept_links client (w_server w)
        (handle_accept sess error now (accept_taken rest (w_server w))) (w_links w))
      (w_fs w) now clients
      (w_log w ++ accept_records sess (w_server w)
        (handle_accept sess error now (accept_taken rest (w_server w))))
      (w_history w) None ->
  w_clients w' = hushed i w w2 client :: rest' ->
  exists w2', world_step w' w2' /\ w_clients w2' = rest' /\ alike i w2 w2'.
Proof.
  intros [Hs Hf Hh Hd Hn Hlen Hl Hidle] Hacc Hnow -> Hc.
  unfold hushed in Hc. rewrite accept_links_eq in *. simpl in Hc.
  eexists. split; [eapply (world_accept w'); [done..|by rewrite Hs|etrans; done]|].
  split; [done|]. rewrite Hs, accept_links_eq. split; simpl; try done.
  - by destruct error; rewrite ?length_app, Hlen.
  - intros j Hj. destruct error; [by apply Hl|]. rewrite length_app in Hc. simpl in Hc.
    rewrite !lookup_app, Hl, Hlen by done. destruct (w_links w !! j) eqn:Hlj; [done|].
    apply lookup_ge_None_1 in Hlj.
    destruct (decide (j = length (w_links w))) as [->|].
    + rewrite decide_False by lia. by rewrite Nat.sub_diag.
    + by rewrite !lookup_ge_None_2 by (simpl; lia).
  - intros l Hli. destruct error; [by apply Hidle|].
    apply lookup_snoc_Some in Hli as [[_ Hli]|[Hli <-]]; [by apply Hidle|].
    simpl. split; [|done]. rewrite decide_True; [done|]. rewrite length_app. simpl. lia.
Qed.

(** A completion of connection [i] is skipped, another one is repeated. *)
Lemma alike_complete i j w w' l l' fs es now log log' :
  alike i w w' -> w_links w !! j = Some l -> (w_now w <= now)%Z ->
  (j = i -> fs = w_fs w /\ es = w_history w) ->
  (j <> i -> exists now', (now' <= now)%Z /\
    world_step w' (World (w_server w') (<[j := l']> (w_links w')) fs now' (w_clients w') log' es None)) ->
  exists w2', rtc world_step w' w2' /\ w_clients w2' = w_clients w' /\
    alike i (World (w_server w) (<[j := l']> (w_links w)) fs now (w_clients w) log es None) w2'.
Proof.
  intros [Hs Hf Hh Hd Hn Hlen Hl Hidle] Hj Hnow Hskip Hstep. destruct (decide (j = i)) as [->|Hne].
  - destruct (Hskip eq_refl) as [-> ->]. exists w'. split; [apply rtc_refl|]. split; [done|].
    split; simpl; try done; [lia|by rewrite length_insert|].
    intros k Hk. rewrite list_lookup_insert_ne by done. by apply Hl.
  - destruct (Hstep Hne) as (now' & Hnow' & Hw). eexists. split; [by apply rtc_once|]. split; [done|].
    split; simpl; try done; [by rewrite !length_insert|by apply alike_insert|].
    rewrite list_lookup_insert_ne by done. apply Hidle.
Qed.

Lemma alike_step i w1 w2 :
  world_step w1 w2 -> w_down w2 = None -> no_entry (w_history w2) i ->
  (exists client, w_clients w1 = client :: w_clients w2 /\
    length (w_links w1) <= length (w_links w2) <= S (length (w_links w1)) /\
    forall rest w', w_clients w' = hushed i w1 w2 client :: rest -> alike i w1 w' ->
    exists w2', world_step w' w2' /\ w_clients w2' = rest /\ alike i w2 w2') \/
  (w_clients w2 = w_clients w1 /\ length (w_links w2) = length (w_links w1) /\
    forall w', alike i w1 w' ->
    exists w2', rtc world_step w' w2' /\ w_clients w2' = w_clients w' /\ alike i w2 w2').
Proof.
  intros Hs Hdown Hno.
  destruct Hs as [w client clients sess rest error now _ Hc Hacc Hnow
    |w j l error bytes input now1 now2 r s' fs' _ Hj Hr Harr Hnow Heq
    | |w j l error _ Hj Hw|]; try discriminate Hdown; simpl in *.
  - left. exists client. split; [done|]. split; [rewrite accept_links_eq; destruct error; rewrite ?length_app; simpl; lia|].
    intros rest' w' Hc' Ha. by eapply alike_accept.
  - right. split; [done|]. split; [by rewrite length_insert|]. intros w' Ha.
    eapply alike_complete; [done|done|lia| |].
    + intros ->. destruct (unserved_read i _ _ _ _ _ _ _ _ _ _ Heq Hno) as [-> ->].
      by rewrite app_nil_r.
    + intros Hne. destruct Ha as [Hsv Hf Hh Hd Hn Hlen Hl Hidle]. exists now2. split; [done|].
      rewrite <- Hh. eapply world_read; [done|by rewrite Hl|done|done|lia|by rewrite Hf].
  - right. split; [done|]. split; [by rewrite length_insert|]. intros w' Ha.
    eapply alike_complete; [done|done|done|done|].
    intros Hne. destruct Ha as [Hsv Hf Hh Hd Hn Hlen Hl Hidle]. exists (w_now w'). split; [done|].
    rewrite <- Hf, <- Hh. eapply world_write; [done|by rewrite Hl|done].
Qed.

(** What such a connection has been sent. *)
Lemma unserved_refused s0 fs0 (w : world (F := F)) i l :
  world_history_ok s0 fs0 w -> w_links w !! i = Some l -> no_entry (w_history w) i ->
  Forall refusal (l_sent l).
Proof.
  intros [_ Hacc] Hi Hno. destruct (Hacc i l Hi) as [Hsent _]. eapply Forall_impl; [exact Hsent|].
  intros res [?|(e & He & Hl & _)]; [done|]. by destruct (Hno e He).
Qed.

(** ** Lemmas: the run *)

(** Whoever follows, the world [w] has a counterpart from the clients [f]. *)
Definition keeps_up (i : nat) (start : list (list str) -> world (F := F))
    (f : list (list str) -> list (list str)) (w : world (F := F)) : Prop :=
  forall rest, exists w', rtc world_step (start (f rest)) w' /\ w_clients w' = rest /\ alike i w w'.

(** Connection [i] is still to come, or its client has been replaced by one
    that sends nothing. *)
Definition hush_run (i : nat) (start : list (list str) -> world (F := F)) (clients : list (list str))
    (w : world (F := F)) : Prop :=
  (length (w_links w) <= i /\ exists before, clients = before ++ w_clients w /\
    keeps_up i start (fun rest => before ++ rest) w) \/
  (i < length (w_links w) /\ exists before client after,
    clients = before ++ client :: after ++ w_clients w /\
    keeps_up i start (fun rest => before ++ [] :: after ++ rest) w).

Lemma keeps_up_accept i start f w1 w2 client :
  (forall rest w', w_clients w' = hushed i w1 w2 client :: rest -> alike i w1 w' ->
    exists w2', world_step w' w2' /\ w_clients w2' = rest /\ alike i w2 w2') ->
  keeps_up i start f w1 -> keeps_up i start (fun rest => f (hushed i w1 w2 client :: rest)) w2.
Proof.
  intros Hstep Hk rest. destruct (Hk (hushed i w1 w2 client :: rest)) as (w' & Hr & Hc & Ha).
  destruct (Hstep rest w' Hc Ha) as (w2' & Hs & ? & ?). exists w2'. split; [|done]. by eapply rtc_r.
Qed.

Lemma keeps_up_other i start f w1 w2 :
  (forall w', alike i w1 w' ->
    exists w2', rtc world_step w' w2' /\ w_clients w2' = w_clients w' /\ alike i w2 w2') ->
  keeps_up i start f w1 -> keeps_up i start f w2.
Proof.
  intros Hstep Hk rest. destruct (Hk rest) as (w' & Hr & Hc & Ha).
  destruct (Hstep w' Ha) as (w2' & Hs & Hc2 & ?). exists w2'. split; [by etrans|]. split; [congruence|done].
Qed.

Lemma hush_run_step i start clients w1 w2 :
  world_step w1 w2 -> w_down w2 = None -> no_entry (w_history w2) i ->
  hush_run i start clients w1 -> hush_run i start clients w2.
Proof.
  intros Hs Hdown Hno Hrun.
  destruct (alike_step i w1 w2 Hs Hdown Hno) as [(client & Hc & Hlen & Hstep)|(Hc & Hlen & Hstep)].
  - destruct Hrun as [(Hi & before & -> & Hk)|(Hi & before & c & after & -> & Hk)];
      apply (keeps_up_accept i start _ w1 w2 client Hstep) in Hk; unfold hushed in Hk; rewrite Hc.
    + case_decide as Hd.
      * right. split; [lia|]. by exists before, client, [].
      * left. split; [lia|]. exists (before ++ [client]). rewrite <- app_assoc. split; [done|].
        intros rest. rewrite <- app_assoc. apply Hk.
    + rewrite decide_False in Hk by lia.
      right. split; [lia|]. exists before, c, (after ++ [client]). rewrite <- app_assoc. split; [done|].
      intros rest. rewrite <- app_assoc. apply Hk.
  - destruct Hrun as [(Hi & before & -> & Hk)|(Hi & before & c & after & -> & Hk)];
      apply (keeps_up_other i start _ w1 w2 Hstep) in Hk; rewrite <- Hc.
    + left. split; [lia|]. by exists before.
    + right. split; [lia|]. by exists before, c, after.
Qed.

(** What has been recorded stays. *)
Lemma world_step_before (w1 w2 : world (F := F)) i :
  world_step w1 w2 -> w_down w2 = None -> no_entry (w_history w2) i ->
  w_down w1 = None /\ no_entry (w_history w1) i.
Proof. destruct 1; simpl; intros ? Hno; split; try done. by eapply no_entry_app_l. Qed.

Lemma hush_run_initial i s (fs : F) now clients :
  hush_run i (initial_world s fs now) clients (initial_world s fs now clients).
Proof.
  left. split; [simpl; lia|]. exists []. split; [done|]. intros rest.
  exists (initial_world s fs now rest). by split_and!; [apply rtc_refl| |split].
Qed.

Lemma reachable_hush_run i s (fs : F) now clients w :
  rtc world_step (initial_world s fs now clients) w -> w_down w = None -> no_entry (w_history w) i ->
  hush_run i (initial_world s fs now) clients w.
Proof.
  apply (rtc_invariant world_step (fun w => w_down w = None -> no_entry (w_history w) i ->
    hush_run i (initial_world s fs now) clients w)).
  - intros w1 w2 H1' Hs Hd Hno. destruct (world_step_before w1 w2 i Hs Hd Hno) as [Hd1 Hno1].
    by eapply hush_run_step; [..|apply H1'].
  - intros _ _. apply hush_run_initial.
Qed.
End silence.
