(* ===== verification/Framing.v ===== *)
(** * The form of the responses

    Whatever a client sends, each response has one of five statuses and a
    Content-Length that is the length of its body ([framed]), so a client can
    tell where it ends.  A response that a handler made moreover has the
    version of the request and a content type, and touched a file only if its
    status is 200 ([well_handled]). *)

From S2P Require Import Prelude Cxx Logger Http Storage Handlers Api Dispatcher Session SessionCases Server World.
Local Open Scope str_scope.

Definition program_statuses : list Z := [200; 400; 401; 404; 500]%Z.

Ltac listed :=
  unfold program_statuses, status_ok, status_bad_request, status_unauthorized, status_not_found,
    status_internal_server_error; set_solver.

Section framing.
Context `{BeastHttpLaws} `{LexicalCast} {F : Type} `{FileSystem F}.

Definition framed (r : Response) : Prop := res_result r ∈ program_statuses /\ sized r.

(** The outcome of a handler on [req] and the files [fs]. *)
Definition well_handled (req : Request) (fs : F) (res : Response) (fs' : F) : Prop :=
  framed res /\ res_version res = req_version req /\
  is_Some (res_find field_content_type res) /\ (res_result res <> 200%Z -> fs' = fs).

(** ** Lemmas: the handlers *)
Lemma observed_framed r status v t body :
  observed r status v t body -> status ∈ program_statuses -> framed r.
Proof. intros Ho Hs. split; [|by eapply observed_sized]. by destruct Ho as [-> _]. Qed.

Lemma observed_well_handled req (fs : F) r status t body :
  observed r status (req_version req) t body -> status ∈ program_statuses ->
  well_handled req fs r fs.
Proof. intros Ho Hs. split; [by eapply observed_framed|]. destruct Ho as (? & ? & ? & _). split_and!; eauto. Qed.

Lemma Static_well_handled root prefix req res (fs : F) res' :
  Static_handleRequest root prefix req res fs = Ok res' -> well_handled req fs res' fs.
Proof.
  assert (well_handled req fs (file_not_found req res) fs) as Hno.
  { eapply observed_well_handled; [apply file_not_found_observed|listed]. }
  unfold Static_handleRequest.
  destruct (uncaught (fs_exists _ _)) as [b|]; run_ok; [|done]. destruct (negb b); [by intros [= <-]|].
  destruct (uncaught (fs_is_regular_file _ _)) as [r|]; run_ok; [|done]. destruct (negb r); [by intros [= <-]|].
  destruct (fs_open_read _ _) as [body|]; [|by intros [= <-]].
  destruct (path_extension _) as [ext|]; run_ok; [|done]. intros [= <-].
  eapply observed_well_handled; [apply file_found_observed|listed].
Qed.

Lemma handleRequest_well_handled h req res (fs : F) res' fs' :
  handleRequest h req res fs = Ok (res', fs') -> well_handled req fs res' fs'.
Proof.
  destruct h; simpl.
  - destruct (Static_handleRequest _ _ _ _ _) eqn:Heq; [|done]. intros [= <- <-].
    by eapply Static_well_handled.
  - intros [= <- <-]. eapply observed_well_handled; [apply Echo_observed|listed].
  - intros (? & Ht & Hst & ? & ?)%API_answers. unfold well_handled, framed. rewrite Ht.
    split_and!; try done. revert Hst. unfold api_statuses, program_statuses. set_solver.
  - intros [= <- <-]. eapply observed_well_handled; [apply Health_observed|listed].
  - intros [= <- <-]. eapply observed_well_handled; [apply Sleep_observed|listed].
  - intros [= <- <-]. eapply observed_well_handled; [apply NotFound_observed|listed].
Qed.

(** ** Lemmas: the session *)
Lemma plain_response_framed status body :
  status ∈ program_statuses -> framed (plain_response status body).
Proof.
  intros Hs. split.
  - unfold plain_response. by autorewrite with beast.
  - apply prepare_sized. autorewrite with beast. revert Hs.
    unfold program_statuses, has_payload. rewrite !elem_of_cons, elem_of_nil. lia.
Qed.

Lemma refusal_framed res : refusal res -> framed res.
Proof.
  intros [->|[->| ->]].
  - apply plain_response_framed; listed.
  - apply plain_response_framed; listed.
  - unfold unauthorized_response. split.
    + autorewrite with beast. listed.
    + apply prepare_sized. autorewrite with beast. unfold has_payload, status_unauthorized. lia.
Qed.

(** ** Lemmas: the history *)

(** An entry of the history; a target that no prefix matches is answered with
    a bare 404. *)
Definition well_answered (d : gmap str handler) (e : served) : Prop :=
  framed (sv_after e) /\
  forall h, getRequestHandler d (req_target (sv_request e)) = Some h ->
    res_version (sv_after e) = req_version (sv_request e) /\
    is_Some (res_find field_content_type (sv_after e)).

Lemma answer_with_well_answered d e (fs fs' : F) :
  answer_with d (sv_request e) (sv_before e) fs = Ok (sv_after e, fs') -> well_answered d e.
Proof.
  unfold answer_with, well_answered. destruct (getRequestHandler _ _) as [h|].
  - by intros (? & ? & ? & ?)%handleRequest_well_handled.
  - intros [= <- _]. split; [|done]. apply plain_response_framed; listed.
Qed.

Lemma serial_well_answered d cr (fs fs' : F) es :
  serial d cr fs es fs' -> Forall (well_answered d) es.
Proof.
  induction 1 as [|fs es fs1 e fs2 _ IH _ Hans]; [constructor|].
  apply Forall_app. split; [done|]. apply Forall_singleton. by eapply answer_with_well_answered.
Qed.

(** Only a request that was answered with 200 changes the files. *)
Lemma serial_unchanged d cr (fs fs' : F) es :
  serial d cr fs es fs' -> Forall (fun e => res_result (sv_after e) <> 200%Z) es -> fs' = fs.
Proof.
  induction 1 as [|fs es fs1 e fs2 _ IH _ Hans]; [done|].
  intros [Hes Hne]%Forall_app. rewrite Forall_singleton in Hne. rewrite <- (IH Hes).
  revert Hans. unfold answer_with. destruct (getRequestHandler _ _) as [h|].
  - intros (_ & _ & _ & Hfs)%handleRequest_well_handled. by apply Hfs.
  - by intros [= _ <-].
Qed.

Lemma world_framed s0 fs0 (w : world (F := F)) i l :
  world_history_ok s0 fs0 w -> w_links w !! i = Some l -> Forall framed (l_sent l).
Proof.
  intros [Hser Hacc] Hl. apply serial_well_answered in Hser.
  destruct (Hacc i l Hl) as [Hsent _]. eapply Forall_impl; [exact Hsent|].
  intros res [Href|(e & He & _ & <-)]; [by apply refusal_framed|].
  rewrite Forall_forall in Hser. by apply Hser.
Qed.
End framing.
