(* ===== verification/Scheduler.v ===== *)
(** * A scheduler for the running server

    What the operating system decides is which operation completes next, with
    which error, and at which times ([completion]); everything else is the
    program's.  [complete] computes the next world, and is exactly
    [world_step]: an executable way into the reachable worlds, for the
    examples, and the determinism of the program. *)

From S2P Require Import Prelude Cxx Http Storage Api Dispatcher Logger Session SessionCases Server World.

Inductive completion : Type :=
  | AcceptCompletes (error : option str) (now : Z)
  | ReadCompletes (i : nat) (error : option str) (now1 now2 : Z)
  | WriteCompletes (i : nat) (error : option str)
  | SignalArrives (signal : Z).

Section scheduler.
Context `{BeastHttp} `{LexicalCast} {F : Type} `{FileSystem F}.

Definition complete_accept (error : option str) (now : Z) (w : world (F := F)) : option (world (F := F)) :=
  match w_clients w, accepting (w_server w) with
  | client :: clients, sess :: rest =>
      if bool_decide (w_now w <= now)%Z then
        let s := handle_accept sess error now (accept_taken rest (w_server w)) in
        Some (World s (accept_links client (w_server w) s (w_links w)) (w_fs w) now clients
          (w_log w ++ accept_records sess (w_server w) s) (w_history w) None)
      else None
  | _, _ => None
  end.

(** What a read finds, and what it leaves of the input. *)
Definition take_input (error : option str) (input : list str) : option (str * list str) :=
  match error, input with
  | None, [] => None
  | None, bytes :: input => if bool_decide (0 < length bytes <= 4096) then Some (bytes, input) else None
  | Some _, input => Some ([], input)
  end.

Definition complete_read (i : nat) (l : link) (error : option str) (now1 now2 : Z) (w : world (F := F)) :
    option (world (F := F)) :=
  '(bytes, input) ← take_input error (l_input l);
  if bool_decide (0 < reads (socket_ (l_session l))) && bool_decide (w_now w <= now1 <= now2)%Z then
    match handle_read_callback error bytes now1 now2 (finish_read (l_session l)) (w_fs w) with
    | Ok (r, s', fs') =>
        Some (World (w_server w)
          (<[i := Link s' input (l_sent l) (late_reads now1 l)]> (w_links w)) fs' now2
          (w_clients w) (w_log w ++ new_records (l_session l) s')
          (w_history w ++ history_entry i r (l_session l) bytes s') None)
    | Fault f =>
        Some (World (w_server w) (w_links w) (w_fs w) now2 (w_clients w)
          (w_log w ++ crash_records (l_session l) bytes) (w_history w) (Some (Crashed f)))
    end
  else None.

Definition complete_write (i : nat) (l : link) (error : option str) (w : world (F := F)) :
    option (world (F := F)) :=
  if bool_decide (0 < writes (socket_ (l_session l))) then
    Some (World (w_server w)
      (<[i := Link (handle_write_callback error (finish_write (l_session l))).2 (l_input l)
         (match error with
          | None => l_sent l ++ [response_ (l_session l)]
          | Some _ => l_sent l
          end) (l_late l)]> (w_links w)) (w_fs w) (w_now w) (w_clients w)
      (w_log w ++ new_records (l_session l)
        (handle_write_callback error (finish_write (l_session l))).2) (w_history w) None)
  else None.

Definition take_signal (signal : Z) (w : world (F := F)) : world (F := F) :=
  World (w_server w) (w_links w) (w_fs w) (w_now w) (w_clients w)
    (w_log w ++ (signalHandler signal).1) (w_history w) (Some (Exited (signalHandler signal).2)).

Definition complete (c : completion) (w : world (F := F)) : option (world (F := F)) :=
  match w_down w with
  | Some _ => None
  | None =>
      match c with
      | AcceptCompletes err now => complete_accept err now w
      | ReadCompletes i err now1 now2 => l ← w_links w !! i; complete_read i l err now1 now2 w
      | WriteCompletes i err => l ← w_links w !! i; complete_write i l err w
      | SignalArrives signal => Some (take_signal signal w)
      end
  end.

Fixpoint complete_all (cs : list completion) (w : world (F := F)) : option (world (F := F)) :=
  match cs with
  | [] => Some w
  | c :: cs => w ← complete c w; complete_all cs w
  end.

(** ** Lemmas *)
Lemma take_input_arrives error input bytes input' :
  take_input error input = Some (bytes, input') <-> arrives error bytes input input'.
Proof.
  split.
  - unfold take_input. destruct error as [m|]; [intros [= <- <-]; constructor|].
    destruct input as [|b input]; [done|]. case_bool_decide; [|done]. intros [= <- <-]. by constructor.
  - intros [b input1 Hb|m input1]; [|done]. simpl. by rewrite bool_decide_true.
Qed.

Lemma complete_step c w w' : complete c w = Some w' -> world_step w w'.
Proof.
  unfold complete. destruct (w_down w) eqn:Hdown; [done|].
  destruct c as [err now|i err now1 now2|i err|signal].
  - unfold complete_accept. destruct (w_clients w) as [|client clients] eqn:Hc; [done|].
    destruct (accepting (w_server w)) as [|sess rest] eqn:Ha; [done|].
    case_bool_decide; [|done]. intros [= <-]. by apply world_accept.
  - intros (l & Hl & ([bytes input] & Hin%take_input_arrives & Hr)%bind_Some)%bind_Some.
    destruct (_ && _) eqn:E; [|done].
    rewrite andb_true_iff, !bool_decide_eq_true in E. destruct E as [Hreads Hb].
    destruct (handle_read_callback _ _ _ _ _ _) as [[[r s'] fs']|f] eqn:Heq; injection Hr as <-.
    + by eapply world_read.
    + by eapply world_crash.
  - intros (l & Hl & Hw)%bind_Some. unfold complete_write in Hw. case_bool_decide; [|done].
    injection Hw as <-. by apply world_write.
  - intros [= <-]. by apply world_signal.
Qed.

Lemma step_complete w w' : world_step w w' -> exists c, complete c w = Some w'.
Proof.
  unfold complete.
  intros [w0 client clients sess rest err now Hd Hc Ha Hn
    |w0 i l err bytes rest now1 now2 r s' fs' Hd Hi Hr Ha%take_input_arrives Hn Heq
    |w0 i l err bytes rest now1 now2 f Hd Hi Hr Ha%take_input_arrives Hn Heq|w0 i l err Hd Hi Hw|w0 signal Hd].
  - exists (AcceptCompletes err now). unfold complete_accept. by rewrite Hd, Hc, Ha, bool_decide_true.
  - exists (ReadCompletes i err now1 now2). rewrite Hd, Hi. simpl. unfold complete_read.
    rewrite Ha. simpl. by rewrite !bool_decide_true, Heq.
  - exists (ReadCompletes i err now1 now2). rewrite Hd, Hi. simpl. unfold complete_read.
    rewrite Ha. simpl. by rewrite !bool_decide_true, Heq.
  - exists (WriteCompletes i err). rewrite Hd, Hi. simpl. unfold complete_write.
    by rewrite bool_decide_true.
  - exists (SignalArrives signal). by rewrite Hd.
Qed.

Lemma complete_all_reachable w w' : rtc world_step w w' <-> exists cs, complete_all cs w = Some w'.
Proof.
  split.
  - induction 1 as [w|w1 w2 w3 Hs _ [cs Hcs]]; [by exists []|].
    destruct (step_complete w1 w2 Hs) as [c Hc]. exists (c :: cs). simpl. by rewrite Hc.
  - intros [cs Hcs]. revert w Hcs. induction cs as [|c cs IH]; intros w; simpl; [by intros [= ->]|].
    intros (w1 & Hw1 & Hw')%bind_Some. eapply rtc_l; [by eapply complete_step|by apply IH].
Qed.

(** ** Runs without errors *)
Inductive event : Type := EvAccept | EvRead (i : nat) | EvWrite (i : nat) | EvSignal (signal : Z).

Definition event_completion (e : Z * event) : completion :=
  match e with
  | (now, EvAccept) => AcceptCompletes None now
  | (now, EvRead i) => ReadCompletes i None now now
  | (_, EvWrite i) => WriteCompletes i None
  | (_, EvSignal signal) => SignalArrives signal
  end.

Definition run_events (evs : list (Z * event)) (w : world (F := F)) : option (world (F := F)) :=
  complete_all (map event_completion evs) w.

Lemma run_events_reachable evs w w' : run_events evs w = Some w' -> rtc world_step w w'.
Proof. intros Hr. apply complete_all_reachable. by eexists. Qed.
End scheduler.
