(* ===== verification/History.v ===== *)
(** * The data behind a history of requests

    The requests that the connections of a server bring to its API handler
    act on one table of entities, whatever the connections and the order:
    [api_trace] runs the abstract specification of the API ([Api.v]) along a
    history, and every history of the server follows it. *)

From S2P Require Import Prelude Cxx Http Storage Handlers Api Dispatcher Session SessionCases Server World.
Local Open Scope str_scope.

(** The handlers that do not write files. *)
Definition is_api (h : option handler) : bool :=
  match h with Some (HandlerAPI _ _) => true | _ => false end.

Section history.
Context `{BeastHttp} `{LexicalCast} {F : Type} `{FileSystem F}.
Context (d : gmap str handler) (base prefix : str) (entity_ok : str -> Prop).

(** The tables along a history: a request of the API handler below [prefix]
    makes a call, with its status and body; any other request leaves the
    table as it is. *)
Inductive api_trace : table -> list served -> list (option (Z * str)) -> table -> Prop :=
  | trace_nil lk : api_trace lk [] [] lk
  | trace_other lk es outs lk' e :
      api_trace lk es outs lk' ->
      is_api (getRequestHandler d (req_target (sv_request e))) = false ->
      api_trace lk (es ++ [e]) (outs ++ [None]) lk'
  | trace_call lk es outs lk1 e call status body lk2 :
      api_trace lk es outs lk1 ->
      getRequestHandler d (req_target (sv_request e)) = Some (HandlerAPI base prefix) ->
      makes_call prefix call (sv_request e) -> entity_ok (call_entity call) ->
      api_step (res_body (sv_before e)) lk1 call status body lk2 ->
      api_trace lk (es ++ [e]) (outs ++ [Some (status, body)]) lk2.

Lemma api_trace_nil_inv lk outs lk' : api_trace lk [] outs lk' -> outs = [] /\ lk' = lk.
Proof.
  intros Ht. remember [] as es eqn:He. destruct Ht as [|? es|? es]; [done|by destruct es..].
Qed.

Lemma api_trace_snoc_inv lk es e outs lk' :
  api_trace lk (es ++ [e]) outs lk' ->
  exists outs' out lk1, outs = outs' ++ [out] /\ api_trace lk es outs' lk1 /\
    ((out = None /\ is_api (getRequestHandler d (req_target (sv_request e))) = false /\ lk' = lk1) \/
     exists call status body, out = Some (status, body) /\
       getRequestHandler d (req_target (sv_request e)) = Some (HandlerAPI base prefix) /\
       makes_call prefix call (sv_request e) /\ entity_ok (call_entity call) /\
       api_step (res_body (sv_before e)) lk1 call status body lk').
Proof.
  intros Ht. remember (es ++ [e]) as es1 eqn:Hes.
  destruct Ht as [lk|lk es' outs lk' e' Ht Hno|lk es' outs lk1 e' call status body lk2 Ht Hh Hc Hok Hs].
  - by destruct es.
  - apply app_inj_tail in Hes as [-> ->]. exists outs, None, lk'. split_and!; [done..|]. by left.
  - apply app_inj_tail in Hes as [-> ->]. exists outs, (Some (status, body)), lk1.
    split_and!; [done..|]. right. by exists call, status, body.
Qed.

(** What the client of an entry observes. *)
Definition entry_observed (e : served) (out : option (Z * str)) : Prop :=
  match out with
  | Some (status, body) =>
      observed (sv_after e) status (req_version (sv_request e)) "application/json" body
  | None => True
  end.

Lemma handleRequest_same_files h req res (fs fs' : F) res' :
  is_api (Some h) = false -> handleRequest h req res fs = Ok (res', fs') -> fs' = fs.
Proof.
  destruct h; simpl; try (by intros _ [=]); [|done].
  intros _. destruct (Static_handleRequest _ _ _ _ _); simpl; [by intros [= _ ->]|done].
Qed.

Lemma answer_with_same_files req res (fs fs' : F) res' :
  is_api (getRequestHandler d (req_target req)) = false ->
  answer_with d req res fs = Ok (res', fs') -> fs' = fs.
Proof.
  unfold answer_with. destruct (getRequestHandler d (req_target req)) as [h|]; [|by intros _ [=]].
  apply handleRequest_same_files.
Qed.

Context {beast_laws : BeastHttpLaws _} {cast_laws : LexicalCastLaws _}.
Context {laws : CrudLaws (CRUDHandler base) entity_ok (stored base)}.
Context {slash : CrudSlash (CRUDHandler base) entity_ok}.
Context (names : forall e, entity_ok e -> entity_name e).

(** One request of the API handler, on any response object. *)
Lemma API_handleRequest_agrees req res (fs : F) lk call status body lk' :
  makes_call prefix call req -> entity_ok (call_entity call) ->
  (forall e id, entity_ok e -> stored base fs e id = lk e id) ->
  api_step (res_body res) lk call status body lk' ->
  exists res' fs', API_handleRequest (crud_handler_ := CRUDHandler base) prefix req res fs
      = Ok (res', fs') /\
    observed res' status (req_version req) "application/json" body /\
    forall e id, entity_ok e -> stored base fs' e id = lk' e id.
Proof.
  intros Hcall Hok Ha Hstep. unfold API_handleRequest.
  apply (call_agrees (crud := CRUDHandler base) names prefix req _ fs) with (call := call) (lk := lk);
    by autorewrite with beast.
Qed.

Lemma serial_api_trace cr (fs fs' : F) es lk outs lk' :
  serial d cr fs es fs' -> api_trace lk es outs lk' ->
  (forall e id, entity_ok e -> stored base fs e id = lk e id) ->
  Forall2 entry_observed es outs /\
  forall e id, entity_ok e -> stored base fs' e id = lk' e id.
Proof.
  intros Hs Ht Ha. revert outs lk' Ht.
  induction Hs as [fs|fs es fs1 e fs2 Hs IH _ Hans]; intros outs lk' Ht.
  - apply api_trace_nil_inv in Ht as [-> ->]. done.
  - apply api_trace_snoc_inv in Ht as (outs' & out & lk1 & -> & Ht & Hcase).
    destruct (IH Ha _ _ Ht) as [Hobs Hag].
    destruct Hcase as [(-> & Hno & ->)|(call & status & body & -> & Hh & Hcall & Hok & Hstep)].
    + apply answer_with_same_files in Hans as ->; [|done]. split; [|done].
      apply Forall2_app; [done|]. by repeat constructor.
    + unfold answer_with in Hans. rewrite Hh in Hans. simpl in Hans.
      destruct (API_handleRequest_agrees (sv_request e) (sv_before e) fs1 lk1 call status body lk')
        as (res' & fs' & Heq & Hres & Hag'); [done..|].
      rewrite Heq in Hans. injection Hans as E1 E2. rewrite E1 in Hres. rewrite E2 in Hag'.
      split; [|done].
      apply Forall2_app; [done|]. constructor; [exact Hres|constructor].
Qed.
End history.
