(* ===== verification/Guarantees.v ===== *)
(** * What the API promises to a client over several requests

    The abstract API ([api_step], [api_trace]) from a client's point of view:
    an entity that was created stays as it is until a request changes it, ids
    are not given out twice, and the list of ids is a JSON array that can be
    read back. *)

From S2P Require Import Prelude Cxx Http Storage Handlers Api Dispatcher Session SessionCases Server World History.
Local Open Scope str_scope.

(** ** Reading the list of ids *)

(** A reader of ["[1, 2, ...]"]: [acc] is the number being read. *)
Fixpoint read_elements (acc : option Z) (t : str) : option (list Z) :=
  match t with
  | [] => None
  | c :: t' =>
      if isdigit c then read_elements (Some (10 * default 0 acc + (code c - 48))%Z) t'
      else if bool_decide (c = "]"%char) then
        if bool_decide (t' = []) then Some (option_list acc) else None
      else if bool_decide (c = ","%char) then
        match acc, t' with
        | Some z, d :: t'' =>
            if bool_decide (d = " "%char) then cons z <$> read_elements None t'' else None
        | _, _ => None
        end
      else None
  end.

Definition read_ids (t : str) : option (list Z) :=
  match t with
  | c :: t' => if bool_decide (c = "["%char) then read_elements None t' else None
  | [] => None
  end.

Lemma read_elements_digits ds : Forall (fun c => isdigit c = true) ds ->
  forall acc c rest, isdigit c = false -> ds <> [] ->
  read_elements acc (ds ++ c :: rest) =
  read_elements (Some (digits_value (default 0%Z acc) ds)) (c :: rest).
Proof.
  induction 1 as [|d ds Hd Hds IH]; intros acc c rest Hc Hne; [done|].
  cbn [app read_elements digits_value]. rewrite Hd. destruct ds as [|d' ds].
  - done.
  - rewrite IH by done. done.
Qed.

Lemma read_elements_number z c rest :
  (0 <= z)%Z -> isdigit c = false ->
  read_elements None (to_string z ++ c :: rest) = read_elements (Some z) (c :: rest).
Proof.
  intros Hz Hc. rewrite to_string_nonneg by done.
  destruct (nonneg_to_string_spec z Hz) as (Hne & Hd & _).
  rewrite read_elements_digits by done. simpl default.
  by rewrite digits_value_nonneg_to_string.
Qed.

Lemma ids_from_cons id n : (1 < id)%Z -> ids_from id (S n) = ", " ++ to_string id ++ ids_from (id + 1) n.
Proof. intros Hid. simpl. by rewrite bool_decide_true. Qed.

Lemma read_elements_from n : forall id, (0 < id)%Z ->
  read_elements None (to_string id ++ ids_from (id + 1) n ++ "]") = Some (seqZ id (Z.of_nat (S n))).
Proof.
  induction n as [|n IH]; intros id Hid.
  - simpl ids_from. rewrite app_nil_l, read_elements_number by (done || lia). done.
  - rewrite ids_from_cons by lia. rewrite <- !app_assoc.
    change (", " ++ to_string (id + 1) ++ ids_from (id + 1 + 1) n ++ "]")
      with (","%char :: " "%char :: to_string (id + 1) ++ ids_from (id + 1 + 1) n ++ "]").
    rewrite read_elements_number by (done || lia).
    cbn [read_elements]. simpl isdigit. cbn iota. rewrite !bool_decide_false, !bool_decide_true by done.
    rewrite IH by lia. simpl. rewrite (seqZ_cons id) by lia.
    do 3 f_equal. lia.
Qed.

Lemma read_ids_json n : read_ids (ids_json n) = Some (seqZ 1 (Z.of_nat n)).
Proof.
  unfold ids_json, read_ids. cbn [app]. rewrite bool_decide_true by done.
  destruct n as [|n]; [done|]. change (ids_from 1 (S n)) with (to_string 1 ++ ids_from (1 + 1) n).
  rewrite <- app_assoc. by apply read_elements_from.
Qed.

(** An id is listed when it and all before it are in use. *)
Lemma listed_iff (lk : table) e n id : first_free lk e n ->
  id ∈ seqZ 1 (Z.of_nat (Z.to_nat (n - 1))) <->
  (1 <= id)%Z /\ forall j, (1 <= j <= id)%Z -> is_Some (lk e j).
Proof.
  intros (Hn & Hfree & Hused). rewrite elem_of_seqZ. split.
  - intros Hid. split; [lia|]. intros j Hj. apply Hused. lia.
  - intros [Hid Hall]. split; [done|]. destruct (decide (id < n)%Z); [lia|].
    destruct (Hall n) as [d Hd]; [lia|]. congruence.
Qed.

(** ** The call a request makes *)
Lemma id_json_inj id1 id2 : id_json id1 = id_json id2 -> id1 = id2.
Proof.
  unfold id_json. intros Heq. apply to_string_inj.
  simpl in Heq. injection Heq as Heq. by apply app_inv_tail in Heq.
Qed.

Section calls.
Context `{BeastHttp} (prefix : str).

(** The path of an id is not that of an entity, and determines both. *)
Lemma entity_path_inj (e1 e2 : str) id1 id2 :
  "/"%char ∉ e1 -> "/"%char ∉ e2 ->
  prefix ++ "/" ++ e1 ++ "/" ++ to_string id1 = prefix ++ "/" ++ e2 ++ "/" ++ to_string id2 ->
  e1 = e2 /\ id1 = id2.
Proof.
  intros H1' H2' Heq. apply app_inv_head, app_inv_head in Heq.
  change (e1 ++ "/"%char :: to_string id1 = e2 ++ "/"%char :: to_string id2) in Heq.
  pose proof (find_char_app "/" e1 (to_string id1) H1') as E1.
  rewrite Heq, (find_char_app "/" e2 (to_string id2) H2') in E1. injection E1 as E1.
  apply app_inj_1 in Heq as [-> Heq]; [|lia]. injection Heq as Heq. split; [done|].
  by apply to_string_inj.
Qed.

Lemma entity_path_ne (e1 e2 : str) id2 :
  "/"%char ∉ e1 -> prefix ++ "/" ++ e1 <> prefix ++ "/" ++ e2 ++ "/" ++ to_string id2.
Proof.
  intros H1' Heq. apply app_inv_head, app_inv_head in Heq. subst e1. apply H1'.
  apply elem_of_app. right. by left.
Qed.

(** A request makes one call at most. *)
Lemma makes_call_inj (c1 c2 : api_call) req :
  entity_name (call_entity c1) -> entity_name (call_entity c2) ->
  makes_call prefix c1 req -> makes_call prefix c2 req -> c1 = c2.
Proof.
  intros [H1' _] [H2' _] Hc1 Hc2.
  destruct c1 as [e1 d1|e1|e1 i1|e1 i1 d1|e1 i1], c2 as [e2 d2|e2|e2 i2|e2 i2 d2|e2 i2];
    cbn [makes_call call_entity] in *; destruct_and!; try congruence.
  - assert (e1 = e2) as -> by (apply (app_inv_head (prefix ++ "/")); rewrite <- !app_assoc; congruence).
    congruence.
  - assert (e1 = e2) as -> by (apply (app_inv_head (prefix ++ "/")); rewrite <- !app_assoc; congruence).
    done.
  - exfalso. by apply (entity_path_ne e1 e2 i2); [|congruence].
  - exfalso. by apply (entity_path_ne e2 e1 i1); [|congruence].
  - destruct (entity_path_inj e1 e2 i1 i2) as [-> ->]; congruence.
  - destruct (entity_path_inj e1 e2 i1 i2) as [-> ->]; congruence.
  - destruct (entity_path_inj e1 e2 i1 i2) as [-> ->]; congruence.
Qed.
End calls.

(** The calls that change what an id holds once it is in use. *)
Definition overwrites (e : str) (id : Z) (call : api_call) : Prop :=
  match call with
  | Update e' id' _ | Delete e' id' => e' = e /\ id' = id
  | _ => False
  end.

Lemma api_step_keeps old_body lk call status body lk' e id d :
  api_step old_body lk call status body lk' -> lk e id = Some d -> ~ overwrites e id call ->
  lk' e id = Some d.
Proof.
  intros Hs Hd Hno.
  assert (forall e' id' v, (e, id) <> (e', id') -> set_entry lk e' id' v e id = Some d) as Hset.
  { intros e' id' v Hne. unfold set_entry. by rewrite decide_False. }
  destruct Hs as [e' d' id' (_ & Hfree & _)| | | |e' id' d' _ _| |e' id' _ _|]; try done.
  - apply Hset. intros [= -> ->]. congruence.
  - apply Hset. intros [= -> ->]. by destruct Hno.
  - apply Hset. intros [= -> ->]. by destruct Hno.
Qed.

(** ** Along a history *)
Section history.
Context `{BeastHttp} `{LexicalCast} {F : Type} `{FileSystem F}.
Context (d : gmap str handler) (base prefix : str) (entity_ok : str -> Prop).
Context (names : forall e, entity_ok e -> entity_name e).

Abbreviation trace := (api_trace d base prefix entity_ok).

Lemma api_trace_app_inv es1 es2 : forall lk outs lk',
  trace lk (es1 ++ es2) outs lk' ->
  exists outs1 outs2 lk1, outs = outs1 ++ outs2 /\ trace lk es1 outs1 lk1 /\ trace lk1 es2 outs2 lk'.
Proof.
  induction es2 as [|e es2 IH] using rev_ind; intros lk outs lk' Ht.
  - rewrite app_nil_r in Ht. exists outs, [], lk'. rewrite app_nil_r. split_and!; [done..|constructor].
  - rewrite app_assoc in Ht.
    apply api_trace_snoc_inv in Ht as (outs' & out & lk2 & -> & Ht & Hcase).
    destruct (IH _ _ _ Ht) as (outs1 & outs2 & lk1 & -> & H1' & H2').
    exists outs1, (outs2 ++ [out]), lk1. rewrite app_assoc. split_and!; [done..|].
    destruct Hcase as [(-> & Hno & ->)|(call & status & body & -> & Hh & Hc & Hok & Hs)].
    + by apply trace_other.
    + by eapply trace_call.
Qed.

(** One request of the API handler in a history. *)
Lemma api_trace_call_inv lk e outs lk' call :
  trace lk [e] outs lk' -> getRequestHandler d (req_target (sv_request e)) = Some (HandlerAPI base prefix) ->
  makes_call prefix call (sv_request e) -> entity_ok (call_entity call) ->
  exists status body, outs = [Some (status, body)] /\
    api_step (res_body (sv_before e)) lk call status body lk'.
Proof.
  intros Ht Hh Hc Hok. apply (api_trace_snoc_inv _ _ _ _ _ []) in Ht as (outs' & out & lk1 & -> & Ht & Hcase).
  apply api_trace_nil_inv in Ht as [-> ->].
  destruct Hcase as [(_ & Hno & _)|(call' & status & body & -> & _ & Hc' & Hok' & Hs)].
  - by rewrite Hh in Hno.
  - exists status, body. split; [done|].
    by rewrite (makes_call_inj prefix call call' (sv_request e)) by auto.
Qed.

Lemma api_trace_keeps e id v es : forall lk outs lk',
  trace lk es outs lk' -> lk e id = Some v ->
  (forall x call, x ∈ es -> makes_call prefix call (sv_request x) -> ~ overwrites e id call) ->
  lk' e id = Some v.
Proof.
  intros lk outs lk' Ht Hv Hno.
  induction Ht as [lk|lk es outs lk' x Ht IH|lk es outs lk1 x call status body lk2 Ht IH Hh Hc Hok Hs].
  - done.
  - apply IH; [done|]. intros y call Hy. apply Hno, elem_of_app. by left.
  - eapply api_step_keeps; [done| |].
    + apply IH; [done|]. intros y call' Hy. apply Hno, elem_of_app. by left.
    + apply (Hno x); [|done]. apply elem_of_app. right. by apply list_elem_of_singleton.
Qed.

Lemma api_trace_length lk es outs lk' : trace lk es outs lk' -> length es = length outs.
Proof. induction 1; rewrite ?length_app; simpl; congruence. Qed.

(** A request in the middle of a history. *)
Lemma api_trace_middle lk es1 e es2 outs lk' call :
  trace lk (es1 ++ e :: es2) outs lk' -> Forall2 entry_observed (es1 ++ e :: es2) outs ->
  getRequestHandler d (req_target (sv_request e)) = Some (HandlerAPI base prefix) ->
  makes_call prefix call (sv_request e) -> entity_ok (call_entity call) ->
  exists lk1 lk2 outs1 outs2 status body,
    trace lk es1 outs1 lk1 /\ api_step (res_body (sv_before e)) lk1 call status body lk2 /\
    trace lk2 es2 outs2 lk' /\ Forall2 entry_observed es2 outs2 /\
    observed (sv_after e) status (req_version (sv_request e)) "application/json" body.
Proof.
  intros Ht Hobs Hh Hc Hok. change (e :: es2) with ([e] ++ es2) in *.
  apply api_trace_app_inv in Ht as (outs1 & outs' & lk1 & -> & Ht1 & Ht).
  apply api_trace_app_inv in Ht as (outs2 & outs3 & lk2 & -> & Ht2 & Ht3).
  destruct (api_trace_call_inv _ _ _ _ _ Ht2 Hh Hc Hok) as (status & body & -> & Hs).
  apply Forall2_app_inv in Hobs as [_ Hobs]; [|by eapply api_trace_length].
  apply Forall2_cons in Hobs as [Hobs Hobs3].
  exists lk1, lk2, outs1, outs3, status, body. by split_and!.
Qed.
End history.
