(* ===== verification/Instances.v ===== *)
(** * Concrete instances of the interfaces

    Executable implementations of the third-party interfaces, which satisfy
    their laws: requests and responses as records and a small HTTP/1 parser,
    a file system in memory, and the conversion of decimal numbers.  The
    examples run the program on them. *)

From S2P Require Import Prelude Cxx Http Storage Api.
Local Open Scope str_scope.

(** ** Requests and responses *)
Record request : Type := Req {
  r_method_string : str;
  r_target : str;
  r_version : Z;
  r_fields : list (str * str);
  r_body : str
}.

Record response : Type := Res {
  s_status : Z;
  s_version : Z;
  s_body : str;
  s_fields : field -> option str
}.

Definition field_name (f : field) : str :=
  match f with
  | field_authorization => "Authorization"
  | field_content_type => "Content-Type"
  | field_content_length => "Content-Length"
  | field_server => "Server"
  | field_www_authenticate => "WWW-Authenticate"
  end.

Fixpoint find_field (name : str) (fields : list (str * str)) : option str :=
  match fields with
  | [] => None
  | (n, v) :: fields => if decide (n = name) then Some v else find_field name fields
  end.

Definition method_of (m : str) : verb :=
  if decide (m = "GET") then verb_get
  else if decide (m = "POST") then verb_post
  else if decide (m = "PUT") then verb_put
  else if decide (m = "DELETE") then verb_delete
  else verb_other.

Definition set_field (f : field) (v : str) (r : response) : response :=
  Res (s_status r) (s_version r) (s_body r)
    (fun g => if decide (g = f) then Some v else s_fields r g).

Definition payload_status (s : Z) : bool :=
  bool_decide (200 <= s)%Z && negb (bool_decide (s = 204)%Z) && negb (bool_decide (s = 304)%Z).

Definition prepare (r : response) : response :=
  if payload_status (s_status r)
  then set_field field_content_length (to_string (size_of (s_body r))) r
  else r.

(** ** A parser of HTTP/1 requests *)

(** The bytes up to the first CR LF, and what follows it. *)
Fixpoint take_line (b : str) : option (str * str) :=
  match b with
  | [] => None
  | c :: b' =>
      match b' with
      | d :: b'' =>
          if decide (c = CR /\ d = NL) then Some ([], b'')
          else prod_map (cons c) id <$> take_line b'
      | [] => None
      end
  end.

Definition split_at (c : ascii) (s : str) : option (str * str) :=
  match find_char c s with
  | Some i => Some (take i s, drop (S i) s)
  | None => None
  end.

(** ["Name: value"] *)
Definition parse_field (line : str) : option (str * str) :=
  '(n, v) ← split_at ":" line;
  match v with
  | c :: v' => if decide (c = " "%char) then Some (n, v') else Some (n, v)
  | [] => Some (n, [])
  end.

(** The fields up to the empty line; [inl true] asks for more input. *)
Fixpoint parse_fields (fuel : nat) (b : str) : bool + (list (str * str) * str) :=
  match fuel with
  | O => inl false
  | S fuel =>
      match take_line b with
      | None => inl true
      | Some ([], rest) => inr ([], rest)
      | Some (line, rest) =>
          match parse_field line, parse_fields fuel rest with
          | Some f, inr (fs, rest) => inr (f :: fs, rest)
          | None, _ => inl false
          | _, inl more => inl more
          end
      end
  end.

Definition max_fields : nat := 100.

Definition parse_version (v : str) : option Z :=
  if decide (v = "HTTP/1.1") then Some 11%Z
  else if decide (v = "HTTP/1.0") then Some 10%Z else None.

Definition parse_start_line (line : str) : option (str * str * Z) :=
  '(m, r) ← split_at " " line;
  '(t, v) ← split_at " " r;
  version ← parse_version v;
  Some (m, t, version).

Definition parse_decimal (s : str) : option Z :=
  if bool_decide (s <> []) && forallb isdigit s then Some (digits_value 0 s) else None.

Definition content_length (fs : list (str * str)) : option Z :=
  match find_field (field_name field_content_length) fs with
  | None => Some 0%Z
  | Some v => parse_decimal v
  end.

Definition put (b : str) : put_result request :=
  match take_line b with
  | None => PutMore
  | Some (line, rest) =>
      match parse_start_line line with
      | None => PutError "bad request line"
      | Some (m, t, version) =>
          match parse_fields max_fields rest with
          | inl more => if more then PutMore else PutError "bad field"
          | inr (fs, rest) =>
              match content_length fs with
              | None => PutError "bad Content-Length"
              | Some n =>
                  if bool_decide (n <= size_of rest)%Z
                  then PutDone (Req m t version fs (take (Z.to_nat n) rest))
                  else PutMore
              end
          end
      end
  end.

#[export] Instance record_http : BeastHttp := {
  Request := request;
  req_method r := method_of (r_method_string r);
  req_method_string := r_method_string;
  req_target := r_target;
  req_version := r_version;
  req_body := r_body;
  req_fields := r_fields;
  req_find f r := find_field (field_name f) (r_fields r);
  req_set f v r := Req (r_method_string r) (r_target r) (r_version r)
    ((field_name f, v) :: r_fields r) (r_body r);
  Response := response;
  default_response := Res 200 11 [] (fun _ => None);
  new_response s v := Res s v [] (fun _ => None);
  res_result := s_status;
  res_set_result s r := Res s (s_version r) (s_body r) (s_fields r);
  res_version := s_version;
  res_set_version v r := Res (s_status r) v (s_body r) (s_fields r);
  res_body := s_body;
  res_set_body b r := Res (s_status r) (s_version r) b (s_fields r);
  res_find f r := s_fields r f;
  res_set := set_field;
  res_content_length n r := set_field field_content_length (to_string n) r;
  res_prepare_payload := prepare;
  parser_put := put
}.

Lemma prepare_cases r :
  prepare r = r \/ prepare r = set_field field_content_length (to_string (size_of (s_body r))) r.
Proof. unfold prepare. destruct (payload_status _); auto. Qed.

Lemma payload_status_true s : has_payload s -> payload_status s = true.
Proof.
  intros (H1 & H2 & H3). unfold payload_status.
  by rewrite bool_decide_true, !bool_decide_false by done.
Qed.

#[export] Instance record_http_laws : BeastHttpLaws record_http.
Proof.
  split; intros; simpl in *; try done;
    try (case_decide; congruence);
    try (destruct (prepare_cases r) as [-> | ->]; simpl; try done; case_decide; congruence).
  unfold prepare. by rewrite payload_status_true by done.
Qed.

(** What follows a complete message does not change it. *)
Class BeastParserLaws (B : BeastHttp) : Prop :=
  parser_put_more b r x : parser_put b = PutDone r -> parser_put (b ++ x) = PutDone r.

Lemma take_line_app b x : forall l r, take_line b = Some (l, r) -> take_line (b ++ x) = Some (l, r ++ x).
Proof.
  induction b as [|c [|d b''] IH]; intros l r; [done|done|].
  change ((c :: d :: b'') ++ x) with (c :: (d :: b'') ++ x).
  cbn [take_line app]. case_decide; [by intros [= <- <-]|].
  rewrite fmap_Some. intros ([l' r'] & Ht & [= -> ->]).
  specialize (IH l' r' Ht). simpl in IH. by rewrite IH.
Qed.

Lemma parse_fields_app x fuel : forall b fs r,
  parse_fields fuel b = inr (fs, r) -> parse_fields fuel (b ++ x) = inr (fs, r ++ x).
Proof.
  induction fuel as [|fuel IH]; intros b fs r; simpl; [done|].
  destruct (take_line b) as [[line rest]|] eqn:Ht; [|done].
  rewrite (take_line_app _ x _ _ Ht). destruct line as [|c line]; [by intros [= <- <-]|].
  destruct (parse_field _) as [f|]; [|done].
  destruct (parse_fields fuel rest) as [|[fs' r']] eqn:Hp; [done|].
  intros [= <- <-]. by rewrite (IH _ _ _ Hp).
Qed.

#[export] Instance record_http_parser_laws : BeastParserLaws record_http.
Proof.
  intros b r x. simpl. unfold put.
  destruct (take_line b) as [[line rest]|] eqn:Ht; [|done].
  rewrite (take_line_app _ x _ _ Ht).
  destruct (parse_start_line line) as [[[m t] v]|]; [|done].
  destruct (parse_fields max_fields rest) as [[]|[fs rest']] eqn:Hf; [done..|].
  rewrite (parse_fields_app x _ _ _ _ Hf).
  destruct (content_length fs) as [n|]; [|done].
  case_bool_decide as Hn; [|done]. intros [= <-]. unfold size_of in *.
  rewrite bool_decide_true by (rewrite length_app; lia).
  rewrite take_app_le by lia. done.
Qed.

(** ** A parser that stops after the header

    As [put] of a parser without [eager(true)]: an incomplete header is an
    error, and a message with a body is not complete. *)
Definition put_header (b : str) : put_result request :=
  match take_line b with
  | None => PutError "need more"
  | Some (line, rest) =>
      match parse_start_line line with
      | None => PutError "bad request line"
      | Some (m, t, version) =>
          match parse_fields max_fields rest with
          | inl more => if more then PutError "need more" else PutError "bad field"
          | inr (fs, rest) =>
              match content_length fs with
              | None => PutError "bad Content-Length"
              | Some n =>
                  if bool_decide (n <= 0)%Z then PutDone (Req m t version fs []) else PutMore
              end
          end
      end
  end.

Definition header_http : BeastHttp :=
  Build_BeastHttp request
    (@req_method record_http) (@req_method_string record_http) (@req_target record_http)
    (@req_version record_http) (@req_body record_http) (@req_fields record_http)
    (@req_find record_http) (@req_set record_http)
    response (@default_response record_http) (@new_response record_http)
    (@res_result record_http) (@res_set_result record_http) (@res_version record_http)
    (@res_set_version record_http) (@res_body record_http) (@res_set_body record_http)
    (@res_find record_http) (@res_set record_http) (@res_content_length record_http)
    (@res_prepare_payload record_http) put_header.

Definition starts_line (b : str) : bool :=
  match b with c :: d :: _ => bool_decide (c = CR /\ d = NL) | _ => false end.

Lemma header_end_prefix c d b :
  bool_decide (HEADER_END `prefix_of` (c :: d :: b)) = bool_decide (c = CR /\ d = NL) && starts_line b.
Proof.
  unfold HEADER_END. destruct b as [|e [|f b]]; simpl; rewrite ?andb_false_r.
  1-2: apply bool_decide_false; intros Hp%prefix_length; simpl in Hp; lia.
  rewrite <- bool_decide_and. apply bool_decide_ext. split.
  - intros [k Hk]. naive_solver.
  - intros [[-> ->] [-> ->]]. by exists b.
Qed.

Lemma take_line_cons c d b :
  take_line (c :: d :: b) =
  if decide (c = CR /\ d = NL) then Some ([], b) else prod_map (cons c) id <$> take_line (d :: b).
Proof. done. Qed.

Lemma take_line_empty b :
  starts_line b = match take_line b with Some ([], _) => true | _ => false end.
Proof.
  destruct b as [|c [|d b]]; [done|done|]. rewrite take_line_cons. cbn [starts_line].
  destruct (decide (c = CR /\ d = NL)); [by rewrite bool_decide_true|].
  rewrite bool_decide_false by done. by destruct (take_line (d :: b)) as [[]|].
Qed.

Lemma take_line_header_end b :
  has_header_end b =
  match take_line b with
  | Some (_, rest) => starts_line rest || has_header_end rest
  | None => false
  end.
Proof.
  induction b as [|c [|d b] IH]; [done| |].
  { cbn [has_header_end]. rewrite bool_decide_false; [done|].
    intros Hp%prefix_length. unfold HEADER_END in Hp. simpl in Hp. lia. }
  change (has_header_end (c :: d :: b)) with
    (bool_decide (HEADER_END `prefix_of` (c :: d :: b)) || has_header_end (d :: b)).
  rewrite header_end_prefix, take_line_cons. destruct (decide (c = CR /\ d = NL)) as [Hcd|Hcd].
  - rewrite (bool_decide_true (c = CR /\ d = NL)) by exact Hcd. destruct Hcd as [-> ->].
    assert (has_header_end (NL :: b) = has_header_end b) as ->; [|done].
    cbn [has_header_end]. rewrite bool_decide_false; [done|]. intros [k [=]].
  - rewrite (bool_decide_false (c = CR /\ d = NL)) by exact Hcd. cbn [andb orb]. rewrite IH.
    by destruct (take_line (d :: b)) as [[]|].
Qed.

(** The fields are incomplete before the end of the header, and only there. *)
Lemma parse_fields_more fuel : forall b,
  parse_fields fuel b = inl true -> starts_line b || has_header_end b = false.
Proof.
  induction fuel as [|fuel IH]; intros b; simpl; [done|].
  rewrite take_line_header_end, take_line_empty.
  destruct (take_line b) as [[[|c line] rest]|]; [done| |done].
  destruct (parse_field _); [|done]. destruct (parse_fields fuel rest) as [more|[]] eqn:Hp; [|done].
  intros [= ->]. by apply IH.
Qed.

Lemma parse_fields_done fuel : forall b fs rest,
  parse_fields fuel b = inr (fs, rest) -> starts_line b || has_header_end b = true.
Proof.
  induction fuel as [|fuel IH]; intros b fs rest; simpl; [done|].
  rewrite take_line_header_end, take_line_empty.
  destruct (take_line b) as [[[|c line] b']|]; [done| |done].
  destruct (parse_field _); [|done]. destruct (parse_fields fuel b') as [|[fs' r']] eqn:Hp; [done|].
  intros _. by rewrite (IH _ _ _ Hp).
Qed.

Lemma parse_fields_bad x fuel : forall b,
  parse_fields fuel b = inl false -> parse_fields fuel (b ++ x) = inl false.
Proof.
  induction fuel as [|fuel IH]; intros b; simpl; [done|].
  destruct (take_line b) as [[line rest]|] eqn:Ht; [|done].
  rewrite (take_line_app _ x _ _ Ht). destruct line as [|c line]; [done|].
  destruct (parse_field _); [|done].
  destruct (parse_fields fuel rest) as [[]|[]] eqn:Hp; [done| |done].
  by rewrite (IH _ Hp).
Qed.

#[export] Instance header_http_laws : BeastHeaderLaws header_http.
Proof.
  split; cbn [parser_put header_http]; unfold put_header.
  - intros b Hb. rewrite take_line_header_end in Hb.
    destruct (take_line b) as [[line rest]|]; [|by eexists].
    destruct (parse_start_line line) as [[[m t] v]|]; [|by eexists].
    destruct (parse_fields max_fields rest) as [[]|[fs rest']] eqn:Hf; [by eexists..|].
    apply parse_fields_done in Hf. congruence.
  - intros b x Hb. rewrite take_line_header_end in Hb.
    destruct (take_line b) as [[line rest]|] eqn:Ht; [|done].
    rewrite (take_line_app _ x _ _ Ht).
    destruct (parse_start_line line) as [[[m t] v]|]; [|done].
    destruct (parse_fields max_fields rest) as [[]|[fs rest']] eqn:Hf.
    + apply parse_fields_more in Hf. congruence.
    + by rewrite (parse_fields_bad x _ _ Hf).
    + rewrite (parse_fields_app x _ _ _ _ Hf). by destruct (content_length fs).
Qed.

(** ** A file system in memory

    The files by path, a run of slashes in a path being one slash; every
    directory exists and every file is regular. *)
Abbreviation files := (gmap str str).

Fixpoint collapse (after_slash : bool) (p : str) : str :=
  match p with
  | [] => []
  | c :: p' =>
      if decide (c = "/"%char) then
        if after_slash then collapse true p' else c :: collapse true p'
      else c :: collapse false p'
  end.

#[export] Instance memory_fs : FileSystem files := {
  fs_exists p s := Some (bool_decide (is_Some (s !! collapse false p)));
  fs_is_regular_file p s := Some (bool_decide (is_Some (s !! collapse false p)));
  fs_open_read p s := s !! collapse false p;
  fs_create_parent p s := Some s;
  fs_open_write p d s := <[collapse false p := d]> s;
  fs_remove p s := Some (delete (collapse false p) s)
}.

(** Whether the next byte follows a slash. *)
Fixpoint ends_slash (after_slash : bool) (p : str) : bool :=
  match p with
  | [] => after_slash
  | c :: p' => ends_slash (bool_decide (c = "/"%char)) p'
  end.

Lemma collapse_app p q : forall b, collapse b (p ++ q) = collapse b p ++ collapse (ends_slash b p) q.
Proof.
  induction p as [|c p IH]; intros b; simpl; [done|].
  case_decide; case_bool_decide; try done; rewrite !IH; by destruct b.
Qed.

Lemma collapse_no_slash p b : "/"%char ∉ p -> collapse b p = p.
Proof.
  revert b. induction p as [|c p IH]; intros b Hp; simpl; [done|].
  apply not_elem_of_cons in Hp as [Hc Hp]. rewrite decide_False by congruence. by rewrite IH.
Qed.

Lemma ends_slash_no_slash p b : "/"%char ∉ p -> p <> [] -> ends_slash b p = false.
Proof.
  revert b. induction p as [|c p IH]; intros b Hp Hne; simpl; [done|].
  apply not_elem_of_cons in Hp as [Hc Hp]. rewrite bool_decide_false by congruence.
  destruct p; [done|]. by apply IH.
Qed.

Lemma ends_slash_app p b : ends_slash b (p ++ "/") = true.
Proof. revert b. induction p as [|c p IH]; intros b; simpl; [done|apply IH]. Qed.

Lemma collapse_slashes p q : collapse false (p ++ "//" ++ q) = collapse false (p ++ "/" ++ q).
Proof.
  rewrite !collapse_app. by destruct (ends_slash false p).
Qed.

(** The files of a storage directory that ends with a slash. *)
Definition storage_entity (e : str) : Prop := entity_name e /\ e <> [].

Lemma collapse_getPath base e id : storage_entity e ->
  collapse false (getPath (base ++ "/") e id) = collapse false (base ++ "/") ++ e ++ "/" ++ to_string id.
Proof.
  intros [[He _] Hne]. unfold getPath.
  rewrite collapse_app, ends_slash_app. f_equal.
  rewrite collapse_app, collapse_no_slash, ends_slash_no_slash by done. f_equal. simpl.
  f_equal. apply collapse_no_slash, to_string_no_slash.
Qed.

Lemma storage_path_ne base p q :
  storage_path (base ++ "/") storage_entity p -> storage_path (base ++ "/") storage_entity q ->
  p <> q -> collapse false p <> collapse false q.
Proof.
  intros (e & id & He & ->) (e' & id' & He' & ->) Hne Heq.
  rewrite !collapse_getPath in Heq by done. apply Hne. unfold getPath. f_equal.
  by apply app_inv_head in Heq.
Qed.

#[export] Instance memory_fs_laws base :
  FileSystemLaws memory_fs (storage_path (base ++ "/") storage_entity).
Proof.
  split; simpl; try (by eauto).
  - by intros p q s s' _ _ [= ->].
  - intros p d s s' _ [= <-]. rewrite lookup_insert_eq. by rewrite bool_decide_true by eauto.
  - intros p q d s Hp Hq Hne. rewrite lookup_insert_ne by (by apply (storage_path_ne base)). done.
  - intros p s _ _. eexists. split; [done|]. rewrite lookup_delete_eq. done.
  - intros p q s s' Hp Hq Hne [= <-].
    rewrite lookup_delete_ne by (by apply (storage_path_ne base)). done.
Qed.

#[export] Instance memory_fs_slashes : FileSystemSlashes memory_fs.
Proof. split; intros; cbn [fs_exists fs_open_read fs_create_parent fs_open_write fs_remove memory_fs]; by rewrite ?collapse_slashes. Qed.

(** ** [boost::lexical_cast<int>] *)
Definition cast_value (s : str) : option Z :=
  match s with
  | c :: s' =>
      if decide (c = "-"%char) then Z.opp <$> parse_decimal s'
      else if decide (c = "+"%char) then parse_decimal s'
      else parse_decimal s
  | [] => None
  end.

#[export] Instance decimal_cast : LexicalCast := fun s =>
  z ← cast_value s; if in_int z then Some z else None.

Lemma parse_decimal_to_string z : (0 <= z)%Z -> parse_decimal (to_string z) = Some z.
Proof.
  intros Hz. unfold parse_decimal. destruct (to_string_cons z Hz) as (c & s & Heq & Hc & Hs).
  rewrite bool_decide_true by (by rewrite Heq).
  assert (forallb isdigit (to_string z) = true) as ->.
  { rewrite Heq. simpl. rewrite Hc. apply forallb_forall. rewrite Forall_forall in Hs.
    intros x Hx. apply Hs, list_elem_of_In, Hx. }
  simpl. by rewrite to_string_nonneg, digits_value_nonneg_to_string.
Qed.

#[export] Instance decimal_cast_laws : LexicalCastLaws decimal_cast.
Proof.
  split.
  - intros z Hz. unfold lexical_cast_int, decimal_cast.
    assert (cast_value (to_string z) = Some z) as ->; [|simpl; by rewrite Hz].
    destruct (Z.lt_ge_cases z 0) as [Hneg|Hpos].
    + assert (to_string z = "-"%char :: to_string (- z)) as ->.
      { unfold to_string at 1. rewrite bool_decide_true by done.
        by rewrite <- to_string_nonneg by lia. }
      simpl. rewrite parse_decimal_to_string by lia. simpl. f_equal. lia.
    + pose proof (parse_decimal_to_string z Hpos) as Hp. unfold cast_value.
      destruct (to_string_cons z Hpos) as (c & s & Heq & Hc & _). rewrite Heq in Hp |- *.
      rewrite decide_False by (intros ->; done). by rewrite decide_False by (intros ->; done).
  - intros t z. unfold lexical_cast_int, decimal_cast.
    destruct (cast_value t) as [z'|]; simpl; [|done]. case_match; naive_solver.
Qed.
