(* ===== verification/Examples.v ===== *)
(** * A concrete connection

    A session with one user and one handler, the bytes of a request, and the
    completion of a read as a function: the inputs of the examples. *)

From S2P Require Import Prelude Cxx Base64 Http Storage Api Dispatcher Session SessionCases Instances.
Local Open Scope str_scope.

Definition example_session : session :=
  new_session (<[("/" : str) := HandlerHealth]> ∅) (<[("al" : str) := ("x" : str)]> ∅) 60 0.

(** ** The callback on a concrete connection *)
Definition raw_request (authorization : str) : str :=
  "GET /health HTTP/1.1" ++ [CR; NL] ++ "Authorization: " ++ authorization ++ [CR; NL; CR; NL].

Definition good_header : str := "Basic " ++ encode ("al" ++ ":" ++ "x").

Definition example_request : Request :=
  Req "GET" "/health" 11 [("Authorization" : str, good_header)] [].

Definition callback_result (bytes : str) (now : Z) (s : session) : outcome (Z * session * files) :=
  handle_read_callback None bytes now now s (∅ : files).

Definition return_value (o : outcome (Z * session * files)) : option Z :=
  match o with Ok (r, _, _) => Some r | Fault _ => None end.

(** Seconds, in the ticks of the clock. *)
Definition sec (n : Z) : Z := (n * 1000000000)%Z.

Definition example_conn : conn :=
  initial_conn (<[("/" : str) := HandlerHealth]> ∅) (<[("al" : str) := ("x" : str)]> ∅) 60 0 (∅ : files).

(** A read that completes on a connection, as a function. *)
Section reads.
Context `{BeastHttp} `{LexicalCast} {F : Type} `{FileSystem F}.

Definition after_read (bytes : str) (now : Z) (c : conn (F := F)) : option (conn (F := F)) :=
  if bool_decide (0 < reads (socket_ (c_session c))) &&
     bool_decide (0 < length bytes <= 4096) &&
     bool_decide (last_auth_time_ (c_session c) <= now)%Z
  then
    match handle_read_callback None bytes now now (finish_read (c_session c)) (c_fs c) with
    | Ok (_, s', fs') => Some (Conn s' fs' (c_sent c)
        (if decide (expired now (c_session c)) then S (c_late c) else c_late c))
    | Fault _ => None
    end
  else None.

Lemma after_read_step bytes now (c c' : conn (F := F)) : after_read bytes now c = Some c' -> conn_step c c'.
Proof.
  unfold after_read. destruct (_ && _) eqn:E; [|done].
  rewrite !andb_true_iff, !bool_decide_eq_true in E. destruct E as [[E1 E2] E3].
  destruct (handle_read_callback _ _ _ _ _ _) as [[[r s'] fs']|] eqn:Heq; [|done].
  intros [= <-]. eapply read_completes; [done|by intros _|split; [done|reflexivity]|done].
Qed.
End reads.

Definition is_some {A} (o : option A) : bool :=
  match o with Some _ => true | None => false end.

Definition writes_of (c : conn (F := files)) : nat := writes (socket_ (c_session c)).

Lemma two_reads bytes1 bytes2 now1 now2 (c0 : conn) n :
  writes_of <$> (after_read bytes1 now1 c0 ≫= after_read bytes2 now2) = Some n ->
  exists c, reachable c0 c /\ writes (socket_ (c_session c)) = n.
Proof.
  intros Hw. apply fmap_Some in Hw as (c & Hc & ->). exists c. split; [|done].
  apply bind_Some in Hc as (c1 & Hc1 & Hc2).
  eapply rtc_l; [by eapply after_read_step|]. eapply rtc_l; [by eapply after_read_step|]. apply rtc_refl.
Qed.

