(* ===== verification/Runs.v ===== *)
(** * Worlds of the program

    [runs] says that [main] has started the server and that the event loop has
    run some completions: the worlds the theorems are about.  Then a concrete
    one: two clients of one server, on which the examples run. *)

From S2P Require Import Prelude Cxx Config Tokenizer Parser Base64 Logger Http Storage Handlers Api Dispatcher Faults Session SessionCases Server World Endings Metrics Isolation Scheduler History Instances Examples.
Local Open Scope str_scope.

Section runs.
Context `{BeastHttp} `{LexicalCast} {F : Type} `{FileSystem F}.

(** A world of the program: [main] has started the server [s], and the event
    loop has run some completions. *)
Definition runs (argv : list str) (open_file : str -> option str) (listen_on : Z -> option str)
    (now : Z) (s : server) (fs : F) (clients : list (list str)) (w : world (F := F)) : Prop :=
  (exists l, main argv open_file listen_on now = Ok (MainRun (Running s) l)) /\
  rtc world_step (initial_world s fs now clients) w.

Lemma main_server_ok argv open_file listen_on now s l :
  main argv open_file listen_on now = Ok (MainRun (Running s) l) ->
  server_ok s /\ started s = [] /\
  Forall (fun sess => last_auth_time_ sess <= now)%Z (accepting s).
Proof.
  intros (file_name & program & text & config & port & t & cr & d & _ & _ & _ & _ & _ & _ & _ & _ &
    _ & _ & ->)%main_Running.
  split_and!; [by apply start_accept_ok|done|]. apply Forall_singleton. simpl. lia.
Qed.

Lemma main_fresh argv open_file listen_on now s l :
  main argv open_file listen_on now = Ok (MainRun (Running s) l) ->
  Forall (fresh s) (accepting s).
Proof.
  intros (file_name & program & text & config & port & t & cr & d & _ & _ & _ & _ & _ & _ & _ & _ &
    _ & _ & ->)%main_Running.
  apply Forall_singleton. by exists now.
Qed.

Context {argv : list str} {open_file : str -> option str} {listen_on : Z -> option str}.
Context {now : Z} {s : server} {fs : F} {clients : list (list str)} {w : world (F := F)}.

Lemma runs_ok : runs argv open_file listen_on now s fs clients w ->
  world_ok s w /\ world_history_ok s fs w /\ down_ok s w.
Proof.
  intros [[l Hm] Hr]. apply main_server_ok in Hm as (Hok & Hs & Ht).
  split; [by eapply (world_reachable_ok s fs now clients)|].
  split; [by eapply (world_reachable_ok s fs now clients)|].
  by eapply (reachable_down_ok s fs now clients).
Qed.
(** A property of the initial world that steps preserve. *)
Lemma runs_invariant (P : world (F := F) -> Prop) :
  runs argv open_file listen_on now s fs clients w ->
  P (initial_world s fs now clients) ->
  (forall w1 w2, world_ok s w1 -> P w1 -> world_step w1 w2 -> P w2) -> P w.
Proof.
  intros [[l Hm] Hr] Hinit Hstep. destruct (main_server_ok _ _ _ _ _ _ Hm) as (Hok & Hs & Ht).
  apply (rtc_invariant world_step (fun w => world_ok s w /\ P w) (initial_world s fs now clients) w);
    [|by split; [apply initial_world_ok|]|done].
  intros w1 w2 [H1' H2'] H12. split; [by eapply world_step_ok|by eapply Hstep].
Qed.

Lemma runs_audited : runs argv open_file listen_on now s fs clients w -> audited s w.
Proof.
  intros Hr. apply (runs_invariant (audited s) Hr); [done|]. intros. by eapply world_step_audited.
Qed.

Lemma runs_first_reads {laws : BeastHeaderLaws _} :
  runs argv open_file listen_on now s fs clients w -> first_reads w.
Proof.
  intros Hr.
  apply (runs_invariant (fun w => Forall (fresh s) (accepting (w_server w)) /\ first_reads w) Hr).
  - destruct Hr as [[l Hm] _]. split; [by eapply main_fresh|]. split; [|done].
    by intros e ?%elem_of_nil.
  - intros w1 w2 Hok [Hf Hfr] Hs. split; [by eapply world_step_fresh|by eapply world_step_first_reads].
Qed.

(** The worlds of the program are the ones that the scheduler computes. *)
Lemma runs_computed : runs argv open_file listen_on now s fs clients w <->
  (exists l, main argv open_file listen_on now = Ok (MainRun (Running s) l)) /\
  exists cs, complete_all cs (initial_world s fs now clients) = Some w.
Proof. unfold runs. by rewrite complete_all_reachable. Qed.
End runs.

(** ** Two clients of one server

    The first client creates an entity, the second one reads it; both connect
    before the first request arrives, and the second one is answered first. *)
Definition api_conf : str :=
  "port 8080; timer 60; server { credentials { al:x; } location /api APIHandler { root /data/; } }".

Definition run_api : outcome main_run :=
  main ["server"; "server.conf"] (fun _ => Some api_conf) (fun _ => None) 0.

Definition is_done {A} (o : outcome A) : bool :=
  match o with Ok _ => true | Fault _ => false end.

Lemma good_header_ok : valid_header (<[("al" : str) := ("x" : str)]> ∅) good_header.
Proof. apply valid_header_encode; [apply find_char_None|]; vm_compute; reflexivity. Qed.

Definition request_text (line fields body : str) : str :=
  line ++ " HTTP/1.1" ++ [CR; NL] ++ "Authorization: " ++ good_header ++ [CR; NL] ++
  fields ++ [CR; NL] ++ body.

Definition post_shoes : str :=
  request_text "POST /api/Shoes" ("Content-Length: 3" ++ [CR; NL]) "red".
Definition get_shoes : str := request_text "GET /api/Shoes/1" [] [].

Definition two_clients : list (list str) := [[post_shoes]; [get_shoes]].

Definition api_events : list (Z * event) :=
  [(sec 1, EvAccept); (sec 2, EvAccept); (sec 3, EvRead 0); (sec 4, EvRead 1); (sec 4, EvWrite 1)].

(** The world after these events. *)
Definition api_world : option (server * world (F := files)) :=
  match run_api with
  | Ok (MainRun (Running s) _) => w ← run_events api_events (initial_world s ∅ 0 two_clients); Some (s, w)
  | _ => None
  end.

Lemma api_world_runs s w : api_world = Some (s, w) ->
  runs ["server" : str; "server.conf"] (fun _ => Some api_conf) (fun _ => None) 0 s ∅ two_clients w.
Proof.
  unfold api_world. destruct run_api as [[[code|s'] l]|f] eqn:Hm; [done| |done].
  intros (w' & Hw & [= <- <-])%bind_Some. split; [by exists l|]. by eapply run_events_reachable.
Qed.

(** The requests that reached the dispatcher, with their connections. *)
Definition requests_of (w : world (F := files)) : list (nat * Request) :=
  map (fun e => (sv_link e, sv_request e)) (w_history w).

Definition post_request : Request := Req "POST" "/api/Shoes" 11
  [("Authorization" : str, good_header); ("Content-Length" : str, "3" : str)] "red".
Definition get_request : Request :=
  Req "GET" "/api/Shoes/1" 11 [("Authorization" : str, good_header)] [].

Definition api_world_requests : option (list (nat * Request)) :=
  match api_world with Some (_, w) => Some (requests_of w) | None => None end.

Lemma api_world_requests_value : api_world_requests = Some [(0, post_request); (1, get_request)].
Proof. vm_compute. reflexivity. Qed.

Lemma api_world_some : is_some api_world = true.
Proof. vm_compute. reflexivity. Qed.

(** A statement about the world of [api_world]. *)
Definition in_api_world (P : server -> world (F := files) -> Prop) : Prop :=
  match api_world with Some (s, w) => P s w | None => False end.

Lemma in_api_world_intro (P : server -> world (F := files) -> Prop) :
  (forall s w, api_world = Some (s, w) -> P s w) -> in_api_world P.
Proof.
  unfold in_api_world. pose proof api_world_some as Hs. intros HP.
  destruct api_world as [[s w]|]; [by apply HP|discriminate Hs].
Qed.

(** The table after the two requests, and what the two clients see. *)
Definition shoes_table : table := set_entry (fun _ _ => None) "Shoes" 1 (Some ("red" : str)).

Lemma shoes_name : entity_name "Shoes".
Proof. split; [apply (find_char_None "/"); vm_compute|]; reflexivity. Qed.

Lemma shoes_entity : storage_entity "Shoes".
Proof. split; [apply shoes_name|done]. Qed.

Lemma api_world_handler s w : api_world = Some (s, w) ->
  forall target, target = "/api/Shoes" \/ target = "/api/Shoes/1" ->
  getRequestHandler (server_dispatcher_ s) target = Some (HandlerAPI ("/data" ++ "/") "/api").
Proof.
  intros Hw target Ht.
  assert (match api_world with
    | Some (s, _) =>
        bool_decide (getRequestHandler (server_dispatcher_ s) "/api/Shoes"
          = Some (HandlerAPI ("/data" ++ "/") "/api") /\
        getRequestHandler (server_dispatcher_ s) "/api/Shoes/1"
          = Some (HandlerAPI ("/data" ++ "/") "/api"))
    | None => false
    end = true) as Hh by (vm_compute; reflexivity).
  rewrite Hw in Hh. clear Hw. apply bool_decide_eq_true in Hh as [H1 H2]. by destruct Ht as [-> | ->].
Qed.

Lemma api_world_history s w : api_world = Some (s, w) ->
  exists e1 e2, w_history w = [e1; e2] /\ sv_request e1 = post_request /\ sv_request e2 = get_request.
Proof.
  intros Hw. pose proof api_world_requests_value as Hf. unfold api_world_requests in Hf.
  rewrite Hw in Hf. clear Hw. injection Hf as Hf. unfold requests_of in Hf.
  generalize dependent (w_history w). intros es Hf.
  destruct es as [|e1 [|e2 [|]]]; try discriminate Hf. injection Hf as _ H1 _ H2.
  by exists e1, e2.
Qed.

(** The history of the world, as calls on the table. *)
Lemma api_world_trace s w : api_world = Some (s, w) ->
  api_trace (server_dispatcher_ s) ("/data" ++ "/") "/api" storage_entity (fun _ _ => None)
    (w_history w) [Some (200%Z, id_json 1); Some (200%Z, "red" : str)] shoes_table.
Proof.
  intros Hw.
  destruct (api_world_history s w Hw) as (e1 & e2 & -> & H1 & H2).
  pose proof (api_world_handler s w Hw) as Hh. clear Hw.
  apply (trace_call _ _ _ _ _ [e1] [Some (200%Z, id_json 1)] shoes_table e2 (Read "Shoes" 1));
    [apply (trace_call _ _ _ _ _ [] [] (fun _ _ => None) e1 (Create "Shoes" "red"));
     [apply trace_nil| | | |]| | | |]; rewrite ?H1, ?H2.
  - apply Hh. by left.
  - by split_and!.
  - apply shoes_entity.
  - apply create_step. split; [vm_compute; split; discriminate|]. split; [reflexivity|]. intros; lia.
  - apply Hh. by right.
  - by split_and!.
  - apply shoes_entity.
  - by apply read_step.
Qed.

Lemma empty_store e id : stored ("/data" ++ "/") (∅ : files) e id = None.
Proof. unfold stored. simpl. by rewrite bool_decide_false by (rewrite lookup_empty; by intros []). Qed.
