(* ===== verification/ConfigTheorems.v ===== *)
(** * Properties of the configuration ([src/config_parser.cc])

    The tokenizer is the reference scanner; the parser on the object store is
    the abstract parser on trees, accepts exactly the grammar, and reads back
    what [ToString] prints; the port and the authentication time are the first
    valid value in the order the code looks; the credentials are those of the
    block the search reaches. *)

From S2P Require Import Prelude Cxx Config Tokenizer Parser Refinement Grammar Ownership Console.
Local Open Scope str_scope.

(** C27: [ParseToken] returns the token the reference scanner finds at the
    front of the pending bytes, whatever was read before: same type, same
    text, the same bytes left in the stream and the same [good()]; it neither
    loses nor invents a byte, and its loop terminates. *)
Theorem ParseToken_correct (past p : str) :
  exists past',
    ParseToken (IStream past p true) [] =
      Ok ((next_token p).1.1.1, (next_token p).1.1.2,
          IStream past' (next_token p).1.2 (next_token p).2) /\
    reverse past' ++ (next_token p).1.2 = reverse past ++ p.
Proof.
  destruct (ParseToken_scan past p []) as (past' & Heq & Hbytes).
  exists past'. split; [|done]. rewrite Heq. unfold next_token.
  by destruct (scan _ _ _) as [[[] ?] ?].
Qed.

(** C18: [Parse] on any text returns, without a null dereference or an access
    outside a vector, and leaves in [*config] the tree the abstract parser
    builds; the parser's pointers, shared objects and stack refine the
    abstract parser's zipper. *)
Theorem Parse_refines (text : str) : parse_string text = Ok (abstract_parse text).
Proof. apply parse_string_abstract. Qed.

(** C19: [Parse] accepts exactly the texts whose tokens, comments aside, are
    the tokens of a configuration in which every statement has a token,
    followed by the end of the file, and that configuration is the result.
    The end-of-file token may carry a last word that is dropped. *)
Theorem Parse_accepts_iff (text : str) (c : NginxConfig) :
  parse_string text = Ok (true, c) <->
  wf_config c /\
  exists partial, significant (lex text) = config_tokens c ++ [(TOKEN_TYPE_EOF, partial)].
Proof.
  rewrite parse_string_abstract, <- abstract_parse_iff. split; [by intros [=]|by intros ->].
Qed.

(** C28: a configuration whose tokens can be written is parsed back from what
    [ToString] prints, at any indentation. *)
Theorem Parse_ToString (c : NginxConfig) (depth : nat) :
  printable c -> parse_string (NginxConfig_ToString depth c) = Ok (true, c).
Proof. intros. by rewrite parse_string_abstract, abstract_parse_ToString. Qed.

(** What [Parse] prints on any text: when it accepts the text, a line for
    every token of the file, the passwords among them; otherwise a line for
    every token up to the one it rejects, and the types of that token and of
    the one before it, comments aside. *)
Theorem Parse_console_correct (text : str) :
  exists valid c out, parse_string text = Ok (valid, c) /\ Parse_console text = Ok out /\
    if valid then out = lines_of (lex text)
    else exists front t rest last, lex text = front ++ t :: rest /\
      out = lines_of (front ++ [t]) ++ bad_transition last t.1.
Proof.
  pose proof (run_console_verdict (lex text) (lex_lexed _ text (Nat.lt_succ_diag_r _))
    (Zipper [] [] TOKEN_TYPE_START)) as Hv.
  exists (abstract_parse text).1, (abstract_parse text).2, (run_console (lex text) (Zipper [] [] TOKEN_TYPE_START)).
  rewrite parse_string_abstract, Parse_console_abstract. split; [by destruct (abstract_parse text)|].
  by split.
Qed.

(** A server block, as in the repository's [config/] directory. *)
Definition example_config : NginxConfig :=
  [Statement ["server"] (Some [
     Statement ["port"; "8080"] None;
     Statement ["timer"; "60"] None;
     Statement ["location"; "/echo"; "EchoHandler"] (Some []);
     Statement ["location"; "/api"; "APIHandler"] (Some [Statement ["root"; "/data/"] None]);
     Statement ["credentials"] (Some [Statement ["alice:secret"] None])])].

Lemma example_config_printable : printable example_config.
Proof. repeat first [ intros ?; discriminate | constructor ]. Qed.

Lemma Parse_ToString_witness :
  parse_string (NginxConfig_ToString 1 example_config) = Ok (true, example_config).
Proof. apply Parse_ToString. apply example_config_printable. Defined.

(** C32: a configuration that was read from a text without backslashes is read
    back from what [ToString] prints, at any indentation: printing loses
    nothing of a parsed file but its comments and blanks. *)
Theorem Parse_print_parse (text : str) (c : NginxConfig) (depth : nat) :
  BACKSLASH ∉ text -> parse_string text = Ok (true, c) ->
  parse_string (NginxConfig_ToString depth c) = Ok (true, c).
Proof.
  rewrite !parse_string_abstract. intros Hb [= Hp]. f_equal.
  by eapply abstract_parse_ToString, abstract_parse_printable.
Qed.

Lemma Parse_print_parse_witness :
  let text : str := "server { # the port
    port 8080; } location 'x y' {}" in
  exists c, parse_string text = Ok (true, c) /\
    parse_string (NginxConfig_ToString 0 c) = Ok (true, c).
Proof.
  intros text. eexists. split; [vm_compute; reflexivity|].
  apply (Parse_print_parse text); [apply find_char_None|]; vm_compute; reflexivity.
Defined.

(** An escaped quote is read without its backslash and printed without it:
    what [ToString] prints then is not a configuration file. *)
Example escape_not_printed :
  let text := "a " ++ [DQUOTE; "x"%char; BACKSLASH; DQUOTE; "y"%char; DQUOTE; ";"%char] in
  exists c, parse_string text = Ok (true, c) /\
    fst <$> parse_string (NginxConfig_ToString 0 c) = Ok false.
Proof. eexists. split; vm_compute; reflexivity. Qed.

(** A last word that no delimiter follows is dropped: the text is
    accepted, without a trace of the word. *)
Theorem Parse_drops_last_word (c : NginxConfig) (depth : nat) (w : str) :
  printable c -> plain_token w ->
  parse_string (NginxConfig_ToString depth c ++ w) = Ok (true, c).
Proof.
  intros Hc Hw. rewrite parse_string_abstract. f_equal. apply abstract_parse_iff.
  split; [by apply printable_wf|]. exists w.
  rewrite lex_config_ToString_app, lex_plain_end by done.
  by rewrite significant_app, significant_config_tokens.
Qed.

Lemma Parse_drops_last_word_witness :
  parse_string (NginxConfig_ToString 0 example_config ++ "garbage") = Ok (true, example_config).
Proof.
  apply Parse_drops_last_word; [apply example_config_printable|].
  split; [reflexivity|]. repeat constructor.
Defined.

(** C34: [get_config_port] and [get_auth_time] do the search that
    [setting_search] describes on the tree, and nothing else does: the first
    statement [key value;] of a block decides for the block, as the number if
    it is in [0, 65535] and as [-1] otherwise; only a block without one looks
    into its child blocks, in order, and takes the first result that is not
    [-1].  This is not the first outermost valid value that the comments in
    the code promise: an invalid value hides the valid ones after it and in
    the blocks ([get_config_port_invalid_hides]), and a deep value in an early
    block comes before a shallow one in a later block
    ([get_config_port_not_outermost]). *)
Theorem get_setting_correct :
  setting_search "port" get_config_port /\ setting_search "timer" get_auth_time /\
  forall key get get', setting_search key get -> setting_search key get' ->
    forall c, get c = get' c.
Proof. split_and!; [apply get_setting_search..|apply setting_search_unique]. Qed.

(** The first port found is that of the deepest block of an earlier
    statement, not the outermost one. *)
Example get_config_port_not_outermost :
  get_config_port [
    Statement ["a"] (Some [Statement ["b"] (Some [Statement ["port"; "81"] None])]);
    Statement ["c"] (Some [Statement ["port"; "80"] None])] = Ok 81%Z.
Proof. reflexivity. Qed.

(** A port that [get_config_port] returns is in [0, 65535] and is written
    in a statement [port n;] of the configuration. *)
Theorem get_config_port_source (c : NginxConfig) (p : Z) :
  get_config_port c = Ok p -> p <> (-1)%Z ->
  (0 <= p <= 65535)%Z /\
  exists v, occurs (Statement ["port"; v] None) c /\ atoi v = Ok p.
Proof. intros Hp Hne. by destruct (get_setting_source "port" c p Hp). Qed.

Lemma get_config_port_source_witness :
  get_config_port example_config = Ok 8080%Z /\ (0 <= 8080 <= 65535)%Z /\
  exists v, occurs (Statement ["port"; v] None) example_config /\ atoi v = Ok 8080%Z.
Proof.
  split; [vm_compute; reflexivity|].
  apply (get_config_port_source example_config 8080); [vm_compute; reflexivity|lia].
Defined.

(** An outer statement [port n;] with an invalid number makes
    [get_config_port] return [-1], however many valid ports the blocks of the
    configuration hold. *)
Theorem get_config_port_invalid_hides (c1 c2 : NginxConfig) (v : str) (n : Z) :
  (forall w, Statement ["port"; w] None ∉ c1) -> atoi v = Ok n ->
  (n < 0 \/ 65535 < n)%Z ->
  get_config_port (c1 ++ Statement ["port"; v] None :: c2) = Ok (-1)%Z.
Proof.
  intros Hc1 Hn Hr. apply (search_invalid _ _ (get_setting_search "port") c1 v c2 n); [|done..].
  intros [w Hw]. by apply (Hc1 w).
Qed.

Lemma get_config_port_invalid_hides_witness :
  get_config_port (Statement ["port"; "99999"] None :: example_config) = Ok (-1)%Z.
Proof.
  apply (get_config_port_invalid_hides [] example_config "99999" 99999);
    [intros w Hw; by apply elem_of_nil in Hw|vm_compute; reflexivity|lia].
Defined.

(** C35: when the search reaches a [credentials] block, the password of a user
    is the one of the user's last entry [user:password;] in it, and a user
    without an entry has none. *)
Theorem get_credentials_lookup (c1 : NginxConfig) (ts : list str) (b c2 : NginxConfig)
    (m : gmap str str) :
  Forall passed c1 ->
  get_credentials (c1 ++ Statement ("credentials" :: ts) (Some b) :: c2) = Ok m ->
  forall user password, m !! user = Some password <->
    exists b1 s b2, b = b1 ++ s :: b2 /\ credential_entry user password s /\
      forall s', s' ∈ b2 -> forall p, ~ credential_entry user p s'.
Proof.
  intros Hc1. rewrite get_credentials_block by done. intros [= <-] user password.
  apply foldl_add_credential_lookup.
Qed.

Lemma get_credentials_lookup_witness :
  exists m, get_credentials [Statement ["credentials"] (Some [Statement ["a:x"] None;
      Statement ["a:y"] None])] = Ok m /\
    (m !! ("a" : str) = Some ("y" : str) <->
     exists b1 s b2, [Statement ["a:x"] None; Statement ["a:y"] None] = b1 ++ s :: b2 /\
      credential_entry "a" "y" s /\
      forall s', s' ∈ b2 -> forall p, ~ credential_entry "a" p s').
Proof.
  eexists. split; [reflexivity|].
  apply (get_credentials_lookup [] [] [Statement ["a:x"] None; Statement ["a:y"] None] []);
    [apply Forall_nil; exact I|reflexivity].
Defined.

(** The search for credentials descends into the first block it meets and
    nowhere else: what follows that block is never looked at. *)
Theorem get_credentials_first_block (c1 : NginxConfig) (t : str) (ts : list str)
    (b c2 : NginxConfig) :
  Forall passed c1 -> t <> "credentials" ->
  get_credentials (c1 ++ Statement (t :: ts) (Some b) :: c2) = get_credentials b.
Proof. apply get_credentials_descend. Qed.

Lemma get_credentials_first_block_witness :
  get_credentials [Statement ["location"; "/"] (Some []);
    Statement ["credentials"] (Some [Statement ["a:x"] None])] = get_credentials [].
Proof.
  apply (get_credentials_first_block [] "location" ["/"] []); [apply Forall_nil; exact I|discriminate].
Defined.

(** C36: on a parsed configuration [get_credentials] can only fail by a null
    dereference, and only when the configuration has a [credentials]
    statement without a block. *)
Theorem get_credentials_fault (text : str) (c : NginxConfig) (f : fault) :
  parse_string text = Ok (true, c) -> get_credentials c = Fault f ->
  f = NullDereference /\ exists ts, occurs (Statement ("credentials" :: ts) None) c.
Proof.
  rewrite parse_string_abstract. intros [= Hp] Hf.
  apply abstract_parse_iff in Hp as [Hwf _].
  destruct (get_credentials_fault_source c f Hwf Hf) as (-> & s & Ho & [ts ->]). eauto.
Qed.

Lemma get_credentials_fault_witness :
  NullDereference = NullDereference /\
  exists ts, occurs (Statement ("credentials" :: ts) None) [Statement ["credentials"] None].
Proof.
  apply (get_credentials_fault "credentials;" [Statement ["credentials"] None] NullDereference);
    vm_compute; reflexivity.
Defined.

(** ** The objects of the parser *)

(** C15: whatever the text, [Parse] returns and leaves a tree of objects:
    every address below the next one holds an object; every object but the
    outermost one is the block of exactly one statement, of an object
    allocated before it.  No block is lost, shared or reachable from itself,
    on the paths that reject the text too. *)
Theorem Parse_well_owned (text : str) :
  exists valid st, Parse (stream_of text) = Ok (valid, st) /\ well_owned st.
Proof.
  destruct (Parse_returns text) as (valid & st & Heq). exists valid, st. split; [done|].
  eapply Parse_loop_owned; [apply parser_owned_init|exact Heq].
Qed.
