(* ===== verification/ApiTheorems.v ===== *)
(** * Properties of the storage and of the request handlers

    [CRUDHandler] keeps the promise of [ICRUDHandler] on any file system with
    the documented laws; the API handler implements the abstract
    specification of its five calls, along any sequence of them; the static
    handler serves exactly the file below its root. *)

From S2P Require Import Prelude Cxx Http Mime Storage Handlers Api Dispatcher Faults Instances.
Local Open Scope str_scope.

(** ** Storage *)

(** C21: [CRUDHandler] implements [ICRUDHandler]: on a file system that obeys
    its laws on the storage paths, [create] stores the data under the least
    free id and returns it, [read] returns what was stored, [update] and
    [delete_] change that entry and no other one or report its absence, and
    [create] overflows its counter when every positive [int] is taken. *)
Theorem CRUDHandler_implements {F : Type} {fs : FileSystem F} (base : str)
    (entity_ok : str -> Prop) :
  FileSystemLaws fs (storage_path base entity_ok) ->
  CrudLaws (CRUDHandler base) entity_ok (stored base).
Proof. intros Hlaws. exact (CRUDHandler_laws base entity_ok (laws := Hlaws)). Qed.

Lemma CRUDHandler_implements_witness :
  CrudLaws (CRUDHandler ("/data" ++ "/")) storage_entity (stored ("/data" ++ "/")).
Proof. apply CRUDHandler_implements. apply memory_fs_laws. Defined.

(** The search for a free id ends on every file system, with at most
    2^31 - 1 files examined: with the least positive [int] whose file does not
    exist, or with an exception at the first file that cannot be examined, or
    with the overflow of the counter when the files of all positive [int]s
    exist. *)
Theorem getNextId_total {F : Type} {fs : FileSystem F} (base entity : str) (s : F) :
  exists id, (1 <= id <= INT_MAX)%Z /\
    (forall i, (1 <= i < id)%Z -> fs_exists (getPath base entity i) s = Some true) /\
    match fs_exists (getPath base entity id) s with
    | Some true => id = INT_MAX /\ getNextId base entity s = Fault IntegerOverflow
    | Some false => getNextId base entity s = Ok id
    | None => getNextId base entity s = Fault Terminated
    end.
Proof. apply getNextId_result. Qed.

(** ** The API handler *)

(** A sequence of requests, each with a fresh response object. *)
Fixpoint API_run `{BeastHttp} `{LexicalCast} {S : Type} `{ICRUDHandler S} (prefix : str)
    (reqs : list Request) (s : S) : outcome (list Response * S) :=
  match reqs with
  | [] => Ok ([], s)
  | req :: reqs =>
      '(res, s) ← API_handleRequest prefix req default_response s;
      '(ress, s) ← API_run prefix reqs s;
      Ok (res :: ress, s)
  end.

Inductive api_steps (old_body : str) : table -> list api_call -> list (Z * str) -> table -> Prop :=
  | no_steps lk : api_steps old_body lk [] [] lk
  | more_steps lk lk1 lk2 call calls status body outs :
      api_step old_body lk call status body lk1 ->
      api_steps old_body lk1 calls outs lk2 ->
      api_steps old_body lk (call :: calls) ((status, body) :: outs) lk2.

(** What the client of a sequence of requests observes. *)
Definition all_observed `{BeastHttp} (reqs : list Request) (ress : list Response)
    (outs : list (Z * str)) : Prop :=
  Forall2 (fun q o => observed q.2 o.1 (req_version q.1) "application/json" o.2)
    (zip reqs ress) outs /\ length reqs = length ress.

(** C20: the API handler refines its specification.  Any sequence of create,
    list, read, update and delete requests below the prefix, on any
    [ICRUDHandler] that keeps its promise and whose state agrees with the
    abstract table, terminates with the statuses and bodies of the
    specification and a state that agrees with the table it prescribes. *)
Theorem API_run_refines `{BeastHttpLaws} `{LexicalCastLaws} {S : Type} {crud : ICRUDHandler S}
    {entity_ok : str -> Prop} {lookup : S -> table}
    {laws : CrudLaws crud entity_ok lookup} {slash : CrudSlash crud entity_ok}
    (names : forall e, entity_ok e -> entity_name e)
    (prefix : str) (calls : list api_call) (reqs : list Request) (s : S)
    (lk lk' : table) (outs : list (Z * str)) :
  Forall2 (makes_call prefix) calls reqs ->
  Forall (fun call => entity_ok (call_entity call)) calls ->
  (forall e id, entity_ok e -> lookup s e id = lk e id) ->
  api_steps (res_body default_response) lk calls outs lk' ->
  exists ress s', API_run prefix reqs s = Ok (ress, s') /\
    all_observed reqs ress outs /\
    forall e id, entity_ok e -> lookup s' e id = lk' e id.
Proof.
  intros Hreqs Hok Ha Hsteps. revert s lk outs Ha Hsteps Hok.
  induction Hreqs as [|call req calls reqs Hcall Hreqs IH]; intros s lk outs Ha Hsteps Hok.
  { inversion Hsteps; subst. exists [], s. split_and!; [done| |done]. by split. }
  inversion Hsteps as [|? lk1 ? ? ? status body outs' Hstep Hsteps']; subst.
  apply Forall_cons in Hok as [Hok Hoks].
  set (res := res_set field_content_type "application/json"
    (res_set_version (req_version req) default_response)).
  destruct (call_agrees names prefix req res s) with (lk := lk) (call := call)
    (status := status) (body := body) (lk' := lk1) as (r & s1 & Hr & Hobs & Ha1);
    [unfold res; by autorewrite with beast|unfold res; by autorewrite with beast|done|done|done| |].
  { unfold res. autorewrite with beast. done. }
  destruct (IH s1 lk1 outs' Ha1 Hsteps' Hoks) as (ress & s' & Hrun & [Hall Hlen] & Ha').
  exists (r :: ress), s'. split_and!; [| |done].
  - cbn [API_run]. unfold API_handleRequest. fold res. rewrite Hr. run_ok.
    by rewrite Hrun.
  - split; [|simpl; by f_equal]. simpl. by constructor.
Qed.

(** Creating, reading and deleting an entity of an empty store. *)
Definition example_reqs : list Request := [
  Req "POST" "/api/Shoes" 11 [] "red";
  Req "GET" "/api/Shoes/1" 11 [] "";
  Req "DELETE" "/api/Shoes/1" 11 [] "";
  Req "GET" "/api/Shoes/1" 11 [] ""].

Definition example_calls : list api_call :=
  [Create "Shoes" "red"; Read "Shoes" 1; Delete "Shoes" 1; Read "Shoes" 1].

Lemma API_run_refines_witness :
  exists ress s',
    API_run (H1 := CRUDHandler ("/data" ++ "/")) "/api" example_reqs
      (∅ : files) = Ok (ress, s') /\
    all_observed example_reqs ress
      [(200%Z, id_json 1); (200%Z, "red" : str); (200%Z, "successfully deleted" : str);
       (404%Z, "Invalid Request: file not found" : str)] /\
    forall e id, storage_entity e ->
      stored ("/data" ++ "/") s' e id =
      set_entry (set_entry (fun _ _ => None) "Shoes" 1 (Some ("red" : str))) "Shoes" 1 None e id.
Proof.
  assert (Hname : entity_name "Shoes").
  { split; [|reflexivity]. apply (find_char_None "/"). vm_compute. reflexivity. }
  apply (API_run_refines (entity_ok := storage_entity) (lookup := stored ("/data" ++ "/"))
    (fun e He => proj1 He) "/api" example_calls example_reqs ∅ (fun _ _ => None)).
  - repeat constructor.
  - repeat apply List.Forall_cons; try apply List.Forall_nil; (split; [exact Hname|discriminate]).
  - intros e id _. unfold stored. simpl. by rewrite bool_decide_false by (rewrite lookup_empty; by intros []).
  - eapply more_steps; [apply create_step|eapply more_steps; [apply read_step|eapply more_steps;
      [apply delete_step|eapply more_steps; [apply read_absent_step|apply no_steps]]]];
      try (vm_compute; reflexivity); try (vm_compute; discriminate); try lia.
    + split; [|split]; [vm_compute; split; discriminate|reflexivity|intros i Hi; lia].
    + eexists. vm_compute. reflexivity.
Defined.

(** Every response of the API handler on the file storage has the version
    of the request, the JSON content type and a status among 200, 400 and
    404, and a status other than 200 means that no file was touched. *)
Theorem API_responses `{BeastHttpLaws} `{LexicalCast} {F : Type} {fs : FileSystem F}
    (base prefix : str) (req : Request) (res res' : Response) (s s' : F) :
  API_handleRequest (crud_handler_ := CRUDHandler base) prefix req res s = Ok (res', s') ->
  res_version res' = req_version req /\
  res_find field_content_type res' = Some "application/json" /\
  (res_result res' = 200 \/ res_result res' = 400 \/ res_result res' = 404)%Z /\
  (res_result res' <> 200%Z -> s' = s).
Proof.
  intros Heq.
  assert (res_result res' ∈ api_statuses -> res_result res' = 200 \/ res_result res' = 400 \/
    res_result res' = 404)%Z as Hst by (unfold api_statuses; set_solver).
  enough (answers req s (API_handleRequest (crud_handler_ := CRUDHandler base) prefix req res s))
    as Ha by (destruct (Ha res' s' Heq) as (? & ? & ? & ? & _); auto).
  apply API_answers.
Qed.

Lemma API_responses_witness :
  let o := API_handleRequest (crud_handler_ := CRUDHandler "/data/") "/api"
    (Req "DELETE" "/api/Shoes/x" 11 [] "" : Request) default_response (∅ : files) in
  match o with
  | Ok (res', s') => res_version res' = 11%Z /\
      res_find field_content_type res' = Some ("application/json" : str) /\
      (res_result res' = 200 \/ res_result res' = 400 \/ res_result res' = 404)%Z /\
      (res_result res' <> 200%Z -> s' = ∅)
  | Fault _ => False
  end.
Proof.
  apply (API_responses (B := record_http) "/data/" "/api" (Req "DELETE" "/api/Shoes/x" 11 [] "")
    default_response). vm_compute. reflexivity.
Defined.

(** Below a prefix registered without its trailing slash, [POST] stores
    an entity under its name, while [GET] looks it up under the name with a
    slash in front of it: with a root that does not end with a slash these
    are different files, so what was created is not found. *)
Theorem API_post_get_entities `{BeastHttp} `{LexicalCastLaws} {S : Type} {crud : ICRUDHandler S}
    (prefix e d : str) (id : Z) (post get : Request) (res : Response) (s : S) :
  "/"%char ∉ e -> in_int id = true -> (0 <= id)%Z ->
  makes_call prefix (Create e d) post -> makes_call prefix (Read e id) get ->
  handle_post post res s =
    ('(body, s') ← crud_create e d s; Ok (reply status_ok body res, s')) /\
  handle_get prefix get res s =
    (exists_ ← crud_exists ("/" ++ e) id s;
     if negb exists_ then Ok (reply status_not_found "Invalid Request: file not found" res)
     else
       body ← crud_read ("/" ++ e) id s;
       Ok (res_prepare_payload (res_set_result status_ok (res_set_body body res)))).
Proof.
  intros He Hid Hpos (_ & Hd & Ht) (_ & Ht'). split.
  - unfold handle_post. rewrite Ht, Hd.
    change (prefix ++ "/" ++ e) with (prefix ++ "/"%char :: e). by rewrite after_last.
  - unfold handle_get. rewrite Ht', removePrefix_id. run_ok.
    rewrite split_entity_app by auto with swifties. run_ok.
    rewrite to_string_starts_with_digit by done. cbn [negb].
    by rewrite lexical_cast_to_string by done.
Qed.

Lemma API_post_get_entities_witness :
  let post : Request := Req "POST" "/api/Shoes" 11 [] "red" in
  let get : Request := Req "GET" "/api/Shoes/1" 11 [] "" in
  let H := CRUDHandler "/data" in
  handle_post (crud_handler_ := H) post default_response (∅ : files) =
    ('(body, s') ← crud_create (ICRUDHandler := H) "Shoes" "red" (∅ : files);
     Ok (reply status_ok body default_response, s')) /\
  handle_get (crud_handler_ := H) "/api" get default_response (∅ : files) =
    (exists_ ← crud_exists (ICRUDHandler := H) ("/" ++ "Shoes") 1 (∅ : files);
     if negb exists_ then
       Ok (reply status_not_found "Invalid Request: file not found" default_response)
     else
       body ← crud_read (ICRUDHandler := H) ("/" ++ "Shoes") 1 (∅ : files);
       Ok (res_prepare_payload (res_set_result status_ok (res_set_body body default_response)))).
Proof.
  intros post get H. apply (API_post_get_entities (crud := H) "/api" "Shoes" "red" 1);
    [apply (find_char_None "/"); vm_compute; reflexivity|vm_compute; reflexivity|lia
    |repeat split|repeat split].
Defined.

(** ** The handlers that only look at the request *)

(** C39: the echo, health, sleep and fallback handlers always give their
    status, the version of the request, plain text, their body (for the echo
    handler the request itself: start line, fields and body) and the length
    of that body as the Content-Length, whatever the response object held. *)
Theorem simple_handlers_correct `{BeastHttpLaws} (req : Request) (res : Response) :
  observed (Echo_handleRequest req res) 200 (req_version req) "text/plain"
    (requestToString req) /\
  observed (Health_handleRequest req res) 200 (req_version req) "text/plain" "OK" /\
  observed (Sleep_handleRequest req res) 200 (req_version req) "text/plain"
    "Processed after a delay" /\
  observed (NotFound_handleRequest req res) 404 (req_version req) "text/plain"
    "Invalid request type, Handler not found".
Proof.
  split_and!; [apply Echo_observed|apply Health_observed|apply Sleep_observed
    |apply NotFound_observed].
Qed.

Lemma simple_handlers_correct_witness :
  observed (Health_handleRequest (Req "GET" "/health" 11 [] "" : Request) default_response)
    200 11 "text/plain" "OK".
Proof. apply (simple_handlers_correct (B := record_http) (Req "GET" "/health" 11 [] "") default_response). Defined.

(** ** The static handler *)

(** C38: for a target below its prefix the static handler serves the file at
    the root, made relative to the parent directory, followed by the rest of
    the target as it is (including any [..] in it): the contents with the
    type of the extension when the path is a regular file that can be opened,
    and a 404 otherwise. *)
Theorem Static_handleRequest_correct `{BeastHttpLaws} {F : Type} {fs : FileSystem F}
    (root prefix rest : str) (req : Request) (res : Response) (s : F) (e r : bool) :
  let path := "../" ++ root ++ rest in
  req_target req = prefix ++ rest ->
  fs_exists path s = Some e -> fs_is_regular_file path s = Some r ->
  exists res', Static_handleRequest ("/"%char :: root) prefix req res s = Ok res' /\
    match (if e && r then fs_open_read (c_str path) s else None) with
    | Some contents => exists ext, path_extension path = Ok ext /\
        observed res' 200 (req_version req) (extension_to_type ext) contents
    | None => observed res' 404 (req_version req) "text/plain" "File not found"
    end.
Proof.
  intros path Ht He Hr. unfold Static_handleRequest. rewrite Ht, static_path_spec. fold path.
  rewrite He. destruct e; cbn [uncaught mbind outcome_bind negb andb].
  2: { eexists. split; [done|]. apply file_not_found_observed. }
  rewrite Hr. destruct r; cbn [uncaught mbind outcome_bind negb].
  2: { eexists. split; [done|]. apply file_not_found_observed. }
  destruct (fs_open_read (c_str path) s) as [contents|].
  - destruct (path_extension_ok path) as [ext ->]. run_ok.
    eexists. split; [done|]. exists ext. split; [done|]. apply file_found_observed.
  - eexists. split; [done|]. apply file_not_found_observed.
Qed.

Lemma Static_handleRequest_correct_witness :
  let s : files := <[("../www/a/../x.html" : str) := ("hello" : str)]> ∅ in
  exists res', Static_handleRequest "/www" "/static"
      (Req "GET" "/static/a/../x.html" 11 [] "" : Request) default_response s = Ok res' /\
    exists ext, path_extension ("../" ++ "www" ++ "/a/../x.html") = Ok ext /\
      observed res' 200 11 (extension_to_type ext) "hello".
Proof.
  intros s.
  assert (fs_open_read (c_str ("../" ++ "www" ++ "/a/../x.html")) s = Some ("hello" : str)) as E
    by (vm_compute; reflexivity).
  destruct (Static_handleRequest_correct (B := record_http) "www" "/static" "/a/../x.html"
    (Req "GET" "/static/a/../x.html" 11 [] "") default_response s true true) as (res' & E1 & E2);
    [vm_compute; reflexivity..|].
  exists res'. split; [exact E1|]. cbn [andb] in E2. rewrite E in E2. exact E2.
Defined.

(** The static handler terminates the program (an exception leaves a
    [noexcept] function) exactly when the file system throws on the path, and
    has no other fault. *)
Theorem Static_handleRequest_fault `{BeastHttp} {F : Type} {fs : FileSystem F}
    (root prefix : str) (req : Request) (res : Response) (s : F) (f : fault) :
  let path := static_path root prefix (req_target req) in
  Static_handleRequest root prefix req res s = Fault f <->
  f = Terminated /\
  (fs_exists path s = None \/
   (fs_exists path s = Some true /\ fs_is_regular_file path s = None)).
Proof.
  intros path. unfold Static_handleRequest. fold path.
  destruct (path_extension_ok path) as [ext Hext].
  destruct (fs_exists path s) as [[]|]; cbn [uncaught mbind outcome_bind negb];
    [|naive_solver|naive_solver].
  destruct (fs_is_regular_file path s) as [[]|]; cbn [uncaught mbind outcome_bind negb];
    [|naive_solver|naive_solver].
  destruct (fs_open_read (c_str path) s); [rewrite Hext|]; naive_solver.
Qed.
