(* ===== verification/DispatchTheorems.v ===== *)
(** * Properties of the dispatcher and of the logger

    The dispatcher registers the handlers of the first server block and
    chooses the handler of the longest registered prefix. *)

From S2P Require Import Prelude Cxx Config Tokenizer Parser Refinement Grammar Logger Http Storage Handlers Api Dispatcher Faults Instances.
Local Open Scope str_scope.

(** C24: on a configuration the parser accepted and whose locations are
    complete, the constructor succeeds: the table maps every path of a known
    location of the first [server] block (without its trailing slashes) to
    the handler of its first location, and [/] to the 404 handler when no
    location takes it; the number registered is that of the distinct paths. *)
Theorem RequestHandlerDispatcher_correct (text : str) (c : NginxConfig) :
  parse_string text = Ok (true, c) -> dispatchable c ->
  exists st, RequestHandlerDispatcher c = Ok st /\ handlers_ st = dispatch_table c /\
    num_registered st = size (list_to_map (M := gmap str handler) (server_entries c)).
Proof.
  rewrite parse_string_abstract. intros [= Hp] Hd.
  apply abstract_parse_iff in Hp as [Hwf _]. by apply RequestHandlerDispatcher_table.
Qed.

Definition dispatch_text : str :=
  "server { location /a/ EchoHandler {} location /a HealthHandler {} location /b APIHandler { root /d/; } }".

Definition dispatch_config : NginxConfig :=
  [Statement ["server"] (Some [
     Statement ["location"; "/a/"; "EchoHandler"] (Some []);
     Statement ["location"; "/a"; "HealthHandler"] (Some []);
     Statement ["location"; "/b"; "APIHandler"] (Some [Statement ["root"; "/d/"] None])])].

Lemma RequestHandlerDispatcher_correct_witness :
  exists st, RequestHandlerDispatcher dispatch_config = Ok st /\
    handlers_ st = dispatch_table dispatch_config /\
    num_registered st = size (list_to_map (M := gmap str handler) (server_entries dispatch_config)).
Proof.
  apply (RequestHandlerDispatcher_correct dispatch_text); [vm_compute; reflexivity|].
  repeat apply List.Forall_cons; try apply List.Forall_nil; intros _;
    (split; [vm_compute; lia|eexists; reflexivity]).
Defined.

(** C37: on a configuration the parser accepted, the constructor of the
    dispatcher dereferences a null pointer or reads outside a vector exactly
    when the first one-word [server] statement has no block, or a [location]
    of its block lacks a path, a handler type or a block. *)
Theorem RequestHandlerDispatcher_fault (text : str) (c : NginxConfig) :
  parse_string text = Ok (true, c) ->
  (exists f, RequestHandlerDispatcher c = Fault f) <-> ~ dispatchable c.
Proof.
  rewrite parse_string_abstract. intros [= Hp]. apply abstract_parse_iff in Hp as [Hwf _]. split.
  - intros [f Hf] Hd. destruct (RequestHandlerDispatcher_table c Hwf Hd) as (st & Hst & _). congruence.
  - by apply RequestHandlerDispatcher_faults.
Qed.

Lemma RequestHandlerDispatcher_fault_witness :
  (exists f, RequestHandlerDispatcher [Statement ["server"] None] = Fault f) <->
  ~ dispatchable [Statement ["server"] None].
Proof. apply (RequestHandlerDispatcher_fault "server;"). vm_compute. reflexivity. Defined.

(** C23: [getRequestHandler] returns a handler exactly when it is registered
    for the longest non-empty prefix of the target (without its trailing
    slashes) among the registered paths, whatever the order of the map's
    entries; it returns null when no registered path is such a prefix. *)
Theorem getRequestHandler_longest (hs : gmap str handler) (target : str) :
  (forall h, getRequestHandler hs target = Some h <->
    longest_prefix hs (pop_trailing "/" target) h) /\
  (getRequestHandler hs target = None <->
    forall p h, hs !! p = Some h -> p <> [] -> ~ p `prefix_of` pop_trailing "/" target).
Proof.
  split; [intros h; apply getRequestHandler_spec|].
  destruct (getRequestHandler_best hs target) as (q & Hmax & Hbest). simpl in *. split.
  - intros Hn p h Hp Hne Hpre. rewrite Hn in Hbest. subst.
    apply elem_of_map_entries in Hp. specialize (Hmax _ _ Hp Hpre). by destruct p; [|simpl in Hmax; lia].
  - intros Hnone. destruct (getRequestHandler hs target) as [h|]; [|done].
    destruct Hbest as (Hin & Hne & Hpre). apply elem_of_map_entries in Hin.
    by destruct (Hnone _ _ Hin Hne).
Qed.

(** After the constructor a target that starts with a slash always has a
    handler: at least the fallback's prefix matches. *)
Theorem dispatcher_never_null (c : NginxConfig) (st : init_state) (rest : str) :
  RequestHandlerDispatcher c = Ok st ->
  is_Some (getRequestHandler (handlers_ st) ("/"%char :: rest)).
Proof.
  unfold RequestHandlerDispatcher, initRequestHandlers. intros Hst.
  assert (is_Some (handlers_ st !! ("/" : str))) as [h Hh].
  { destruct (register_server c _) as [st'|]; [|done]. simpl in Hst. injection Hst as <-.
    case_bool_decide as Hb; simpl; [rewrite lookup_insert_eq; by eexists|by apply not_eq_None_Some]. }
  destruct (getRequestHandler (handlers_ st) _) as [h'|] eqn:Hg; [by eexists|].
  destruct (getRequestHandler_best (handlers_ st) ("/"%char :: rest)) as (q & Hmax & Hbest).
  rewrite Hg in Hbest. simpl in *. subst. apply elem_of_map_entries in Hh.
  assert (length ("/" : str) <= 0) as Hl; [|simpl in Hl; lia].
  apply (Hmax _ _ Hh). destruct (pop_trailing_spec "/" ("/"%char :: rest)) as (n & Heq & _).
  destruct (pop_trailing "/" ("/"%char :: rest)) as [|d r] eqn:Hp.
  - exfalso. unfold pop_trailing in Hp. apply (f_equal reverse) in Hp.
    rewrite reverse_involutive in Hp. destruct (reverse ("/"%char :: rest)) as [|x l] eqn:Hr.
    + apply (f_equal length) in Hr. rewrite length_reverse in Hr. done.
    + clear -Hp. revert x Hp. induction l as [|y l IH]; intros x Hp; [done|].
      simpl in Hp. case_bool_decide; [by apply (IH y)|done].
  - simpl in Heq. injection Heq as <- _. by exists r.
Qed.

Lemma dispatcher_never_null_witness :
  exists st, RequestHandlerDispatcher dispatch_config = Ok st /\
    is_Some (getRequestHandler (handlers_ st) "/unknown").
Proof.
  eexists. split; [vm_compute; reflexivity|].
  apply (dispatcher_never_null dispatch_config _ "unknown"). vm_compute. reflexivity.
Defined.

(** Any number of calls of the logger's methods registers its two sinks
    once, before the first record, and pushes the records in the order of the
    calls. *)
Theorem log_sequence (r : log_record) (rs : list log_record) :
  let core := foldl (fun c r => log r c) initial_core (r :: rs) in
  sinks core = sinks (init initial_core) /\ records core = r :: rs.
Proof. intros core. unfold core. cbn [foldl]. rewrite log_once by done. done. Qed.

(** C14: every handler ends on every request, response object and file system:
    with a response, or by an exception of the file system in the static and
    the API handler, or by the overflow of the counter of ids in the API
    handler.  No loop runs for ever, and no other operation fails. *)
Theorem handleRequest_ends `{BeastHttp} `{LexicalCast} {F : Type} {fs : FileSystem F}
    (h : handler) (req : Request) (res : Response) (s : F) :
  is_ok (handleRequest h req res s) \/
  (handleRequest h req res s = Fault Terminated /\
    exists root prefix, h = HandlerStatic root prefix \/ h = HandlerAPI root prefix) \/
  (handleRequest h req res s = Fault IntegerOverflow /\
    exists root prefix, h = HandlerAPI root prefix).
Proof.
  pose proof (handleRequest_tame h req res s) as Ht.
  destruct (handleRequest h req res s) as [a|f] eqn:Heq; [left; apply is_ok_Ok|right].
  specialize (Ht f eq_refl). destruct h; try done.
  - simpl in Heq. destruct (Static_handleRequest _ _ _ _ _) eqn:Hs; [done|].
    injection Heq as ->. apply Static_handleRequest_Terminated in Hs as ->. left. eauto.
  - destruct Ht as [-> | ->]; [left|right]; eauto.
Qed.
