(* ===== verification/SessionTheorems.v ===== *)
(** * Properties of the session

    Base64 decoding and authentication, the gate in front of the handlers,
    the responses of the session itself, and the operations in flight on a
    connection. *)

From S2P Require Import Prelude Cxx Logger Base64 Http Storage Handlers Api Dispatcher Session SessionCases Instances Examples.
Local Open Scope str_scope.

(** ** Base64 *)

(** C25: [base64_decode], with its 32-bit accumulator that wraps around and its
    bit counter, computes the bytes of the bit stream of the characters up to
    the first one outside the alphabet, for an input of any length. *)
Theorem base64_decode_correct (input : str) : base64_decode input = decode_spec input.
Proof. apply base64_decode_spec. Qed.

(** C26: decoding inverts the encoding of RFC 4648, with or without its
    padding, and whatever follows the first character outside the alphabet. *)
Theorem base64_roundtrip (s tail : str) (c : ascii) :
  base64_decode (encode s) = s /\
  (T c = (-1)%Z -> base64_decode (encode s ++ c :: tail) = s).
Proof.
  split; [apply base64_decode_encode|]. intros Hc.
  by rewrite base64_decode_prefix, base64_decode_encode.
Qed.

Lemma base64_roundtrip_witness : base64_decode (encode "al:x" ++ "!"%char :: "junk") = "al:x".
Proof. apply (base64_roundtrip "al:x" "junk" "!"). vm_compute. reflexivity. Defined.

(** ** Authentication *)
Section authentication.
Context `{BeastHttp}.

(** C17: [authenticate] never faults, accepts exactly the headers that are
    [Basic] followed by a text which decodes to [user:password] for a user
    of the configuration with that password (the first colon separates),
    moves the time of the last authentication to the present when it
    accepts, and changes nothing when it refuses. *)
Theorem authenticate_correct (h : str) (now : Z) (s : session) :
  exists b : bool, authenticate h now s = Ok (b, if b then set_last_auth_time now s else s) /\
    (b = true <->
     exists e u p, h = "Basic " ++ e /\ base64_decode e = u ++ ":" ++ p /\
       ":"%char ∉ u /\ credentials_ s !! u = Some p).
Proof. apply authenticate_spec. Qed.

(** The header a client sends for a user name without a colon and a
    password is accepted exactly when the configuration has that pair. *)
Theorem authenticate_client (u p : str) (now : Z) (s : session) :
  ":"%char ∉ u ->
  (authenticate ("Basic " ++ encode (u ++ ":" ++ p)) now s = Ok (true, set_last_auth_time now s)
   <-> credentials_ s !! u = Some p).
Proof.
  intros Hu. rewrite <- (valid_header_encode (credentials_ s) u p) by done.
  destruct (authenticate_spec ("Basic " ++ encode (u ++ ":" ++ p)) now s) as (b & -> & <-).
  split; [by intros [= -> _]|by intros ->].
Qed.
End authentication.

Lemma authenticate_client_witness :
  authenticate ("Basic " ++ encode ("al" ++ ":" ++ "x")) 5 example_session =
    Ok (true, set_last_auth_time 5 example_session) <->
  credentials_ example_session !! ("al" : str) = Some ("x" : str).
Proof. apply authenticate_client. apply find_char_None. vm_compute. reflexivity. Defined.

(** ** The read callback *)
Section callback.
Context `{BeastHttp} `{LexicalCast} {F : Type} `{FileSystem F}.

(** C1: the gate.  A completed read that changes a file, or whose callback
    returns 0, completed a request which carries valid credentials within
    the authentication time; the response is then the one the dispatched
    handler made, and the time of the last authentication the present. *)
Theorem read_callback_gate (error : option str) (bytes : str) (now1 now2 : Z)
    (s s' : session) (fs fs' : F) (r : Z) :
  handle_read_callback error bytes now1 now2 s fs = Ok (r, s', fs') ->
  fs' <> fs \/ r = 0%Z ->
  exists request h e u p,
    parser_put (buffer_ s ++ bytes) = PutDone request /\
    req_find field_authorization request = Some h /\ h = "Basic " ++ e /\
    base64_decode e = u ++ ":" ++ p /\ credentials_ s !! u = Some p /\
    (seconds_between (last_auth_time_ s) now1 <= auth_time_ s)%Z /\
    answer request s fs = Ok (response_ s', fs') /\ last_auth_time_ s' = now2.
Proof.
  intros Heq Hch. pose proof (handle_read_callback_cases error bytes now1 now2 s fs) as Hc.
  rewrite Heq in Hc.
  inversion Hc as [m ? ? E|m ? ? ? E|? ? ? E| |request o ? Hput Hr]; subst;
    try (by destruct Hch).
  inversion Hr as [? Hexp E|? Hexp Hna E|? res ? Ha Hans E|]; subst; try (by destruct Hch).
  erased E.
  destruct Ha as [Hexp (h & Hh & e & u & p & -> & Hd & _ & Hl)].
  exists request, ("Basic " ++ e), e, u, p. unfold expired in Hexp. simpl in Hexp.
  change (answer request (set_buffer (buffer_ s ++ bytes) s) fs) with (answer request s fs) in Hans.
  split_and!; try done; [lia|congruence].
Qed.

(** A complete request without valid credentials, or after the
    authentication time has run out, is answered with the 401 response: no
    file changes, no handler runs, one write is started, and the callback
    returns 1. *)
Theorem read_callback_refuses (bytes : str) (now1 now2 : Z) (s : session) (fs : F)
    (request : Request) :
  parser_put (buffer_ s ++ bytes) = PutDone request -> ~ authorized request now1 s ->
  exists s', handle_read_callback None bytes now1 now2 s fs = Ok (1%Z, s', fs) /\
    response_ s' = unauthorized_response /\
    writes (socket_ s') = S (writes (socket_ s)).
Proof.
  intros Hput Hna. pose proof (handle_read_callback_cases None bytes now1 now2 s fs) as Hc.
  inversion Hc as [m ? Hm ? E|m ? ? Hp ? E|? ? Hp ? E|? Hp E|request' o ? Hp Hr E]; try congruence.
  assert (request' = request) as -> by congruence.
  inversion Hr as [s' ? E'|s' ? ? E'|? ? ? Ha|? Ha]; subst; try (by destruct Hna);
    exists s'; erased E'; split_and!; try done;
    match goal with Hk : socket_ s' = _ |- _ => by rewrite Hk end.
Qed.

(** C16: what makes the read callback fail, exactly.  When the parser needs
    more input, as for a header with a body to come, control reaches the end
    of a function that returns [int], which is undefined behaviour: this takes
    no credentials.  Otherwise only the handler of an authorized request can
    fail: no read error, malformed request, exception of the parser, late
    request or wrong credentials does. *)
Theorem read_callback_fault (error : option str) (bytes : str) (now1 now2 : Z) (s : session)
    (fs : F) (f : fault) :
  handle_read_callback error bytes now1 now2 s fs = Fault f <->
  error = None /\
  ((parser_put (buffer_ s ++ bytes) = PutMore /\ f = MissingReturn) \/
   exists request, parser_put (buffer_ s ++ bytes) = PutDone request /\
     authorized request now1 s /\ answer request s fs = Fault f).
Proof. apply read_callback_Fault. Qed.

(** C33: the buffer is never consumed.  With a parser that ignores what
    follows a complete message, a request that was refused because the
    authentication time had run out is handled again, and then served, when
    the next bytes arrive, whatever they are. *)
Theorem late_request_replayed `{BeastParserLaws} (bytes1 bytes2 h : str) (now1 now2 now3 now4 : Z)
    (s : session) (fs : F) (request : Request) :
  parser_put (buffer_ s ++ bytes1) = PutDone request ->
  (auth_time_ s < seconds_between (last_auth_time_ s) now1)%Z ->
  (seconds_between now1 now3 <= auth_time_ s)%Z ->
  req_find field_authorization request = Some h -> valid_header (credentials_ s) h ->
  exists s1, handle_read_callback None bytes1 now1 now2 s fs = Ok (1%Z, s1, fs) /\
    response_ s1 = unauthorized_response /\
    forall res fs', answer request s1 fs = Ok (res, fs') ->
    exists s2, handle_read_callback None bytes2 now3 now4 s1 fs = Ok (0%Z, s2, fs') /\
      response_ s2 = res.
Proof.
  intros Hput Hexp Hfresh Hh Hv.
  pose proof (handle_read_callback_cases None bytes1 now1 now2 s fs) as Hc.
  inversion Hc as [m ? Hm|m ? ? Hp|? ? Hp|? Hp|request' o ? Hp Hr E]; try congruence.
  assert (request' = request) as -> by congruence.
  inversion Hr as [s1 ? E'|s1 Hn|? ? ? [Hn _]|? [Hn _]]; subst; try (by destruct Hn).
  exists s1. apply equiv_inv in E'. simpl in E'. destruct E' as (Ek & Ec & Ed & Er & El & Ea & Eb).
  split_and!; [done..|]. intros res fs' Hans.
  assert (parser_put (buffer_ s1 ++ bytes2) = PutDone request) as Hput2
    by (rewrite Eb; by apply parser_put_more).
  pose proof (handle_read_callback_cases None bytes2 now3 now4 s1 fs) as Hc2.
  generalize dependent (handle_read_callback None bytes2 now3 now4 s1 fs). intros out Hc2.
  inversion Hc2 as [m ? Hm|m ? ? Hp2|? ? Hp2|? Hp2|request' o' ? Hp2 Hr2 E2]; try congruence.
  assert (request' = request) as -> by congruence.
  assert (authorized request now3 (set_buffer (buffer_ s1 ++ bytes2) s1)) as Hauth.
  { split; [unfold expired; simpl; rewrite Ea, El; lia|]. exists h. simpl. by rewrite Ec. }
  inversion Hr2 as [s2 Hx|s2 ? Hna|s2 res2 fs2 ? Ha2 Es|f' ? Ha2]; subst.
  - by destruct Hauth.
  - by destruct Hna.
  - change (answer request (set_buffer (buffer_ s1 ++ bytes2) s1) fs)
      with (answer request s1 fs) in Ha2.
    erased Es. exists s2. split; congruence.
  - change (answer request (set_buffer (buffer_ s1 ++ bytes2) s1) fs)
      with (answer request s1 fs) in Ha2. congruence.
Qed.
End callback.

Lemma read_callback_gate_witness :
  match callback_result (raw_request good_header) (sec 5) example_session with
  | Ok (r, s', fs') =>
      r = 0%Z /\
      exists request h e u p,
        parser_put (buffer_ example_session ++ raw_request good_header) = PutDone request /\
        req_find field_authorization request = Some h /\ h = "Basic " ++ e /\
        base64_decode e = u ++ ":" ++ p /\ credentials_ example_session !! u = Some p /\
        (seconds_between (last_auth_time_ example_session) (sec 5) <= auth_time_ example_session)%Z /\
        answer request example_session (∅ : files) = Ok (response_ s', fs') /\
        last_auth_time_ s' = sec 5
  | Fault _ => False
  end.
Proof.
  assert (return_value (callback_result (raw_request good_header) (sec 5) example_session)
    = Some (0%Z)) as Hret by (vm_compute; reflexivity).
  destruct (callback_result (raw_request good_header) (sec 5) example_session)
    as [[[r s'] fs']|f] eqn:Heq; [|discriminate Hret].
  injection Hret as Hr. split; [exact Hr|]. unfold callback_result in Heq.
  pose proof (read_callback_gate (F := files) None (raw_request good_header) (sec 5) (sec 5) example_session s'
    ∅ fs' r Heq (or_intror Hr)) as Hgate.
  exact Hgate.
Defined.

Lemma not_authorized_at n : (60 < n)%Z -> ~ authorized example_request (sec n) example_session.
Proof.
  intros Hn [Hexp _]. apply Hexp. unfold expired, seconds_between, sec. simpl.
  rewrite Z.sub_0_r, Z.quot_mul by lia. lia.
Qed.

Lemma read_callback_refuses_witness :
  exists s', callback_result (raw_request good_header) (sec 100) example_session
      = Ok (1%Z, s', ∅) /\
    response_ s' = unauthorized_response /\ writes (socket_ s') = 1.
Proof.
  apply (read_callback_refuses (raw_request good_header) (sec 100) (sec 100) example_session ∅
    example_request); [vm_compute; reflexivity|apply not_authorized_at; lia].
Defined.

Lemma good_header_valid : valid_header (credentials_ example_session) good_header.
Proof. apply valid_header_encode; [apply find_char_None|]; vm_compute; reflexivity. Qed.

Lemma late_request_replayed_witness :
  exists s1, callback_result (raw_request good_header) (sec 100) example_session
      = Ok (1%Z, s1, ∅) /\
    response_ s1 = unauthorized_response /\
    forall res fs', answer example_request s1 (∅ : files) = Ok (res, fs') ->
    exists s2, callback_result "x" (sec 101) s1 = Ok (0%Z, s2, fs') /\ response_ s2 = res.
Proof.
  apply (late_request_replayed (raw_request good_header) "x" good_header (sec 100) (sec 100)
    (sec 101) (sec 101) example_session ∅ example_request);
    [vm_compute; reflexivity|vm_compute; reflexivity|vm_compute; discriminate
    |vm_compute; reflexivity|apply good_header_valid].
Defined.

(** ** The connection *)
Section connection.
Context `{BeastHttp} `{LexicalCast} {F : Type} `{FileSystem F}.

(** In every reachable state of a connection at most one read is in
    flight, and the operations in flight and the responses sent are together
    at most one more than the reads that completed after the authentication
    time had run out.  The credentials, the dispatcher and the time never
    change. *)
Theorem operations_in_flight (d : gmap str handler) (cr : gmap str str) (a now : Z) (fs : F)
    (c : conn) :
  reachable (initial_conn d cr a now fs) c ->
  reads (socket_ (c_session c)) <= 1 /\
  reads (socket_ (c_session c)) + writes (socket_ (c_session c)) + length (c_sent c)
    <= 1 + c_late c /\
  credentials_ (c_session c) = cr /\ dispatcher_ (c_session c) = d /\ auth_time_ (c_session c) = a.
Proof.
  intros Hr. apply reachable_ok in Hr; [|apply initial_conn_ok].
  destruct Hr as ((Hc & Hd & Ha) & H1' & H2'). by split_and!.
Qed.

(** With no credentials in the configuration, no sequence of bytes,
    errors and times makes a connection change a file or send anything but
    the server's own 400, 401 and 500 responses. *)
Theorem no_credentials_connection (d : gmap str handler) (a now : Z) (fs : F) (c : conn) :
  reachable (initial_conn d ∅ a now fs) c ->
  c_fs c = fs /\ Forall refusal (c_sent c).
Proof.
  intros Hr. by apply unserved_no_credentials in Hr as (? & ? & _).
Qed.

(** A connection without a late request is in one of three states: it
    waits for a read and has sent nothing, or it waits for a write and has
    sent nothing, or nothing is in flight, nothing can happen any more, and
    at most one response has been sent. *)
Theorem timely_connection (d : gmap str handler) (cr : gmap str str) (a now : Z) (fs : F) (c : conn) :
  reachable (initial_conn d cr a now fs) c -> c_late c = 0 ->
  let k := socket_ (c_session c) in
  (reads k = 1 /\ writes k = 0 /\ c_sent c = []) \/
  (reads k = 0 /\ writes k = 1 /\ c_sent c = []) \/
  (reads k = 0 /\ writes k = 0 /\ length (c_sent c) <= 1 /\ forall c', ~ conn_step c c').
Proof.
  intros Hr Hl k. apply reachable_ok in Hr as (_ & H1' & H2'); [|apply initial_conn_ok].
  unfold k. destruct (socket_ (c_session c)) as [rd wr op] eqn:Hk. simpl in *.
  assert (length (c_sent c) = 0 -> c_sent c = []) as Hnil by apply nil_length_inv.
  destruct rd as [|[|]], wr as [|[|]]; try lia.
  - do 2 right. split_and!; [done|done|lia|]. intros c' Hs.
    destruct Hs as [? ? ? ? ? ? ? ? Hpos|? ? Hpos]; rewrite Hk in Hpos; simpl in Hpos; lia.
  - right. left. split_and!; [done|done|]. apply Hnil. lia.
  - left. split_and!; [done|done|]. apply Hnil. lia.
Qed.

End connection.

Lemma timely_connection_witness :
  match after_read (raw_request good_header) (sec 5) example_conn with
  | Some c =>
      let k := socket_ (c_session c) in
      (reads k = 1 /\ writes k = 0 /\ c_sent c = []) \/
      (reads k = 0 /\ writes k = 1 /\ c_sent c = []) \/
      (reads k = 0 /\ writes k = 0 /\ length (c_sent c) <= 1 /\ forall c', ~ conn_step c c')
  | None => False
  end.
Proof.
  assert (match after_read (raw_request good_header) (sec 5) example_conn with
    | Some c => bool_decide (c_late c = 0) | None => false end = true) as Hs
    by (vm_compute; reflexivity).
  destruct (after_read _ _ _) as [c|] eqn:Hc; [|discriminate Hs]. apply bool_decide_eq_true in Hs.
  exact (timely_connection _ _ _ 0 (∅ : files) c (rtc_once _ _ (after_read_step _ _ _ _ Hc)) Hs).
Defined.

Lemma operations_in_flight_witness :
  match after_read (raw_request good_header) (sec 100) example_conn with
  | Some c =>
      reads (socket_ (c_session c)) <= 1 /\
      reads (socket_ (c_session c)) + writes (socket_ (c_session c)) + length (c_sent c)
        <= 1 + c_late c /\
      credentials_ (c_session c) = <[("al" : str) := ("x" : str)]> ∅ /\
      dispatcher_ (c_session c) = <[("/" : str) := HandlerHealth]> ∅ /\
      auth_time_ (c_session c) = 60%Z
  | None => False
  end.
Proof.
  assert (is_some (after_read (raw_request good_header) (sec 100) example_conn) = true) as Hs
    by (vm_compute; reflexivity).
  destruct (after_read _ _ _) as [c|] eqn:Hc; [|discriminate Hs].
  apply (operations_in_flight _ _ _ 0 (∅ : files)).
  eapply rtc_once, after_read_step, Hc.
Defined.

(** Two writes can be in flight on one socket: a late request starts the
    write of the 401 and a read, and a request that completes before the
    write does starts another one. *)
Theorem two_writes_in_flight :
  exists c, reachable example_conn c /\ writes (socket_ (c_session c)) = 2.
Proof.
  apply (two_reads (raw_request good_header) "x" (sec 100) (sec 101)).
  vm_compute. reflexivity.
Qed.

Lemma no_credentials_connection_witness :
  let c0 := initial_conn (<[("/" : str) := HandlerHealth]> ∅) ∅ 60 0 (∅ : files) in
  match after_read (raw_request good_header) (sec 5) c0 with
  | Some c => c_fs c = ∅ /\ Forall refusal (c_sent c)
  | None => False
  end.
Proof.
  intros c0.
  assert (is_some (after_read (raw_request good_header) (sec 5) c0) = true) as Hs
    by (vm_compute; reflexivity).
  destruct (after_read _ _ c0) as [c|] eqn:Hc; [|discriminate Hs].
  apply (no_credentials_connection (<[("/" : str) := HandlerHealth]> ∅) 60 0 (∅ : files)).
  eapply rtc_once, after_read_step, Hc.
Defined.

(** An update does not set the body of the response object: the update of an
    existing entry that is replayed after it was refused for being late is
    answered with status 200 and the body of the 401. *)
Definition late_put : str :=
  "PUT /api/Shoes/1 HTTP/1.1" ++ [CR; NL] ++ "Authorization: " ++ good_header ++ [CR; NL] ++
  "Content-Length: 3" ++ [CR; NL; CR; NL] ++ "red".

Definition late_put_session : session :=
  new_session (<[("/api" : str) := HandlerAPI "/data/" "/api"]> ∅)
    (<[("al" : str) := ("x" : str)]> ∅) 60 0.

Definition shoes_file (contents : str) : files := <[("/data/Shoes/1" : str) := contents]> ∅.

Definition late_put_result : option (Z * str * bool) :=
  match handle_read_callback None late_put (sec 100) (sec 100) late_put_session (shoes_file "old") with
  | Ok (_, s1, fs1) =>
      match handle_read_callback None "x" (sec 101) (sec 101) s1 fs1 with
      | Ok (_, s2, fs2) => Some (res_result (response_ s2), res_body (response_ s2),
          bool_decide (fs2 = shoes_file "red"))
      | Fault _ => None
      end
  | Fault _ => None
  end.

Example late_put_answered_unauthorized :
  late_put_result = Some (200%Z, ("Unauthorized" : str), true).
Proof. vm_compute. reflexivity. Qed.
