(* ===== verification/ServerTheorems.v ===== *)
(** * Properties of the server and of [main] *)

From S2P Require Import Prelude Cxx Config Tokenizer Parser Refinement Grammar Logger Base64 Http Storage Handlers Api Dispatcher Session SessionCases Server Instances Examples.
Local Open Scope str_scope.

Section server_theorems.
Context `{BeastHttp} `{LexicalCast} {F : Type} `{FileSystem F}.

(** From the constructor on, whatever accepts complete with or without
    an error, exactly one accept is in flight, for a session that has not
    started anything; every session ever started has one read in flight and
    nothing else when it starts; and all of them have the dispatcher, the
    credentials and the authentication time of the server, which never
    change, and neither does its port. *)
Theorem one_accept_in_flight (listen_on : Z -> option str) (port : Z) (config : NginxConfig)
    (credentials : gmap str str) (auth_time now : Z) (s0 s : server) (l : list log_record) :
  new_server listen_on port config credentials auth_time now = Ok (inl (s0, l)) ->
  rtc server_step s0 s ->
  server_ok s /\ acceptor_port s = to_ushort port /\ server_credentials_ s = credentials /\
  server_auth_time_ s = auth_time /\ server_dispatcher_ s = server_dispatcher_ s0.
Proof.
  unfold new_server. destruct (listen_on _); [done|].
  destruct (RequestHandlerDispatcher config) as [d|]; [|done].
  intros [= <- <-] Hr. revert s Hr.
  apply (rtc_ind_r (fun s => server_ok s /\ acceptor_port s = to_ushort port /\
    server_credentials_ s = credentials /\ server_auth_time_ s = auth_time /\
    server_dispatcher_ s = handlers_ d) _).
  - split; [by apply start_accept_ok|done].
  - intros s1 s2 _ Hs (Hok & Hsame). destruct (server_step_ok s1 s2 Hok Hs) as (? & Hs2 & _).
    unfold same_server in Hs2. destruct_and!. split_and!; congruence || done.
Qed.

(** C29: when [main] starts the server, the file named by its only argument
    was accepted by the parser; the port it listens on, after the
    conversions to [short] and to [unsigned short], is the port of the
    configuration; the handlers are those of its dispatch table, the
    credentials its own, and one accept is in flight. *)
Theorem main_starts (argv : list str) (open_file : str -> option str)
    (listen_on : Z -> option str) (now : Z) (s : server) (l : list log_record) :
  main argv open_file listen_on now = Ok (MainRun (Running s) l) ->
  exists program file_name text config t,
    argv = [program; file_name] /\ open_file file_name = Some text /\
    parse_string text = Ok (true, config) /\
    get_config_port config = Ok (acceptor_port s) /\ (0 <= acceptor_port s <= 65535)%Z /\
    get_auth_time config = Ok t /\ server_auth_time_ s = to_short t /\
    get_credentials config = Ok (server_credentials_ s) /\
    server_dispatcher_ s = dispatch_table config /\ server_ok s.
Proof.
  intros Hm. apply main_Running in Hm as (file_name & program & text & config & port & t & cr & d &
    -> & Ho & Hp & Hport & Hne & Ht & _ & Hcr & Hd & _ & ->).
  exists program, file_name, text, config, t.
  destruct (get_setting_source "port" config port Hport) as [|[Hrange _]]; [done|].
  assert (wf_config config) as Hwf.
  { pose proof Hp as Hp'. fold (parse_string text) in Hp'. rewrite parse_string_abstract in Hp'.
    injection Hp' as Hp'. by apply abstract_parse_iff in Hp' as [? _]. }
  assert (to_ushort (to_short port) = port) as Hconv
    by (rewrite to_ushort_to_short, to_ushort_id; lia).
  simpl. rewrite Hconv. split_and!; try done; try lia.
  - by apply RequestHandlerDispatcher_Ok.
  - by apply start_accept_ok.
Qed.

(** C30: a configuration can be deployed.  When a configuration with printable
    tokens has a valid port, an authentication time that fits in a [short],
    readable credentials and complete locations, and its port can be bound,
    then [main] on a file with what [ToString] prints of it starts the server:
    on that port, with that time, those credentials and the handlers of its
    dispatch table. *)
Theorem main_runs_printed (program file_name : str) (c : NginxConfig) (depth : nat)
    (open_file : str -> option str) (listen_on : Z -> option str) (now port t : Z)
    (cr : gmap str str) :
  printable c -> dispatchable c ->
  get_config_port c = Ok port -> port <> (-1)%Z -> listen_on port = None ->
  get_auth_time c = Ok t -> (0 <= t <= 32767)%Z -> get_credentials c = Ok cr ->
  open_file file_name = Some (NginxConfig_ToString depth c) ->
  exists s l, main [program; file_name] open_file listen_on now = Ok (MainRun (Running s) l) /\
    acceptor_port s = port /\ server_auth_time_ s = t /\ server_credentials_ s = cr /\
    server_dispatcher_ s = dispatch_table c.
Proof.
  intros Hprint Hd Hport Hne Hl Ht Hrange Hcr Hopen.
  assert (parse_string (NginxConfig_ToString depth c) = Ok (true, c)) as Hparse
    by (by rewrite parse_string_abstract, abstract_parse_ToString).
  assert (wf_config c) as Hwf.
  { rewrite parse_string_abstract in Hparse. injection Hparse as Hp.
    by apply abstract_parse_iff in Hp as [? _]. }
  destruct (RequestHandlerDispatcher_table c Hwf Hd) as (d & Hdisp & Hh & _).
  destruct (get_setting_source "port" c port Hport) as [|[Hp _]]; [done|].
  unfold main. rewrite bool_decide_false by (simpl; lia). cbn [vec_at lookup list_lookup mbind outcome_bind].
  rewrite Hopen. change (parsed (Parse_file (Some ?text))) with (parse_string text).
  rewrite Hparse. run_ok. rewrite Hport. run_ok. rewrite bool_decide_false by done.
  rewrite Ht. run_ok. rewrite to_short_id by lia. rewrite bool_decide_false by lia.
  rewrite Hcr. run_ok. unfold new_server.
  rewrite to_ushort_to_short, to_ushort_id by lia. rewrite Hl, Hdisp. run_ok.
  eexists _, _. split; [done|]. by split_and!.
Qed.

(** A [timer] from 32768 to 65534 seconds becomes negative in the [short]. *)
Lemma main_long_timer argv open_file listen_on now s l text config t :
  main argv open_file listen_on now = Ok (MainRun (Running s) l) ->
  argv !! 1 ≫= open_file = Some text -> parse_string text = Ok (true, config) ->
  get_auth_time config = Ok t -> (32767 < t)%Z -> (server_auth_time_ s < 0)%Z.
Proof.
  intros Hm Ho Hp Ht Hlong.
  apply main_Running in Hm as (file_name & program & text' & config' & port & t' & cr & d &
    -> & Ho' & Hp' & _ & _ & Ht' & _ & _ & _ & _ & ->).
  simpl in Ho. assert (text' = text) as -> by congruence.
  fold (parse_string text) in Hp'. assert (config' = config) as -> by congruence.
  assert (t' = t) as -> by congruence. simpl.
  destruct (get_setting_source "timer" config t Ht) as [|[Hrange _]]; [lia|].
  rewrite to_short_wrap by lia. lia.
Qed.

(** Seen from one connection: it changes no file and sends refusals only. *)
Theorem long_timer_connection (argv : list str) (open_file : str -> option str)
    (listen_on : Z -> option str) (now now' : Z) (s : server) (l : list log_record)
    (text : str) (config : NginxConfig) (t : Z) (fs : F) (c : conn) :
  main argv open_file listen_on now = Ok (MainRun (Running s) l) ->
  argv !! 1 ≫= open_file = Some text -> parse_string text = Ok (true, config) ->
  get_auth_time config = Ok t -> (32767 < t)%Z ->
  reachable (initial_conn (server_dispatcher_ s) (server_credentials_ s) (server_auth_time_ s)
    now' fs) c ->
  c_fs c = fs /\ Forall refusal (c_sent c).
Proof.
  intros Hm Ho Hp Ht Hlong Hr.
  apply unserved_negative_time in Hr as (? & ? & _); [done|]. by eapply main_long_timer.
Qed.

(** C40: [main] returns 1 for a wrong number of arguments, -1 for a file that
    cannot be opened or parsed, a missing or invalid port, or a missing,
    invalid or 65535 authentication time, and 0 when the port cannot be
    bound; in no other case does it return. *)
Theorem main_exits (argv : list str) (open_file : str -> option str)
    (listen_on : Z -> option str) (now : Z) (code : Z) (l : list log_record) :
  main argv open_file listen_on now = Ok (MainRun (Exit code) l) ->
  (code = 1%Z /\ length argv <> 2) \/
  exists program file_name, argv = [program; file_name] /\
  ((code = (-1)%Z /\ open_file file_name = None) \/
   exists text valid config, open_file file_name = Some text /\
     parse_string text = Ok (valid, config) /\
     ((code = (-1)%Z /\ valid = false) \/
      (code = (-1)%Z /\ get_config_port config = Ok (-1)%Z) \/
      (code = (-1)%Z /\ (get_auth_time config = Ok (-1)%Z \/ get_auth_time config = Ok 65535%Z)) \/
      (code = 0%Z /\ exists port, get_config_port config = Ok port /\ is_Some (listen_on port)))).
Proof.
  unfold main. case_bool_decide as Hargv; [intros [= <- <-]; by left|].
  destruct argv as [|program [|file_name [|]]]; simpl in Hargv; try lia. cbn [vec_at lookup list_lookup mbind outcome_bind].
  intros Hm. right. exists program, file_name. split; [done|].
  destruct (open_file file_name) as [text|]; [|injection Hm as <- <-; by left].
  right. change (parsed (Parse_file (Some text))) with (parse_string text) in Hm.
  destruct (parse_string text) as [[valid config]|] eqn:Hp; [|done]. exists text, valid, config.
  split; [done|]. split; [done|]. run_ok_in Hm.
  destruct valid; cbn [negb] in Hm; [right|injection Hm as <- <-; by left].
  destruct (get_config_port config) as [port|] eqn:Hport; [|done]. run_ok_in Hm.
  case_bool_decide; [injection Hm as <- <-; subst; by left|right].
  destruct (get_auth_time config) as [t|] eqn:Ht; [|done]. run_ok_in Hm.
  case_bool_decide as Hshort.
  - injection Hm as <- <-. left. split; [done|].
    destruct (get_setting_source "timer" config t Ht) as [->|[Hrange _]]; [by left|right].
    destruct (decide (t < 32768)%Z); [rewrite to_short_id in Hshort; lia|].
    rewrite to_short_wrap in Hshort by lia. do 2 f_equal. lia.
  - right. destruct (get_credentials config) as [cr|]; [|done]. run_ok_in Hm.
    unfold new_server in Hm.
    destruct (get_setting_source "port" config port Hport) as [|[Hrange _]]; [done|].
    rewrite to_ushort_to_short, to_ushort_id in Hm by lia.
    destruct (listen_on port) eqn:Hl; run_ok_in Hm.
    + injection Hm as <- <-. split; [done|]. by exists port.
    + by destruct (RequestHandlerDispatcher config).
Qed.

(** End to end, for one callback.  On a connection of a server that [main] started, a
    complete request with the [Authorization] header of a user of the
    configuration file, within the authentication time, is answered by what
    the handler of the longest path of the file's dispatch table makes of it;
    the callback returns 0 and one write is started. *)
Theorem served_end_to_end (argv : list str) (open_file : str -> option str)
    (listen_on : Z -> option str) (now now0 now1 now2 : Z) (s : server) (l : list log_record)
    (text : str) (config : NginxConfig) (cr : gmap str str) (u p bytes : str)
    (request : Request) (h : handler) (fs fs' : F) (res : Response) :
  main argv open_file listen_on now = Ok (MainRun (Running s) l) ->
  argv !! 1 ≫= open_file = Some text -> parse_string text = Ok (true, config) ->
  get_credentials config = Ok cr -> cr !! u = Some p -> ":"%char ∉ u ->
  parser_put bytes = PutDone request ->
  req_find field_authorization request = Some ("Basic " ++ encode (u ++ ":" ++ p)) ->
  (seconds_between now0 now1 <= server_auth_time_ s)%Z ->
  longest_prefix (dispatch_table config) (pop_trailing "/" (req_target request)) h ->
  handleRequest h request default_response fs = Ok (res, fs') ->
  let c0 := initial_conn (server_dispatcher_ s) (server_credentials_ s) (server_auth_time_ s)
    now0 fs in
  exists s', handle_read_callback None bytes now1 now2 (finish_read (c_session c0)) (c_fs c0)
      = Ok (0%Z, s', fs') /\
    response_ s' = res /\ socket_ s' = Socket 0 1 true /\ last_auth_time_ s' = now2.
Proof.
  intros Hm Ho Hp Hcr Hu Hcolon Hput Hh Htime Hlong Hres c0.
  apply main_Running in Hm as (file_name & program & text' & config' & port & t' & cr' & d &
    -> & Ho' & Hp' & _ & _ & _ & _ & Hcr' & Hd & _ & ->).
  simpl in Ho. assert (text' = text) as -> by congruence.
  fold (parse_string text) in Hp'. assert (config' = config) as -> by congruence.
  assert (cr' = cr) as -> by congruence.
  assert (handlers_ d = dispatch_table config) as Htable.
  { apply RequestHandlerDispatcher_Ok; [|done]. rewrite parse_string_abstract in Hp.
    injection Hp as Hp. by apply abstract_parse_iff in Hp as [? _]. }
  destruct (read_callback_serves bytes now1 now2 (finish_read (c_session c0)) fs request h res fs')
    as (s' & Hs' & Hrest); [done| |by simpl; rewrite Htable|done|by exists s'].
  split; [unfold expired; simpl in *; lia|].
  exists ("Basic " ++ encode (u ++ ":" ++ p)). split; [done|]. by apply valid_header_encode.
Qed.
End server_theorems.

(** ** A concrete run of [main] *)
Definition conf_text (timer : str) : str :=
  "port 8080; timer " ++ timer ++
  "; server { credentials { al:x; } location / HealthHandler {} }".

Definition run_main (timer : str) : outcome main_run :=
  main ["server"; "server.conf"] (fun _ => Some (conf_text timer)) (fun _ => None) 0.

Definition is_running (o : outcome main_run) : bool :=
  match o with Ok (MainRun (Running _) _) => true | _ => false end.

Definition exit_code (o : outcome main_run) : option Z :=
  match o with Ok (MainRun (Exit code) _) => Some code | _ => None end.

Lemma main_starts_witness :
  match run_main "60" with
  | Ok (MainRun (Running s) l) =>
      exists program file_name text config t,
        ["server" : str; "server.conf"] = [program; file_name] /\
        Some (conf_text "60") = Some text /\ parse_string text = Ok (true, config) /\
        get_config_port config = Ok (acceptor_port s) /\ (0 <= acceptor_port s <= 65535)%Z /\
        get_auth_time config = Ok t /\ server_auth_time_ s = to_short t /\
        get_credentials config = Ok (server_credentials_ s) /\
        server_dispatcher_ s = dispatch_table config /\ server_ok s
  | _ => False
  end.
Proof.
  assert (is_running (run_main "60") = true) as Hrun by (vm_compute; reflexivity).
  destruct (run_main "60") as [[[code|s] l]|f] eqn:Hm; [discriminate Hrun| |discriminate Hrun].
  exact (main_starts ["server" : str; "server.conf"] (fun _ => Some (conf_text "60"))
    (fun _ => None) 0 s l Hm).
Defined.

Definition run_config : NginxConfig := [
  Statement ["port"; "8080"] None; Statement ["timer"; "60"] None;
  Statement ["server"] (Some [
    Statement ["credentials"] (Some [Statement ["al:x"] None]);
    Statement ["location"; "/"; "HealthHandler"] (Some [])])].

Lemma main_runs_printed_witness :
  exists s l,
    main ["server" : str; "server.conf"] (fun _ => Some (NginxConfig_ToString 0 run_config))
      (fun _ => None) 0 = Ok (MainRun (Running s) l) /\
    acceptor_port s = 8080%Z /\ server_auth_time_ s = 60%Z /\
    server_credentials_ s = <[("al" : str) := ("x" : str)]> ∅ /\
    server_dispatcher_ s = dispatch_table run_config.
Proof.
  apply (main_runs_printed "server" "server.conf" run_config 0);
    [|apply (bool_decide_unpack _); vm_compute; exact I|..]; try (vm_compute; reflexivity); try lia.
  repeat first [ intros ?; discriminate | constructor ].
Defined.

Lemma run_config_longest : longest_prefix (dispatch_table run_config) "/health" HandlerHealth.
Proof. apply (getRequestHandler_spec _ "/health"). vm_compute. reflexivity. Qed.

Lemma served_end_to_end_witness :
  match run_main "60" with
  | Ok (MainRun (Running s) l) =>
      let c0 := initial_conn (server_dispatcher_ s) (server_credentials_ s) (server_auth_time_ s)
        0 (∅ : files) in
      exists s', handle_read_callback None (raw_request good_header) (sec 5) (sec 5)
          (finish_read (c_session c0)) (c_fs c0) = Ok (0%Z, s', ∅) /\
        response_ s' = Health_handleRequest example_request default_response /\
        socket_ s' = Socket 0 1 true /\ last_auth_time_ s' = sec 5
  | _ => False
  end.
Proof.
  assert (match run_main "60" with
    | Ok (MainRun (Running s) l) => bool_decide (server_auth_time_ s = 60%Z)
    | _ => false end = true) as Hrun by (vm_compute; reflexivity).
  destruct (run_main "60") as [[[code|s] l]|f] eqn:Hm; [discriminate Hrun| |discriminate Hrun].
  apply bool_decide_eq_true in Hrun.
  apply (served_end_to_end (F := files) ["server" : str; "server.conf"]
    (fun _ => Some (conf_text "60")) (fun _ => None) 0 0 (sec 5) (sec 5) s l (conf_text "60")
    run_config (<[("al" : str) := ("x" : str)]> ∅) "al" "x" (raw_request good_header)
    example_request HandlerHealth ∅ ∅ _ Hm);
    try (vm_compute; reflexivity).
  - apply (find_char_None ":"). vm_compute. reflexivity.
  - rewrite Hrun. vm_compute. discriminate.
  - apply run_config_longest.
Defined.

Lemma main_exits_witness :
  match run_main "65535" with
  | Ok (MainRun (Exit code) l) =>
      (code = 1%Z /\ 2 <> 2) \/
      exists program file_name, ["server" : str; "server.conf"] = [program; file_name] /\
      ((code = (-1)%Z /\ Some (conf_text "65535") = None) \/
       exists text valid config, Some (conf_text "65535") = Some text /\
         parse_string text = Ok (valid, config) /\
         ((code = (-1)%Z /\ valid = false) \/
          (code = (-1)%Z /\ get_config_port config = Ok (-1)%Z) \/
          (code = (-1)%Z /\ (get_auth_time config = Ok (-1)%Z \/ get_auth_time config = Ok 65535%Z)) \/
          (code = 0%Z /\ exists port, get_config_port config = Ok port /\
             is_Some (None (A := str)))))
  | _ => False
  end.
Proof.
  assert (exit_code (run_main "65535") = Some (-1)%Z) as Hrun by (vm_compute; reflexivity).
  destruct (run_main "65535") as [[[code|s] l]|f] eqn:Hm; [|discriminate Hrun|discriminate Hrun].
  exact (main_exits ["server" : str; "server.conf"] (fun _ => Some (conf_text "65535"))
    (fun _ => None) 0 code l Hm).
Defined.

Definition long_config : NginxConfig := [
  Statement ["port"; "8080"] None; Statement ["timer"; "40000"] None;
  Statement ["server"] (Some [
    Statement ["credentials"] (Some [Statement ["al:x"] None]);
    Statement ["location"; "/"; "HealthHandler"] (Some [])])].

Lemma long_timer_connection_witness :
  match run_main "40000" with
  | Ok (MainRun (Running s) l) =>
      match after_read (raw_request good_header) (sec 1)
        (initial_conn (server_dispatcher_ s) (server_credentials_ s) (server_auth_time_ s) 0
          (∅ : files)) with
      | Some c => c_fs c = ∅ /\ Forall refusal (c_sent c)
      | None => False
      end
  | _ => False
  end.
Proof.
  assert (match run_main "40000" with
    | Ok (MainRun (Running s) l) =>
        is_some (after_read (raw_request good_header) (sec 1)
          (initial_conn (server_dispatcher_ s) (server_credentials_ s) (server_auth_time_ s) 0
            (∅ : files)))
    | _ => false
    end = true) as Hrun by (vm_compute; reflexivity).
  destruct (run_main "40000") as [[[code|s] l]|f] eqn:Hm; [discriminate Hrun| |discriminate Hrun].
  destruct (after_read _ _ _) as [c|] eqn:Hc; [|discriminate Hrun].
  apply (long_timer_connection (F := files) ["server" : str; "server.conf"]
    (fun _ => Some (conf_text "40000")) (fun _ => None) 0 0 s l (conf_text "40000") long_config 40000
    ∅ c Hm); [reflexivity|vm_compute; reflexivity|vm_compute; reflexivity|lia|].
  eapply rtc_once, after_read_step, Hc.
Defined.

Definition has_server (o : outcome (server * list log_record + str)) : bool :=
  match o with Ok (inl _) => true | _ => false end.

Lemma one_accept_in_flight_witness :
  match new_server (fun _ => None) 8080 long_config (<[("al" : str) := ("x" : str)]> ∅) 60 0 with
  | Ok (inl (s, l)) =>
      server_ok s /\ acceptor_port s = to_ushort 8080 /\
      server_credentials_ s = <[("al" : str) := ("x" : str)]> ∅ /\ server_auth_time_ s = 60%Z /\
      server_dispatcher_ s = server_dispatcher_ s
  | _ => False
  end.
Proof.
  assert (has_server (new_server (fun _ => None) 8080 long_config
    (<[("al" : str) := ("x" : str)]> ∅) 60 0) = true) as Hs by (vm_compute; reflexivity).
  destruct (new_server _ _ _ _ _ _) as [[[s l]|m]|f] eqn:Hn;
    [|discriminate Hs|discriminate Hs].
  exact (one_accept_in_flight (fun _ => None) 8080 long_config _ 60 0 s s l Hn (rtc_refl _ _)).
Defined.
