(* ===== verification/WorldTheorems.v ===== *)
(** * Properties of the running server

    All theorems are about the worlds that [world_step] reaches from a server
    that [main] has started, for any clients and any interleaving of
    completions, errors and times. *)

From S2P Require Import Prelude Cxx Config Tokenizer Parser Base64 Logger Http Storage Handlers Api Dispatcher Faults Session SessionCases Server World Endings Framing Scheduler Runs History Instances Examples ServerTheorems.
Local Open Scope str_scope.

Section world_theorems.
Context `{BeastHttp} `{LexicalCast} {F : Type} `{FileSystem F}.

Context (argv : list str) (open_file : str -> option str) (listen_on : Z -> option str).
Context (now : Z) (s : server) (fs : F) (clients : list (list str)) (w : world (F := F)).

(** C2: the running server refines a server that handles one request at a
    time.  Whatever the interleaving of the callbacks of all connections, the
    files are those that the answered requests leave when they are handled
    one after the other, in the order of the history, each by the handler of
    its target; each of them carries the header of a user of the
    configuration; and every response a connection has sent is one of these
    answers, made for a request of that connection, or a refusal. *)
Theorem world_serial :
  runs argv open_file listen_on now s fs clients w ->
  serial (server_dispatcher_ s) (server_credentials_ s) fs (w_history w) (w_fs w) /\
  forall i l res, w_links w !! i = Some l -> res ∈ l_sent l ->
    refusal res \/ answered (w_history w) i res.
Proof.
  intros (_ & [Hs Ha] & _)%runs_ok. split; [done|]. intros i l res Hi Hres.
  destruct (Ha i l Hi) as [Hsent _]. rewrite Forall_forall in Hsent. by apply Hsent.
Qed.

(** C7: in every world one accept is in flight, its session and all others
    have the dispatcher, the credentials and the time of the server, and each
    connection has at most one read in flight, and at most one operation in
    flight or response sent more than its late reads. *)
Theorem world_invariant :
  runs argv open_file listen_on now s fs clients w ->
  (exists sess, accepting (w_server w) = [sess] /\ configured s sess /\
     socket_ sess = Socket 0 0 true) /\
  forall i l, w_links w !! i = Some l ->
    configured s (l_session l) /\ reads (socket_ (l_session l)) <= 1 /\
    reads (socket_ (l_session l)) + writes (socket_ (l_session l)) + length (l_sent l)
      <= 1 + l_late l.
Proof.
  intros ((Hok & (_ & Hd & Hc & Ha) & _ & Hl & _) & _)%runs_ok. split.
  - destruct Hok as [(sess & Hacc & Hconf & Hk) _]. exists sess. split_and!; [done| |done].
    unfold configured in *. by rewrite <- Hd, <- Hc, <- Ha.
  - intros i l Hi. by destruct (Forall_lookup_1 _ _ _ _ Hl Hi) as (? & _ & ? & ?).
Qed.

(** C8: what can end the program.  It crashes only in the read callback of a
    connection, on the bytes that its client sends next: they leave a message
    that the parser calls incomplete, which is undefined behaviour and takes
    no credentials, or they complete a request with the header of a user,
    whose handler fails on the present files by an exception of the file
    system or an overflow of the counter of ids.  The only other end is
    SIGINT, with exit code 1, and its record is the last one. *)
Theorem world_down_cause (e : ending) :
  runs argv open_file listen_on now s fs clients w -> w_down w = Some e ->
  match e with
  | Crashed f => exists i l bytes input,
      w_links w !! i = Some l /\ l_input l = bytes :: input /\
      ((parser_put (buffer_ (l_session l) ++ bytes) = PutMore /\ f = MissingReturn) \/
       exists request, parser_put (buffer_ (l_session l) ++ bytes) = PutDone request /\
         credentialed (server_credentials_ s) request /\
         (f = Terminated \/ f = IntegerOverflow) /\
         answer_with (server_dispatcher_ s) request (response_ (l_session l)) (w_fs w) = Fault f)
  | Exited code => code = 1%Z /\ last (w_log w) = Some logSig
  end.
Proof.
  intros (_ & _ & Hd)%runs_ok He. specialize (Hd e He). destruct e as [f|code]; [|done].
  destruct Hd as (i & l & bytes & input & Hi & Hin & Hcase). exists i, l, bytes, input.
  split; [done|]. split; [done|]. destruct Hcase as [?|(request & Hput & Hcred & Hans)]; [by left|right].
  exists request. split_and!; [done|done| |done]. unfold answer_with in Hans.
  destruct (getRequestHandler _ _) as [h|]; [|done].
  by apply (handleRequest_tame h request (response_ (l_session l)) (w_fs w)).
Qed.

(** Anyone can end the program: a connection that waits for a read, and whose
    next bytes leave a message that the parser calls incomplete, crashes it
    when the read completes, whatever the configuration. *)
Theorem incomplete_message_ends_program (i : nat) (l : link) (bytes : str) (input : list str) :
  w_down w = None -> w_links w !! i = Some l -> 0 < reads (socket_ (l_session l)) ->
  l_input l = bytes :: input -> 0 < length bytes <= 4096 ->
  parser_put (buffer_ (l_session l) ++ bytes) = PutMore ->
  exists w', world_step w w' /\ w_down w' = Some (Crashed MissingReturn).
Proof.
  intros Hd Hi Hr Hin Hb Hput.
  eexists. split; [|shelve]. eapply (world_crash w i l None bytes input (w_now w) (w_now w));
    [done..|rewrite Hin; by constructor|lia|]. apply read_callback_Fault. split; [done|]. by left.
  Unshelve. done.
Qed.

(** C9: a server whose configuration names no credentials never serves
    anybody: no file changes, no request reaches a handler, nothing but the
    server's own 400, 401 and 500 responses is sent, and the program does not
    crash but by the undefined behaviour of an incomplete message. *)
Theorem no_credentials_no_service :
  runs argv open_file listen_on now s fs clients w -> server_credentials_ s = ∅ ->
  (w_fs w = fs /\ w_history w = [] /\
   forall f, w_down w = Some (Crashed f) -> f = MissingReturn) /\
  forall i l, w_links w !! i = Some l -> Forall refusal (l_sent l).
Proof.
  intros [[l Hm] Hr] Hcr. destruct (main_server_ok _ _ _ _ _ _ Hm) as (Hok & Hs & Ht).
  by apply (unservable_world s fs now clients w); [..|apply no_credentials_unservable|].
Qed.

(** C31: a [timer] from 32768 to 65534 seconds passes the check of [main] but
    becomes negative in the [short] that holds it: the server then serves
    nobody, whatever the credentials: no file changes, no request reaches a
    handler, nothing but the server's own 400, 401 and 500 responses is sent,
    and the program does not crash but by the undefined behaviour of an
    incomplete message. *)
Theorem long_timer_no_service (text : str) (config : NginxConfig) (t : Z) :
  runs argv open_file listen_on now s fs clients w ->
  argv !! 1 ≫= open_file = Some text -> parse_string text = Ok (true, config) ->
  get_auth_time config = Ok t -> (32767 < t)%Z ->
  (w_fs w = fs /\ w_history w = [] /\
   forall f, w_down w = Some (Crashed f) -> f = MissingReturn) /\
  forall i l, w_links w !! i = Some l -> Forall refusal (l_sent l).
Proof.
  intros [[l Hm] Hr] Ho Hp Ht Hlong. destruct (main_server_ok _ _ _ _ _ _ Hm) as (Hok & Hs & Htimes).
  apply (unservable_world s fs now clients w); [done..| |done]. apply negative_time_unservable.
  apply (main_long_timer argv open_file listen_on now s l text config t); done.
Qed.

(** C6: with finitely many clients that send finitely many pieces, the event
    loop comes to rest on every schedule, errors and late requests included:
    all clients have been accepted or turned away and no connection has a
    read or a write in flight, or a crash or SIGINT has ended the program. *)
Theorem world_comes_to_rest :
  runs argv open_file listen_on now s fs clients w -> eventually world_step at_rest w.
Proof.
  intros (Hok & _)%runs_ok.
  apply (eventually_measure world_step at_rest (world_ok s) world_weight); [|done].
  intros w1 Hw1. destruct (world_progress s w1 Hw1) as [?|Hex]; [by left|right].
  split; [done|]. intros w2 Hs. split; [by eapply world_step_ok|by eapply world_step_weight].
Qed.

(** Connection [i] has come to its end, with [res] as the last response that
    was sent after [sent], unless the write of [res] failed. *)
Definition delivered (i : nat) (sent : list Response) (res : Response) (w : world (F := F)) : Prop :=
  w_down w <> None \/
  exists l, w_links w !! i = Some l /\ reads (socket_ (l_session l)) = 0 /\
    writes (socket_ (l_session l)) = 0 /\
    (l_sent l = sent ++ [res] \/ l_sent l = sent).

(** Until its write completes, a connection that only writes stays as it is. *)
Lemma writing_link_step i l (w1 w2 : world (F := F)) :
  w_links w1 !! i = Some l -> reads (socket_ (l_session l)) = 0 -> writes (socket_ (l_session l)) = 1 ->
  world_step w1 w2 ->
  w_links w2 !! i = Some l \/ delivered i (l_sent l) (response_ (l_session l)) w2.
Proof.
  intros Hi Hr Hw Hs. unfold delivered.
  destruct Hs as [w1 client cls sess rest error now' _ _ _ _
    |w1 j l' error bytes input now1 now2 r s' fs' _ Hj Hpos _ _ _
    |w1 j l' error bytes input now1 now2 f _ _ _ _ _ _|w1 j l' error _ Hj Hpos|w1 signal _];
    rewrite ?accept_links_eq; simpl.
  - left. destruct error; [done|]. by apply lookup_app_l_Some.
  - left. rewrite list_lookup_insert_ne; [done|]. intros ->. simplify_eq. lia.
  - by left.
  - destruct (decide (j = i)) as [->|Hne]; [|left; by rewrite list_lookup_insert_ne].
    simplify_eq. right. right. eexists. split; [apply list_lookup_insert_eq; by eapply lookup_lt_Some|].
    destruct error; simpl; rewrite ?Hr, ?Hw; auto.
  - by left.
Qed.

Lemma response_delivered_from i l (w1 : world (F := F)) :
  world_ok s w1 -> w_links w1 !! i = Some l ->
  reads (socket_ (l_session l)) = 0 -> writes (socket_ (l_session l)) = 1 ->
  eventually world_step (delivered i (l_sent l) (response_ (l_session l))) w1.
Proof.
  intros Hok Hi Hr Hw.
  apply (eventually_measure world_step _ (fun w1 => world_ok s w1 /\
    (w_links w1 !! i = Some l \/ delivered i (l_sent l) (response_ (l_session l)) w1)) world_weight);
    [|by split; [|left]].
  intros w2 [Hw2 [Hl|?]]; [|by left].
  destruct (w_down w2) eqn:Hd; [left; left; by rewrite Hd|right]. split.
  - eexists. eapply (world_write w2 i l None); [done|done|lia].
  - intros w3 Hs. split; [|by eapply world_step_weight]. split; [by eapply world_step_ok|].
    by eapply writing_link_step.
Qed.

(** A response is delivered on every schedule.  When a connection waits
    for a write only, the other connections, clients and requests cannot keep
    it from its end: the response is sent as it is, once, or its write fails,
    or a crash ([world_down_cause]) or SIGINT ends the program. *)
Theorem response_delivered (i : nat) (l : link) :
  runs argv open_file listen_on now s fs clients w ->
  w_links w !! i = Some l -> reads (socket_ (l_session l)) = 0 -> writes (socket_ (l_session l)) = 1 ->
  eventually world_step (delivered i (l_sent l) (response_ (l_session l))) w.
Proof. intros (Hok & _)%runs_ok Hi Hr Hw. by apply response_delivered_from. Qed.

(** C5: end to end.  In a world of the program, let a connection wait for a
    read, and let the bytes its client sends next complete a request with the
    header of a user of the configuration, within the authentication time.
    The event loop can take them: the handler of the longest path of the
    table answers the request on the present files, the request is added to
    the history, and from then on, on every schedule, this answer is sent
    once, or its write fails, or a crash ([world_down_cause]) or SIGINT ends
    the program. *)
Theorem request_answered (i : nat) (l : link) (bytes : str) (input : list str) (now1 now2 : Z)
    (request : Request) (h : handler) (res : Response) (fs' : F) :
  runs argv open_file listen_on now s fs clients w -> w_down w = None ->
  w_links w !! i = Some l -> reads (socket_ (l_session l)) = 1 -> writes (socket_ (l_session l)) = 0 ->
  l_input l = bytes :: input -> 0 < length bytes <= 4096 -> (w_now w <= now1 <= now2)%Z ->
  parser_put (buffer_ (l_session l) ++ bytes) = PutDone request ->
  credentialed (server_credentials_ s) request ->
  (seconds_between (last_auth_time_ (l_session l)) now1 <= server_auth_time_ s)%Z ->
  longest_prefix (server_dispatcher_ s) (pop_trailing "/" (req_target request)) h ->
  handleRequest h request (response_ (l_session l)) (w_fs w) = Ok (res, fs') ->
  exists w', world_step w w' /\ w_fs w' = fs' /\
    w_history w' = w_history w ++ [Served i request (response_ (l_session l)) res] /\
    eventually world_step (delivered i (l_sent l) res) w'.
Proof.
  intros Hruns Hd Hi Hr Hw Hin Hb Ht Hput Hcred Htime Hlong Hres.
  destruct (runs_ok Hruns) as ((_ & _ & _ & Hl & _) & _).
  destruct (Forall_lookup_1 _ _ _ _ Hl Hi) as ((Hdisp & Hcr & Hau) & _).
  destruct (read_callback_serves bytes now1 now2 (finish_read (l_session l)) (w_fs w) request h res fs')
    as (s' & Heq & Hresp & Hk & _); [done| |simpl; by rewrite Hdisp|done|].
  { unfold authorized, expired. simpl. rewrite Hau, Hcr. split; [lia|done]. }
  set (l' := Link s' input (l_sent l) (late_reads now1 l)).
  assert (world_step w (World (w_server w) (<[i := l']> (w_links w)) fs' now2 (w_clients w)
    (w_log w ++ new_records (l_session l) s') (w_history w ++ [Served i request (response_ (l_session l)) res]) None)) as Hstep.
  { pose proof (world_read w i l None bytes input now1 now2 (0%Z) s' fs') as Hs.
    unfold history_entry in Hs. rewrite Hput, Hresp in Hs.
    apply Hs; [done|done|lia|rewrite Hin; by constructor|done|done]. }
  eexists. split; [exact Hstep|]. split_and!; [done|done|]. rewrite <- Hresp.
  apply (response_delivered_from i l').
  - destruct (runs_ok Hruns) as (Hok & _). exact (world_step_ok s _ _ Hok Hstep).
  - simpl. apply list_lookup_insert_eq. by eapply lookup_lt_Some.
  - simpl. rewrite Hk. simpl. by rewrite Hr.
  - simpl. rewrite Hk. simpl. by rewrite Hw.
Qed.

(** C3: the data that clients see is consistent over all connections.  When
    the files agree with a table of entities at the start, and the requests
    that reached the dispatcher are calls of one API handler (in whatever
    order they came, on whatever connections) and requests of handlers that
    do not write, every call was answered with the status and the body that
    the specification of the API gives on the table the earlier calls left,
    and the files agree with the table that all of them leave. *)
Theorem world_data {beast_laws : BeastHttpLaws _} {cast_laws : LexicalCastLaws _}
    (base prefix : str) (entity_ok : str -> Prop)
    {laws : CrudLaws (CRUDHandler base) entity_ok (stored base)}
    {slash : CrudSlash (CRUDHandler base) entity_ok}
    (names : forall e, entity_ok e -> entity_name e)
    (lk lk' : table) (outs : list (option (Z * str))) :
  runs argv open_file listen_on now s fs clients w ->
  (forall e id, entity_ok e -> stored base fs e id = lk e id) ->
  api_trace (server_dispatcher_ s) base prefix entity_ok lk (w_history w) outs lk' ->
  Forall2 entry_observed (w_history w) outs /\
  forall e id, entity_ok e -> stored base (w_fs w) e id = lk' e id.
Proof. intros (_ & [Hs _] & _)%runs_ok Ha Ht. by eapply serial_api_trace. Qed.
(** C13: every response is well formed.  Whatever the clients send, in every
    interleaving, each response that was sent has one of the statuses 200,
    400, 401, 404 and 500 and a Content-Length that is the length of its body;
    a response that a handler made also has the version of its request and a
    content type; and the files are as at the start as long as no request was
    answered with 200. *)
Theorem responses_framed {beast_laws : BeastHttpLaws _} :
  runs argv open_file listen_on now s fs clients w ->
  (forall i l res, w_links w !! i = Some l -> res ∈ l_sent l ->
    res_result res ∈ [200; 400; 401; 404; 500]%Z /\
    res_find field_content_length res = Some (to_string (size_of (res_body res)))) /\
  (forall e h, e ∈ w_history w ->
    getRequestHandler (server_dispatcher_ s) (req_target (sv_request e)) = Some h ->
    res_version (sv_after e) = req_version (sv_request e) /\
    is_Some (res_find field_content_type (sv_after e))) /\
  ((forall e, e ∈ w_history w -> res_result (sv_after e) <> 200%Z) -> w_fs w = fs).
Proof.
  intros (_ & Hh & _)%runs_ok. split_and!.
  - intros i l res Hi Hres. pose proof (world_framed _ _ _ _ _ Hh Hi) as Hf.
    rewrite Forall_forall in Hf. by apply Hf.
  - intros e h He. destruct Hh as [Hser%serial_well_answered _]. rewrite Forall_forall in Hser.
    apply (Hser e He).
  - intros Hne. destruct Hh as [Hser _]. eapply serial_unchanged; [exact Hser|]. by apply Forall_forall.
Qed.
End world_theorems.

Section first_request.
Context `{BeastHttp} `{LexicalCast} {F : Type} `{FileSystem F}.

(** The authentication time of a connection runs from the moment the
    server starts to wait for it, not from the moment a client connects: the
    first request of a client is refused, whatever its credentials, when more
    than the authentication time has passed since the server began to wait. *)
Theorem first_request_late (s : server) (now0 : Z) :
  exists sess, accepting (start_accept now0 s) = accepting s ++ [sess] /\
    forall s1 now', started (handle_accept sess None now' s1) = started s1 ++ [start sess] /\
    forall bytes request now1 now2 (fs : F), parser_put bytes = PutDone request ->
      (server_auth_time_ s < seconds_between now0 now1)%Z ->
      exists s', handle_read_callback None bytes now1 now2 (finish_read (start sess)) fs
          = Ok (1%Z, s', fs) /\ response_ s' = unauthorized_response.
Proof.
  eexists. split; [done|]. intros s1 now'. split; [done|]. intros bytes request now1 now2 fs Hput Hlate.
  set (sess := finish_read _).
  pose proof (handle_read_callback_cases None bytes now1 now2 sess fs) as Hc.
  inversion Hc as [m ? Hm|m ? ? Hp|? ? Hp|? Hp|request' o ? Hp Hr]; simpl in *; try congruence.
  inversion Hr as [s' Hexp E|s' Hexp|? ? ? [Hexp _]|? [Hexp _]]; subst; try (by destruct Hexp).
  exists s'. split; [done|]. by rewrite E.
Qed.
End first_request.

Lemma world_serial_witness : in_api_world (fun s w =>
  serial (server_dispatcher_ s) (server_credentials_ s) ∅ (w_history w) (w_fs w) /\
  forall i l res, w_links w !! i = Some l -> res ∈ l_sent l ->
    refusal res \/ answered (w_history w) i res).
Proof.
  apply in_api_world_intro. intros s w Hw. eapply world_serial, api_world_runs, Hw.
Defined.

Lemma world_invariant_witness : in_api_world (fun s w =>
  (exists sess, accepting (w_server w) = [sess] /\ configured s sess /\
     socket_ sess = Socket 0 0 true) /\
  forall i l, w_links w !! i = Some l ->
    configured s (l_session l) /\ reads (socket_ (l_session l)) <= 1 /\
    reads (socket_ (l_session l)) + writes (socket_ (l_session l)) + length (l_sent l)
      <= 1 + l_late l).
Proof.
  apply in_api_world_intro. intros s w Hw. eapply world_invariant, api_world_runs, Hw.
Defined.

Lemma world_comes_to_rest_witness : in_api_world (fun _ w => eventually world_step at_rest w).
Proof.
  apply in_api_world_intro. intros s w Hw. eapply world_comes_to_rest, api_world_runs, Hw.
Defined.

(** The first client's response is being written. *)
Lemma response_delivered_witness : in_api_world (fun _ w =>
  match w_links w !! 0 with
  | Some l => eventually world_step (delivered 0 (l_sent l) (response_ (l_session l))) w
  | None => False
  end).
Proof.
  apply in_api_world_intro. intros s w Hw.
  assert (match api_world with
    | Some (_, w) =>
        match w_links w !! 0 with
        | Some l => bool_decide (reads (socket_ (l_session l)) = 0 /\ writes (socket_ (l_session l)) = 1)
        | None => false
        end
    | None => false
    end = true) as Hl by (vm_compute; reflexivity).
  rewrite Hw in Hl. destruct (w_links w !! 0) as [l|] eqn:Hi; [|discriminate Hl].
  apply bool_decide_eq_true in Hl as [Hr Hwr].
  exact (response_delivered _ _ _ 0 s ∅ two_clients w 0 l (api_world_runs s w Hw) Hi Hr Hwr).
Defined.

Lemma responses_framed_witness : in_api_world (fun s w =>
  (forall i l res, w_links w !! i = Some l -> res ∈ l_sent l ->
    res_result res ∈ [200; 400; 401; 404; 500]%Z /\
    res_find field_content_length res = Some (to_string (size_of (res_body res)))) /\
  (forall e h, e ∈ w_history w ->
    getRequestHandler (server_dispatcher_ s) (req_target (sv_request e)) = Some h ->
    res_version (sv_after e) = req_version (sv_request e) /\
    is_Some (res_find field_content_type (sv_after e))) /\
  ((forall e, e ∈ w_history w -> res_result (sv_after e) <> 200%Z) -> w_fs w = ∅)).
Proof.
  apply in_api_world_intro. intros s w Hw. apply api_world_runs in Hw.
  exact (responses_framed (H := record_http) _ _ _ 0 s ∅ two_clients w Hw).
Defined.

Lemma world_data_witness : in_api_world (fun s w =>
  Forall2 entry_observed (w_history w) [Some (200%Z, id_json 1); Some (200%Z, "red" : str)] /\
  forall e id, storage_entity e -> stored ("/data" ++ "/") (w_fs w) e id = shoes_table e id).
Proof.
  apply in_api_world_intro. intros s w Hw.
  apply (world_data ["server" : str; "server.conf"] (fun _ => Some api_conf) (fun _ => None) 0 s ∅ two_clients w ("/data" ++ "/") "/api" storage_entity
    (fun e He => proj1 He) (fun _ _ => None)); [exact (api_world_runs s w Hw)| |].
  - intros e id _. apply empty_store.
  - by apply api_world_trace.
Defined.

(** The first client has connected and the server waits for its request. *)
Definition accepted_world : option (server * world (F := files) * link) :=
  match run_api with
  | Ok (MainRun (Running s) _) =>
      w ← run_events [(sec 1, EvAccept)] (initial_world s ∅ 0 two_clients);
      l ← w_links w !! 0;
      Some (s, w, l)
  | _ => None
  end.

(** What [request_answered] asks of that world, as a decision. *)
Definition ready_for_post (s : server) (w : world (F := files)) (l : link) : bool :=
  bool_decide (w_down w = None /\ reads (socket_ (l_session l)) = 1 /\
    writes (socket_ (l_session l)) = 0 /\ l_input l = [post_shoes] /\
    (w_now w <= sec 5 <= sec 5)%Z /\ buffer_ (l_session l) = [] /\
    server_credentials_ s = <[("al" : str) := ("x" : str)]> ∅ /\
    (seconds_between (last_auth_time_ (l_session l)) (sec 5) <= server_auth_time_ s)%Z /\
    getRequestHandler (server_dispatcher_ s) "/api/Shoes" = Some (HandlerAPI "/data/" "/api")) &&
  is_done (handleRequest (HandlerAPI "/data/" "/api") post_request (response_ (l_session l)) (w_fs w)).

Lemma accepted_world_ready :
  match accepted_world with Some (s, w, l) => ready_for_post s w l | None => false end = true.
Proof. vm_compute. reflexivity. Qed.

Lemma request_answered_witness :
  match accepted_world with
  | Some (s, w, l) => exists res w', world_step w w' /\
      w_history w' = w_history w ++ [Served 0 post_request (response_ (l_session l)) res] /\
      eventually world_step (delivered 0 (l_sent l) res) w'
  | None => False
  end.
Proof.
  pose proof accepted_world_ready as Hr. unfold accepted_world in *.
  destruct run_api as [[[code|s] log]|f] eqn:Hm; [discriminate Hr| |discriminate Hr].
  destruct (run_events _ _) as [w|] eqn:Hw; [|discriminate Hr]. cbn [mbind option_bind] in *.
  destruct (w_links w !! 0) as [l|] eqn:Hl; [|discriminate Hr]. cbn [mbind option_bind] in *.
  unfold ready_for_post in Hr. apply andb_true_iff in Hr as [Hr Hok].
  apply bool_decide_eq_true in Hr as (H1 & H2 & H3 & H4 & H5 & H6 & H7 & H8 & H9).
  destruct (handleRequest _ post_request _ _) as [[res fs']|f] eqn:Hres; [|discriminate Hok].
  exists res.
  destruct (request_answered ["server" : str; "server.conf"] (fun _ => Some api_conf) (fun _ => None)
    0 s ∅ two_clients w 0 l post_shoes [] (sec 5) (sec 5) post_request
    (HandlerAPI "/data/" "/api") res fs') as (w' & Hs & _ & Hh & He);
    [ |exact H1|exact Hl|exact H2|exact H3|exact H4|vm_compute; lia|exact H5|rewrite H6; vm_compute; reflexivity
     |rewrite H7|exact H8|apply (getRequestHandler_spec _ "/api/Shoes"), H9|exact Hres|].
  - split; [by exists log|]. eapply run_events_reachable, Hw.
  - exists good_header. split; [vm_compute; reflexivity|]. apply good_header_ok.
  - exists w'. split; [exact Hs|]. split; [exact Hh|exact He].
Defined.

(** ** A server that goes down, and a server without credentials *)

(** A file system on which nothing can be examined: every query throws. *)
Definition broken_fs : FileSystem unit :=
  Build_FileSystem unit (fun _ _ => None) (fun _ _ => None) (fun _ _ => None)
    (fun _ _ => None) (fun _ _ _ => tt) (fun _ _ => None).

Definition broken_world : option (server * world (F := unit)) :=
  match run_api with
  | Ok (MainRun (Running s) _) =>
      w ← run_events (H1 := broken_fs) [(sec 1, EvAccept); (sec 2, EvRead 0)]
        (initial_world s tt 0 [[get_shoes]]);
      Some (s, w)
  | _ => None
  end.

Definition down_of (o : option (server * world (F := unit))) : option (option ending) :=
  match o with Some (_, w) => Some (w_down w) | None => None end.

Lemma world_down_cause_witness :
  match broken_world with
  | Some (s, w) =>
      w_down w = Some (Crashed Terminated) /\
      exists i l bytes input, w_links w !! i = Some l /\ l_input l = bytes :: input /\
      ((parser_put (buffer_ (l_session l) ++ bytes) = PutMore /\ Terminated = MissingReturn) \/
       exists request, parser_put (buffer_ (l_session l) ++ bytes) = PutDone request /\
         credentialed (server_credentials_ s) request /\
         (Terminated = Terminated \/ Terminated = IntegerOverflow) /\
         answer_with (H1 := broken_fs) (server_dispatcher_ s) request (response_ (l_session l)) (w_fs w)
           = Fault Terminated)
  | None => False
  end.
Proof.
  assert (down_of broken_world = Some (Some (Crashed Terminated))) as Hdown by (vm_compute; reflexivity).
  unfold broken_world in *. destruct run_api as [[[code|s] l]|f] eqn:Hm;
    [discriminate Hdown| |discriminate Hdown].
  destruct (run_events _ _) as [w|] eqn:Hw; [|discriminate Hdown]. injection Hdown as Hdown.
  split; [exact Hdown|].
  apply (world_down_cause (H1 := broken_fs) ["server" : str; "server.conf"]
    (fun _ => Some api_conf) (fun _ => None) 0 s tt [[get_shoes]] w (Crashed Terminated)); [|exact Hdown].
  split; [by exists l|]. eapply run_events_reachable, Hw.
Defined.

Definition open_conf : str := "port 8080; timer 60; server { location / HealthHandler {} }".

(** A client that is refused, and one that sends a request with a body: with
    the parser that stops after the header it ends the program. *)
Definition stranger_clients : list (list str) :=
  [[raw_request good_header];
   ["POST /api/Shoes HTTP/1.1" ++ [CR; NL] ++ "Content-Length: 3" ++ [CR; NL; CR; NL] ++ "red"]].

Definition open_world : option (server (H := header_http) * world (H := header_http) (F := files)) :=
  match main (H := header_http) ["server"; "server.conf"] (fun _ => Some open_conf) (fun _ => None) 0 with
  | Ok (MainRun (Running s) _) =>
      w ← run_events (H := header_http) [(sec 1, EvAccept); (sec 1, EvAccept); (sec 2, EvRead 0);
            (sec 2, EvWrite 0); (sec 3, EvRead 1)]
        (initial_world (H := header_http) s ∅ 0 stranger_clients);
      Some (s, w)
  | _ => None
  end.

Lemma no_credentials_no_service_witness :
  match open_world with
  | Some (s, w) => w_down w = Some (Crashed MissingReturn) /\
      (w_fs w = ∅ /\ w_history w = [] /\
       forall f, w_down w = Some (Crashed f) -> f = MissingReturn) /\
      forall i l, w_links w !! i = Some l -> Forall refusal (l_sent l)
  | None => False
  end.
Proof.
  assert (match open_world with
    | Some (s, w) => bool_decide (server_credentials_ s = ∅ /\ w_down w = Some (Crashed MissingReturn))
    | None => false end = true) as Hcr
    by (vm_compute; reflexivity).
  unfold open_world in *.
  destruct (main _ _ _ _) as [[[code|s] l]|f] eqn:Hm; [discriminate Hcr| |discriminate Hcr].
  destruct (run_events _ _) as [w|] eqn:Hw; [|discriminate Hcr].
  apply bool_decide_eq_true in Hcr as [Hcr Hdown]. split; [exact Hdown|].
  apply (no_credentials_no_service (H := header_http) ["server" : str; "server.conf"]
    (fun _ => Some open_conf) (fun _ => None) 0 s ∅ stranger_clients w); [|exact Hcr].
  split; [by exists l|]. eapply run_events_reachable, Hw.
Defined.

(** A configuration with a user and a [timer] of 40000 seconds. *)
Definition long_world : option (server * world (F := files)) :=
  match run_main "40000" with
  | Ok (MainRun (Running s) _) =>
      w ← run_events [(sec 1, EvAccept); (sec 2, EvRead 0); (sec 2, EvWrite 0)]
        (initial_world s ∅ 0 [[raw_request good_header]]);
      Some (s, w)
  | _ => None
  end.

Lemma long_timer_no_service_witness :
  match long_world with
  | Some (s, w) =>
      (w_fs w = ∅ /\ w_history w = [] /\
       forall f, w_down w = Some (Crashed f) -> f = MissingReturn) /\
      forall i l, w_links w !! i = Some l -> Forall refusal (l_sent l)
  | None => False
  end.
Proof.
  assert (is_some long_world = true) as Hs by (vm_compute; reflexivity).
  unfold long_world in *.
  destruct (run_main "40000") as [[[code|s] l]|f] eqn:Hm; [discriminate Hs| |discriminate Hs].
  destruct (run_events _ _) as [w|] eqn:Hw; [|discriminate Hs].
  apply (long_timer_no_service ["server" : str; "server.conf"] (fun _ => Some (conf_text "40000"))
    (fun _ => None) 0 s ∅ [[raw_request good_header]] w (conf_text "40000") long_config 40000);
    [|reflexivity|vm_compute; reflexivity|vm_compute; reflexivity|lia].
  split; [by exists l|]. eapply run_events_reachable, Hw.
Defined.
