(* ===== verification/IsolationTheorems.v ===== *)
(** * Properties of one connection of the running server

    What a connection that is never served can do to the others, what the
    first read of a connection decides, and its life when no request is
    late. *)

From S2P Require Import Prelude Cxx Config Logger Base64 Http Storage Handlers Api Dispatcher Session SessionCases Server World Endings Isolation Silence Scheduler Instances Examples Runs.
Local Open Scope str_scope.

Section isolation_theorems.
Context `{BeastHttp} `{LexicalCast} {F : Type} `{FileSystem F}.
Context (argv : list str) (open_file : str -> option str) (listen_on : Z -> option str).
Context (now : Z) (s : server) (fs : F) (clients : list (list str)) (w : world (F := F)).

(** C11: the first read of a connection decides.  With the parser as the
    session uses it ([BeastHeaderLaws]), a connection has read nothing and
    does nothing, or its first read, of at most 4096 bytes, has settled what
    it is for ever, whatever arrives later: a complete request is the only
    one that ever reaches the dispatcher; an incomplete header, or one that
    is no header, is answered with a 400 and the connection reads no more.
    It was not a header with a body to come: such a message is never read to
    its end and never answered, it ends the program. *)
Theorem first_read_decides {laws : BeastHeaderLaws _} (i : nat) (l : link) :
  runs argv open_file listen_on now s fs clients w -> w_links w !! i = Some l ->
  (buffer_ (l_session l) = [] /\ no_entry (w_history w) i /\ silent l) \/
  exists first, 0 < length first <= 4096 /\ first `prefix_of` buffer_ (l_session l) /\
    parser_put (buffer_ (l_session l)) = parser_put first /\
    match parser_put first with
    | PutDone request => forall e, e ∈ w_history w -> sv_link e = i -> sv_request e = request
    | PutMore => False
    | PutError _ => no_entry (w_history w) i /\ only_sends bad_request l
    | PutThrow => no_entry (w_history w) i /\ only_sends internal_error l
    end.
Proof. intros [_ Hf]%runs_first_reads. apply Hf. Qed.


(** A connection without a late request is in one of three states: it
    waits for a read and has sent nothing, or it waits for a write and has
    sent nothing, or nothing is in flight and it has sent one response at
    most. *)
Theorem timely_link (i : nat) (l : link) :
  runs argv open_file listen_on now s fs clients w -> w_links w !! i = Some l -> l_late l = 0 ->
  let k := socket_ (l_session l) in
  (reads k = 1 /\ writes k = 0 /\ l_sent l = []) \/
  (reads k = 0 /\ writes k = 1 /\ l_sent l = []) \/
  (reads k = 0 /\ writes k = 0 /\ length (l_sent l) <= 1).
Proof.
  intros ((_ & _ & _ & Hl & _) & _)%runs_ok Hi Hlate k.
  destruct (Forall_lookup_1 _ _ _ _ Hl Hi) as (_ & _ & Hr & Hsum). rewrite Hlate in Hsum. fold k in Hr, Hsum.
  assert (length (l_sent l) = 0 -> l_sent l = []) as Hnil by apply nil_length_inv.
  destruct (reads k) as [|[|]], (writes k) as [|[|]]; try lia; auto 10 with lia.
Qed.
End isolation_theorems.

(** ** Examples *)

Lemma timely_link_witness : in_api_world (fun s w =>
  forall l, w_links w !! 0 = Some l -> l_late l = 0 ->
  let k := socket_ (l_session l) in
  (reads k = 1 /\ writes k = 0 /\ l_sent l = []) \/
  (reads k = 0 /\ writes k = 1 /\ l_sent l = []) \/
  (reads k = 0 /\ writes k = 0 /\ length (l_sent l) <= 1)).
Proof.
  apply in_api_world_intro. intros s w Hw l Hl Hlate.
  exact (timely_link _ _ _ 0 s ∅ two_clients w 0 l (api_world_runs s w Hw) Hl Hlate).
Defined.






(** A client whose request comes in two pieces, with the parser that stops
    after the header: the first piece is answered with a 400. *)
Definition split_world : option (server (H := header_http) * world (H := header_http) (F := files)) :=
  match main (H := header_http) ["server"; "server.conf"] (fun _ => Some api_conf) (fun _ => None) 0 with
  | Ok (MainRun (Running s) _) =>
      w ← run_events (H := header_http) [(sec 1, EvAccept); (sec 2, EvRead 0); (sec 3, EvWrite 0)]
        (initial_world (H := header_http) s ∅ 0 [[take 40 get_shoes; drop 40 get_shoes]]);
      Some (s, w)
  | _ => None
  end.

Definition sent_statuses (w : world (H := header_http) (F := files)) (i : nat) : option (list Z) :=
  (fun l => map s_status (l_sent (H := header_http) l)) <$> (w_links w !! i).

Lemma first_read_decides_witness :
  match split_world with
  | Some (_, w) => exists l, w_links w !! 0 = Some l /\ map s_status (l_sent (H := header_http) l) = [400%Z] /\
      ((buffer_ (l_session l) = [] /\ no_entry (w_history w) 0 /\ silent l) \/
      exists first, 0 < length first <= 4096 /\ first `prefix_of` buffer_ (l_session l) /\
        parser_put (BeastHttp := header_http) (buffer_ (l_session l)) = parser_put first /\
        match parser_put first with
        | PutDone request => forall e, e ∈ w_history w -> sv_link e = 0 -> sv_request e = request
        | PutMore => False
        | PutError _ => no_entry (w_history w) 0 /\ only_sends bad_request l
        | PutThrow => no_entry (w_history w) 0 /\ only_sends internal_error l
        end)
  | None => False
  end.
Proof.
  assert (match split_world with
    | Some (_, w) => bool_decide (sent_statuses w 0 = Some [400%Z]) | None => false end = true) as Hs
    by (vm_compute; reflexivity).
  unfold split_world in *.
  destruct (main _ _ _ _) as [[[code|s] log]|f] eqn:Hm; [discriminate Hs| |discriminate Hs].
  destruct (run_events _ _) as [w|] eqn:Hw; [|discriminate Hs]. cbn [mbind option_bind] in *.
  apply bool_decide_eq_true in Hs. unfold sent_statuses in Hs.
  destruct (w_links w !! 0) as [l|] eqn:Hl; [|discriminate Hs]. injection Hs as Hs.
  exists l. split; [reflexivity|]. split; [exact Hs|].
  apply (first_read_decides (H := header_http) ["server" : str; "server.conf"]
    (fun _ => Some api_conf) (fun _ => None) 0 s ∅
    [[take 40 get_shoes; drop 40 get_shoes]] w 0 l); [|exact Hl].
  split; [by exists log|]. eapply run_events_reachable, Hw.
Defined.
