(* ===== verification/ClientTheorems.v ===== *)
(** * What a client can rely on

    The list of ids; an entity that was created, over the requests of all
    connections; the metrics of the log. *)

From S2P Require Import Prelude Cxx Config Logger Base64 Http Storage Handlers Api Dispatcher Session SessionCases Server World Endings Metrics Isolation Scheduler History Guarantees Instances Examples Runs.
Local Open Scope str_scope.

(** C22: the list of ids of an entity is a JSON array that reads back as the
    ids that are in use together with all ids before them.  An id after a
    deleted one is not listed, although it can be read. *)
Theorem listed_ids `{BeastHttpLaws} `{LexicalCastLaws} {S : Type} {crud : ICRUDHandler S}
    {entity_ok : str -> Prop} {lookup : S -> table}
    {laws : CrudLaws crud entity_ok lookup} {slash : CrudSlash crud entity_ok}
    (names : forall e, entity_ok e -> entity_name e)
    (prefix e : str) (n : Z) (req : Request) (res : Response) (s : S) :
  entity_ok e -> makes_call prefix (List_ e) req -> first_free (lookup s) e n ->
  exists res' body ids, API_handleRequest prefix req res s = Ok (res', s) /\
    observed res' 200 (req_version req) "application/json" body /\ read_ids body = Some ids /\
    forall id, id ∈ ids <->
      (1 <= id)%Z /\ forall j, (1 <= j <= id)%Z -> is_Some (lookup s e j).
Proof.
  intros He Hc Hfree. unfold API_handleRequest. rewrite (proj1 Hc).
  destruct (list_agrees names prefix req (res_set field_content_type "application/json"
    (res_set_version (req_version req) res)) s) with (e := e) (n := n) as (res' & Hg & Hobs);
    [by autorewrite with beast..|done|done|done|].
  exists res', (ids_json (Z.to_nat (n - 1))), (seqZ 1 (Z.of_nat (Z.to_nat (n - 1)))).
  rewrite Hg. run_ok. split_and!; [done..|apply read_ids_json|].
  intros id. by apply listed_iff.
Qed.

Section clients.
Context `{BeastHttp} `{LexicalCast} {F : Type} `{FileSystem F}.
Context (argv : list str) (open_file : str -> option str) (listen_on : Z -> option str).
Context (now : Z) (s : server) (fs : F) (clients : list (list str)) (w : world (F := F)).

(** C4: an entity that was created stays.  When, on any connections, one
    request created an entity and was told its id, and no request between it
    and a later one updates or deletes that id, then the later request, if it
    reads the id, gets the data of the first one; and if it creates another
    entity of that name, it gets another id. *)
Theorem created_entity_stays {beast_laws : BeastHttpLaws _} {cast_laws : LexicalCastLaws _}
    (base prefix : str) (entity_ok : str -> Prop)
    {laws : CrudLaws (CRUDHandler base) entity_ok (stored base)}
    {slash : CrudSlash (CRUDHandler base) entity_ok}
    (names : forall e, entity_ok e -> entity_name e)
    (lk lk' : table) (outs : list (option (Z * str)))
    (es1 es2 es3 : list served) (e1 e2 : served) (e v : str) (id : Z) :
  let to_api (x : served) := getRequestHandler (server_dispatcher_ s) (req_target (sv_request x))
    = Some (HandlerAPI base prefix) in
  runs argv open_file listen_on now s fs clients w ->
  (forall e id, entity_ok e -> stored base fs e id = lk e id) ->
  api_trace (server_dispatcher_ s) base prefix entity_ok lk (w_history w) outs lk' ->
  w_history w = es1 ++ e1 :: es2 ++ e2 :: es3 -> to_api e1 -> to_api e2 -> entity_ok e ->
  makes_call prefix (Create e v) (sv_request e1) -> res_body (sv_after e1) = id_json id ->
  (forall x call, x ∈ es2 -> makes_call prefix call (sv_request x) -> ~ overwrites e id call) ->
  (makes_call prefix (Read e id) (sv_request e2) ->
     observed (sv_after e2) 200 (req_version (sv_request e2)) "application/json" v) /\
  (forall v', makes_call prefix (Create e v') (sv_request e2) -> res_body (sv_after e2) <> id_json id).
Proof.
  intros to_api (_ & [Hser _] & _)%runs_ok Ha Ht Hh H1' H2' He Hc1 Hid Hno.
  destruct (serial_api_trace _ _ _ _ names _ _ _ _ _ _ _ Hser Ht Ha) as [Hobs _].
  rewrite Hh in Ht, Hobs.
  destruct (api_trace_middle _ _ _ _ names _ _ _ _ _ _ _ Ht Hobs H1' Hc1 He)
    as (lk1 & lk2 & _ & outs2 & status & body & _ & Hs & Ht2 & Hobs2 & Hres).
  assert (lk2 e id = Some v) as Hv.
  { inversion Hs as [? ? id' _| | | | | | |]; subst. destruct Hres as (_ & _ & _ & Hb & _).
    rewrite Hid in Hb. apply id_json_inj in Hb as ->. unfold set_entry. by rewrite decide_True. }
  assert (forall call status body lk4 lk3 outs3, api_trace (server_dispatcher_ s) base prefix entity_ok lk2 es2 outs3 lk3 ->
    api_step (res_body (sv_before e2)) lk3 call status body lk4 -> lk3 e id = Some v) as Hkeep.
  { intros. by eapply api_trace_keeps. }
  split.
  - intros Hc2. destruct (api_trace_middle _ _ _ _ names _ _ _ _ _ _ _ Ht2 Hobs2 H2' Hc2 He)
      as (lk3 & lk4 & outs3 & _ & status' & body' & Ht3 & Hs2 & _ & _ & Hres2).
    specialize (Hkeep _ _ _ _ _ _ Ht3 Hs2). inversion Hs2; subst; congruence.
  - intros v' Hc2. destruct (api_trace_middle _ _ _ _ names _ _ _ _ _ _ _ Ht2 Hobs2 H2' Hc2 He)
      as (lk3 & lk4 & outs3 & _ & status' & body' & Ht3 & Hs2 & _ & _ & Hres2).
    specialize (Hkeep _ _ _ _ _ _ Ht3 Hs2). inversion Hs2 as [? ? id' (_ & Hfree & _)| | | | | | |]; subst.
    destruct Hres2 as (_ & _ & _ & -> & _). intros ->%id_json_inj. congruence.
Qed.

(** C12: the log of the program tells what it served.  The records of a run,
    those of [main] and those of the event loop, reach the two sinks of the
    logger in order; and the metrics among them that are not those of a 401
    are, one for one and in order, the requests that reached the dispatcher,
    each with the name of its handler and the status of its response. *)
Theorem metrics_are_history (l : list log_record) :
  main argv open_file listen_on now = Ok (MainRun (Running s) l) ->
  rtc world_step (initial_world s fs now clients) w ->
  let core := foldl (fun c r => log r c) initial_core (l ++ w_log w) in
  sinks core = sinks (init initial_core) /\ records core = l ++ w_log w /\
  served_metrics (records core) = entry_metric (server_dispatcher_ s) <$> w_history w.
Proof.
  intros Hm Hr core. destruct (main_log_silent _ _ _ _ _ _ Hm) as [Hl Hne].
  assert (core = LogCore true (sinks (init initial_core)) (l ++ w_log w)) as ->.
  { destruct l as [|r l]; [done|]. unfold core. cbn [app foldl]. by rewrite log_once. }
  split_and!; [done..|]. simpl. rewrite served_metrics_app.
  unfold served_metrics at 1. rewrite Hl. simpl.
  apply (runs_audited (argv := argv) (open_file := open_file) (listen_on := listen_on)
    (now := now) (fs := fs) (clients := clients)). split; [by exists l|done].
Qed.
End clients.

(** ** Examples *)

(** A store in which the second of three pairs of shoes has been deleted. *)
Definition gap_store : files :=
  <[("/data/Shoes/1" : str) := ("red" : str)]> (<[("/data/Shoes/3" : str) := ("blue" : str)]> ∅).

Lemma listed_ids_witness :
  is_Some (stored ("/data" ++ "/") gap_store "Shoes" 3) /\
  exists res' body ids,
    API_handleRequest (crud_handler_ := CRUDHandler ("/data" ++ "/")) "/api"
      (Req "GET" "/api/Shoes" 11 [] "" : Request) default_response gap_store = Ok (res', gap_store) /\
    observed res' 200 11 "application/json" body /\ read_ids body = Some ids /\
    forall id, id ∈ ids <->
      (1 <= id)%Z /\ forall j, (1 <= j <= id)%Z -> is_Some (stored ("/data" ++ "/") gap_store "Shoes" j).
Proof.
  split; [eexists; vm_compute; reflexivity|].
  apply (listed_ids (B := record_http) (entity_ok := storage_entity) (lookup := stored ("/data" ++ "/"))
    (fun e He => proj1 He) "/api" "Shoes" 2 (Req "GET" "/api/Shoes" 11 [] "") default_response gap_store).
  - apply shoes_entity.
  - by split.
  - split; [vm_compute; split; discriminate|]. split; [vm_compute; reflexivity|].
    intros i Hi. assert (i = 1%Z) as -> by lia. eexists. vm_compute. reflexivity.
Defined.

Definition bodies_of (w : world (F := files)) : list str := map (fun e => s_body (sv_after e)) (w_history w).

Lemma created_entity_stays_witness : in_api_world (fun s w =>
  forall e1 e2, w_history w = [e1; e2] ->
  (makes_call "/api" (Read "Shoes" 1) (sv_request e2) ->
     observed (sv_after e2) 200 (req_version (sv_request e2)) "application/json" "red") /\
  (forall v', makes_call "/api" (Create "Shoes" v') (sv_request e2) ->
     res_body (sv_after e2) <> id_json 1)).
Proof.
  assert (match api_world with
    | Some (_, w) => bool_decide (bodies_of w = [id_json 1; "red" : str])
    | None => false
    end = true) as Hb by (vm_compute; reflexivity).
  apply in_api_world_intro. intros s w Hw e1 e2 Hh. rewrite Hw in Hb.
  apply bool_decide_eq_true in Hb. unfold bodies_of in Hb. rewrite Hh in Hb. injection Hb as Hb1 Hb2.
  destruct (api_world_history s w Hw) as (e1' & e2' & Hh' & H1 & H2).
  rewrite Hh in Hh'. injection Hh' as <- <-.
  pose proof (api_world_handler s w Hw) as Hd. pose proof (api_world_trace s w Hw) as Ht.
  pose proof (api_world_runs s w Hw) as Hr. clear Hw.
  apply (created_entity_stays ["server" : str; "server.conf"] (fun _ => Some api_conf) (fun _ => None)
    0 s ∅ two_clients w ("/data" ++ "/") "/api" storage_entity (fun e He => proj1 He)
    (fun _ _ => None) shoes_table [Some (200%Z, id_json 1); Some (200%Z, "red" : str)]
    [] [] [] e1 e2 "Shoes" "red" 1).
  - exact Hr.
  - intros e id _. apply empty_store.
  - exact Ht.
  - exact Hh.
  - rewrite H1. apply Hd. by left.
  - rewrite H2. apply Hd. by right.
  - apply shoes_entity.
  - rewrite H1. by split_and!.
  - exact Hb1.
  - by intros x call ?%elem_of_nil.
Defined.

Lemma metrics_are_history_witness :
  match run_api with
  | Ok (MainRun (Running s) l) =>
      match run_events api_events (initial_world s (∅ : files) 0 two_clients) with
      | Some w =>
          let core := foldl (fun c r => log r c) initial_core (l ++ w_log w) in
          sinks core = sinks (init initial_core) /\ records core = l ++ w_log w /\
          served_metrics (records core) = entry_metric (server_dispatcher_ s) <$> w_history w
      | None => False
      end
  | _ => False
  end.
Proof.
  assert (match run_api with
    | Ok (MainRun (Running s) l) =>
        is_some (run_events api_events (initial_world s (∅ : files) 0 two_clients))
    | _ => false end = true) as Hs by (vm_compute; reflexivity).
  destruct run_api as [[[code|s] l]|f] eqn:Hm; [discriminate Hs| |discriminate Hs].
  destruct (run_events _ _) as [w|] eqn:Hw; [|discriminate Hs].
  apply (metrics_are_history ["server" : str; "server.conf"] (fun _ => Some api_conf) (fun _ => None)
    0 s ∅ two_clients w l); [exact Hm|]. eapply run_events_reachable, Hw.
Defined.

(** The metrics of that run. *)
Example api_world_metrics :
  match api_world with Some (_, w) => metrics (w_log w) | None => [] end
  = ["ResponseMetrics: APIHandler 200" : str; "ResponseMetrics: APIHandler 200"].
Proof. vm_compute. reflexivity. Qed.
